(** * Constraint-island discovery (engine_island.c)

    A shallow embedding of the island subsystem: flood fill over a sparse
    adjacency matrix, the Jacobian tree scanner, the edge collector with its
    budget, and the island builder with its arena rollback.

    C [int] values are mathematical integers ([Z]); signed overflow is
    undefined behaviour in C and the sizes involved are assumed to stay in
    range.  Arrays are lists indexed through [rd] and [wr], which fault on an
    index outside the array instead of reading or writing past it.  Calls to
    the engine's unrecoverable-error channel abort the computation. *)

From Stdlib Require Import ZArith Lia Sorted.
From stdpp Require Import base numbers strings option relations list.

Local Open Scope Z_scope.

(** ** Results of fallible computations *)

Inductive fault : Type :=
| mjERROR (msg : string)   (* mjERROR(...): unrecoverable-error channel *)
| OutOfBounds              (* access outside an array *)
| OutOfFuel.               (* iteration bound of a modelled loop exhausted *)

Inductive result (A : Type) : Type :=
| Ok (a : A)
| Err (f : fault).

Arguments Ok {A} a.
Arguments Err {A} f.

Definition bind {A B : Type} (r : result A) (k : A -> result B) : result B :=
  match r with
  | Ok a => k a
  | Err f => Err f
  end.

Notation "x <- r ;; k" := (bind r (fun x => k))
  (at level 100, r at next level, right associativity).

(** ** Arrays of [int] *)

(** [a[i]] as an rvalue. *)
Definition rd (a : list Z) (i : Z) : result Z :=
  if i <? 0 then Err OutOfBounds
  else match a !! Z.to_nat i with
       | Some x => Ok x
       | None => Err OutOfBounds
       end.

(** [a[i] = x]. *)
Definition wr (a : list Z) (i x : Z) : result (list Z) :=
  if (0 <=? i) && (i <? Z.of_nat (length a))
  then Ok (<[Z.to_nat i := x]> a)
  else Err OutOfBounds.

(** [memcpy(dst + doff, src + soff, n*sizeof(int))]. *)
Definition memcpy_int (dst : list Z) (doff : Z) (src : list Z) (soff n : Z)
  : result (list Z) :=
  if (0 <=? doff) && (0 <=? soff) && (0 <=? n)
     && (doff + n <=? Z.of_nat (length dst))
     && (soff + n <=? Z.of_nat (length src))
  then Ok (take (Z.to_nat doff) dst
             ++ take (Z.to_nat n) (drop (Z.to_nat soff) src)
             ++ drop (Z.to_nat (doff + n)) dst)
  else Err OutOfBounds.

(** ** Model and data *)

(** Modelled from the spec: the enumerators of [mjtConstraint] and [mjtEq]
    are declared in mujoco/mjdata.h and mujoco/mjmodel.h, which are not part
    of the sources; the code only compares them for equality. *)
Definition mjCNSTR_EQUALITY : Z := 0.
Definition mjCNSTR_FRICTION_DOF : Z := 1.
Definition mjCNSTR_FRICTION_TENDON : Z := 2.
Definition mjCNSTR_LIMIT_JOINT : Z := 3.
Definition mjCNSTR_LIMIT_TENDON : Z := 4.
Definition mjCNSTR_CONTACT_FRICTIONLESS : Z := 5.
Definition mjCNSTR_CONTACT_PYRAMIDAL : Z := 6.
Definition mjCNSTR_CONTACT_ELLIPTIC : Z := 7.

Definition mjEQ_CONNECT : Z := 0.
Definition mjEQ_WELD : Z := 1.

Record mjContact : Type := {
  geom1 : Z;
  geom2 : Z
}.

(** The fields of [mjModel] that the island code reads.  [jacobian_sparse]
    stands for the answer of [mj_isSparse(m)]; real-valued fields keep only
    what the code tests, whether the value is zero. *)
Record mjModel : Type := {
  nv : Z;
  ntree : Z;
  ntendon : Z;
  jacobian_sparse : bool;
  tendon_frictionloss : list Z;
  tendon_limited : list Z;
  tendon_num : list Z;
  dof_treeid : list Z;
  body_treeid : list Z;
  geom_bodyid : list Z;
  jnt_dofadr : list Z;
  eq_type : list Z;
  eq_obj1id : list Z;
  eq_obj2id : list Z
}.

(** A warning record: kind and the integer it carries. *)
Inductive mjtWarning : Type := mjWARN_CNSTRFULL.

(** The fields of [mjData] that the island code reads or writes.  An arena
    output pointer is [None] when it is NULL and holds the array it points to
    otherwise.  [arena_raw] is the content an allocation finds in the buffer
    before anything is written to it. *)
Record mjData : Type := {
  nefc : Z;
  ncon : Z;
  ne : Z;
  nf : Z;
  efc_type : list Z;
  efc_id : list Z;
  efc_J_rownnz : list Z;
  efc_J_rowadr : list Z;
  efc_J_colind : list Z;
  efc_J : list Z;
  contact : list mjContact;
  nstack : Z;
  pstack : Z;
  parena : Z;
  arena_raw : nat -> Z;
  warnings : list (mjtWarning * Z);
  nisland : Z;
  island_dofadr : option (list Z);
  dof_island : option (list Z);
  dof_islandnext : option (list Z);
  island_efcadr : option (list Z);
  efc_island : option (list Z);
  efc_islandnext : option (list Z)
}.

Definition mj_isSparse (m : mjModel) : bool := jacobian_sparse m.

(** [contact[i].geom1] and [contact[i].geom2]. *)
Definition rd_contact (c : list mjContact) (i : Z) : result mjContact :=
  if i <? 0 then Err OutOfBounds
  else match c !! Z.to_nat i with
       | Some x => Ok x
       | None => Err OutOfBounds
       end.

(** ** countMaxEdge *)

(** The loop over tendons, [i] running from [ntendon - n] upwards. *)
Fixpoint countMaxEdge_tendons (m : mjModel) (n : nat) (i : Z) (nedge_max : Z)
  : result Z :=
  match n with
  | O => Ok nedge_max
  | S n' =>
      fl <- rd (tendon_frictionloss m) i ;;
      x <- (if fl =? 0 then Ok nedge_max
            else (k <- rd (tendon_num m) i ;; Ok (nedge_max + k))) ;;
      lim <- rd (tendon_limited m) i ;;
      y <- (if lim =? 0 then Ok x
            else (k <- rd (tendon_num m) i ;; Ok (x + k))) ;;
      countMaxEdge_tendons m n' (i + 1) y
  end.

Definition countMaxEdge (m : mjModel) (d : mjData) : result Z :=
  let nedge_max := 0 in
  let nedge_max := nedge_max + 2 * ncon d in
  let nedge_max := nedge_max + 2 * ne d in
  let nedge_max := nedge_max + nf d in
  countMaxEdge_tendons m (Z.to_nat (ntendon m)) 0 nedge_max.

(** ** treeNext *)

(** Sparse scan: [for (j = j0; j < rownnz; j++)], [n] iterations left. *)
Fixpoint treeNext_sparse (m : mjModel) (d : mjData) (adr tree : Z)
    (n : nat) (j : Z) : result (Z * Z) :=
  match n with
  | O => Ok (-1, j)
  | S n' =>
      c <- rd (efc_J_colind d) (adr + j) ;;
      tree_j <- rd (dof_treeid m) c ;;
      if tree_j =? tree
      then treeNext_sparse m d adr tree n' (j + 1)
      else Ok (tree_j, j)
  end.

(** Dense scan: [for (j = j0; j < nv; j++)], [n] iterations left. *)
Fixpoint treeNext_dense (m : mjModel) (d : mjData) (i tree : Z)
    (n : nat) (j : Z) : result (Z * Z) :=
  match n with
  | O => Ok (-1, j)
  | S n' =>
      x <- rd (efc_J d) (nv m * i + j) ;;
      if x =? 0
      then treeNext_dense m d i tree n' (j + 1)
      else
        tree_j <- rd (dof_treeid m) j ;;
        if tree_j =? tree
        then treeNext_dense m d i tree n' (j + 1)
        else Ok (tree_j, j)
  end.

(** [treeNext(m, d, tree, i, index)]: [index] is [None] for a NULL pointer
    and [Some j0] for a pointer to a cell holding [j0].  The result pairs the
    returned tree with the final content of that cell. *)
Definition treeNext (m : mjModel) (d : mjData) (tree i : Z) (index : option Z)
  : result (Z * option Z) :=
  let j0 := match index with Some j => j | None => 0 end in
  r <- (if mj_isSparse m
        then
          rownnz <- rd (efc_J_rownnz d) i ;;
          adr <- rd (efc_J_rowadr d) i ;;
          treeNext_sparse m d adr tree (Z.to_nat (rownnz - j0)) j0
        else
          treeNext_dense m d i tree (Z.to_nat (nv m - j0)) j0) ;;
  let '(tree_next, j) := r in
  Ok (tree_next, match index with Some _ => Some j | None => None end).

(** ** addEdge *)

Definition addEdge (treenedge edge : list Z) (nedge tree1 tree2 nedge_max : Z)
  : result (list Z * list Z * Z) :=
  if (tree1 =? -1) && (tree2 =? -1)
  then Err (mjERROR "self-edge of the static tree")
  else
    let tree1 := if tree1 =? -1 then tree2 else tree1 in
    let tree2 := if tree2 =? -1 then tree1 else tree2 in
    p1 <- (if nedge =? 0 then Ok (-1) else rd edge (2 * nedge - 2)) ;;
    p2 <- (if nedge =? 0 then Ok (-1) else rd edge (2 * nedge - 1)) ;;
    if tree1 =? tree2
    then
      if negb (nedge =? 0) && (tree1 =? p1) && (tree1 =? p2)
      then Ok (treenedge, edge, nedge)
      else if nedge >=? nedge_max
      then Err (mjERROR "edge array too small")
      else
        edge <- wr edge (2 * nedge + 0) tree1 ;;
        edge <- wr edge (2 * nedge + 1) tree1 ;;
        c <- rd treenedge tree1 ;;
        treenedge <- wr treenedge tree1 (c + 1) ;;
        Ok (treenedge, edge, nedge + 1)
    else
      if negb (nedge =? 0)
         && (((tree1 =? p1) && (tree2 =? p2)) || ((tree1 =? p2) && (tree2 =? p1)))
      then Ok (treenedge, edge, nedge)
      else if nedge + 2 >? nedge_max
      then Err (mjERROR "edge array too small")
      else
        edge <- wr edge (2 * nedge + 0) tree1 ;;
        edge <- wr edge (2 * nedge + 1) tree2 ;;
        edge <- wr edge (2 * nedge + 2) tree2 ;;
        edge <- wr edge (2 * nedge + 3) tree1 ;;
        c1 <- rd treenedge tree1 ;;
        treenedge <- wr treenedge tree1 (c1 + 1) ;;
        c2 <- rd treenedge tree2 ;;
        treenedge <- wr treenedge tree2 (c2 + 1) ;;
        Ok (treenedge, edge, nedge + 2).

(** ** findEdges *)

(** [memset(a, 0, n*sizeof(int))]. *)
Definition memset_zero (a : list Z) (n : Z) : result (list Z) :=
  if (0 <=? n) && (n <=? Z.of_nat (length a))
  then Ok (replicate (Z.to_nat n) 0 ++ drop (Z.to_nat n) a)
  else Err OutOfBounds.

(** Content of the cell behind [&index] after a call that was given it. *)
Definition cell (old : Z) (o : option Z) : Z :=
  match o with Some j => j | None => old end.

(** Number of positions a scan of row [i] can visit. *)
Definition row_limit (m : mjModel) (d : mjData) (i : Z) : Z :=
  if mj_isSparse m
  then match rd (efc_J_rownnz d) i with Ok n => n | Err _ => 0 end
  else nv m.

(** The collector's accumulators: [treenedge], [edge], [nedge]. *)
Definition edges : Type := (list Z * list Z * Z)%type.

(** [while (tree3 > -1 && tree3 != tree2) { ... }] of the generic case. *)
Fixpoint findEdges_chain (fuel : nat) (m : mjModel) (d : mjData) (i nedge_max : Z)
    (st : edges) (tree2 tree3 index : Z) : result edges :=
  match fuel with
  | O => Err OutOfFuel
  | S fuel' =>
      if (tree3 >? -1) && negb (tree3 =? tree2)
      then
        let tree1 := tree2 in
        let tree2 := tree3 in
        let '(treenedge, edge, nedge) := st in
        st <- addEdge treenedge edge nedge tree1 tree2 nedge_max ;;
        r <- treeNext m d tree2 i (Some index) ;;
        findEdges_chain fuel' m d i nedge_max st tree2 (fst r) (cell index (snd r))
      else Ok st
  end.

(** The generic case of the loop body: scan the Jacobian row [i]. *)
Definition findEdges_generic (m : mjModel) (d : mjData) (i nedge_max : Z)
    (st : edges) : result edges :=
  let '(treenedge, edge, nedge) := st in
  let index := 0 in
  r <- treeNext m d (-1) i (Some index) ;;
  let tree1 := fst r in
  let index := cell index (snd r) in
  r <- treeNext m d tree1 i (Some index) ;;
  let tree2 := fst r in
  let index := cell index (snd r) in
  if tree2 =? -1
  then addEdge treenedge edge nedge tree1 tree1 nedge_max
  else
    st <- addEdge treenedge edge nedge tree1 tree2 nedge_max ;;
    r <- treeNext m d tree2 i (Some index) ;;
    findEdges_chain (S (Z.to_nat (row_limit m d i))) m d i nedge_max st
      tree2 (fst r) (cell index (snd r)).

(** The part of the loop body after the same-constraint test, with
    [efc_type] and [efc_id] already updated to those of row [i]. *)
Definition findEdges_row (m : mjModel) (d : mjData) (i nedge_max : Z)
    (efc_type efc_id : Z) (st : edges) : result edges :=
  let '(treenedge, edge, nedge) := st in
  if efc_type =? mjCNSTR_FRICTION_DOF
  then
    tree1 <- rd (dof_treeid m) efc_id ;;
    addEdge treenedge edge nedge tree1 tree1 nedge_max
  else if efc_type =? mjCNSTR_LIMIT_JOINT
  then
    a <- rd (jnt_dofadr m) efc_id ;;
    tree1 <- rd (dof_treeid m) a ;;
    addEdge treenedge edge nedge tree1 tree1 nedge_max
  else if (efc_type =? mjCNSTR_CONTACT_FRICTIONLESS)
          || (efc_type =? mjCNSTR_CONTACT_PYRAMIDAL)
          || (efc_type =? mjCNSTR_CONTACT_ELLIPTIC)
  then
    c <- rd_contact (contact d) efc_id ;;
    b1 <- rd (geom_bodyid m) (geom1 c) ;;
    tree1 <- rd (body_treeid m) b1 ;;
    b2 <- rd (geom_bodyid m) (geom2 c) ;;
    tree2 <- rd (body_treeid m) b2 ;;
    addEdge treenedge edge nedge tree1 tree2 nedge_max
  else
    fast <- (if efc_type =? mjCNSTR_EQUALITY
             then
               eq_type <- rd (eq_type m) efc_id ;;
               Ok ((eq_type =? mjEQ_CONNECT) || (eq_type =? mjEQ_WELD))
             else Ok false) ;;
    if (fast : bool)
    then
      o1 <- rd (eq_obj1id m) efc_id ;;
      tree1 <- rd (body_treeid m) o1 ;;
      o2 <- rd (eq_obj2id m) efc_id ;;
      tree2 <- rd (body_treeid m) o2 ;;
      addEdge treenedge edge nedge tree1 tree2 nedge_max
    else findEdges_generic m d i nedge_max st.

(** [for (int i=0; i < nefc; i++)], [n] iterations left; [ptype] and [pid]
    are the locals [efc_type] and [efc_id] of the source, the type and id of
    the previous constraint. *)
Fixpoint findEdges_loop (m : mjModel) (d : mjData) (nedge_max : Z) (n : nat)
    (i ptype pid : Z) (st : edges) : result edges :=
  match n with
  | O => Ok st
  | S n' =>
      ty <- rd (efc_type d) i ;;
      same <- (if ptype =? ty
               then (id <- rd (efc_id d) i ;; Ok (pid =? id))
               else Ok false) ;;
      if (same : bool)
      then findEdges_loop m d nedge_max n' (i + 1) ptype pid st
      else
        id <- rd (efc_id d) i ;;
        st <- findEdges_row m d i nedge_max ty id st ;;
        findEdges_loop m d nedge_max n' (i + 1) ty id st
  end.

Definition findEdges (m : mjModel) (d : mjData) (treenedge edge : list Z)
    (nedge_max : Z) : result edges :=
  let nefc := nefc d in
  treenedge <- memset_zero treenedge (ntree m) ;;
  let nedge := 0 in
  findEdges_loop m d nedge_max (Z.to_nat nefc) 0 (-1) (-1)
    (treenedge, edge, nedge).

(** ** mj_floodFill *)

(** [for (; i < i + n; i++) a[i] = x]. *)
Fixpoint fill (a : list Z) (n : nat) (i x : Z) : result (list Z) :=
  match n with
  | O => Ok a
  | S n' => a <- wr a i x ;; fill a n' (i + 1) x
  end.

(** [while (nstack) { ... }]: the traversal of one island. *)
Fixpoint floodFill_dfs (fuel : nat) (rownnz rowadr colind : list Z)
    (nisland : Z) (island stack : list Z) (nstack : Z)
  : result (list Z * list Z) :=
  match fuel with
  | O => Err OutOfFuel
  | S fuel' =>
      if nstack =? 0 then Ok (island, stack)
      else
        let nstack := nstack - 1 in
        v <- rd stack nstack ;;
        iv <- rd island v ;;
        if negb (iv =? -1)
        then floodFill_dfs fuel' rownnz rowadr colind nisland island stack nstack
        else
          island <- wr island v nisland ;;
          adr <- rd rowadr v ;;
          n <- rd rownnz v ;;
          stack <- memcpy_int stack nstack colind adr n ;;
          floodFill_dfs fuel' rownnz rowadr colind nisland island stack (nstack + n)
  end.

(** Iterations that the traversal of one island can take at most: every
    iteration either shortens the stack or labels a fresh vertex. *)
Definition dfs_fuel (island stack : list Z) : nat :=
  S (S (length island * S (length stack))).

(** [for (int i=0; i < nr; i++)] over the vertices, [n] iterations left. *)
Fixpoint floodFill_loop (n : nat) (i : Z) (rownnz rowadr colind : list Z)
    (nisland : Z) (island stack : list Z) : result (Z * list Z * list Z) :=
  match n with
  | O => Ok (nisland, island, stack)
  | S n' =>
      ii <- rd island i ;;
      skip <- (if negb (ii =? -1) then Ok true
               else (nz <- rd rownnz i ;; Ok (nz =? 0))) ;;
      if (skip : bool)
      then floodFill_loop n' (i + 1) rownnz rowadr colind nisland island stack
      else
        let nstack := 0 in
        stack <- wr stack nstack i ;;
        let nstack := nstack + 1 in
        r <- floodFill_dfs (dfs_fuel island stack) rownnz rowadr colind
               nisland island stack nstack ;;
        let '(island, stack) := r in
        floodFill_loop n' (i + 1) rownnz rowadr colind (nisland + 1) island stack
  end.

(** Returns the island count with the final [island] and [stack] arrays. *)
Definition mj_floodFill (island : list Z) (nr : Z)
    (rownnz rowadr colind stack : list Z) : result (Z * list Z * list Z) :=
  let nisland := 0 in
  island <- fill island (Z.to_nat nr) 0 (-1) ;;
  floodFill_loop (Z.to_nat nr) 0 rownnz rowadr colind nisland island stack.

(** ** Field updates of [mjData] *)

Definition set_nefc (d : mjData) (x : Z) : mjData :=
  {| nefc := x;
     ncon := ncon d;
     ne := ne d;
     nf := nf d;
     efc_type := efc_type d;
     efc_id := efc_id d;
     efc_J_rownnz := efc_J_rownnz d;
     efc_J_rowadr := efc_J_rowadr d;
     efc_J_colind := efc_J_colind d;
     efc_J := efc_J d;
     contact := contact d;
     nstack := nstack d;
     pstack := pstack d;
     parena := parena d;
     arena_raw := arena_raw d;
     warnings := warnings d;
     nisland := nisland d;
     island_dofadr := island_dofadr d;
     dof_island := dof_island d;
     dof_islandnext := dof_islandnext d;
     island_efcadr := island_efcadr d;
     efc_island := efc_island d;
     efc_islandnext := efc_islandnext d |}.

Definition set_pstack (d : mjData) (x : Z) : mjData :=
  {| nefc := nefc d;
     ncon := ncon d;
     ne := ne d;
     nf := nf d;
     efc_type := efc_type d;
     efc_id := efc_id d;
     efc_J_rownnz := efc_J_rownnz d;
     efc_J_rowadr := efc_J_rowadr d;
     efc_J_colind := efc_J_colind d;
     efc_J := efc_J d;
     contact := contact d;
     nstack := nstack d;
     pstack := x;
     parena := parena d;
     arena_raw := arena_raw d;
     warnings := warnings d;
     nisland := nisland d;
     island_dofadr := island_dofadr d;
     dof_island := dof_island d;
     dof_islandnext := dof_islandnext d;
     island_efcadr := island_efcadr d;
     efc_island := efc_island d;
     efc_islandnext := efc_islandnext d |}.

Definition set_parena (d : mjData) (x : Z) : mjData :=
  {| nefc := nefc d;
     ncon := ncon d;
     ne := ne d;
     nf := nf d;
     efc_type := efc_type d;
     efc_id := efc_id d;
     efc_J_rownnz := efc_J_rownnz d;
     efc_J_rowadr := efc_J_rowadr d;
     efc_J_colind := efc_J_colind d;
     efc_J := efc_J d;
     contact := contact d;
     nstack := nstack d;
     pstack := pstack d;
     parena := x;
     arena_raw := arena_raw d;
     warnings := warnings d;
     nisland := nisland d;
     island_dofadr := island_dofadr d;
     dof_island := dof_island d;
     dof_islandnext := dof_islandnext d;
     island_efcadr := island_efcadr d;
     efc_island := efc_island d;
     efc_islandnext := efc_islandnext d |}.

Definition set_warnings (d : mjData) (x : list (mjtWarning * Z)) : mjData :=
  {| nefc := nefc d;
     ncon := ncon d;
     ne := ne d;
     nf := nf d;
     efc_type := efc_type d;
     efc_id := efc_id d;
     efc_J_rownnz := efc_J_rownnz d;
     efc_J_rowadr := efc_J_rowadr d;
     efc_J_colind := efc_J_colind d;
     efc_J := efc_J d;
     contact := contact d;
     nstack := nstack d;
     pstack := pstack d;
     parena := parena d;
     arena_raw := arena_raw d;
     warnings := x;
     nisland := nisland d;
     island_dofadr := island_dofadr d;
     dof_island := dof_island d;
     dof_islandnext := dof_islandnext d;
     island_efcadr := island_efcadr d;
     efc_island := efc_island d;
     efc_islandnext := efc_islandnext d |}.

Definition set_nisland (d : mjData) (x : Z) : mjData :=
  {| nefc := nefc d;
     ncon := ncon d;
     ne := ne d;
     nf := nf d;
     efc_type := efc_type d;
     efc_id := efc_id d;
     efc_J_rownnz := efc_J_rownnz d;
     efc_J_rowadr := efc_J_rowadr d;
     efc_J_colind := efc_J_colind d;
     efc_J := efc_J d;
     contact := contact d;
     nstack := nstack d;
     pstack := pstack d;
     parena := parena d;
     arena_raw := arena_raw d;
     warnings := warnings d;
     nisland := x;
     island_dofadr := island_dofadr d;
     dof_island := dof_island d;
     dof_islandnext := dof_islandnext d;
     island_efcadr := island_efcadr d;
     efc_island := efc_island d;
     efc_islandnext := efc_islandnext d |}.

Definition set_island_dofadr (d : mjData) (x : option (list Z)) : mjData :=
  {| nefc := nefc d;
     ncon := ncon d;
     ne := ne d;
     nf := nf d;
     efc_type := efc_type d;
     efc_id := efc_id d;
     efc_J_rownnz := efc_J_rownnz d;
     efc_J_rowadr := efc_J_rowadr d;
     efc_J_colind := efc_J_colind d;
     efc_J := efc_J d;
     contact := contact d;
     nstack := nstack d;
     pstack := pstack d;
     parena := parena d;
     arena_raw := arena_raw d;
     warnings := warnings d;
     nisland := nisland d;
     island_dofadr := x;
     dof_island := dof_island d;
     dof_islandnext := dof_islandnext d;
     island_efcadr := island_efcadr d;
     efc_island := efc_island d;
     efc_islandnext := efc_islandnext d |}.

Definition set_dof_island (d : mjData) (x : option (list Z)) : mjData :=
  {| nefc := nefc d;
     ncon := ncon d;
     ne := ne d;
     nf := nf d;
     efc_type := efc_type d;
     efc_id := efc_id d;
     efc_J_rownnz := efc_J_rownnz d;
     efc_J_rowadr := efc_J_rowadr d;
     efc_J_colind := efc_J_colind d;
     efc_J := efc_J d;
     contact := contact d;
     nstack := nstack d;
     pstack := pstack d;
     parena := parena d;
     arena_raw := arena_raw d;
     warnings := warnings d;
     nisland := nisland d;
     island_dofadr := island_dofadr d;
     dof_island := x;
     dof_islandnext := dof_islandnext d;
     island_efcadr := island_efcadr d;
     efc_island := efc_island d;
     efc_islandnext := efc_islandnext d |}.

Definition set_dof_islandnext (d : mjData) (x : option (list Z)) : mjData :=
  {| nefc := nefc d;
     ncon := ncon d;
     ne := ne d;
     nf := nf d;
     efc_type := efc_type d;
     efc_id := efc_id d;
     efc_J_rownnz := efc_J_rownnz d;
     efc_J_rowadr := efc_J_rowadr d;
     efc_J_colind := efc_J_colind d;
     efc_J := efc_J d;
     contact := contact d;
     nstack := nstack d;
     pstack := pstack d;
     parena := parena d;
     arena_raw := arena_raw d;
     warnings := warnings d;
     nisland := nisland d;
     island_dofadr := island_dofadr d;
     dof_island := dof_island d;
     dof_islandnext := x;
     island_efcadr := island_efcadr d;
     efc_island := efc_island d;
     efc_islandnext := efc_islandnext d |}.

Definition set_island_efcadr (d : mjData) (x : option (list Z)) : mjData :=
  {| nefc := nefc d;
     ncon := ncon d;
     ne := ne d;
     nf := nf d;
     efc_type := efc_type d;
     efc_id := efc_id d;
     efc_J_rownnz := efc_J_rownnz d;
     efc_J_rowadr := efc_J_rowadr d;
     efc_J_colind := efc_J_colind d;
     efc_J := efc_J d;
     contact := contact d;
     nstack := nstack d;
     pstack := pstack d;
     parena := parena d;
     arena_raw := arena_raw d;
     warnings := warnings d;
     nisland := nisland d;
     island_dofadr := island_dofadr d;
     dof_island := dof_island d;
     dof_islandnext := dof_islandnext d;
     island_efcadr := x;
     efc_island := efc_island d;
     efc_islandnext := efc_islandnext d |}.

Definition set_efc_island (d : mjData) (x : option (list Z)) : mjData :=
  {| nefc := nefc d;
     ncon := ncon d;
     ne := ne d;
     nf := nf d;
     efc_type := efc_type d;
     efc_id := efc_id d;
     efc_J_rownnz := efc_J_rownnz d;
     efc_J_rowadr := efc_J_rowadr d;
     efc_J_colind := efc_J_colind d;
     efc_J := efc_J d;
     contact := contact d;
     nstack := nstack d;
     pstack := pstack d;
     parena := parena d;
     arena_raw := arena_raw d;
     warnings := warnings d;
     nisland := nisland d;
     island_dofadr := island_dofadr d;
     dof_island := dof_island d;
     dof_islandnext := dof_islandnext d;
     island_efcadr := island_efcadr d;
     efc_island := x;
     efc_islandnext := efc_islandnext d |}.

Definition set_efc_islandnext (d : mjData) (x : option (list Z)) : mjData :=
  {| nefc := nefc d;
     ncon := ncon d;
     ne := ne d;
     nf := nf d;
     efc_type := efc_type d;
     efc_id := efc_id d;
     efc_J_rownnz := efc_J_rownnz d;
     efc_J_rowadr := efc_J_rowadr d;
     efc_J_colind := efc_J_colind d;
     efc_J := efc_J d;
     contact := contact d;
     nstack := nstack d;
     pstack := pstack d;
     parena := parena d;
     arena_raw := arena_raw d;
     warnings := warnings d;
     nisland := nisland d;
     island_dofadr := island_dofadr d;
     dof_island := dof_island d;
     dof_islandnext := dof_islandnext d;
     island_efcadr := island_efcadr d;
     efc_island := efc_island d;
     efc_islandnext := x |}.

(** ** Arena and stack *)

Definition sizeof_int : Z := 4.
Definition sizeof_mjtNum : Z := 8.

(** Modelled from the spec: [mj_stackAllocInt] of engine_io.c, which is not
    part of the sources.  The stack grows from the top of the buffer in units
    of [mjtNum], two [int]s each, towards the arena that grows from the bottom
    in bytes; running into the arena is an unrecoverable error.  The array
    returned holds what the buffer held there. *)
Definition mj_stackAllocInt (d : mjData) (size : Z) : result (list Z * mjData) :=
  let words := (size + 1) / 2 in
  if (size <? 0)
     || ((pstack d + words) * sizeof_mjtNum + parena d >? nstack d * sizeof_mjtNum)
  then Err (mjERROR "mj_stackAlloc: insufficient memory")
  else
    let top := Z.to_nat (2 * (nstack d - pstack d - words)) in
    Ok (map (arena_raw d) (seq top (Z.to_nat size)), set_pstack d (pstack d + words)).

(** Modelled from the spec: [mj_arenaAlloc] of engine_io.c, which is not part
    of the sources.  A bump allocation of [bytes] bytes at the arena watermark
    [parena], aligned to [alignment]; the result is NULL when the arena would
    run into the stack. *)
Definition mj_arenaAlloc (d : mjData) (bytes alignment : Z)
  : option (list Z) * mjData :=
  let misalignment := parena d mod alignment in
  let padding := if misalignment =? 0 then 0 else alignment - misalignment in
  let bytes_available := nstack d * sizeof_mjtNum - pstack d * sizeof_mjtNum in
  if (bytes <? 0) || (parena d + padding + bytes >? bytes_available)
  then (None, d)
  else
    let base := Z.to_nat ((parena d + padding) / sizeof_int) in
    (Some (map (arena_raw d) (seq base (Z.to_nat (bytes / sizeof_int)))),
     set_parena d (parena d + padding + bytes)).

(** Modelled from the spec: [mj_warning] of engine_util_errmem.c, which is
    not part of the sources; it records the warning kind and the integer it
    carries. *)
Definition mj_warning (d : mjData) (w : mjtWarning) (info : Z) : mjData :=
  set_warnings d (warnings d ++ [(w, info)]).

(** The handles of the island outputs in the arena. *)
Inductive island_ptr : Type :=
| ptr_island_dofadr
| ptr_dof_island
| ptr_dof_islandnext
| ptr_island_efcadr
| ptr_efc_island
| ptr_efc_islandnext.

Definition get_ptr (p : island_ptr) (d : mjData) : option (list Z) :=
  match p with
  | ptr_island_dofadr => island_dofadr d
  | ptr_dof_island => dof_island d
  | ptr_dof_islandnext => dof_islandnext d
  | ptr_island_efcadr => island_efcadr d
  | ptr_efc_island => efc_island d
  | ptr_efc_islandnext => efc_islandnext d
  end.

Definition set_ptr (p : island_ptr) (d : mjData) (x : option (list Z)) : mjData :=
  match p with
  | ptr_island_dofadr => set_island_dofadr d x
  | ptr_dof_island => set_dof_island d x
  | ptr_dof_islandnext => set_dof_islandnext d x
  | ptr_island_efcadr => set_island_efcadr d x
  | ptr_efc_island => set_efc_island d x
  | ptr_efc_islandnext => set_efc_islandnext d x
  end.

(** Modelled from the spec: the X-macro list [MJDATA_ARENA_POINTERS_ISLAND]
    of mujoco/mjxmacro.h, which is not part of the sources: each island
    output with its number of rows and columns. *)
Definition MJDATA_ARENA_POINTERS_ISLAND
  : list (island_ptr * (mjModel -> mjData -> Z) * Z) :=
  [ (ptr_island_dofadr, fun m d => nisland d, 1);
    (ptr_dof_island, fun m d => nv m, 1);
    (ptr_dof_islandnext, fun m d => nv m, 1);
    (ptr_island_efcadr, fun m d => nisland d, 1);
    (ptr_efc_island, fun m d => nefc d, 1);
    (ptr_efc_islandnext, fun m d => nefc d, 1) ].

(** ** clearIsland *)

Definition clearIsland (d : mjData) (parena : Z) : mjData :=
  let d := fold_left (fun d x => set_ptr (fst (fst x)) d None)
             MJDATA_ARENA_POINTERS_ISLAND d in
  let d := set_nefc d 0 in
  let d := set_nisland d 0 in
  set_parena d parena.

(** ** mj_island *)

(** [mjFREESTACK] after [mjMARKSTACK] saved [mark]. *)
Definition mjFREESTACK (d : mjData) (mark : Z) : mjData := set_pstack d mark.

(** The expansion of [X] over [MJDATA_ARENA_POINTERS_ISLAND] in the arena
    allocation phase; the flag tells whether every allocation succeeded, and
    expansion stops at the first that did not. *)
Fixpoint island_arena_alloc (m : mjModel)
    (ptrs : list (island_ptr * (mjModel -> mjData -> Z) * Z))
    (d : mjData) (parena_old mark : Z) : mjData * bool :=
  match ptrs with
  | [] => (d, true)
  | (name, nr, nc) :: rest =>
      let r := mj_arenaAlloc d (sizeof_int * nr m d * nc) sizeof_int in
      let d := set_ptr name (snd r) (fst r) in
      match get_ptr name d with
      | None =>
          let d := mj_warning d mjWARN_CNSTRFULL (nstack d * sizeof_mjtNum) in
          let d := clearIsland d parena_old in
          (mjFREESTACK d mark, false)
      | Some _ => island_arena_alloc m rest d parena_old mark
      end
  end.

(** The arrays threaded by one sweep: island id per element, next links,
    first element per island, last element seen per island, and the number of
    islands found. *)
Record sweep : Type := {
  sw_island : list Z;
  sw_next : list Z;
  sw_adr : list Z;
  sw_last : list Z;
  sw_found : Z
}.

(** The [else] branch shared by both sweeps: append element [i] to the list
    of [island]. *)
Definition island_link (s : sweep) (island i : Z) : result sweep :=
  last <- rd (sw_last s) island ;;
  s <- (if last =? -1
        then
          adr <- wr (sw_adr s) island i ;;
          Ok {| sw_island := sw_island s; sw_next := sw_next s; sw_adr := adr;
                sw_last := sw_last s; sw_found := sw_found s + 1 |}
        else
          next <- wr (sw_next s) last i ;;
          Ok {| sw_island := sw_island s; sw_next := next; sw_adr := sw_adr s;
                sw_last := sw_last s; sw_found := sw_found s |}) ;;
  last <- wr (sw_last s) island i ;;
  Ok {| sw_island := sw_island s; sw_next := sw_next s; sw_adr := sw_adr s;
        sw_last := last; sw_found := sw_found s |}.

(** [for (int i=0; i < nv; i++)]: island_dofadr, dof_island, dof_islandnext. *)
Fixpoint island_dof_loop (m : mjModel) (tree_island : list Z) (n : nat) (i : Z)
    (s : sweep) : result sweep :=
  match n with
  | O => Ok s
  | S n' =>
      t <- rd (dof_treeid m) i ;;
      island <- rd tree_island t ;;
      isl <- wr (sw_island s) i island ;;
      let s := {| sw_island := isl; sw_next := sw_next s; sw_adr := sw_adr s;
                  sw_last := sw_last s; sw_found := sw_found s |} in
      if island =? -1
      then
        next <- wr (sw_next s) i (-1) ;;
        island_dof_loop m tree_island n' (i + 1)
          {| sw_island := sw_island s; sw_next := next; sw_adr := sw_adr s;
             sw_last := sw_last s; sw_found := sw_found s |}
      else
        s <- island_link s island i ;;
        island_dof_loop m tree_island n' (i + 1) s
  end.

(** [for (int i=0; i < nefc; i++)]: island_efcadr, efc_island, efc_islandnext. *)
Fixpoint island_efc_loop (m : mjModel) (d : mjData) (tree_island : list Z)
    (n : nat) (i : Z) (s : sweep) : result sweep :=
  match n with
  | O => Ok s
  | S n' =>
      r <- treeNext m d (-1) i None ;;
      island <- rd tree_island (fst r) ;;
      isl <- wr (sw_island s) i island ;;
      let s := {| sw_island := isl; sw_next := sw_next s; sw_adr := sw_adr s;
                  sw_last := sw_last s; sw_found := sw_found s |} in
      if island =? -1
      then Err (mjERROR "constraint not in any island")
      else
        s <- island_link s island i ;;
        island_efc_loop m d tree_island n' (i + 1) s
  end.

(** [for (int i=0; i < nisland; i++) next[island_last[i]] = -1]. *)
Fixpoint island_finalize (island_last : list Z) (n : nat) (i : Z) (next : list Z)
  : result (list Z) :=
  match n with
  | O => Ok next
  | S n' =>
      last <- rd island_last i ;;
      next <- wr next last (-1) ;;
      island_finalize island_last n' (i + 1) next
  end.

(** A dereferenced arena pointer; NULL has no cell to access. *)
Definition deref (p : option (list Z)) : result (list Z) :=
  match p with
  | Some a => Ok a
  | None => Err OutOfBounds
  end.

(** [rowadr[r] = rowadr[r-1] + rownnz[r-1]; rownnz[r-1] = 0] for [r] from 1. *)
Fixpoint island_rowadr_loop (n : nat) (r : Z) (rowadr rownnz : list Z)
  : result (list Z * list Z) :=
  match n with
  | O => Ok (rowadr, rownnz)
  | S n' =>
      a <- rd rowadr (r - 1) ;;
      c <- rd rownnz (r - 1) ;;
      rowadr <- wr rowadr r (a + c) ;;
      rownnz <- wr rownnz (r - 1) 0 ;;
      island_rowadr_loop n' (r + 1) rowadr rownnz
  end.

(** [colind[rowadr[row] + rownnz[row]++] = col] for every edge record. *)
Fixpoint island_colind_loop (n : nat) (e : Z) (edge rowadr rownnz colind : list Z)
  : result (list Z * list Z) :=
  match n with
  | O => Ok (rownnz, colind)
  | S n' =>
      row <- rd edge (2 * e) ;;
      col <- rd edge (2 * e + 1) ;;
      a <- rd rowadr row ;;
      c <- rd rownnz row ;;
      rownnz <- wr rownnz row (c + 1) ;;
      colind <- wr colind (a + c) col ;;
      island_colind_loop n' (e + 1) edge rowadr rownnz colind
  end.

(** First part of [mj_island], from [countMaxEdge] to [mj_floodFill]: the
    island of every tree, with [nisland] set. *)
Definition mj_island_trees (m : mjModel) (d : mjData) : result (list Z * mjData) :=
  let ntree := ntree m in
  nedge_max <- countMaxEdge m d ;;
  a <- mj_stackAllocInt d (2 * nedge_max) ;;
  let '(edge, d) := a in
  a <- mj_stackAllocInt d ntree ;;
  let '(rownnz, d) := a in
  fe <- findEdges m d rownnz edge nedge_max ;;
  let '(rownnz, edge, nedge) := fe in
  a <- mj_stackAllocInt d ntree ;;
  let '(rowadr, d) := a in
  rowadr <- wr rowadr 0 0 ;;
  ra <- island_rowadr_loop (Z.to_nat (ntree - 1)) 1 rowadr rownnz ;;
  let '(rowadr, rownnz) := ra in
  rownnz <- wr rownnz (ntree - 1) 0 ;;
  a <- mj_stackAllocInt d nedge ;;
  let '(colind, d) := a in
  rc <- island_colind_loop (Z.to_nat nedge) 0 edge rowadr rownnz colind ;;
  let '(rownnz, colind) := rc in
  a <- mj_stackAllocInt d ntree ;;
  let '(tree_island, d) := a in
  a <- mj_stackAllocInt d nedge ;;
  let '(stack, d) := a in
  ff <- mj_floodFill tree_island ntree rownnz rowadr colind stack ;;
  let '(k, tree_island, stack) := ff in
  Ok (tree_island, set_nisland d k).

(** Last part of [mj_island], after the arena allocation: the per-DoF and
    per-constraint tables. *)
Definition mj_island_tables (m : mjModel) (d : mjData) (tree_island : list Z)
    (mark : Z) : result mjData :=
  let nv := nv m in
  let nefc := nefc d in
  a <- mj_stackAllocInt d (nisland d) ;;
  let '(island_last, d) := a in
  island_last <- fill island_last (Z.to_nat (nisland d)) 0 (-1) ;;
  dof_island0 <- deref (dof_island d) ;;
  dof_islandnext0 <- deref (dof_islandnext d) ;;
  island_dofadr0 <- deref (island_dofadr d) ;;
  s <- island_dof_loop m tree_island (Z.to_nat nv) 0
         {| sw_island := dof_island0; sw_next := dof_islandnext0;
            sw_adr := island_dofadr0; sw_last := island_last; sw_found := 0 |} ;;
  if negb (sw_found s =? nisland d)
  then Err (mjERROR "not all islands assigned to dofs")
  else
    dof_next <- island_finalize (sw_last s) (Z.to_nat (nisland d)) 0 (sw_next s) ;;
    let d := set_dof_island d (Some (sw_island s)) in
    let d := set_dof_islandnext d (Some dof_next) in
    let d := set_island_dofadr d (Some (sw_adr s)) in
    island_last <- fill (sw_last s) (Z.to_nat (nisland d)) 0 (-1) ;;
    efc_island0 <- deref (efc_island d) ;;
    efc_islandnext0 <- deref (efc_islandnext d) ;;
    island_efcadr0 <- deref (island_efcadr d) ;;
    s <- island_efc_loop m d tree_island (Z.to_nat nefc) 0
           {| sw_island := efc_island0; sw_next := efc_islandnext0;
              sw_adr := island_efcadr0; sw_last := island_last; sw_found := 0 |} ;;
    if negb (sw_found s =? nisland d)
    then Err (mjERROR "not all islands assigned to constraints")
    else
      efc_next <- island_finalize (sw_last s) (Z.to_nat (nisland d)) 0 (sw_next s) ;;
      let d := set_efc_island d (Some (sw_island s)) in
      let d := set_efc_islandnext d (Some efc_next) in
      let d := set_island_efcadr d (Some (sw_adr s)) in
      Ok (mjFREESTACK d mark).

Definition mj_island (m : mjModel) (d : mjData) : result mjData :=
  if nefc d =? 0
  then Ok (set_nisland d 0)
  else
    let mark := pstack d in
    t <- mj_island_trees m d ;;
    let '(tree_island, d) := t in
    let parena_old := parena d in
    let '(d, ok) :=
      island_arena_alloc m MJDATA_ARENA_POINTERS_ISLAND d parena_old mark in
    if negb ok then Ok d
    else mj_island_tables m d tree_island mark.

(** * Specification vocabulary *)

(** ** Entries of a Jacobian row *)

(** The tree of the DoF stored at position [j] of the sparse row that starts
    at [adr]. *)
Definition sparse_entry (m : mjModel) (d : mjData) (adr j : Z) : result Z :=
  c <- rd (efc_J_colind d) (adr + j) ;;
  rd (dof_treeid m) c.

(** The tree of DoF [j] when the dense row [i] is nonzero there. *)
Definition dense_entry (m : mjModel) (d : mjData) (i j : Z) : result (option Z) :=
  x <- rd (efc_J d) (nv m * i + j) ;;
  if x =? 0 then Ok None
  else (t <- rd (dof_treeid m) j ;; Ok (Some t)).

(** What a scan of row [i] meets at position [j]: a nonzero index in the
    sparse form, a column in the dense form. *)
Definition row_entry (m : mjModel) (d : mjData) (i j : Z) : result (option Z) :=
  if mj_isSparse m
  then
    adr <- rd (efc_J_rowadr d) i ;;
    t <- sparse_entry m d adr j ;;
    Ok (Some t)
  else dense_entry m d i j.

(** Position [p] is the first one at or after [j0] in row [i] that holds a
    tree other than [tree], and that tree is [t]. *)
Definition treeNext_found (m : mjModel) (d : mjData) (tree i j0 t p : Z) : Prop :=
  j0 <= p < row_limit m d i
  /\ row_entry m d i p = Ok (Some t)
  /\ t <> tree
  /\ forall j, j0 <= j < p ->
       row_entry m d i j = Ok None \/ row_entry m d i j = Ok (Some tree).

(** ** Threaded lists *)

(** The indices at which [k] occurs in [labs], the first element of [labs]
    having index [off]; ascending by construction. *)
Fixpoint positions (k off : Z) (labs : list Z) : list Z :=
  match labs with
  | [] => []
  | x :: r =>
      if x =? k then off :: positions k (off + 1) r
      else positions k (off + 1) r
  end.

(** Following [next] from [i] until the sentinel [-1] visits exactly [l]. *)
Inductive walk (next : list Z) : Z -> list Z -> Prop :=
| walk_end : walk next (-1) []
| walk_step (i j : Z) (l : list Z) :
    i <> -1 -> rd next i = Ok j -> walk next j l -> walk next i (i :: l).

(** Every element of [l] but the last points to its successor in [l]. *)
Definition linked (next l : list Z) : Prop :=
  forall (n : nat) (a b : Z),
    l !! n = Some a -> l !! S n = Some b -> rd next a = Ok b.

(** The number of islands below [K] that occur in [labs]. *)
Definition found_count (K : nat) (labs : list Z) : nat :=
  length (filter (fun k => positions k 0 labs <> []) (seqZ 0 (Z.of_nat K))).

(** State of a sweep after the elements labelled [labs] have been visited,
    over [N] elements and [K] islands. *)
Record sweep_inv (K N : nat) (labs : list Z) (s : sweep) : Prop := {
  inv_len_island : length (sw_island s) = N;
  inv_len_next : length (sw_next s) = N;
  inv_len_adr : length (sw_adr s) = K;
  inv_len_last : length (sw_last s) = K;
  inv_labs : take (length labs) (sw_island s) = labs;
  inv_bound : (length labs <= N)%nat;
  inv_range : forall x, x ∈ labs -> x = -1 \/ 0 <= x < Z.of_nat K;
  inv_found : sw_found s = Z.of_nat (found_count K labs);
  inv_free : forall j, 0 <= j -> labs !! Z.to_nat j = Some (-1) -> rd (sw_next s) j = Ok (-1);
  inv_lists : forall k, 0 <= k < Z.of_nat K ->
      match last (positions k 0 labs) with
      | None => rd (sw_last s) k = Ok (-1)
      | Some x =>
          rd (sw_last s) k = Ok x
          /\ sw_adr s !! Z.to_nat k = head (positions k 0 labs)
          /\ linked (sw_next s) (positions k 0 labs)
      end
}.

(** State of the finalisation loop after the tails of the islands below [i]
    have been closed. *)
Definition finalize_inv (K : Z) (N : nat) (labs : list Z) (i : Z) (next : list Z)
  : Prop :=
  length next = N
  /\ (forall k, 0 <= k < K -> linked next (positions k 0 labs))
  /\ (forall k x, 0 <= k < i -> last (positions k 0 labs) = Some x ->
        rd next x = Ok (-1))
  /\ (forall j, 0 <= j -> labs !! Z.to_nat j = Some (-1) -> rd next j = Ok (-1)).

(** The tables of one kind of element: for every island [k] below [K],
    following [next] from [adr[k]] visits the elements labelled [k] in [isl],
    in ascending order. *)
Definition threaded (K : Z) (isl next adr : list Z) : Prop :=
  forall k, 0 <= k < K ->
    exists h, rd adr k = Ok h /\ walk next h (positions k 0 isl).

(** Elements outside every island have no successor. *)
Definition unthreaded (isl next : list Z) : Prop :=
  forall j, rd isl j = Ok (-1) -> rd next j = Ok (-1).

(** [l] lists, in strictly ascending order, exactly the elements that [isl]
    assigns to island [k]. *)
Definition island_members (isl : list Z) (k : Z) (l : list Z) : Prop :=
  StronglySorted Z.lt l /\ forall i, i ∈ l <-> rd isl i = Ok k.

(** ** Frames *)

(** [d] with the arena watermark and the six island output handles replaced. *)
Definition with_islands (d : mjData) (pa : Z)
    (a1 a2 a3 a4 a5 a6 : option (list Z)) : mjData :=
  {| nefc := nefc d;
     ncon := ncon d;
     ne := ne d;
     nf := nf d;
     efc_type := efc_type d;
     efc_id := efc_id d;
     efc_J_rownnz := efc_J_rownnz d;
     efc_J_rowadr := efc_J_rowadr d;
     efc_J_colind := efc_J_colind d;
     efc_J := efc_J d;
     contact := contact d;
     nstack := nstack d;
     pstack := pstack d;
     parena := pa;
     arena_raw := arena_raw d;
     warnings := warnings d;
     nisland := nisland d;
     island_dofadr := a1;
     dof_island := a2;
     dof_islandnext := a3;
     island_efcadr := a4;
     efc_island := a5;
     efc_islandnext := a6 |}.

(** Two data contexts with the same Jacobian. *)
Definition same_jacobian (d d' : mjData) : Prop :=
  efc_J_rownnz d = efc_J_rownnz d'
  /\ efc_J_rowadr d = efc_J_rowadr d'
  /\ efc_J_colind d = efc_J_colind d'
  /\ efc_J d = efc_J d'.

(** ** Graphs in compressed sparse row form *)

(** [a[i]], or zero outside the array. *)
Definition get (a : list Z) (i : Z) : Z :=
  match rd a i with Ok x => x | Err _ => 0 end.

(** The column indices of row [v]. *)
Definition csr_row (rownnz rowadr colind : list Z) (v : Z) : list Z :=
  take (Z.to_nat (get rownnz v)) (drop (Z.to_nat (get rowadr v)) colind).

(** [v] is listed in row [u] of the matrix. *)
Definition csr_adj (nr : Z) (rownnz rowadr colind : list Z) (u v : Z) : Prop :=
  0 <= u < nr /\ v ∈ csr_row rownnz rowadr colind u.

(** A symmetric adjacency matrix over [nr] vertices: every row lies inside
    [colind], every column index is a vertex, and [v] is listed in row [u]
    whenever [u] is listed in row [v]. *)
Record csr_valid (nr : Z) (rownnz rowadr colind : list Z) : Prop := {
  csr_nr : 0 <= nr;
  csr_len_rownnz : nr <= Z.of_nat (length rownnz);
  csr_len_rowadr : nr <= Z.of_nat (length rowadr);
  csr_row_bounds : forall v, 0 <= v < nr ->
      0 <= get rownnz v /\ 0 <= get rowadr v
      /\ get rowadr v + get rownnz v <= Z.of_nat (length colind);
  csr_col_range : forall u v, csr_adj nr rownnz rowadr colind u v -> 0 <= v < nr;
  csr_symmetric : forall u v,
      csr_adj nr rownnz rowadr colind u v -> csr_adj nr rownnz rowadr colind v u
}.

(** Sum of [f] over a list of vertices. *)
Definition vsum (f : Z -> Z) (vs : list Z) : Z :=
  foldr (fun v acc => f v + acc) 0 vs.

(** The total number of nonzeros. *)
Definition csr_nnz (nr : Z) (rownnz : list Z) : Z :=
  vsum (get rownnz) (seqZ 0 nr).

(** Two vertices are in the same connected component. *)
Definition csr_connected (nr : Z) (rownnz rowadr colind : list Z) : Z -> Z -> Prop :=
  rtc (csr_adj nr rownnz rowadr colind).

(** The nonzeros of the rows of the vertices not yet labelled. *)
Definition unlabelled_nnz (nr : Z) (rownnz island : list Z) : Z :=
  vsum (fun v => if get island v =? -1 then get rownnz v else 0) (seqZ 0 nr).

(** Islands are numbered in the order of their least vertex: a vertex in
    island [c] comes after some vertex of every island below [c]. *)
Definition islands_ordered (island : list Z) (k : Z) : Prop :=
  (forall v c, rd island v = Ok c -> 0 <= c ->
     forall c', 0 <= c' < c -> exists u, u < v /\ rd island u = Ok c')
  /\ (forall c, 0 <= c < k -> exists v, rd island v = Ok c).

(** What [mj_floodFill] promises about the island array and count it
    returns. *)
Record floodFill_spec (nr : Z) (rownnz rowadr colind island : list Z) (k : Z)
  : Prop := {
  ff_length : Z.of_nat (length island) = nr;
  ff_count : 0 <= k;
  ff_isolated : forall v, 0 <= v < nr ->
      (rd island v = Ok (-1) <-> get rownnz v = 0);
  ff_range : forall v, 0 <= v < nr -> get rownnz v <> 0 ->
      exists c, rd island v = Ok c /\ 0 <= c < k;
  ff_component : forall u v, 0 <= u < nr -> 0 <= v < nr ->
      get rownnz u <> 0 -> get rownnz v <> 0 ->
      (get island u = get island v <-> csr_connected nr rownnz rowadr colind u v);
  ff_ordered : islands_ordered island k
}.

(** Number of unlabelled cells. *)
Definition unlabelled_count (island : list Z) : nat :=
  length (filter (fun x => x = -1) island).

(** State of the traversal of island [c], started at vertex [i0], with
    [nstack] live cells on the stack. *)
Record dfs_inv (nr : Z) (rownnz rowadr colind : list Z) (c i0 : Z)
    (island stack : list Z) (nstack : Z) : Prop := {
  dfs_len : Z.of_nat (length island) = nr;
  dfs_stack_bound : 0 <= nstack <= Z.of_nat (length stack);
  dfs_range : forall v, 0 <= v < nr -> get island v = -1 \/ 0 <= get island v <= c;
  dfs_before : forall v, 0 <= v < i0 -> 0 <= get island v < c \/ get rownnz v = 0;
  dfs_isolated : forall v, 0 <= v < nr -> get rownnz v = 0 -> get island v = -1;
  dfs_old_closed : forall u v, csr_adj nr rownnz rowadr colind u v ->
      0 <= get island u < c -> get island v = get island u;
  dfs_new_pending : forall u v, csr_adj nr rownnz rowadr colind u v ->
      get island u = c ->
      get island v = c \/ v ∈ take (Z.to_nat nstack) stack;
  dfs_stack_elems : forall v, v ∈ take (Z.to_nat nstack) stack ->
      0 <= v < nr /\ get rownnz v <> 0
      /\ (get island v = -1 \/ get island v = c)
      /\ csr_connected nr rownnz rowadr colind i0 v;
  dfs_new_conn : forall v, 0 <= v < nr -> get island v = c ->
      csr_connected nr rownnz rowadr colind i0 v /\ i0 <= v /\ get rownnz v <> 0;
  dfs_root : get island i0 = c \/ i0 ∈ take (Z.to_nat nstack) stack;
  dfs_capacity : nstack + unlabelled_nnz nr rownnz island <= csr_nnz nr rownnz + 1
}.

(** What a traversal leaves alone: labelled vertices keep their label, and a
    label that changed is the new one. *)
Definition dfs_frame (c : Z) (island island' : list Z) : Prop :=
  (forall v, get island v <> -1 -> get island' v = get island v)
  /\ (forall v, get island' v <> get island v -> get island' v = c).

(** State of the loop over the vertices when it reaches vertex [i] with [c]
    islands found. *)
Record fill_inv (nr : Z) (rownnz rowadr colind : list Z) (c i : Z)
    (island : list Z) : Prop := {
  fill_len : Z.of_nat (length island) = nr;
  fill_count : 0 <= c;
  fill_range : forall v, 0 <= v < nr -> get island v = -1 \/ 0 <= get island v < c;
  fill_before : forall v, 0 <= v < i -> 0 <= get island v < c \/ get rownnz v = 0;
  fill_isolated : forall v, 0 <= v < nr -> get rownnz v = 0 -> get island v = -1;
  fill_closed : forall u v, csr_adj nr rownnz rowadr colind u v ->
      0 <= get island u -> get island v = get island u;
  fill_sound : forall u v, 0 <= u < nr -> 0 <= v < nr ->
      0 <= get island u -> get island u = get island v ->
      csr_connected nr rownnz rowadr colind u v;
  fill_order : forall v, 0 <= v < nr -> forall c', 0 <= c' < get island v ->
      exists u, 0 <= u < v /\ get island u = c';
  fill_starts : forall c', 0 <= c' < c -> exists u, 0 <= u < i /\ 0 <= u < nr /\ get island u = c'
}.

(** Two matrices over the same vertices whose rows list the same vertices
    once duplicates and the diagonal are disregarded. *)
Definition csr_same_off_diagonal (nr : Z)
    (rownnz1 rowadr1 colind1 rownnz2 rowadr2 colind2 : list Z) : Prop :=
  forall u v, 0 <= u < nr -> v <> u ->
    (v ∈ csr_row rownnz1 rowadr1 colind1 u <-> v ∈ csr_row rownnz2 rowadr2 colind2 u).

(** The same rows are empty in both matrices. *)
Definition csr_same_isolated (nr : Z) (rownnz1 rownnz2 : list Z) : Prop :=
  forall u, 0 <= u < nr -> (get rownnz1 u = 0 <-> get rownnz2 u = 0).

(** A decision procedure for [csr_valid]. *)
Definition csr_validb (nr : Z) (rownnz rowadr colind : list Z) : bool :=
  (0 <=? nr) && (nr <=? Z.of_nat (length rownnz)) && (nr <=? Z.of_nat (length rowadr))
  && forallb (fun u =>
       (0 <=? get rownnz u) && (0 <=? get rowadr u)
       && (get rowadr u + get rownnz u <=? Z.of_nat (length colind))
       && forallb (fun v =>
            (0 <=? v) && (v <? nr)
            && existsb (Z.eqb u) (csr_row rownnz rowadr colind v))
            (csr_row rownnz rowadr colind u))
       (seqZ 0 nr).

(** ** Edge records *)

(** The first [nedge] records of the interleaved edge array. *)
Definition edge_records (edge : list Z) (nedge : Z) : list (Z * Z) :=
  map (fun e => (get edge (2 * e), get edge (2 * e + 1))) (seqZ 0 nedge).

(** The targets of the records with source [t], in order. *)
Definition cols_of (t : Z) (recs : list (Z * Z)) : list Z :=
  map snd (filter (fun r => fst r = t) recs).

(** The number of records with source [t]. *)
Definition count_src (t : Z) (recs : list (Z * Z)) : Z :=
  Z.of_nat (length (cols_of t recs)).

(** The endpoints [addEdge] works with after folding the static tree. *)
Definition fold_static (tree1 tree2 : Z) : Z * Z :=
  let tree1 := if tree1 =? -1 then tree2 else tree1 in
  let tree2 := if tree2 =? -1 then tree1 else tree2 in
  (tree1, tree2).

(** State of the edge collector over [NT] trees. *)
Record edges_inv (NT : Z) (st : edges) : Prop := {
  ei_nedge : 0 <= snd st;
  ei_cap : 2 * snd st <= Z.of_nat (length (snd (fst st)));
  ei_len : Z.of_nat (length (fst (fst st))) = NT;
  ei_count : forall t, 0 <= t < NT ->
      get (fst (fst st)) t = count_src t (edge_records (snd (fst st)) (snd st));
  ei_range : forall a b, (a, b) ∈ edge_records (snd (fst st)) (snd st) ->
      0 <= a < NT /\ 0 <= b < NT;
  ei_sym : forall a b, (a, b) ∈ edge_records (snd (fst st)) (snd st) ->
      (b, a) ∈ edge_records (snd (fst st)) (snd st)
}.

(** ** The tree graph induced by the constraints *)

(** The endpoint table of the edge collector: the two trees a constraint of
    type [ty] and id [id] is declared to couple, or [None] when its Jacobian
    row has to be scanned. *)
Definition constraint_endpoints (m : mjModel) (d : mjData) (ty id : Z)
  : result (option (Z * Z)) :=
  if ty =? mjCNSTR_FRICTION_DOF
  then (t <- rd (dof_treeid m) id ;; Ok (Some (t, t)))
  else if ty =? mjCNSTR_LIMIT_JOINT
  then (a <- rd (jnt_dofadr m) id ;; t <- rd (dof_treeid m) a ;; Ok (Some (t, t)))
  else if (ty =? mjCNSTR_CONTACT_FRICTIONLESS) || (ty =? mjCNSTR_CONTACT_PYRAMIDAL)
          || (ty =? mjCNSTR_CONTACT_ELLIPTIC)
  then
    c <- rd_contact (contact d) id ;;
    b1 <- rd (geom_bodyid m) (geom1 c) ;;
    t1 <- rd (body_treeid m) b1 ;;
    b2 <- rd (geom_bodyid m) (geom2 c) ;;
    t2 <- rd (body_treeid m) b2 ;;
    Ok (Some (t1, t2))
  else if ty =? mjCNSTR_EQUALITY
  then
    et <- rd (eq_type m) id ;;
    if (et =? mjEQ_CONNECT) || (et =? mjEQ_WELD)
    then
      o1 <- rd (eq_obj1id m) id ;;
      t1 <- rd (body_treeid m) o1 ;;
      o2 <- rd (eq_obj2id m) id ;;
      t2 <- rd (body_treeid m) o2 ;;
      Ok (Some (t1, t2))
    else Ok None
  else Ok None.

(** Tree [t] has a DoF with an entry in Jacobian row [i]. *)
Definition row_tree (m : mjModel) (d : mjData) (i t : Z) : Prop :=
  exists p, 0 <= p < row_limit m d i /\ row_entry m d i p = Ok (Some t).

(** Row [i] begins a constraint: its type and id are not both those of the
    row before it (of no row at all, written (-1, -1), for the first). *)
Definition constraint_start (d : mjData) (i : Z) : Prop :=
  ~ ((if i =? 0 then -1 else get (efc_type d) (i - 1)) = get (efc_type d) i
     /\ (if i =? 0 then -1 else get (efc_id d) (i - 1)) = get (efc_id d) i).

(** The constraint that begins at row [i] couples trees [a] and [b]: they
    are its declared endpoints after folding the static tree, in either
    order, or, for a constraint without declared endpoints, both have an
    entry in the row. *)
Definition row_couples (m : mjModel) (d : mjData) (i a b : Z) : Prop :=
  match constraint_endpoints m d (get (efc_type d) i) (get (efc_id d) i) with
  | Ok (Some (t1, t2)) => (a, b) = fold_static t1 t2 \/ (b, a) = fold_static t1 t2
  | Ok None => row_tree m d i a /\ row_tree m d i b
  | Err _ => False
  end.

(** Some active constraint couples trees [a] and [b]. *)
Definition couples (m : mjModel) (d : mjData) (a b : Z) : Prop :=
  exists i, 0 <= i < nefc d /\ constraint_start d i /\ row_couples m d i a b.

(** Trees [a] and [b] are joined by a path of at least one edge of the
    tree graph. *)
Definition tree_connected (m : mjModel) (d : mjData) : Z -> Z -> Prop :=
  tc (couples m d).

(** The records as a relation, and paths of at least one record. *)
Definition rec_adj (recs : list (Z * Z)) (a b : Z) : Prop := (a, b) ∈ recs.
Definition rec_connected (recs : list (Z * Z)) : Z -> Z -> Prop := tc (rec_adj recs).

(** What processing the constraint that begins at row [i] does to the
    collector: the records grow by edges between trees the constraint
    couples, and afterwards every pair it couples is joined by a path. *)
Definition row_post (m : mjModel) (d : mjData) (NT i : Z) (st st' : edges) : Prop :=
  edges_inv NT st'
  /\ length (snd (fst st')) = length (snd (fst st))
  /\ snd st <= snd st'
  /\ exists new,
       edge_records (snd (fst st')) (snd st')
       = edge_records (snd (fst st)) (snd st) ++ new
       /\ (forall x y, (x, y) ∈ new -> row_couples m d i x y)
       /\ (forall a b, row_couples m d i a b ->
             rec_connected (edge_records (snd (fst st')) (snd st')) a b).

(** The records collected from the rows below [upto]: every record is an
    edge of the tree graph, and every pair of trees coupled by a constraint
    that begins below [upto] is joined by a path of records. *)
Definition edges_post (m : mjModel) (d : mjData) (upto : Z) (recs : list (Z * Z))
  : Prop :=
  (forall x y, (x, y) ∈ recs ->
     exists i, 0 <= i < upto /\ constraint_start d i /\ row_couples m d i x y)
  /\ (forall i a b, 0 <= i < upto -> constraint_start d i -> row_couples m d i a b ->
        rec_connected recs a b).

(** State of the loop that copies the targets of the records into [colind]
    when the records below [e] have been placed: [rownnz] counts them per
    source, and row [t] holds their targets from its address on. *)
Definition colind_inv (NT nedge : Z) (edge : list Z) (e : Z)
    (rownnz colind : list Z) : Prop :=
  (forall t, 0 <= t < NT -> get rownnz t = count_src t (edge_records edge e))
  /\ (forall t k, 0 <= t < NT -> 0 <= k < count_src t (edge_records edge e) ->
        cols_of t (edge_records edge e) !! Z.to_nat k
        = Some (get colind
                  (vsum (fun u => count_src u (edge_records edge nedge)) (seqZ 0 t) + k))).

(** ** Sample models and data *)

(** A model with four DoFs in three trees (DoFs 0 and 1 in tree 0, DoF 2 in
    tree 1, DoF 3 in tree 2), bodies 1, 2, 3 in trees 0, 1, 2 and body 0 the
    world, one geom per body, three joints and one weld between bodies 1
    and 2. *)
Definition sample_model (sparse : bool) : mjModel :=
  {| nv := 4; ntree := 3; ntendon := 0; jacobian_sparse := sparse;
     tendon_frictionloss := []; tendon_limited := []; tendon_num := [];
     dof_treeid := [0; 0; 1; 2]; body_treeid := [-1; 0; 1; 2];
     geom_bodyid := [0; 1; 2; 3]; jnt_dofadr := [0; 2; 3];
     eq_type := [mjEQ_WELD]; eq_obj1id := [1]; eq_obj2id := [2] |}.

(** Data with the given constraint rows and Jacobian, a buffer of [words]
    [mjtNum]s, and nothing allocated. *)
Definition sample_data (words : Z) (counts : Z * Z * Z) (types ids : list Z)
    (rownnz rowadr colind J : list Z) (con : list mjContact) : mjData :=
  {| nefc := Z.of_nat (length types);
     ncon := fst (fst counts); ne := snd (fst counts); nf := snd counts;
     efc_type := types; efc_id := ids;
     efc_J_rownnz := rownnz; efc_J_rowadr := rowadr; efc_J_colind := colind;
     efc_J := J; contact := con;
     nstack := words; pstack := 0; parena := 0;
     arena_raw := fun k => 1000 + Z.of_nat k;
     warnings := []; nisland := 0;
     island_dofadr := None; dof_island := None; dof_islandnext := None;
     island_efcadr := None; efc_island := None; efc_islandnext := None |}.

(** One joint-limit row on joint 0 and nothing else. *)
Definition data_joint_limit : mjData :=
  sample_data 1000 (0, 0, 0) [mjCNSTR_LIMIT_JOINT] [0] [1] [0] [0] [1; 0; 0; 0] [].

(** One joint-friction row on DoF 0. *)
Definition data_joint_friction : mjData :=
  sample_data 1000 (0, 0, 1) [mjCNSTR_FRICTION_DOF] [0] [1] [0] [0] [1; 0; 0; 0] [].

(** A joint-friction row on DoF 3 and a contact between geoms 1 and 2, whose
    row touches DoFs 0 and 2. *)
Definition data_friction_contact (words : Z) : mjData :=
  sample_data words (1, 0, 1)
    [mjCNSTR_FRICTION_DOF; mjCNSTR_CONTACT_FRICTIONLESS] [3; 0]
    [1; 2] [0; 1] [3; 0; 2] [0; 0; 0; 1; 1; 0; 1; 0]
    [{| geom1 := 1; geom2 := 2 |}].

(** ** DoFs and rows *)

(** The DoF that a scan of row [r] meets at position [p]. *)
Definition row_dof (m : mjModel) (d : mjData) (r p : Z) : result (option Z) :=
  if mj_isSparse m
  then
    adr <- rd (efc_J_rowadr d) r ;;
    c <- rd (efc_J_colind d) (adr + p) ;;
    Ok (Some c)
  else
    x <- rd (efc_J d) (nv m * r + p) ;;
    Ok (if x =? 0 then None else Some p).

(** DoF [i] has an entry in Jacobian row [r]. *)
Definition dof_in_row (m : mjModel) (d : mjData) (r i : Z) : Prop :=
  exists p, 0 <= p < row_limit m d r /\ row_dof m d r p = Ok (Some i).

(** The Jacobian of every row only touches trees that the tree graph
    joins. *)
Definition rows_legal (m : mjModel) (d : mjData) : Prop :=
  forall i a b, 0 <= i < nefc d -> row_tree m d i a -> row_tree m d i b ->
    tree_connected m d a b.

(** ** Dense and sparse forms of one Jacobian *)

(** [m] with the answer of [mj_isSparse] replaced. *)
Definition with_jacobian (m : mjModel) (sparse : bool) : mjModel :=
  {| nv := nv m;
     ntree := ntree m;
     ntendon := ntendon m;
     jacobian_sparse := sparse;
     tendon_frictionloss := tendon_frictionloss m;
     tendon_limited := tendon_limited m;
     tendon_num := tendon_num m;
     dof_treeid := dof_treeid m;
     body_treeid := body_treeid m;
     geom_bodyid := geom_bodyid m;
     jnt_dofadr := jnt_dofadr m;
     eq_type := eq_type m;
     eq_obj1id := eq_obj1id m;
     eq_obj2id := eq_obj2id m |}.

(** The columns from [c] on at which dense row [i] is nonzero, ascending. *)
Definition dense_cols_from (m : mjModel) (d : mjData) (i c : Z) : list Z :=
  filter (fun j => get (efc_J d) (nv m * i + j) <> 0) (seqZ c (nv m - c)).

(** The columns at which dense row [i] is nonzero, ascending. *)
Definition dense_cols (m : mjModel) (d : mjData) (i : Z) : list Z :=
  dense_cols_from m d i 0.

(** The columns that sparse row [i] lists, in the order of the row. *)
Definition sparse_cols (d : mjData) (i : Z) : list Z :=
  csr_row (efc_J_rownnz d) (efc_J_rowadr d) (efc_J_colind d) i.

(** [cols] with every run of equal adjacent columns reduced to one. *)
Fixpoint compress (cols : list Z) : list Z :=
  match cols with
  | [] => []
  | c :: rest =>
      match rest with
      | [] => [c]
      | c' :: _ => if c =? c' then compress rest else c :: compress rest
      end
  end.

(** [d] holds the Jacobian of its [nefc] rows in both forms, with the same
    nonzero pattern: the dense array has [nv] cells per row, every sparse row
    lies inside [efc_J_colind] and lists the columns at which the dense row
    is nonzero in ascending order, each of them once or several times in a
    row. *)
Definition same_pattern (m : mjModel) (d : mjData) : Prop :=
  nv m * nefc d <= Z.of_nat (length (efc_J d))
  /\ forall i, 0 <= i < nefc d ->
       (exists n adr,
          rd (efc_J_rownnz d) i = Ok n /\ rd (efc_J_rowadr d) i = Ok adr
          /\ 0 <= n /\ 0 <= adr
          /\ adr + n <= Z.of_nat (length (efc_J_colind d)))
       /\ compress (sparse_cols d i) = dense_cols m d i.

(** The scan of [treeNext] over a list of columns: the first tree other than
    [tree], or -1, and the columns from the one found on. *)
Fixpoint scan_cols (m : mjModel) (tree : Z) (cols : list Z) : result (Z * list Z) :=
  match cols with
  | [] => Ok (-1, [])
  | c :: rest =>
      tree_j <- rd (dof_treeid m) c ;;
      if tree_j =? tree then scan_cols m tree rest else Ok (tree_j, cols)
  end.

(** The result of the scan stands for the result of [r], whose cursor
    [rep] relates to the columns left. *)
Definition scan_result (rep : Z -> list Z -> Prop) (s : result (Z * list Z))
    (r : result (Z * option Z)) : Prop :=
  match s with
  | Err f => r = Err f
  | Ok (t, rest) => exists p, r = Ok (t, Some p) /\ rep p rest
  end.

(** Cursor [p] of the sparse form has the columns [cols] left in row [i]. *)
Definition sparse_rep (d : mjData) (i p : Z) (cols : list Z) : Prop :=
  0 <= p /\ compress (drop (Z.to_nat p) (sparse_cols d i)) = cols.

(** Cursor [c] of the dense form has the columns [cols] left in row [i]. *)
Definition dense_rep (m : mjModel) (d : mjData) (i c : Z) (cols : list Z) : Prop :=
  0 <= c /\ dense_cols_from m d i c = cols.

(** ** Iteration bounds *)

(** [r] is not the fault of a modelled loop that ran out of iterations. *)
Definition in_fuel {A : Type} (r : result A) : Prop := r <> Err OutOfFuel.

(** ** The edge budget, tendon by tendon *)

(** What tendon [t] adds to the budget of [countMaxEdge]: [tendon_num[t]]
    once if it has friction loss and once more if it is limited. *)
Definition tendon_budget (m : mjModel) (t : Z) : Z :=
  (if get (tendon_frictionloss m) t =? 0 then 0 else get (tendon_num m) t)
  + (if get (tendon_limited m) t =? 0 then 0 else get (tendon_num m) t).

(** The sample model with two tendons: tendon 0 over three DoFs with
    friction loss and a limit, tendon 1 over two DoFs with neither. *)
Definition sample_tendon_model : mjModel :=
  {| nv := 4; ntree := 3; ntendon := 2; jacobian_sparse := true;
     tendon_frictionloss := [1; 0]; tendon_limited := [1; 0]; tendon_num := [3; 2];
     dof_treeid := [0; 0; 1; 2]; body_treeid := [-1; 0; 1; 2];
     geom_bodyid := [0; 1; 2; 3]; jnt_dofadr := [0; 2; 3];
     eq_type := [mjEQ_WELD]; eq_obj1id := [1]; eq_obj2id := [2] |}.

(** ** The records a row can ask for *)

(** [constraint_start], decided. *)
Definition constraint_startb (d : mjData) (i : Z) : bool :=
  negb (((if i =? 0 then -1 else get (efc_type d) (i - 1)) =? get (efc_type d) i)
        && ((if i =? 0 then -1 else get (efc_id d) (i - 1)) =? get (efc_id d) i)).

(** The most records that a constraint of type [ty] and id [id] beginning
    at row [i] appends: one for the self-edge of a joint friction or joint
    limit, two for the edge of a contact, a connect or a weld, and for a row
    that is scanned two per position after the first, or one. *)
Definition type_demand (m : mjModel) (d : mjData) (i ty id : Z) : Z :=
  if (ty =? mjCNSTR_FRICTION_DOF) || (ty =? mjCNSTR_LIMIT_JOINT) then 1
  else if (ty =? mjCNSTR_CONTACT_FRICTIONLESS) || (ty =? mjCNSTR_CONTACT_PYRAMIDAL)
          || (ty =? mjCNSTR_CONTACT_ELLIPTIC) then 2
  else if (ty =? mjCNSTR_EQUALITY)
          && ((get (eq_type m) id =? mjEQ_CONNECT) || (get (eq_type m) id =? mjEQ_WELD))
  then 2
  else Z.max 1 (2 * (row_limit m d i - 1)).

(** The most records that row [i] appends: none unless it begins a
    constraint. *)
Definition row_demand (m : mjModel) (d : mjData) (i : Z) : Z :=
  if constraint_startb d i
  then type_demand m d i (get (efc_type d) i) (get (efc_id d) i)
  else 0.

(** [r] is not the report that the edge array is too small, and a
    collector state it returns holds at most [bound] records. *)
Definition budget_ok (bound : Z) (r : result edges) : Prop :=
  match r with
  | Ok st => snd st <= bound
  | Err f => f <> mjERROR "edge array too small"
  end.

(** ** What the island code leaves alone *)

(** [d'] describes the same constraints as [d], in a buffer of the same
    size: the fields that [mj_island] reads but never writes. *)
Definition same_constraints (d d' : mjData) : Prop :=
  ncon d' = ncon d /\ ne d' = ne d /\ nf d' = nf d
  /\ efc_type d' = efc_type d /\ efc_id d' = efc_id d
  /\ same_jacobian d' d
  /\ contact d' = contact d
  /\ nstack d' = nstack d.

(** ** Sparse rows in any order *)

(** [d] holds the Jacobian of its [nefc] rows in both forms, and every
    sparse row lists the columns at which the dense row is nonzero, in any
    order and any number of times. *)
Definition same_columns (m : mjModel) (d : mjData) : Prop :=
  nv m * nefc d <= Z.of_nat (length (efc_J d))
  /\ forall i, 0 <= i < nefc d ->
       (exists n adr,
          rd (efc_J_rownnz d) i = Ok n /\ rd (efc_J_rowadr d) i = Ok adr
          /\ 0 <= n /\ 0 <= adr
          /\ adr + n <= Z.of_nat (length (efc_J_colind d)))
       /\ forall c, c ∈ sparse_cols d i <-> c ∈ dense_cols m d i.

(** One tendon-limit row on tendon 0 whose Jacobian is nonzero at all four
    DoFs, the sparse row listing them in the order 0, 2, 3, 1, in a buffer
    of [words] [mjtNum]s. *)
Definition data_tendon_limit (words : Z) : mjData :=
  sample_data words (0, 0, 0) [mjCNSTR_LIMIT_TENDON] [0] [4] [0] [0; 2; 3; 1]
    [1; 1; 1; 1] [].

(** ** The range of [int] *)

(** The largest value of the 32-bit [int] of the code. *)
Definition INT_MAX : Z := 2147483647.

(** The sample model with one limited tendon over the joints of all four
    DoFs. *)
Definition sample_long_tendon_model : mjModel :=
  {| nv := 4; ntree := 3; ntendon := 1; jacobian_sparse := true;
     tendon_frictionloss := [0]; tendon_limited := [1]; tendon_num := [4];
     dof_treeid := [0; 0; 1; 2]; body_treeid := [-1; 0; 1; 2];
     geom_bodyid := [0; 1; 2; 3]; jnt_dofadr := [0; 2; 3];
     eq_type := [mjEQ_WELD]; eq_obj1id := [1]; eq_obj2id := [2] |}.

(** * Properties *)

(** ** Array accesses and sequencing *)

Lemma rd_Ok (a : list Z) i x :
  rd a i = Ok x <-> 0 <= i /\ a !! Z.to_nat i = Some x.
Proof.
  unfold rd. destruct (Z.ltb_spec i 0).
  - split; [discriminate | lia].
  - destruct (a !! Z.to_nat i) eqn:E; split; intros H1.
    + injection H1 as ->. auto.
    + destruct H1 as [_ H1]. congruence.
    + discriminate.
    + destruct H1 as [_ H1]. discriminate.
Qed.

Lemma wr_Ok (a : list Z) i x a' :
  wr a i x = Ok a' <->
  0 <= i < Z.of_nat (length a) /\ a' = <[Z.to_nat i := x]> a.
Proof.
  unfold wr.
  destruct (Z.leb_spec 0 i); destruct (Z.ltb_spec i (Z.of_nat (length a))); simpl;
    split; intros H1; try discriminate; try lia.
  - injection H1 as <-. split; [lia | reflexivity].
  - destruct H1 as [_ ->]. reflexivity.
Qed.

Lemma bind_Ok {A B} (r : result A) (k : A -> result B) b :
  bind r k = Ok b <-> exists a, r = Ok a /\ k a = Ok b.
Proof.
  destruct r; simpl; split.
  - eauto.
  - intros (a0 & H1 & H2). congruence.
  - discriminate.
  - intros (a0 & H1 & H2). discriminate.
Qed.

Ltac inv_bind H :=
  match type of H with
  | bind ?r _ = Ok _ =>
      let a := fresh "a" in
      let E := fresh "E" in
      apply bind_Ok in H; destruct H as (a & E & H)
  end.

(** ** Arena rollback *)

Lemma clearIsland_spec (d : mjData) (pa : Z) :
  (forall p, get_ptr p (clearIsland d pa) = None)
  /\ nefc (clearIsland d pa) = 0 /\ nisland (clearIsland d pa) = 0
  /\ parena (clearIsland d pa) = pa
  /\ warnings (clearIsland d pa) = warnings d
  /\ pstack (clearIsland d pa) = pstack d /\ nstack (clearIsland d pa) = nstack d.
Proof. split; [intros []; reflexivity | repeat split]. Qed.

Lemma mj_arenaAlloc_frame (d : mjData) b al :
  warnings (snd (mj_arenaAlloc d b al)) = warnings d
  /\ nstack (snd (mj_arenaAlloc d b al)) = nstack d
  /\ pstack (snd (mj_arenaAlloc d b al)) = pstack d
  /\ nefc (snd (mj_arenaAlloc d b al)) = nefc d.
Proof.
  unfold mj_arenaAlloc. cbv zeta.
  destruct (_ || _); repeat split.
Qed.

Lemma set_ptr_frame p d x :
  warnings (set_ptr p d x) = warnings d /\ nstack (set_ptr p d x) = nstack d
  /\ pstack (set_ptr p d x) = pstack d /\ nefc (set_ptr p d x) = nefc d
  /\ parena (set_ptr p d x) = parena d /\ nisland (set_ptr p d x) = nisland d.
Proof. destruct p; repeat split. Qed.

Lemma island_arena_alloc_fail m ptrs : forall d pa mark d',
  island_arena_alloc m ptrs d pa mark = (d', false) ->
  (forall p, get_ptr p d' = None) /\ nefc d' = 0 /\ nisland d' = 0
  /\ parena d' = pa /\ pstack d' = mark
  /\ warnings d' = warnings d ++ [(mjWARN_CNSTRFULL, nstack d * sizeof_mjtNum)].
Proof.
  induction ptrs as [|[[name nr] nc] rest IH]; intros d pa mark d' H.
  - discriminate.
  - cbn [island_arena_alloc] in H.
    pose proof (mj_arenaAlloc_frame d (sizeof_int * nr m d * nc) sizeof_int) as (Fw & Fn & Fp & Fe).
    set (r := mj_arenaAlloc d (sizeof_int * nr m d * nc) sizeof_int) in *.
    pose proof (set_ptr_frame name (snd r) (fst r)) as (Sw & Sn & Sp & Se & _).
    cbv zeta in H.
    set (d1 := set_ptr name (snd r) (fst r)) in *.
    destruct (get_ptr name d1) eqn:G.
    + apply IH in H. destruct H as (H1 & H2 & H3 & H4 & H5 & H6).
      repeat split; auto. rewrite H6. congruence.
    + injection H as <-.
      split; [intros []; reflexivity|].
      repeat split.
      change (warnings d1 ++ [(mjWARN_CNSTRFULL, nstack d1 * sizeof_mjtNum)]
              = warnings d ++ [(mjWARN_CNSTRFULL, nstack d * sizeof_mjtNum)]).
      congruence.
Qed.

Lemma mj_stackAllocInt_Ok (d : mjData) (n : Z) a d' :
  mj_stackAllocInt d n = Ok (a, d') ->
  0 <= n /\ length a = Z.to_nat n /\ d' = set_pstack d (pstack d + (n + 1) / 2).
Proof.
  unfold mj_stackAllocInt. cbv zeta.
  destruct (Z.ltb_spec n 0); simpl; [discriminate|].
  destruct (_ >? _); [discriminate|].
  intros H1. injection H1 as <- <-.
  rewrite length_map, length_seq. auto.
Qed.

Lemma set_pstack_twice (d : mjData) a b :
  set_pstack (set_pstack d a) b = set_pstack d b.
Proof. reflexivity. Qed.

(** The first part of [mj_island] changes nothing but the stack pointer and
    the island count. *)
Lemma mj_island_trees_frame (m : mjModel) (d : mjData) ti d0 :
  mj_island_trees m d = Ok (ti, d0) ->
  exists ps k, d0 = set_nisland (set_pstack d ps) k.
Proof.
  unfold mj_island_trees. intros H.
  inv_bind H.
  inv_bind H. destruct a0 as [edge d1].
  apply mj_stackAllocInt_Ok in E0. destruct E0 as (_ & _ & ->).
  inv_bind H. destruct a0 as [rownnz d2].
  apply mj_stackAllocInt_Ok in E0. destruct E0 as (_ & _ & ->).
  inv_bind H. destruct a0 as [[rownnz1 edge1] nedge].
  inv_bind H. destruct a0 as [rowadr d3].
  apply mj_stackAllocInt_Ok in E1. destruct E1 as (_ & _ & ->).
  inv_bind H. inv_bind H. destruct a1 as [rowadr1 rownnz2].
  inv_bind H.
  inv_bind H. destruct a2 as [colind d4].
  apply mj_stackAllocInt_Ok in E4. destruct E4 as (_ & _ & ->).
  inv_bind H. destruct a2 as [rownnz3 colind1].
  inv_bind H. destruct a2 as [tree_island d5].
  apply mj_stackAllocInt_Ok in E5. destruct E5 as (_ & _ & ->).
  inv_bind H. destruct a2 as [stack d6].
  apply mj_stackAllocInt_Ok in E5. destruct E5 as (_ & _ & ->).
  inv_bind H. destruct a2 as [[k ti1] stack1].
  injection H as <- <-.
  eexists _, k. reflexivity.
Qed.

(** C7: when an allocation of the arena phase fails, the call returns with
    every island output handle null, [nefc] and [nisland] zero, the arena
    watermark back at its value on entry to the allocation phase (which is
    its value on entry to the call), the scratch released, and exactly one
    more warning, a constraint-buffer-full one carrying the arena size in
    bytes. *)
Theorem mj_island_alloc_failure (m : mjModel) (d : mjData) ti d0 d1 :
  nefc d <> 0 ->
  mj_island_trees m d = Ok (ti, d0) ->
  island_arena_alloc m MJDATA_ARENA_POINTERS_ISLAND d0 (parena d0) (pstack d)
    = (d1, false) ->
  mj_island m d = Ok d1
  /\ (forall p, get_ptr p d1 = None)
  /\ nefc d1 = 0 /\ nisland d1 = 0
  /\ parena d1 = parena d0 /\ parena d0 = parena d
  /\ pstack d1 = pstack d
  /\ warnings d1 = warnings d ++ [(mjWARN_CNSTRFULL, nstack d * sizeof_mjtNum)].
Proof.
  intros Hn Ht Ha. split.
  { unfold mj_island. destruct (Z.eqb_spec (nefc d) 0); [contradiction|].
    cbv zeta. rewrite Ht. cbn [bind]. rewrite Ha. reflexivity. }
  destruct (mj_island_trees_frame _ _ _ _ Ht) as (ps & k & Hd0).
  apply island_arena_alloc_fail in Ha.
  destruct Ha as (H1 & H2 & H3 & H4 & H5 & H6).
  repeat split; auto.
  - rewrite Hd0. reflexivity.
  - rewrite H6, Hd0. reflexivity.
Qed.

Lemma mj_island_alloc_failure_witness :
  let m := sample_model true in
  let d := data_friction_contact 14 in
  nefc d <> 0
  /\ mj_island m d = Ok (clearIsland (mj_warning d mjWARN_CNSTRFULL 112) 0)
  /\ warnings (clearIsland (mj_warning d mjWARN_CNSTRFULL 112) 0)
     = [(mjWARN_CNSTRFULL, 112)].
Proof.
  intros m d.
  assert (Hn : nefc d <> 0) by discriminate.
  assert (Ht : mj_island_trees m d = Ok ([0; 0; 1], set_nisland (set_pstack d 13) 2))
    by reflexivity.
  assert (Ha : island_arena_alloc m MJDATA_ARENA_POINTERS_ISLAND
                 (set_nisland (set_pstack d 13) 2)
                 (parena (set_nisland (set_pstack d 13) 2)) (pstack d)
               = (clearIsland (mj_warning d mjWARN_CNSTRFULL 112) 0, false))
    by reflexivity.
  destruct (mj_island_alloc_failure m d _ _ _ Hn Ht Ha)
    as (H1 & _ & _ & _ & _ & _ & _ & H8).
  split; [exact Hn | split; [exact H1 | exact H8]].
Defined.

(** C8: with no active constraint row, the call sets [nisland] to zero and
    changes nothing else: no allocation moves the stack pointer or the arena
    watermark, no warning is emitted, and every island output handle is left
    as it was. *)
Theorem mj_island_no_constraints (m : mjModel) (d : mjData) :
  nefc d = 0 ->
  mj_island m d = Ok (set_nisland d 0)
  /\ nisland (set_nisland d 0) = 0
  /\ parena (set_nisland d 0) = parena d
  /\ pstack (set_nisland d 0) = pstack d
  /\ warnings (set_nisland d 0) = warnings d
  /\ forall p, get_ptr p (set_nisland d 0) = get_ptr p d.
Proof.
  intros H. split.
  { unfold mj_island. rewrite H. reflexivity. }
  repeat split.
Qed.

Lemma mj_island_no_constraints_witness :
  let d := sample_data 1000 (0, 0, 0) [] [] [] [] [] [] [] in
  nefc d = 0 /\ mj_island (sample_model true) d = Ok (set_nisland d 0).
Proof.
  intros d.
  assert (Hn : nefc d = 0) by reflexivity.
  split; [exact Hn|].
  exact (proj1 (mj_island_no_constraints (sample_model true) d Hn)).
Defined.

(** ** The Jacobian tree scanner *)

Lemma treeNext_sparse_spec (m : mjModel) (d : mjData) (adr tree : Z) :
  forall (n : nat) (j t j' : Z),
    treeNext_sparse m d adr tree n j = Ok (t, j') ->
    (forall q, j <= q < j' -> sparse_entry m d adr q = Ok tree)
    /\ ((t = -1 /\ j' = j + Z.of_nat n)
        \/ (j <= j' < j + Z.of_nat n /\ t <> tree /\ sparse_entry m d adr j' = Ok t)).
Proof.
  induction n as [|n IH]; intros j t j' H; simpl in H.
  - injection H as <- <-. split; [lia | left; lia].
  - inv_bind H. inv_bind H.
    assert (He : sparse_entry m d adr j = Ok a0).
    { unfold sparse_entry. rewrite E. exact E0. }
    destruct (Z.eqb_spec a0 tree) as [-> | Hne].
    + apply IH in H. destruct H as [Hall Hcase]. split.
      * intros q Hq. destruct (Z.eq_dec q j) as [-> | ?]; [exact He | apply Hall; lia].
      * destruct Hcase as [[-> ->] | (Hr & Ht & Hf)]; [left; lia | right].
        repeat split; auto; lia.
    + injection H as <- <-. split; [lia | right].
      repeat split; auto; lia.
Qed.

Lemma treeNext_dense_spec (m : mjModel) (d : mjData) (i tree : Z) :
  forall (n : nat) (j t j' : Z),
    treeNext_dense m d i tree n j = Ok (t, j') ->
    (forall q, j <= q < j' ->
       dense_entry m d i q = Ok None \/ dense_entry m d i q = Ok (Some tree))
    /\ ((t = -1 /\ j' = j + Z.of_nat n)
        \/ (j <= j' < j + Z.of_nat n /\ t <> tree
            /\ dense_entry m d i j' = Ok (Some t))).
Proof.
  induction n as [|n IH]; intros j t j' H; simpl in H.
  - injection H as <- <-. split; [lia | left; lia].
  - inv_bind H.
    destruct (Z.eqb_spec a 0) as [-> | Hnz].
    + assert (He : dense_entry m d i j = Ok None).
      { unfold dense_entry. rewrite E. reflexivity. }
      apply IH in H. destruct H as [Hall Hcase]. split.
      * intros q Hq. destruct (Z.eq_dec q j) as [-> | ?]; [auto | apply Hall; lia].
      * destruct Hcase as [[-> ->] | (Hr & Ht & Hf)]; [left; lia | right].
        repeat split; auto; lia.
    + inv_bind H.
      assert (He : dense_entry m d i j = Ok (Some a0)).
      { unfold dense_entry. rewrite E. simpl.
        destruct (Z.eqb_spec a 0); [contradiction|]. rewrite E0. reflexivity. }
      destruct (Z.eqb_spec a0 tree) as [-> | Hne].
      * apply IH in H. destruct H as [Hall Hcase]. split.
        -- intros q Hq. destruct (Z.eq_dec q j) as [-> | ?]; [auto | apply Hall; lia].
        -- destruct Hcase as [[-> ->] | (Hr & Ht & Hf)]; [left; lia | right].
           repeat split; auto; lia.
      * injection H as <- <-. split; [lia | right].
        repeat split; auto; lia.
Qed.

(** A scan of row [i] from [j0] that ends at [j] with result [t]: every
    position before [j] holds no tree or [tree] itself, and either nothing
    else was found and [j] is the end of the row, or [j] holds [t]. *)
Lemma treeNext_scan (m : mjModel) (d : mjData) (tree i j0 t j : Z) :
  treeNext m d tree i (Some j0) = Ok (t, Some j) ->
  (forall q, j0 <= q < j ->
     row_entry m d i q = Ok None \/ row_entry m d i q = Ok (Some tree))
  /\ ((t = -1 /\ j = Z.max j0 (row_limit m d i))
      \/ (j0 <= j < row_limit m d i /\ t <> tree
          /\ row_entry m d i j = Ok (Some t))).
Proof.
  unfold treeNext, row_entry, row_limit. intros H. inv_bind H.
  destruct a as [t0 j1]. injection H as <- <-.
  destruct (mj_isSparse m).
  - inv_bind E. inv_bind E. rewrite E0, E1. simpl.
    apply treeNext_sparse_spec in E. destruct E as [Hall Hcase]. split.
    + intros q Hq. right. rewrite (Hall q Hq). reflexivity.
    + destruct Hcase as [[-> ->] | (Hr & Ht & Hf)]; [left; split; lia | right].
      rewrite Hf. repeat split; auto; lia.
  - apply treeNext_dense_spec in E. destruct E as [Hall Hcase]. split.
    + exact Hall.
    + destruct Hcase as [[-> ->] | (Hr & Ht & Hf)]; [left; split; lia | right].
      repeat split; auto; lia.
Qed.

(** C6 as amended: when the scan finds a tree other than the input tree, the
    cursor is left at the position of the discovered entry, the one whose
    tree is returned. *)
Theorem treeNext_cursor_at_found (m : mjModel) (d : mjData) (tree i j0 t j t' p : Z) :
  treeNext m d tree i (Some j0) = Ok (t, Some j) ->
  treeNext_found m d tree i j0 t' p ->
  t = t' /\ j = p.
Proof.
  intros H (Hp & He & Hne & Hbefore).
  apply treeNext_scan in H. destruct H as [Hall Hcase].
  assert (Hj : j = p).
  { destruct (Z.lt_trichotomy j p) as [Hlt | [Heq | Hgt]]; [|exact Heq|].
    - destruct Hcase as [[_ ->] | (Hr & Ht & Hf)]; [lia|].
      destruct (Hbefore j) as [Hb | Hb]; [lia | congruence | congruence].
    - destruct (Hall p) as [Hb | Hb]; [lia | congruence | congruence]. }
  subst j. split; [|reflexivity].
  destruct Hcase as [[_ Hmax] | (Hr & Ht & Hf)]; [lia | congruence].
Qed.

(** C6, counterexample: in the sample model a scan of a row whose only
    nonzero is DoF 0 finds tree 0 at position 0 and leaves the cursor at 0,
    not at the position just past it. *)
Lemma treeNext_cursor_not_past :
  ~ (forall t j t' p,
       treeNext (sample_model true) data_joint_friction (-1) 0 (Some 0)
         = Ok (t, Some j) ->
       treeNext_found (sample_model true) data_joint_friction (-1) 0 0 t' p ->
       j = p + 1).
Proof.
  intros H. specialize (H 0 0 0 0).
  assert (H0 : (0 : Z) = 0 + 1); [|discriminate H0].
  apply H.
  - reflexivity.
  - repeat split; try reflexivity; try discriminate. intros j Hj. lia.
Qed.

Lemma treeNext_cursor_at_found_witness :
  treeNext (sample_model false) (data_friction_contact 1000) 0 1 (Some 0)
    = Ok (1, Some 2)
  /\ treeNext_found (sample_model false) (data_friction_contact 1000) 0 1 0 1 2
  /\ (1 = 1 /\ 2 = 2).
Proof.
  assert (H1 : treeNext (sample_model false) (data_friction_contact 1000) 0 1 (Some 0)
               = Ok (1, Some 2)) by reflexivity.
  assert (H2 : treeNext_found (sample_model false) (data_friction_contact 1000) 0 1 0 1 2).
  { repeat split; try reflexivity; try discriminate.
    intros j Hj.
    assert (Hc : j = 0 \/ j = 1) by lia.
    destruct Hc as [-> | ->]; [right | left]; reflexivity. }
  split; [exact H1 | split; [exact H2|]].
  exact (treeNext_cursor_at_found _ _ _ _ _ _ _ _ _ H1 H2).
Defined.

(** ** The edge budget *)

(** C1, the failing input: with a single joint-limit row and no contacts,
    equalities, friction or tendons the budget is zero, the collector asks
    for one self-edge record, and [addEdge] reports the array as too
    small. *)
Theorem countMaxEdge_misses_joint_limit :
  countMaxEdge (sample_model true) data_joint_limit = Ok 0
  /\ mj_island (sample_model true) data_joint_limit
     = Err (mjERROR "edge array too small")
  /\ countMaxEdge (sample_model false) data_joint_limit = Ok 0
  /\ mj_island (sample_model false) data_joint_limit
     = Err (mjERROR "edge array too small").
Proof. repeat split; vm_compute; reflexivity. Qed.

(** ** Threaded lists *)

Lemma positions_app k off l1 l2 :
  positions k off (l1 ++ l2)
  = positions k off l1 ++ positions k (off + Z.of_nat (length l1)) l2.
Proof.
  revert off. induction l1 as [|x r IH]; intros off; simpl.
  - f_equal. lia.
  - rewrite IH. replace (off + 1 + Z.of_nat (length r)) with (off + Z.pos (Pos.of_succ_nat (length r))) by lia.
    destruct (x =? k); reflexivity.
Qed.

Lemma elem_of_positions k off labs a :
  a ∈ positions k off labs <-> off <= a /\ labs !! Z.to_nat (a - off) = Some k.
Proof.
  revert off. induction labs as [|x r IH]; intros off; simpl.
  - split; [intros H; inversion H | intros [_ H]; discriminate].
  - assert (Hr : a ∈ positions k (off + 1) r <->
                 off < a /\ (x :: r) !! Z.to_nat (a - off) = Some k).
    { rewrite IH. split.
      - intros [H1 H2]. split; [lia|].
        replace (Z.to_nat (a - off)) with (S (Z.to_nat (a - (off + 1)))) by lia.
        exact H2.
      - intros [H1 H2]. split; [lia|].
        replace (Z.to_nat (a - off)) with (S (Z.to_nat (a - (off + 1)))) in H2 by lia.
        exact H2. }
    destruct (Z.eqb_spec x k) as [-> | Hne].
    + rewrite elem_of_cons, Hr. split.
      * intros [-> | [H1 H2]]; [|split; [lia | exact H2]].
        split; [lia|]. replace (Z.to_nat (off - off)) with 0%nat by lia. reflexivity.
      * intros [H1 H2]. destruct (Z.eq_dec a off) as [-> | ?]; [left; reflexivity|].
        right. split; [lia | exact H2].
    + rewrite Hr. split.
      * intros [H1 H2]. split; [lia | exact H2].
      * intros [H1 H2]. split; [|exact H2].
        destruct (Z.eq_dec a off) as [-> | ?]; [|lia].
        replace (Z.to_nat (off - off)) with 0%nat in H2 by lia.
        simpl in H2. congruence.
Qed.

Lemma positions_sorted k off labs : StronglySorted Z.lt (positions k off labs).
Proof.
  revert off. induction labs as [|x r IH]; intros off; simpl.
  - constructor.
  - destruct (x =? k); [|apply IH].
    constructor; [apply IH|].
    apply Forall_forall. intros a Ha. apply elem_of_positions in Ha. lia.
Qed.

Lemma positions_snoc k labs x :
  positions k 0 (labs ++ [x])
  = positions k 0 labs ++ (if x =? k then [Z.of_nat (length labs)] else []).
Proof. rewrite positions_app. simpl. destruct (x =? k); reflexivity. Qed.

Lemma elem_of_positions0 k labs a :
  a ∈ positions k 0 labs <-> 0 <= a /\ labs !! Z.to_nat a = Some k.
Proof. rewrite elem_of_positions. replace (a - 0) with a by lia. reflexivity. Qed.

Lemma positions_lt k labs a :
  a ∈ positions k 0 labs -> 0 <= a < Z.of_nat (length labs).
Proof.
  rewrite elem_of_positions0. intros [H1 H2].
  apply lookup_lt_Some in H2. lia.
Qed.

Lemma rd_insert_eq (a : list Z) x v :
  0 <= x < Z.of_nat (length a) -> rd (<[Z.to_nat x := v]> a) x = Ok v.
Proof.
  intros H. apply rd_Ok. split; [lia|].
  apply list_lookup_insert_eq. lia.
Qed.

Lemma rd_insert_ne (a : list Z) x y v :
  0 <= x -> x <> y -> rd (<[Z.to_nat x := v]> a) y = rd a y.
Proof.
  intros H1 H2. unfold rd. destruct (y <? 0) eqn:E; [reflexivity|].
  rewrite list_lookup_insert_ne; [reflexivity|]. lia.
Qed.

Lemma sorted_lookup_lt (l : list Z) (n1 n2 : nat) a b :
  StronglySorted Z.lt l -> l !! n1 = Some a -> l !! n2 = Some b ->
  (n1 < n2)%nat -> a < b.
Proof.
  intros Hs. revert n1 n2. induction Hs as [|x l Hs IH Hall]; intros n1 n2 H1 H2 Hlt.
  - discriminate.
  - destruct n2 as [|n2]; [lia|]. simpl in H2.
    destruct n1 as [|n1]; simpl in H1.
    + injection H1 as ->. rewrite Forall_forall in Hall.
      apply Hall. eapply list_elem_of_lookup_2. exact H2.
    + eapply IH; eauto. lia.
Qed.

Lemma linked_insert (next l : list Z) x v :
  linked next l -> 0 <= x ->
  (forall n a, l !! n = Some a -> is_Some (l !! S n) -> a <> x) ->
  linked (<[Z.to_nat x := v]> next) l.
Proof.
  intros Hl Hx Hne n a b Ha Hb.
  rewrite rd_insert_ne; [eauto | exact Hx |].
  intros Heq. apply (Hne n a Ha); [eauto | congruence].
Qed.

Lemma linked_snoc (next l : list Z) x i :
  linked next l -> last l = Some x -> rd next x = Ok i -> linked next (l ++ [i]).
Proof.
  intros Hl Hlast Hx n a b Ha Hb.
  assert (Hn : (S n < length (l ++ [i]))%nat) by (eapply lookup_lt_Some; eauto).
  rewrite length_app in Hn. simpl in Hn.
  destruct (decide (S n < length l)%nat) as [Hlt | Hge].
  - rewrite lookup_app_l in Ha by lia. rewrite lookup_app_l in Hb by lia. eauto.
  - assert (Hn' : S n = length l) by lia.
    rewrite lookup_app_l in Ha by lia.
    rewrite lookup_app_r in Hb by lia.
    rewrite Hn', Nat.sub_diag in Hb. injection Hb as <-.
    rewrite last_lookup in Hlast. rewrite <- Hn' in Hlast. simpl in Hlast.
    congruence.
Qed.

Lemma linked_walk (next : list Z) : forall (l : list Z) h x,
  linked next l -> head l = Some h -> last l = Some x ->
  (forall a, a ∈ l -> 0 <= a) ->
  rd next x = Ok (-1) ->
  walk next h l.
Proof.
  induction l as [|a l IH]; intros h x Hl Hh Hlast Hpos Hx.
  - discriminate.
  - injection Hh as ->.
    assert (Ha : h <> -1).
    { assert (0 <= h) by (apply Hpos; left). lia. }
    destruct l as [|b l].
    + injection Hlast as ->. eapply walk_step; eauto. constructor.
    + eapply walk_step; [exact Ha | apply (Hl 0%nat); reflexivity |].
      eapply IH; eauto.
      * intros n a' b' H1 H2. apply (Hl (S n)); assumption.
      * intros a' Ha'. apply Hpos. right. exact Ha'.
Qed.

Lemma walk_functional (next : list Z) i l1 l2 :
  walk next i l1 -> walk next i l2 -> l1 = l2.
Proof.
  intros H1. revert l2. induction H1 as [|i j l Hi Hr Hw IH]; intros l2 H2.
  - inversion H2; [reflexivity | congruence].
  - inversion H2 as [|i' j' l' Hi' Hr' Hw']; subst; [congruence|].
    f_equal. apply IH. congruence.
Qed.

Lemma found_count_S K labs :
  found_count (S K) labs
  = (found_count K labs
     + if decide (positions (Z.of_nat K) 0 labs <> []) then 1 else 0)%nat.
Proof.
  unfold found_count.
  replace (Z.of_nat (S K)) with (Z.of_nat K + 1) by lia.
  rewrite seqZ_app by lia. rewrite filter_app, length_app. f_equal.
  rewrite Z.add_0_l, seqZ_cons by lia. rewrite seqZ_nil by lia.
  rewrite filter_cons, filter_nil. destruct (decide _); reflexivity.
Qed.

Lemma found_count_le K labs : (found_count K labs <= K)%nat.
Proof.
  induction K as [|K IH]; [reflexivity|].
  rewrite found_count_S. destruct (decide _); lia.
Qed.

Lemma found_count_full K labs :
  found_count K labs = K ->
  forall k, 0 <= k < Z.of_nat K -> positions k 0 labs <> [].
Proof.
  induction K as [|K IH]; intros H k Hk; [lia|].
  rewrite found_count_S in H.
  pose proof (found_count_le K labs).
  destruct (decide (positions (Z.of_nat K) 0 labs <> [])) as [Hd | Hd]; [|lia].
  destruct (Z.eq_dec k (Z.of_nat K)) as [-> | Hne]; [exact Hd|].
  apply IH; lia.
Qed.

Lemma found_count_snoc K labs x :
  found_count K (labs ++ [x])
  = (found_count K labs
     + if decide ((0 <= x < Z.of_nat K)%Z /\ positions x 0 labs = []) then 1 else 0)%nat.
Proof.
  induction K as [|K IH].
  - destruct (decide _); [lia | reflexivity].
  - rewrite !found_count_S, IH.
    rewrite positions_snoc.
    destruct (Z.eqb_spec x (Z.of_nat K)) as [-> | Hne].
    + destruct (decide (0 <= Z.of_nat K < Z.of_nat K /\ _)) as [? | _]; [lia|].
      destruct (decide (positions (Z.of_nat K) 0 labs ++ [_] <> [])) as [_ | Hc].
      2:{ exfalso. apply Hc. intros Hnil. apply app_eq_nil in Hnil. destruct Hnil; discriminate. }
      destruct (decide (positions (Z.of_nat K) 0 labs <> [])) as [H1 | H1];
        destruct (decide (0 <= Z.of_nat K < Z.of_nat (S K) /\ _)) as [H2 | H2];
        try lia.
      * destruct H2 as [_ H2]. contradiction.
      * exfalso. apply H2. split; [lia|].
        destruct (positions (Z.of_nat K) 0 labs); [reflexivity | exfalso; apply H1; discriminate].
    + rewrite app_nil_r.
      destruct (decide (positions (Z.of_nat K) 0 labs <> []));
        destruct (decide (0 <= x < Z.of_nat K /\ _)) as [H1 | H1];
        destruct (decide (0 <= x < Z.of_nat (S K) /\ _)) as [H2 | H2];
        try lia; exfalso.
      * apply H2. destruct H1. split; [lia | assumption].
      * apply H1. destruct H2. split; [lia | assumption].
      * apply H2. destruct H1. split; [lia | assumption].
      * apply H1. destruct H2. split; [lia | assumption].
Qed.
Lemma last_positions_elem k labs x :
  last (positions k 0 labs) = Some x ->
  0 <= x < Z.of_nat (length labs) /\ labs !! Z.to_nat x = Some k.
Proof.
  intros H. apply last_Some_elem_of in H.
  split; [eapply positions_lt; eauto|].
  apply elem_of_positions0 in H. tauto.
Qed.

Lemma positions_nonlast_ne k labs x n a :
  last (positions k 0 labs) = Some x ->
  positions k 0 labs !! n = Some a -> is_Some (positions k 0 labs !! S n) ->
  a <> x.
Proof.
  intros Hl Ha [b Hb].
  rewrite last_lookup in Hl.
  assert (Hlt : (S n < length (positions k 0 labs))%nat) by (eapply lookup_lt_Some; eauto).
  assert (a < x); [|lia].
  eapply (sorted_lookup_lt _ n (pred (length (positions k 0 labs)))); eauto using positions_sorted.
  lia.
Qed.

Lemma positions_other_ne k k0 labs x n a :
  k <> k0 ->
  labs !! Z.to_nat x = Some k0 -> 0 <= x ->
  positions k 0 labs !! n = Some a -> a <> x.
Proof.
  intros Hne Hx Hx0 Ha ->.
  apply list_elem_of_lookup_2 in Ha. apply elem_of_positions0 in Ha.
  destruct Ha as [_ Ha]. congruence.
Qed.

Lemma island_link_inv K N labs s k0 s' :
  sweep_inv K N labs s ->
  (length labs < N)%nat ->
  sw_island s !! length labs = Some k0 ->
  k0 <> -1 ->
  island_link s k0 (Z.of_nat (length labs)) = Ok s' ->
  sweep_inv K N (labs ++ [k0]) s'.
Proof.
  intros [L1 L2 L3 L4 Hlabs Hb Hrange Hfound Hfree Hlists] HltN Hk0 Hne H.
  unfold island_link in H.
  inv_bind H. rename a into lastv, E into Elast.
  inv_bind H. rename a into s1, E into Es1.
  inv_bind H. rename a into last', E into Elast'.
  injection H as <-.
  apply rd_Ok in Elast. destruct Elast as [Hk0pos Hlastv].
  assert (Hk0K : 0 <= k0 < Z.of_nat K).
  { apply lookup_lt_Some in Hlastv. lia. }
  pose proof (Hlists k0 Hk0K) as Hold.
  set (i := Z.of_nat (length labs)) in *.
  (* the element that [next] is written at, if any *)
  assert (Hs1 :
    sw_island s1 = sw_island s /\ sw_last s1 = sw_last s
    /\ ((last (positions k0 0 labs) = None /\ lastv = -1
         /\ sw_next s1 = sw_next s /\ sw_adr s1 = <[Z.to_nat k0 := i]> (sw_adr s)
         /\ sw_found s1 = sw_found s + 1)
        \/ (last (positions k0 0 labs) = Some lastv
            /\ sw_next s1 = <[Z.to_nat lastv := i]> (sw_next s)
            /\ sw_adr s1 = sw_adr s /\ sw_found s1 = sw_found s))).
  { destruct (last (positions k0 0 labs)) as [x|] eqn:El.
    - destruct Hold as (Hr & _ & _).
      apply rd_Ok in Hr. destruct Hr as [_ Hr].
      assert (x = lastv) by congruence. subst x.
      pose proof (last_positions_elem _ _ _ El) as [Hx _].
      destruct (Z.eqb_spec lastv (-1)); [lia|].
      inv_bind Es1. injection Es1 as <-. apply wr_Ok in E. destruct E as [_ ->].
      simpl. auto 10.
    - apply rd_Ok in Hold. destruct Hold as [_ Hr].
      assert (lastv = -1) by congruence. subst lastv. simpl in Es1.
      inv_bind Es1. injection Es1 as <-. apply wr_Ok in E. destruct E as [_ ->].
      simpl. split; [reflexivity|]. split; [reflexivity|]. left. auto 10. }
  destruct Hs1 as (Hisl1 & Hlast1 & Hcase).
  apply wr_Ok in Elast'. destruct Elast' as [_ ->].
  rewrite Hlast1.
  assert (Hnext_other : forall j, 0 <= j -> labs !! Z.to_nat j <> Some k0 ->
            rd (sw_next s1) j = rd (sw_next s) j).
  { intros j Hj Hlab. destruct Hcase as [(_ & _ & -> & _) | (El & -> & _)]; [reflexivity|].
    pose proof (last_positions_elem _ _ _ El) as [Hx Hx'].
    apply rd_insert_ne; [lia|]. intros ->. contradiction. }
  constructor; simpl.
  - congruence.
  - destruct Hcase as [(_ & _ & -> & _) | (_ & -> & _)]; [|rewrite length_insert]; exact L2.
  - destruct Hcase as [(_ & _ & _ & -> & _) | (_ & _ & -> & _)]; [rewrite length_insert|]; exact L3.
  - rewrite length_insert. exact L4.
  - rewrite Hisl1, length_app. simpl. rewrite Nat.add_1_r.
    rewrite (take_S_r _ _ _ Hk0). rewrite Hlabs. reflexivity.
  - rewrite length_app. simpl. lia.
  - intros x Hx. apply elem_of_app in Hx. destruct Hx as [Hx | Hx]; [auto|].
    apply list_elem_of_singleton in Hx. subst x. right. exact Hk0K.
  - rewrite found_count_snoc.
    destruct Hcase as [(El & _ & _ & _ & ->) | (El & _ & _ & ->)].
    + apply last_None in El.
      destruct (decide _) as [_ | Hc]; [rewrite Hfound; lia | exfalso; apply Hc; auto].
    + destruct (decide _) as [[_ Hc] | _]; [rewrite Hc in El; discriminate | rewrite Hfound; lia].
  - intros j Hj Hlab.
    assert (Hjl : labs !! Z.to_nat j = Some (-1)).
    { destruct (decide (Z.to_nat j < length labs)%nat) as [Hlt | Hge].
      - rewrite lookup_app_l in Hlab by exact Hlt. exact Hlab.
      - apply lookup_lt_Some in Hlab as Hlen. rewrite length_app in Hlen. simpl in Hlen.
        rewrite lookup_app_r in Hlab by lia.
        replace (Z.to_nat j - length labs)%nat with 0%nat in Hlab by lia.
        simpl in Hlab. congruence. }
    rewrite Hnext_other; [auto | exact Hj | congruence].
  - intros k Hk. rewrite positions_snoc.
    destruct (Z.eqb_spec k0 k) as [<- | Hkne].
    + rewrite last_snoc. split; [apply rd_insert_eq; lia|].
      destruct Hcase as [(El & _ & Hn & Ha & _) | (El & Hn & Ha & _)].
      * apply last_None in El. rewrite El. simpl. rewrite Ha. split.
        -- apply list_lookup_insert_eq. lia.
        -- intros n a b H1 H2. destruct n; discriminate.
      * rewrite El in Hold. destruct Hold as (_ & Hadr & Hlk).
        pose proof (last_positions_elem _ _ _ El) as [Hx Hx'].
        rewrite Ha, Hn. split.
        -- rewrite Hadr. destruct (positions k0 0 labs); [discriminate | reflexivity].
        -- eapply linked_snoc; [| exact El | apply rd_insert_eq; lia].
           apply linked_insert; [exact Hlk | lia |].
           intros n a Hna Hsn. eapply positions_nonlast_ne; eauto.
    + rewrite app_nil_r.
      pose proof (Hlists k Hk) as Holdk.
      assert (Hadr_k : sw_adr s1 !! Z.to_nat k = sw_adr s !! Z.to_nat k).
      { destruct Hcase as [(_ & _ & _ & -> & _) | (_ & _ & -> & _)]; [|reflexivity].
        apply list_lookup_insert_ne. lia. }
      rewrite rd_insert_ne by lia.
      destruct (last (positions k 0 labs)) as [x|] eqn:Elk; [|exact Holdk].
      destruct Holdk as (Hr & Hadr & Hlk). rewrite Hadr_k.
      split; [exact Hr | split; [exact Hadr|]].
      destruct Hcase as [(_ & _ & -> & _) | (El & -> & _)]; [exact Hlk|].
      pose proof (last_positions_elem _ _ _ El) as [Hx Hx'].
      apply linked_insert; [exact Hlk | lia |].
      intros n a Hna _.
      apply (positions_other_ne k k0 labs lastv n a); [congruence | exact Hx' | lia | exact Hna].
Qed.

Lemma island_finalize_inv (K : Z) (N : nat) (labs lastarr : list Z) :
  (forall k, 0 <= k < K ->
     exists x, last (positions k 0 labs) = Some x /\ rd lastarr k = Ok x) ->
  forall (n : nat) (i : Z) (next next' : list Z),
    0 <= i -> i + Z.of_nat n = K ->
    length labs = N ->
    finalize_inv K N labs i next ->
    island_finalize lastarr n i next = Ok next' ->
    finalize_inv K N labs K next'.
Proof.
  intros Hlast. induction n as [|n IH]; intros i next next' Hi HK HN Hinv H; simpl in H.
  - injection H as <-. assert (Heq : i = K) by lia. rewrite <- Heq. rewrite <- Heq in Hinv at 1. exact Hinv.
  - inv_bind H. rename a into x, E into Ex.
    inv_bind H. rename a into next1, E into Enext1.
    apply wr_Ok in Enext1. destruct Enext1 as [Hxr ->].
    destruct (Hlast i) as (x' & Hl & Hr); [lia|].
    assert (x' = x) by congruence. subst x'.
    pose proof (last_positions_elem _ _ _ Hl) as [Hx Hx'].
    destruct Hinv as (I1 & I2 & I3 & I4).
    eapply (IH (i + 1)); eauto; [lia | lia |].
    repeat split.
    + rewrite length_insert. exact I1.
    + intros k Hk. apply linked_insert; [apply I2; exact Hk | lia |].
      intros n0 a Hna Hsn.
      destruct (Z.eq_dec k i) as [-> | Hne].
      * eapply positions_nonlast_ne; eauto.
      * apply (positions_other_ne k i labs x n0 a); [exact Hne | exact Hx' | lia | exact Hna].
    + intros k y Hk Hy.
      destruct (Z.eq_dec k i) as [-> | Hne].
      * assert (y = x) by congruence. subst y. apply rd_insert_eq. lia.
      * pose proof (last_positions_elem _ _ _ Hy) as [Hy0 Hy'].
        rewrite rd_insert_ne; [apply (I3 k); [lia | exact Hy] | lia |].
        intros ->. congruence.
    + intros j Hj Hlab. rewrite rd_insert_ne; [apply I4; assumption | lia |].
      intros ->. rewrite Hx' in Hlab. injection Hlab as Hc. lia.
Qed.

(** From a completed sweep that found every island to the threaded lists. *)
Lemma sweep_threaded (K N : nat) (s : sweep) (next' : list Z) :
  sweep_inv K N (sw_island s) s ->
  sw_found s = Z.of_nat K ->
  island_finalize (sw_last s) K 0 (sw_next s) = Ok next' ->
  threaded (Z.of_nat K) (sw_island s) next' (sw_adr s)
  /\ unthreaded (sw_island s) next'
  /\ length next' = N.
Proof.
  intros Hinv Hf Hfin.
  pose proof Hinv as [L1 L2 L3 L4 Hlabs Hb Hrange Hfound Hfree Hlists].
  set (labs := sw_island s) in *.
  assert (Hfull : forall k, 0 <= k < Z.of_nat K -> positions k 0 labs <> []).
  { apply found_count_full. lia. }
  assert (Hlast : forall k, 0 <= k < Z.of_nat K ->
            exists x, last (positions k 0 labs) = Some x /\ rd (sw_last s) k = Ok x).
  { intros k Hk. specialize (Hlists k Hk). specialize (Hfull k Hk).
    destruct (last (positions k 0 labs)) as [x|] eqn:El.
    - exists x. tauto.
    - apply last_None in El. contradiction. }
  assert (H0 : finalize_inv (Z.of_nat K) N labs 0 (sw_next s)).
  { repeat split; auto.
    - intros k Hk. specialize (Hlists k Hk).
      destruct (Hlast k Hk) as (x & El & _). rewrite El in Hlists. tauto.
    - intros k x Hk. lia. }
  pose proof (island_finalize_inv _ N labs _ Hlast K 0 _ _ (Z.le_refl 0)
                (Z.add_0_l _) L1 H0 Hfin) as (F1 & F2 & F3 & F4).
  repeat split; [| |exact F1].
  - intros k Hk. specialize (Hlists k Hk).
    destruct (Hlast k Hk) as (x & El & _). rewrite El in Hlists.
    destruct Hlists as (_ & Hadr & _).
    destruct (head (positions k 0 labs)) as [h|] eqn:Eh.
    2:{ apply head_None in Eh. rewrite Eh in El. discriminate. }
    exists h. split.
    + apply rd_Ok. split; [lia | exact Hadr].
    + eapply linked_walk.
      * apply F2. exact Hk.
      * exact Eh.
      * exact El.
      * intros a Ha. apply positions_lt in Ha. lia.
      * apply (F3 k); [exact Hk | exact El].
  - intros j Hj. apply rd_Ok in Hj. destruct Hj as [Hj0 Hj]. apply F4; assumption.
Qed.

Lemma fill_Ok : forall (n : nat) (a : list Z) (i x : Z) (a' : list Z),
  fill a n i x = Ok a' ->
  length a' = length a
  /\ (forall j, i <= j < i + Z.of_nat n -> rd a' j = Ok x)
  /\ (forall j, ~ (i <= j < i + Z.of_nat n) -> rd a' j = rd a j).
Proof.
  induction n as [|n IH]; intros a i x a' H; simpl in H.
  - injection H as <-. split; [reflexivity|]. split; [intros j Hj; lia | reflexivity].
  - inv_bind H. apply wr_Ok in E. destruct E as [Hi ->].
    apply IH in H. destruct H as (H1 & H2 & H3).
    rewrite length_insert in H1. split; [exact H1|]. split.
    + intros j Hj. destruct (Z.eq_dec j i) as [-> | Hne].
      * rewrite H3 by lia. apply rd_insert_eq. lia.
      * apply H2. lia.
    + intros j Hj. rewrite H3 by lia. apply rd_insert_ne; lia.
Qed.

Lemma found_count_nil K : found_count K [] = 0%nat.
Proof.
  induction K as [|K IH]; [reflexivity|].
  rewrite found_count_S, IH. reflexivity.
Qed.

Lemma sweep_inv_init (isl next adr lastarr : list Z) :
  length next = length isl -> length lastarr = length adr ->
  (forall k, 0 <= k < Z.of_nat (length adr) -> rd lastarr k = Ok (-1)) ->
  sweep_inv (length adr) (length isl) []
    {| sw_island := isl; sw_next := next; sw_adr := adr; sw_last := lastarr;
       sw_found := 0 |}.
Proof.
  intros H1 H2 H3. constructor; simpl; auto.
  - lia.
  - intros x Hx. inversion Hx.
  - rewrite found_count_nil. reflexivity.
  - intros j _ Hj. discriminate.
Qed.

Lemma sweep_inv_set_island K N labs s x :
  sweep_inv K N labs s ->
  sweep_inv K N labs
    {| sw_island := <[length labs := x]> (sw_island s); sw_next := sw_next s;
       sw_adr := sw_adr s; sw_last := sw_last s; sw_found := sw_found s |}.
Proof.
  intros [L1 L2 L3 L4 Hlabs Hb Hrange Hfound Hfree Hlists].
  constructor; simpl; auto.
  - rewrite length_insert. exact L1.
  - rewrite take_insert_ge by lia. exact Hlabs.
Qed.

Lemma sweep_inv_free_step K N labs s :
  sweep_inv K N labs s ->
  (length labs < N)%nat ->
  sw_island s !! length labs = Some (-1) ->
  sweep_inv K N (labs ++ [-1])
    {| sw_island := sw_island s;
       sw_next := <[length labs := -1]> (sw_next s);
       sw_adr := sw_adr s; sw_last := sw_last s; sw_found := sw_found s |}.
Proof.
  intros [L1 L2 L3 L4 Hlabs Hb Hrange Hfound Hfree Hlists] HltN Hi.
  assert (Hins : <[length labs := -1]> (sw_next s)
                 = <[Z.to_nat (Z.of_nat (length labs)) := -1]> (sw_next s)).
  { rewrite Nat2Z.id. reflexivity. }
  constructor; simpl; auto.
  - rewrite length_insert. exact L2.
  - rewrite length_app. simpl. rewrite Nat.add_1_r.
    rewrite (take_S_r _ _ _ Hi), Hlabs. reflexivity.
  - rewrite length_app. simpl. lia.
  - intros x Hx. apply elem_of_app in Hx. destruct Hx as [Hx | Hx]; [auto|].
    apply list_elem_of_singleton in Hx. left. exact Hx.
  - rewrite found_count_snoc.
    destruct (decide _) as [[Hc _] | _]; [lia | rewrite Hfound; lia].
  - intros j Hj Hlab. rewrite Hins.
    destruct (Z.eq_dec j (Z.of_nat (length labs))) as [-> | Hne].
    + apply rd_insert_eq. lia.
    + rewrite rd_insert_ne by lia. apply Hfree; [exact Hj|].
      apply lookup_lt_Some in Hlab as Hlen. rewrite length_app in Hlen. simpl in Hlen.
      rewrite lookup_app_l in Hlab by lia. exact Hlab.
  - intros k Hk. rewrite positions_snoc.
    destruct (Z.eqb_spec (-1) k); [lia|]. rewrite app_nil_r.
    specialize (Hlists k Hk).
    destruct (last (positions k 0 labs)) as [x|] eqn:El; [|exact Hlists].
    destruct Hlists as (Hr & Hadr & Hlk).
    split; [exact Hr | split; [exact Hadr|]].
    rewrite Hins. apply linked_insert; [exact Hlk | lia |].
    intros n0 a Hna _ ->.
    apply list_elem_of_lookup_2 in Hna. apply positions_lt in Hna. lia.
Qed.

Lemma island_dof_loop_inv (m : mjModel) (ti : list Z) (K N : nat) :
  forall (n : nat) (i : Z) (s s' : sweep) (labs : list Z),
    sweep_inv K N labs s ->
    i = Z.of_nat (length labs) ->
    (length labs + n = N)%nat ->
    island_dof_loop m ti n i s = Ok s' ->
    exists ext,
      sweep_inv K N (labs ++ ext) s'
      /\ length ext = n
      /\ forall (q : nat) (x : Z), ext !! q = Some x ->
           exists t, rd (dof_treeid m) (i + Z.of_nat q) = Ok t /\ rd ti t = Ok x.
Proof.
  induction n as [|n IH]; intros i s s' labs Hinv Hi Hn H; simpl in H.
  - injection H as <-. exists []. rewrite app_nil_r.
    split; [exact Hinv | split; [reflexivity|]]. intros q x Hq. discriminate.
  - inv_bind H. rename a into t, E into Et.
    inv_bind H. rename a into island, E into Eisl.
    inv_bind H. rename a into isl, E into Ewr.
    apply wr_Ok in Ewr. destruct Ewr as [Hir ->].
    subst i. rewrite Nat2Z.id in H.
    pose proof (sweep_inv_set_island K N labs s island Hinv) as Hinv1.
    assert (Hlook : <[length labs := island]> (sw_island s) !! length labs = Some island).
    { apply list_lookup_insert_eq. lia. }
    assert (Hstep : forall s2, sweep_inv K N (labs ++ [island]) s2 ->
              island_dof_loop m ti n (Z.of_nat (length labs) + 1) s2 = Ok s' ->
              exists ext,
                sweep_inv K N (labs ++ ext) s' /\ length ext = S n
                /\ forall (q : nat) (x : Z), ext !! q = Some x ->
                     exists t, rd (dof_treeid m) (Z.of_nat (length labs) + Z.of_nat q) = Ok t
                               /\ rd ti t = Ok x).
    { intros s2 Hinv2 Hloop.
      assert (Hl1 : Z.of_nat (length labs) + 1 = Z.of_nat (length (labs ++ [island])))
        by (rewrite length_app; simpl; lia).
      assert (Hl2 : (length (labs ++ [island]) + n = N)%nat)
        by (rewrite length_app; simpl; lia).
      destruct (IH _ _ _ _ Hinv2 Hl1 Hl2 Hloop) as (ext & He1 & He2 & He3).
      exists (island :: ext). rewrite <- app_assoc in He1. simpl in He1.
      split; [exact He1 | split; [simpl; lia|]].
      intros [|q] x Hq; simpl in Hq.
      - injection Hq as <-. exists t. rewrite Z.add_0_r. auto.
      - destruct (He3 q x Hq) as (t' & Ht1 & Ht2). exists t'. split; [|exact Ht2].
        rewrite <- Ht1. f_equal. lia. }
    destruct (Z.eqb_spec island (-1)) as [-> | Hne].
    + inv_bind H. rename a into next, E into Enext.
      apply wr_Ok in Enext. destruct Enext as [_ ->]. simpl in H.
      rewrite Nat2Z.id in H.
      eapply Hstep; [|exact H].
      apply (sweep_inv_free_step K N labs _ Hinv1); [lia | exact Hlook].
    + inv_bind H. rename a into s2, E into Elink.
      eapply Hstep; [|exact H].
      eapply island_link_inv; [exact Hinv1 | lia | exact Hlook | exact Hne | exact Elink].
Qed.

Lemma island_efc_loop_inv (m : mjModel) (d : mjData) (ti : list Z) (K N : nat) :
  forall (n : nat) (i : Z) (s s' : sweep) (labs : list Z),
    sweep_inv K N labs s ->
    i = Z.of_nat (length labs) ->
    (length labs + n = N)%nat ->
    island_efc_loop m d ti n i s = Ok s' ->
    exists ext,
      sweep_inv K N (labs ++ ext) s'
      /\ length ext = n
      /\ forall (q : nat) (x : Z), ext !! q = Some x ->
           x <> -1
           /\ exists t, treeNext m d (-1) (i + Z.of_nat q) None = Ok (t, None)
                        /\ rd ti t = Ok x.
Proof.
  induction n as [|n IH]; intros i s s' labs Hinv Hi Hn H; simpl in H.
  - injection H as <-. exists []. rewrite app_nil_r.
    split; [exact Hinv | split; [reflexivity|]]. intros q x Hq. discriminate.
  - inv_bind H. rename a into r, E into Er.
    inv_bind H. rename a into island, E into Eisl.
    inv_bind H. rename a into isl, E into Ewr.
    apply wr_Ok in Ewr. destruct Ewr as [Hir ->].
    subst i. rewrite Nat2Z.id in H.
    assert (Hr : r = (fst r, None)).
    { unfold treeNext in Er. inv_bind Er. destruct a as [t0 j0].
      injection Er as <-. reflexivity. }
    pose proof (sweep_inv_set_island K N labs s island Hinv) as Hinv1.
    assert (Hlook : <[length labs := island]> (sw_island s) !! length labs = Some island).
    { apply list_lookup_insert_eq. lia. }
    destruct (Z.eqb_spec island (-1)) as [-> | Hne]; [discriminate|].
    inv_bind H. rename a into s2, E into Elink.
    assert (Hinv2 : sweep_inv K N (labs ++ [island]) s2).
    { eapply island_link_inv; [exact Hinv1 | lia | exact Hlook | exact Hne | exact Elink]. }
    assert (Hl1 : Z.of_nat (length labs) + 1 = Z.of_nat (length (labs ++ [island])))
      by (rewrite length_app; simpl; lia).
    assert (Hl2 : (length (labs ++ [island]) + n = N)%nat)
      by (rewrite length_app; simpl; lia).
    destruct (IH _ _ _ _ Hinv2 Hl1 Hl2 H) as (ext & He1 & He2 & He3).
    exists (island :: ext). rewrite <- app_assoc in He1. simpl in He1.
    split; [exact He1 | split; [simpl; lia|]].
    intros [|q] x Hq; simpl in Hq.
    + injection Hq as <-. split; [exact Hne|]. exists (fst r).
      rewrite Z.add_0_r, <- Hr. auto.
    + destruct (He3 q x Hq) as (Hx & t' & Ht1 & Ht2). split; [exact Hx|].
      exists t'. split; [|exact Ht2].
      rewrite <- Ht1. f_equal. lia.
Qed.

Lemma positions_members (isl : list Z) (k : Z) :
  island_members isl k (positions k 0 isl).
Proof.
  split; [apply positions_sorted|].
  intros i. rewrite elem_of_positions0, rd_Ok. reflexivity.
Qed.

Lemma mj_island_Ok (m : mjModel) (d d' : mjData) :
  mj_island m d = Ok d' ->
  (nefc d = 0 /\ d' = set_nisland d 0)
  \/ (nefc d <> 0
      /\ exists ti d0,
           mj_island_trees m d = Ok (ti, d0)
           /\ (island_arena_alloc m MJDATA_ARENA_POINTERS_ISLAND d0 (parena d0) (pstack d)
                 = (d', false)
               \/ exists d1,
                    island_arena_alloc m MJDATA_ARENA_POINTERS_ISLAND d0 (parena d0)
                      (pstack d) = (d1, true)
                    /\ mj_island_tables m d1 ti (pstack d) = Ok d')).
Proof.
  unfold mj_island. intros H.
  destruct (Z.eqb_spec (nefc d) 0) as [Hz | Hnz].
  - left. injection H as <-. auto.
  - right. split; [exact Hnz|]. cbv zeta in H.
    inv_bind H. destruct a as [ti d0]. exists ti, d0. split; [exact E|].
    destruct (island_arena_alloc m MJDATA_ARENA_POINTERS_ISLAND d0 (parena d0) (pstack d))
      as [d1 ok] eqn:Ea.
    destruct ok; simpl in H.
    + right. exists d1. auto.
    + left. injection H as <-. reflexivity.
Qed.

Lemma mj_arenaAlloc_Some (d : mjData) (n : Z) a :
  fst (mj_arenaAlloc d (sizeof_int * n * 1) sizeof_int) = Some a ->
  0 <= n /\ length a = Z.to_nat n
  /\ exists p, snd (mj_arenaAlloc d (sizeof_int * n * 1) sizeof_int) = set_parena d p.
Proof.
  unfold mj_arenaAlloc. cbv zeta.
  destruct (Z.ltb_spec (sizeof_int * n * 1) 0) as [Hneg | Hpos]; [discriminate|].
  cbn [orb]. destruct (_ >? _); [discriminate|].
  cbn [fst snd]. intros H. injection H as <-.
  unfold sizeof_int in *. split; [lia|]. split.
  - rewrite length_map, length_seq. f_equal.
    replace (4 * n * 1) with (n * 4) by lia. apply Z.div_mul. lia.
  - eexists. reflexivity.
Qed.

(** After a successful allocation phase every island output handle holds an
    array of its declared size, and nothing else but the watermark moved. *)
Lemma island_arena_alloc_ok (m : mjModel) (d d1 : mjData) (pa mark : Z) :
  island_arena_alloc m MJDATA_ARENA_POINTERS_ISLAND d pa mark = (d1, true) ->
  exists a1 a2 a3 a4 a5 a6 p,
    d1 = with_islands d p (Some a1) (Some a2) (Some a3) (Some a4) (Some a5) (Some a6)
    /\ 0 <= nisland d /\ 0 <= nv m /\ 0 <= nefc d
    /\ length a1 = Z.to_nat (nisland d) /\ length a2 = Z.to_nat (nv m)
    /\ length a3 = Z.to_nat (nv m) /\ length a4 = Z.to_nat (nisland d)
    /\ length a5 = Z.to_nat (nefc d) /\ length a6 = Z.to_nat (nefc d).
Proof.
  assert (Hstep : forall name nr rest d d1,
            island_arena_alloc m ((name, nr, 1) :: rest) d pa mark = (d1, true) ->
            exists a p, 0 <= nr m d /\ length a = Z.to_nat (nr m d)
              /\ island_arena_alloc m rest (set_ptr name (set_parena d p) (Some a)) pa mark
                 = (d1, true)).
  { clear. intros name nr rest d d1 H. cbn [island_arena_alloc] in H. cbv zeta in H.
    destruct (fst (mj_arenaAlloc d (sizeof_int * nr m d * 1) sizeof_int)) as [a|] eqn:Ea.
    - destruct (mj_arenaAlloc_Some _ _ _ Ea) as (H1 & H2 & p & H3).
      rewrite H3 in H. exists a, p. split; [exact H1 | split; [exact H2|]].
      assert (Hg : get_ptr name (set_ptr name (set_parena d p) (Some a)) = Some a)
        by (destruct name; reflexivity).
      rewrite Hg in H. exact H.
    - assert (Hg : get_ptr name
                (set_ptr name (snd (mj_arenaAlloc d (sizeof_int * nr m d * 1) sizeof_int)) None)
              = None) by (destruct name; reflexivity).
      rewrite Hg in H. discriminate. }
  intros H. unfold MJDATA_ARENA_POINTERS_ISLAND in H.
  apply Hstep in H. destruct H as (a1 & p1 & N1 & L1 & H).
  apply Hstep in H. destruct H as (a2 & p2 & N2 & L2 & H).
  apply Hstep in H. destruct H as (a3 & p3 & N3 & L3 & H).
  apply Hstep in H. destruct H as (a4 & p4 & N4 & L4 & H).
  apply Hstep in H. destruct H as (a5 & p5 & N5 & L5 & H).
  apply Hstep in H. destruct H as (a6 & p6 & N6 & L6 & H).
  cbn [island_arena_alloc] in H.
  exists a1, a2, a3, a4, a5, a6, p6.
  split; [symmetry; exact (f_equal fst H)|].
  repeat split; assumption.
Qed.

Lemma treeNext_same_jacobian (m : mjModel) (d d' : mjData) tree i index :
  same_jacobian d d' -> treeNext m d tree i index = treeNext m d' tree i index.
Proof.
  intros (H1 & H2 & H3 & H4). unfold treeNext.
  assert (Hs : forall adr n j, treeNext_sparse m d adr tree n j
                               = treeNext_sparse m d' adr tree n j).
  { intros adr n. induction n as [|n IH]; intros j; simpl; [reflexivity|].
    rewrite H3. destruct (rd (efc_J_colind d') (adr + j)); simpl; [|reflexivity].
    destruct (rd (dof_treeid m) a); simpl; [|reflexivity].
    rewrite IH. reflexivity. }
  assert (Hd : forall n j, treeNext_dense m d i tree n j
                           = treeNext_dense m d' i tree n j).
  { intros n. induction n as [|n IH]; intros j; simpl; [reflexivity|].
    rewrite H4. destruct (rd (efc_J d') (nv m * i + j)); simpl; [|reflexivity].
    rewrite IH. reflexivity. }
  rewrite H1, H2. destruct (mj_isSparse m); [|rewrite Hd; reflexivity].
  destruct (rd (efc_J_rownnz d') i); simpl; [|reflexivity].
  destruct (rd (efc_J_rowadr d') i); simpl; [|reflexivity].
  rewrite Hs. reflexivity.
Qed.

Lemma mj_island_tables_Ok (m : mjModel) (d1 d' : mjData) (ti : list Z) (mark : Z)
    (a1 a2 a3 a4 a5 a6 : list Z) :
  island_dofadr d1 = Some a1 -> dof_island d1 = Some a2 ->
  dof_islandnext d1 = Some a3 -> island_efcadr d1 = Some a4 ->
  efc_island d1 = Some a5 -> efc_islandnext d1 = Some a6 ->
  length a1 = Z.to_nat (nisland d1) -> length a2 = Z.to_nat (nv m) ->
  length a3 = Z.to_nat (nv m) -> length a4 = Z.to_nat (nisland d1) ->
  length a5 = Z.to_nat (nefc d1) -> length a6 = Z.to_nat (nefc d1) ->
  mj_island_tables m d1 ti mark = Ok d' ->
  exists disl dnext dadr eisl enext eadr,
    dof_island d' = Some disl /\ dof_islandnext d' = Some dnext
    /\ island_dofadr d' = Some dadr
    /\ efc_island d' = Some eisl /\ efc_islandnext d' = Some enext
    /\ island_efcadr d' = Some eadr
    /\ nisland d' = nisland d1 /\ nefc d' = nefc d1
    /\ length disl = Z.to_nat (nv m) /\ length eisl = Z.to_nat (nefc d1)
    /\ threaded (nisland d1) disl dnext dadr /\ unthreaded disl dnext
    /\ threaded (nisland d1) eisl enext eadr
    /\ (forall i x, rd disl i = Ok x ->
          exists t, rd (dof_treeid m) i = Ok t /\ rd ti t = Ok x)
    /\ (forall i x, rd eisl i = Ok x ->
          x <> -1
          /\ exists t, treeNext m d1 (-1) i None = Ok (t, None) /\ rd ti t = Ok x).
Proof.
  intros P1 P2 P3 P4 P5 P6 L1 L2 L3 L4 L5 L6 H.
  unfold mj_island_tables in H.
  inv_bind H. destruct a as [island_last d2].
  apply mj_stackAllocInt_Ok in E. destruct E as (Hk0 & Llast & ->).
  change (nisland (set_pstack d1 (pstack d1 + (nisland d1 + 1) / 2)))
    with (nisland d1) in H.
  change (nefc (set_pstack d1 (pstack d1 + (nisland d1 + 1) / 2)))
    with (nefc d1) in H.
  set (d2 := set_pstack d1 (pstack d1 + (nisland d1 + 1) / 2)) in *.
  inv_bind H. rename a into last0, E into Efill.
  change (dof_island d2) with (dof_island d1) in H.
  change (dof_islandnext d2) with (dof_islandnext d1) in H.
  change (island_dofadr d2) with (island_dofadr d1) in H.
  rewrite P1, P2, P3 in H. cbn [deref bind] in H.
  inv_bind H. rename a into s, E into Edof.
  destruct (Z.eqb_spec (sw_found s) (nisland d1)) as [Hfound | ?]; [|discriminate].
  cbn [negb] in H.
  inv_bind H. rename a into dof_next, E into Efin.
  set (d3 := set_island_dofadr (set_dof_islandnext (set_dof_island d2 _) _) _) in *.
  change (nisland d3) with (nisland d1) in H.
  change (efc_island d3) with (efc_island d1) in H.
  change (efc_islandnext d3) with (efc_islandnext d1) in H.
  change (island_efcadr d3) with (island_efcadr d1) in H.
  inv_bind H. rename a into last1, E into Efill1.
  rewrite P4, P5, P6 in H. cbn [deref bind] in H.
  inv_bind H. rename a into s2, E into Eefc.
  destruct (Z.eqb_spec (sw_found s2) (nisland d1)) as [Hfound2 | ?]; [|discriminate].
  cbn [negb] in H.
  inv_bind H. rename a into efc_next, E into Efin2.
  injection H as <-.
  (* the DoF sweep *)
  apply fill_Ok in Efill. destruct Efill as (Fl & Fall & _).
  assert (Hinit : sweep_inv (length a1) (length a2) []
            {| sw_island := a2; sw_next := a3; sw_adr := a1; sw_last := last0;
               sw_found := 0 |}).
  { apply sweep_inv_init; [lia | lia |].
    intros k Hk. apply Fall. lia. }
  assert (Hn1 : (length (@nil Z) + Z.to_nat (nv m) = length a2)%nat) by (simpl; lia).
  destruct (island_dof_loop_inv m ti _ _ _ _ _ _ _ Hinit eq_refl Hn1 Edof)
    as (ext & Hinv & Hext & Hlab).
  simpl in Hinv.
  assert (Hisl : sw_island s = ext).
  { pose proof (inv_labs _ _ _ _ Hinv) as Ht.
    pose proof (inv_len_island _ _ _ _ Hinv) as Hl.
    rewrite take_ge in Ht by lia. exact Ht. }
  subst ext.
  destruct (sweep_threaded _ _ s dof_next Hinv) as (T1 & T2 & T3).
  { rewrite Hfound. lia. }
  { rewrite L1. exact Efin. }
  (* the constraint sweep *)
  apply fill_Ok in Efill1. destruct Efill1 as (Fl1 & Fall1 & _).
  pose proof (inv_len_last _ _ _ _ Hinv) as Llast1.
  assert (Hinit2 : sweep_inv (length a4) (length a5) []
            {| sw_island := a5; sw_next := a6; sw_adr := a4; sw_last := last1;
               sw_found := 0 |}).
  { apply sweep_inv_init; [lia | lia |].
    intros k Hk. apply Fall1. lia. }
  assert (Hn2 : (length (@nil Z) + Z.to_nat (nefc d1) = length a5)%nat) by (simpl; lia).
  destruct (island_efc_loop_inv m d3 ti _ _ _ _ _ _ _ Hinit2 eq_refl Hn2 Eefc)
    as (ext & Hinv2 & Hext2 & Hlab2).
  simpl in Hinv2.
  assert (Hisl2 : sw_island s2 = ext).
  { pose proof (inv_labs _ _ _ _ Hinv2) as Ht.
    pose proof (inv_len_island _ _ _ _ Hinv2) as Hl.
    rewrite take_ge in Ht by lia. exact Ht. }
  subst ext.
  destruct (sweep_threaded _ _ s2 efc_next Hinv2) as (U1 & U2 & U3).
  { rewrite Hfound2. lia. }
  { rewrite L4. exact Efin2. }
  exists (sw_island s), dof_next, (sw_adr s), (sw_island s2), efc_next, (sw_adr s2).
  split; [reflexivity|]. split; [reflexivity|]. split; [reflexivity|].
  split; [reflexivity|]. split; [reflexivity|]. split; [reflexivity|].
  split; [reflexivity|]. split; [reflexivity|].
  split; [exact (eq_trans (inv_len_island _ _ _ _ Hinv) L2)|].
  split; [exact (eq_trans (inv_len_island _ _ _ _ Hinv2) L5)|].
  split; [rewrite L1, Z2Nat.id in T1 by lia; exact T1|].
  split; [exact T2|].
  split; [rewrite L4, Z2Nat.id in U1 by lia; exact U1|].
  split.
  - intros i x Hi. apply rd_Ok in Hi. destruct Hi as [Hi0 Hi].
    destruct (Hlab _ _ Hi) as (t & Ht1 & Ht2). exists t.
    rewrite Z2Nat.id in Ht1 by lia. auto.
  - intros i x Hi. apply rd_Ok in Hi. destruct Hi as [Hi0 Hi].
    destruct (Hlab2 _ _ Hi) as (Hx & t & Ht1 & Ht2). split; [exact Hx|]. exists t.
    rewrite Z2Nat.id in Ht1 by lia. split; [|exact Ht2].
    rewrite <- Ht1. apply treeNext_same_jacobian. repeat split.
Qed.

(** A call that returns either took the quick exit, rolled back, or went
    through every phase; in the last case the outputs are as follows. *)
Lemma mj_island_success (m : mjModel) (d d' : mjData) :
  mj_island m d = Ok d' ->
  nefc d <> 0 ->
  (nisland d' <> 0 \/ dof_island d' <> None) ->
  exists ti d0 disl dnext dadr eisl enext eadr,
    mj_island_trees m d = Ok (ti, d0)
    /\ dof_island d' = Some disl /\ dof_islandnext d' = Some dnext
    /\ island_dofadr d' = Some dadr
    /\ efc_island d' = Some eisl /\ efc_islandnext d' = Some enext
    /\ island_efcadr d' = Some eadr
    /\ nisland d' = nisland d0 /\ nefc d' = nefc d
    /\ length disl = Z.to_nat (nv m) /\ length eisl = Z.to_nat (nefc d)
    /\ threaded (nisland d') disl dnext dadr /\ unthreaded disl dnext
    /\ threaded (nisland d') eisl enext eadr
    /\ (forall i x, rd disl i = Ok x ->
          exists t, rd (dof_treeid m) i = Ok t /\ rd ti t = Ok x)
    /\ (forall i x, rd eisl i = Ok x ->
          x <> -1
          /\ exists t, treeNext m d (-1) i None = Ok (t, None) /\ rd ti t = Ok x).
Proof.
  intros H Hn Hsucc.
  apply mj_island_Ok in H.
  destruct H as [[Hz _] | (_ & ti & d0 & Ht & [Hfail | (d1 & Ha & Htab)])];
    [contradiction | |].
  - exfalso. apply island_arena_alloc_fail in Hfail.
    destruct Hfail as (Hp & _ & Hi & _).
    destruct Hsucc as [Hs | Hs]; [contradiction|].
    apply Hs. exact (Hp ptr_dof_island).
  - destruct (mj_island_trees_frame _ _ _ _ Ht) as (ps & k0 & Hd0).
    apply island_arena_alloc_ok in Ha.
    destruct Ha as (a1 & a2 & a3 & a4 & a5 & a6 & p & Hd1 & N1 & N2 & N3
                    & L1 & L2 & L3 & L4 & L5 & L6).
    assert (Hni : nisland d1 = nisland d0) by (rewrite Hd1; reflexivity).
    assert (Hne : nefc d1 = nefc d) by (rewrite Hd1, Hd0; reflexivity).
    assert (Hne0 : nefc d0 = nefc d) by (rewrite Hd0; reflexivity).
    assert (Hj : same_jacobian d1 d) by (rewrite Hd1, Hd0; repeat split).
    destruct (mj_island_tables_Ok m d1 d' ti (pstack d) a1 a2 a3 a4 a5 a6)
      as (disl & dnext & dadr & eisl & enext & eadr & Q1 & Q2 & Q3 & Q4 & Q5 & Q6
          & Q7 & Q8 & Q9 & Q10 & Q11 & Q12 & Q13 & Q14 & Q15);
      try (rewrite Hd1; reflexivity); try congruence.
    exists ti, d0, disl, dnext, dadr, eisl, enext, eadr.
    rewrite Q7, Hni. rewrite Hni in Q11, Q13. rewrite Hne in Q10, Q8.
    repeat (split; [first [assumption | reflexivity]|]).
    intros i x Hi. destruct (Q15 i x Hi) as (Hx & t & T1 & T2).
    split; [exact Hx|]. exists t. split; [|exact T2].
    rewrite <- T1. symmetry. apply treeNext_same_jacobian. exact Hj.
Qed.

(** C4: after a call that returns, for every island [k] below [nisland],
    following [dof_islandnext] from [island_dofadr[k]] until the sentinel
    visits exactly the DoFs whose [dof_island] is [k], in strictly ascending
    order, and likewise for the constraint rows through [island_efcadr] and
    [efc_islandnext]. *)
Theorem mj_island_threaded (m : mjModel) (d d' : mjData) (k : Z) :
  mj_island m d = Ok d' ->
  0 <= k < nisland d' ->
  (exists isl next adr h l,
      dof_island d' = Some isl /\ dof_islandnext d' = Some next
      /\ island_dofadr d' = Some adr
      /\ rd adr k = Ok h /\ walk next h l /\ island_members isl k l)
  /\ (exists isl next adr h l,
        efc_island d' = Some isl /\ efc_islandnext d' = Some next
        /\ island_efcadr d' = Some adr
        /\ rd adr k = Ok h /\ walk next h l /\ island_members isl k l).
Proof.
  intros H Hk.
  assert (Hn : nefc d <> 0).
  { intros Hz. apply mj_island_Ok in H.
    destruct H as [[_ ->] | [Hc _]]; [|contradiction].
    change (nisland (set_nisland d 0)) with 0 in Hk. lia. }
  destruct (mj_island_success m d d' H Hn) as
    (ti & d0 & disl & dnext & dadr & eisl & enext & eadr & _ & Q1 & Q2 & Q3 & Q4 & Q5
     & Q6 & _ & _ & _ & _ & T1 & _ & T2 & _); [left; lia|].
  destruct (T1 k Hk) as (h1 & Hh1 & Hw1).
  destruct (T2 k Hk) as (h2 & Hh2 & Hw2).
  split.
  - exists disl, dnext, dadr, h1, (positions k 0 disl).
    repeat (split; [assumption|]). apply positions_members.
  - exists eisl, enext, eadr, h2, (positions k 0 eisl).
    repeat (split; [assumption|]). apply positions_members.
Qed.

Lemma mj_island_threaded_witness :
  let m := sample_model true in
  let d := data_friction_contact 1000 in
  exists d', mj_island m d = Ok d' /\ 0 <= 0 < nisland d'
    /\ exists isl next adr h l,
         dof_island d' = Some isl /\ dof_islandnext d' = Some next
         /\ island_dofadr d' = Some adr
         /\ rd adr 0 = Ok h /\ walk next h l /\ island_members isl 0 l.
Proof.
  intros m d.
  destruct (mj_island m d) as [d'|f] eqn:E; [|vm_compute in E; discriminate E].
  exists d'. split; [reflexivity|].
  assert (Hk : 0 <= 0 < nisland d').
  { vm_compute in E. injection E as <-. vm_compute. split; [discriminate | reflexivity]. }
  split; [exact Hk|].
  exact (proj1 (mj_island_threaded m d d' 0 E Hk)).
Defined.

(** ** Flood fill *)

Lemma get_rd (a : list Z) i x : rd a i = Ok x -> get a i = x.
Proof. unfold get. intros ->. reflexivity. Qed.

Lemma rd_in_range (a : list Z) i :
  0 <= i < Z.of_nat (length a) -> rd a i = Ok (get a i).
Proof.
  intros H. destruct (lookup_lt_is_Some_2 a (Z.to_nat i)) as [x Hx]; [lia|].
  assert (Hr : rd a i = Ok x) by (apply rd_Ok; split; [lia | exact Hx]).
  rewrite (get_rd _ _ _ Hr). exact Hr.
Qed.

Lemma rd_lt (a : list Z) i x : rd a i = Ok x -> 0 <= i < Z.of_nat (length a).
Proof.
  intros H. apply rd_Ok in H. destruct H as [H1 H2].
  apply lookup_lt_Some in H2. lia.
Qed.

Lemma get_insert_eq (a : list Z) x v :
  0 <= x < Z.of_nat (length a) -> get (<[Z.to_nat x := v]> a) x = v.
Proof. intros H. unfold get. rewrite rd_insert_eq by exact H. reflexivity. Qed.

Lemma get_insert_ne (a : list Z) x y v :
  0 <= x -> x <> y -> get (<[Z.to_nat x := v]> a) y = get a y.
Proof. intros H1 H2. unfold get. rewrite rd_insert_ne by assumption. reflexivity. Qed.

Lemma memcpy_int_Ok (dst : list Z) doff (src : list Z) soff n dst' :
  memcpy_int dst doff src soff n = Ok dst' <->
  (0 <= doff /\ 0 <= soff /\ 0 <= n
   /\ doff + n <= Z.of_nat (length dst) /\ soff + n <= Z.of_nat (length src))
  /\ dst' = take (Z.to_nat doff) dst
            ++ take (Z.to_nat n) (drop (Z.to_nat soff) src)
            ++ drop (Z.to_nat (doff + n)) dst.
Proof.
  unfold memcpy_int.
  destruct (Z.leb_spec 0 doff); destruct (Z.leb_spec 0 soff); destruct (Z.leb_spec 0 n);
    destruct (Z.leb_spec (doff + n) (Z.of_nat (length dst)));
    destruct (Z.leb_spec (soff + n) (Z.of_nat (length src))); simpl;
    split; intros H4; try discriminate; try lia.
  - injection H4 as <-. split; [lia | reflexivity].
  - destruct H4 as [_ ->]. reflexivity.
Qed.

Lemma vsum_app f l1 l2 : vsum f (l1 ++ l2) = vsum f l1 + vsum f l2.
Proof. induction l1 as [|x l IH]; simpl; [reflexivity | rewrite IH; lia]. Qed.

Lemma vsum_ext f g l : (forall v, v ∈ l -> f v = g v) -> vsum f l = vsum g l.
Proof.
  induction l as [|x l IH]; intros H; simpl; [reflexivity|].
  rewrite H by left. rewrite IH; [reflexivity|]. intros v Hv. apply H. right. exact Hv.
Qed.

Lemma vsum_nonneg f l : (forall v, v ∈ l -> 0 <= f v) -> 0 <= vsum f l.
Proof.
  induction l as [|x l IH]; intros H; simpl; [lia|].
  assert (0 <= f x) by (apply H; left).
  assert (0 <= vsum f l) by (apply IH; intros v Hv; apply H; right; exact Hv). lia.
Qed.

Lemma vsum_le f g l : (forall v, v ∈ l -> f v <= g v) -> vsum f l <= vsum g l.
Proof.
  induction l as [|x l IH]; intros H; simpl; [lia|].
  assert (f x <= g x) by (apply H; left).
  assert (vsum f l <= vsum g l) by (apply IH; intros v Hv; apply H; right; exact Hv). lia.
Qed.

(** Changing [f] at one vertex of a duplicate-free list. *)
Lemma vsum_update f g l v0 :
  NoDup l -> v0 ∈ l -> (forall v, v ∈ l -> v <> v0 -> g v = f v) ->
  vsum g l = vsum f l - f v0 + g v0.
Proof.
  induction l as [|x l IH]; intros Hnd Hin Hext; [inversion Hin|].
  apply NoDup_cons in Hnd. destruct Hnd as [Hx Hnd]. simpl.
  destruct (Z.eq_dec x v0) as [-> | Hne].
  - rewrite (vsum_ext g f l); [lia|].
    intros v Hv. apply Hext; [right; exact Hv|]. intros ->. contradiction.
  - apply elem_of_cons in Hin. destruct Hin as [-> | Hin]; [contradiction|].
    rewrite IH; auto.
    + rewrite Hext; [lia | left | exact Hne].
    + intros v Hv Hvne. apply Hext; [right; exact Hv | exact Hvne].
Qed.

Lemma elem_of_seqZ0 (n v : Z) : v ∈ seqZ 0 n <-> 0 <= v < n.
Proof. rewrite elem_of_seqZ. lia. Qed.

(** Labelling an unlabelled vertex removes its row from the unlabelled
    nonzeros. *)
Lemma unlabelled_nnz_label (nr : Z) (rownnz island : list Z) (v c : Z) :
  0 <= v < nr -> nr <= Z.of_nat (length island) ->
  get island v = -1 -> c <> -1 ->
  unlabelled_nnz nr rownnz (<[Z.to_nat v := c]> island)
  = unlabelled_nnz nr rownnz island - get rownnz v.
Proof.
  intros Hv Hlen Hu Hc. unfold unlabelled_nnz.
  rewrite (vsum_update (fun v => if get island v =? -1 then get rownnz v else 0) _ _ v).
  - rewrite get_insert_eq by lia. rewrite Hu. simpl.
    destruct (Z.eqb_spec c (-1)); [contradiction | lia].
  - apply NoDup_seqZ.
  - apply elem_of_seqZ0. exact Hv.
  - intros u Hu' Hne. simpl. rewrite get_insert_ne by lia. reflexivity.
Qed.

Lemma unlabelled_nnz_ge (nr : Z) (rownnz island : list Z) (v : Z) :
  (forall u, 0 <= u < nr -> 0 <= get rownnz u) ->
  0 <= v < nr -> get island v = -1 ->
  get rownnz v <= unlabelled_nnz nr rownnz island.
Proof.
  intros Hpos Hv Hu. unfold unlabelled_nnz.
  pose proof (vsum_update (fun u => if get island u =? -1 then get rownnz u else 0)
                (fun u => if u =? v then 0 else if get island u =? -1 then get rownnz u else 0)
                (seqZ 0 nr) v (NoDup_seqZ _ _)) as Hup.
  simpl in Hup. rewrite Hu, Z.eqb_refl in Hup. simpl in Hup.
  assert (0 <= vsum (fun u => if u =? v then 0 else if get island u =? -1 then get rownnz u else 0)
                (seqZ 0 nr)).
  { apply vsum_nonneg. intros u Hu'. apply elem_of_seqZ0 in Hu'.
    destruct (u =? v); [lia|]. destruct (get island u =? -1); [apply Hpos; lia | lia]. }
  rewrite Hup in H.
  - rewrite Z.eqb_refl in H. lia.
  - apply elem_of_seqZ0. exact Hv.
  - intros u _ Hne. destruct (Z.eqb_spec u v); [contradiction | reflexivity].
Qed.

Lemma unlabelled_nnz_le_nnz (nr : Z) (rownnz island : list Z) :
  (forall u, 0 <= u < nr -> 0 <= get rownnz u) ->
  unlabelled_nnz nr rownnz island <= csr_nnz nr rownnz.
Proof.
  intros Hpos. apply vsum_le. intros v Hv. apply elem_of_seqZ0 in Hv.
  specialize (Hpos v Hv). destruct (get island v =? -1); lia.
Qed.

Lemma unlabelled_count_label : forall (island : list Z) (v : nat) (c : Z),
  island !! v = Some (-1) -> c <> -1 ->
  S (unlabelled_count (<[v := c]> island)) = unlabelled_count island.
Proof.
  unfold unlabelled_count.
  induction island as [|x l IH]; intros v c Hv Hc; [discriminate|].
  destruct v as [|v]; simpl in *.
  - injection Hv as ->. rewrite !filter_cons.
    destruct (decide (c = -1)); [contradiction|].
    destruct (decide (-1 = -1)); [reflexivity | contradiction].
  - rewrite !filter_cons. destruct (decide (x = -1)); simpl; rewrite (IH v c Hv Hc); reflexivity.
Qed.

Lemma csr_row_memcpy (rownnz rowadr colind stack stack' : list Z) (v k : Z) :
  memcpy_int stack k colind (get rowadr v) (get rownnz v) = Ok stack' ->
  length stack' = length stack
  /\ take (Z.to_nat (k + get rownnz v)) stack'
     = take (Z.to_nat k) stack ++ csr_row rownnz rowadr colind v.
Proof.
  intros H. apply memcpy_int_Ok in H. destruct H as [(H1 & H2 & H3 & H4 & H5) ->].
  assert (Hrow : length (csr_row rownnz rowadr colind v) = Z.to_nat (get rownnz v)).
  { unfold csr_row. rewrite length_take, length_drop. lia. }
  fold (csr_row rownnz rowadr colind v). split.
  - rewrite !length_app, Hrow, length_take, length_drop. lia.
  - rewrite app_assoc.
    rewrite take_app_length'; [reflexivity|].
    rewrite length_app, Hrow, length_take. lia.
Qed.

Lemma csr_row_nonempty (rownnz rowadr colind : list Z) (u v : Z) :
  v ∈ csr_row rownnz rowadr colind u -> 0 <= get rownnz u -> get rownnz u <> 0.
Proof.
  unfold csr_row. intros H Hpos Hz. rewrite Hz in H. simpl in H. inversion H.
Qed.

Lemma elem_of_take_pop (stack : list Z) (n : Z) (w : Z) :
  0 < n <= Z.of_nat (length stack) ->
  w ∈ take (Z.to_nat n) stack ->
  w ∈ take (Z.to_nat (n - 1)) stack \/ rd stack (n - 1) = Ok w.
Proof.
  intros Hn Hw.
  destruct (lookup_lt_is_Some_2 stack (Z.to_nat (n - 1))) as [x Hx]; [lia|].
  replace (Z.to_nat n) with (S (Z.to_nat (n - 1))) in Hw by lia.
  rewrite (take_S_r _ _ _ Hx) in Hw. apply elem_of_app in Hw.
  destruct Hw as [Hw | Hw]; [left; exact Hw | right].
  apply list_elem_of_singleton in Hw. subst w. apply rd_Ok. split; [lia | exact Hx].
Qed.

Lemma elem_of_take_top (stack : list Z) (n : Z) (w : Z) :
  0 < n -> rd stack (n - 1) = Ok w -> w ∈ take (Z.to_nat n) stack.
Proof.
  intros Hn Hw. apply rd_Ok in Hw. destruct Hw as [_ Hw].
  replace (Z.to_nat n) with (S (Z.to_nat (n - 1))) by lia.
  rewrite (take_S_r _ _ _ Hw). apply elem_of_app. right. left.
Qed.

Lemma elem_of_take_mono (stack : list Z) (n1 n2 : nat) (w : Z) :
  (n1 <= n2)%nat -> w ∈ take n1 stack -> w ∈ take n2 stack.
Proof.
  intros Hle Hw. apply list_elem_of_lookup in Hw. destruct Hw as [i Hi].
  apply lookup_take_Some in Hi. destruct Hi as [Hi Hlt].
  apply list_elem_of_lookup. exists i. apply lookup_take_Some. split; [exact Hi | lia].
Qed.

Section FloodFill.

Variables (nr : Z) (rownnz rowadr colind : list Z).
Hypothesis Hvalid : csr_valid nr rownnz rowadr colind.

Local Abbreviation adj := (csr_adj nr rownnz rowadr colind).
Local Abbreviation conn := (csr_connected nr rownnz rowadr colind).
Local Abbreviation inv := (dfs_inv nr rownnz rowadr colind).

Lemma adj_nonisolated (u v : Z) : adj u v -> get rownnz u <> 0.
Proof.
  intros [Hu Hin]. eapply csr_row_nonempty; [exact Hin|].
  apply (csr_row_bounds _ _ _ _ Hvalid). exact Hu.
Qed.

Lemma adj_range (u v : Z) : adj u v -> 0 <= u < nr /\ 0 <= v < nr.
Proof.
  intros H. split; [exact (proj1 H) | exact (csr_col_range _ _ _ _ Hvalid _ _ H)].
Qed.

Lemma conn_sym (u v : Z) : conn u v -> conn v u.
Proof.
  intros H. induction H as [|x y z Hxy Hyz IH]; [reflexivity|].
  eapply rtc_r; [exact IH|]. apply (csr_symmetric _ _ _ _ Hvalid). exact Hxy.
Qed.

Lemma dfs_inv_pop_labelled (c i0 : Z) (L stack : list Z) (nstack v : Z) :
  inv c i0 L stack nstack -> 0 < nstack ->
  rd stack (nstack - 1) = Ok v -> get L v <> -1 ->
  inv c i0 L stack (nstack - 1).
Proof.
  intros [I1 I2 I3 I4 I5 I6 I7 I8 I9 I10 I11] Hpos Hv Hlab.
  assert (Htop : v ∈ take (Z.to_nat nstack) stack) by (eapply elem_of_take_top; eauto).
  assert (Hvc : get L v = c).
  { destruct (I8 v Htop) as (_ & _ & [? | ?] & _); [contradiction | assumption]. }
  assert (Hsub : forall w, w ∈ take (Z.to_nat nstack) stack ->
            w ∈ take (Z.to_nat (nstack - 1)) stack \/ w = v).
  { intros w Hw. destruct (elem_of_take_pop stack nstack w) as [? | Hr]; [lia | exact Hw | auto |].
    right. congruence. }
  constructor; auto.
  - lia.
  - intros u w Hadj Hu. destruct (I7 u w Hadj Hu) as [? | Hw]; [auto|].
    destruct (Hsub w Hw) as [? | ->]; auto.
  - intros w Hw. apply I8. eapply elem_of_take_mono; [|exact Hw]. lia.
  - destruct I10 as [? | Hw]; [auto|].
    destruct (Hsub i0 Hw) as [? | ->]; auto.
  - lia.
Qed.

Lemma dfs_memcpy_fits (c i0 : Z) (L stack : list Z) (nstack v : Z) :
  inv c i0 L stack nstack -> 0 < nstack ->
  csr_nnz nr rownnz <= Z.of_nat (length stack) ->
  0 <= v < nr -> get L v = -1 ->
  exists stack',
    memcpy_int stack (nstack - 1) colind (get rowadr v) (get rownnz v) = Ok stack'.
Proof.
  intros [I1 I2 I3 I4 I5 I6 I7 I8 I9 I10 I11] Hpos Hcap Hv Hlab.
  destruct (csr_row_bounds _ _ _ _ Hvalid v Hv) as (B1 & B2 & B3).
  assert (Hle : get rownnz v <= unlabelled_nnz nr rownnz L).
  { apply unlabelled_nnz_ge; [|exact Hv | exact Hlab].
    intros u Hu. apply (csr_row_bounds _ _ _ _ Hvalid u Hu). }
  eexists. apply memcpy_int_Ok. split; [|reflexivity].
  repeat split; lia.
Qed.

Lemma dfs_inv_pop_unlabelled (c i0 : Z) (L stack stack' : list Z) (nstack v : Z) :
  inv c i0 L stack nstack -> 0 < nstack -> 0 <= c ->
  rd stack (nstack - 1) = Ok v -> get L v = -1 ->
  memcpy_int stack (nstack - 1) colind (get rowadr v) (get rownnz v) = Ok stack' ->
  inv c i0 (<[Z.to_nat v := c]> L) stack' (nstack - 1 + get rownnz v)
  /\ length stack' = length stack.
Proof.
  intros [I1 I2 I3 I4 I5 I6 I7 I8 I9 I10 I11] Hpos Hc Hv Hlab Hcpy.
  assert (Htop : v ∈ take (Z.to_nat nstack) stack) by (eapply elem_of_take_top; eauto).
  destruct (I8 v Htop) as (Hvr & Hvnz & _ & Hvconn).
  destruct (csr_row_bounds _ _ _ _ Hvalid v Hvr) as (B1 & B2 & B3).
  destruct (csr_row_memcpy _ _ _ _ _ _ _ Hcpy) as [Hlen Htake].
  assert (Hsub : forall w, w ∈ take (Z.to_nat nstack) stack ->
            w ∈ take (Z.to_nat (nstack - 1 + get rownnz v)) stack' \/ w = v).
  { intros w Hw. destruct (elem_of_take_pop stack nstack w) as [Hin | Hr]; [lia | exact Hw | |].
    - left. rewrite Htake. apply elem_of_app. left. exact Hin.
    - right. congruence. }
  assert (Hrow : forall w, w ∈ csr_row rownnz rowadr colind v ->
            w ∈ take (Z.to_nat (nstack - 1 + get rownnz v)) stack').
  { intros w Hw. rewrite Htake. apply elem_of_app. right. exact Hw. }
  assert (Hget : forall w, w <> v -> get (<[Z.to_nat v := c]> L) w = get L w).
  { intros w Hw. apply get_insert_ne; [lia | congruence]. }
  assert (Hgetv : get (<[Z.to_nat v := c]> L) v = c).
  { apply get_insert_eq. lia. }
  assert (Hvi0 : i0 <= v).
  { destruct (Z.le_gt_cases i0 v) as [? | Hlt]; [assumption|].
    destruct (I4 v) as [? | ?]; [lia | lia | contradiction]. }
  split; [|exact Hlen].
  constructor.
  - rewrite length_insert. exact I1.
  - rewrite Hlen.
    apply memcpy_int_Ok in Hcpy. destruct Hcpy as [(H1 & H2 & H3 & H4 & H5) _]. lia.
  - intros w Hw. destruct (Z.eq_dec w v) as [-> | Hne].
    + rewrite Hgetv. right. lia.
    + rewrite Hget by exact Hne. auto.
  - intros w Hw. rewrite Hget by lia. auto.
  - intros w Hw Hz. rewrite Hget by congruence. auto.
  - intros u w Hadj Hu.
    assert (Hune : u <> v) by (intros ->; rewrite Hgetv in Hu; lia).
    rewrite (Hget u Hune) in Hu. rewrite (Hget u Hune).
    pose proof (I6 u w Hadj Hu) as Hw.
    assert (Hwne : w <> v) by (intros ->; lia).
    rewrite (Hget w Hwne). exact Hw.
  - intros u w Hadj Hu. destruct (Z.eq_dec u v) as [-> | Hune].
    + right. apply Hrow. exact (proj2 Hadj).
    + rewrite Hget in Hu by exact Hune.
      destruct (I7 u w Hadj Hu) as [Hw | Hw].
      * left. destruct (Z.eq_dec w v) as [-> | Hwne]; [exact Hgetv|].
        rewrite Hget by exact Hwne. exact Hw.
      * destruct (Hsub w Hw) as [? | ->]; [right; assumption | left; exact Hgetv].
  - intros w Hw. rewrite Htake in Hw. apply elem_of_app in Hw.
    destruct Hw as [Hw | Hw].
    + assert (Hw' : w ∈ take (Z.to_nat nstack) stack).
      { eapply elem_of_take_mono; [|exact Hw]. lia. }
      destruct (I8 w Hw') as (W1 & W2 & W3 & W4).
      split; [exact W1 | split; [exact W2 | split; [|exact W4]]].
      destruct (Z.eq_dec w v) as [-> | Hne]; [right; exact Hgetv|].
      rewrite Hget by exact Hne. exact W3.
    + assert (Hadj : adj v w) by (split; assumption).
      destruct (adj_range _ _ Hadj) as [_ Hwr].
      pose proof (csr_symmetric _ _ _ _ Hvalid _ _ Hadj) as Hadj'.
      split; [exact Hwr|]. split; [exact (adj_nonisolated _ _ Hadj')|].
      split; [|eapply rtc_r; eauto].
      destruct (Z.eq_dec w v) as [-> | Hne]; [right; exact Hgetv|].
      rewrite Hget by exact Hne.
      destruct (I3 w Hwr) as [? | Hold]; [left; assumption|].
      destruct (Z.eq_dec (get L w) c) as [? | Hnc]; [right; assumption|].
      exfalso. assert (Ho : 0 <= get L w < c) by lia.
      pose proof (I6 w v Hadj' Ho). lia.
  - intros w Hw Hwc. destruct (Z.eq_dec w v) as [-> | Hne].
    + auto.
    + rewrite Hget in Hwc by exact Hne. auto.
  - destruct I10 as [Hr | Hr].
    + left. destruct (Z.eq_dec i0 v) as [-> | Hne]; [exact Hgetv|].
      rewrite Hget by exact Hne. exact Hr.
    + destruct (Hsub i0 Hr) as [? | ->]; [right; assumption | left; exact Hgetv].
  - rewrite unlabelled_nnz_label; [lia | exact Hvr | lia | exact Hlab | lia].
Qed.

Lemma unlabelled_count_le (L : list Z) : (unlabelled_count L <= length L)%nat.
Proof. apply length_filter. Qed.

Lemma floodFill_dfs_correct (c i0 : Z) :
  0 <= c ->
  forall (fuel : nat) (L stack : list Z) (nstack : Z),
    inv c i0 L stack nstack ->
    csr_nnz nr rownnz <= Z.of_nat (length stack) ->
    (unlabelled_count L * S (length stack) + Z.to_nat nstack < fuel)%nat ->
    exists L' stack',
      floodFill_dfs fuel rownnz rowadr colind c L stack nstack = Ok (L', stack')
      /\ inv c i0 L' stack' 0
      /\ length stack' = length stack
      /\ dfs_frame c L L'.
Proof.
  intros Hc. induction fuel as [|fuel IH]; intros L stack nstack Hinv Hcap Hfuel; [lia|].
  cbn [floodFill_dfs].
  pose proof (dfs_stack_bound _ _ _ _ _ _ _ _ _ Hinv) as Hns.
  destruct (Z.eqb_spec nstack 0) as [-> | Hnz].
  - exists L, stack. split; [reflexivity|]. split; [exact Hinv|]. split; [reflexivity|].
    split; [reflexivity | intros v Hv; contradiction].
  - assert (Hpos : 0 < nstack) by lia.
    pose proof (rd_in_range stack (nstack - 1) ltac:(lia)) as Hrd.
    set (v := get stack (nstack - 1)) in *.
    rewrite Hrd. cbn [bind].
    assert (Htop : v ∈ take (Z.to_nat nstack) stack) by (eapply elem_of_take_top; eauto).
    destruct (dfs_stack_elems _ _ _ _ _ _ _ _ _ Hinv v Htop) as (Hvr & Hvnz & Hvl & Hvc).
    pose proof (dfs_len _ _ _ _ _ _ _ _ _ Hinv) as Hlen.
    rewrite (rd_in_range L v) by lia. cbn [bind].
    destruct (Z.eqb_spec (get L v) (-1)) as [Hu | Hl]; cbn [negb].
    + assert (Hwr : wr L v c = Ok (<[Z.to_nat v := c]> L)).
      { apply wr_Ok. split; [lia | reflexivity]. }
      rewrite Hwr. cbn [bind].
      rewrite (rd_in_range rowadr v)
        by (pose proof (csr_len_rowadr _ _ _ _ Hvalid); lia).
      rewrite (rd_in_range rownnz v)
        by (pose proof (csr_len_rownnz _ _ _ _ Hvalid); lia).
      cbn [bind].
      destruct (dfs_memcpy_fits _ _ _ _ _ _ Hinv Hpos Hcap Hvr Hu) as [stack' Hcpy].
      rewrite Hcpy. cbn [bind].
      destruct (dfs_inv_pop_unlabelled _ _ _ _ _ _ _ Hinv Hpos Hc Hrd Hu Hcpy)
        as [Hinv' Hlen'].
      pose proof (dfs_stack_bound _ _ _ _ _ _ _ _ _ Hinv') as Hns'.
      assert (Hcount : S (unlabelled_count (<[Z.to_nat v := c]> L)) = unlabelled_count L).
      { apply unlabelled_count_label; [|lia].
        pose proof (rd_in_range L v ltac:(lia)) as Hr. rewrite Hu in Hr.
        apply rd_Ok in Hr. tauto. }
      destruct (IH (<[Z.to_nat v := c]> L) stack' (nstack - 1 + get rownnz v) Hinv')
        as (L' & stack'' & Hrun & Hinv'' & Hlen'' & Hfr1 & Hfr2).
      * rewrite Hlen'. exact Hcap.
      * rewrite Hlen'. rewrite Hlen' in Hns'. rewrite <- Hcount in Hfuel. simpl in Hfuel.
        nia.
      * exists L', stack''. split; [exact Hrun|]. split; [exact Hinv''|].
        split; [congruence|]. split.
        -- intros w Hw. rewrite Hfr1.
           ++ apply get_insert_ne; [lia | congruence].
           ++ rewrite get_insert_ne; [exact Hw | lia | congruence].
        -- intros w Hw. destruct (Z.eq_dec (get L' w) (get (<[Z.to_nat v := c]> L) w)) as [He | Hne].
           ++ destruct (Z.eq_dec w v) as [-> | Hwv].
              ** rewrite He. apply get_insert_eq. lia.
              ** rewrite get_insert_ne in He by lia. contradiction.
           ++ apply Hfr2. exact Hne.
    + pose proof (dfs_inv_pop_labelled _ _ _ _ _ _ Hinv Hpos Hrd Hl) as Hinv'.
      apply (IH L stack (nstack - 1) Hinv' Hcap). lia.
Qed.

Local Abbreviation finv := (fill_inv nr rownnz rowadr colind).

Lemma fill_inv_skip (c i : Z) (L : list Z) :
  finv c i L -> 0 <= i < nr ->
  get L i <> -1 \/ get rownnz i = 0 ->
  finv c (i + 1) L.
Proof.
  intros [F1 F2 F3 F4 F5 F6 F7 F8 F9] Hi Hskip.
  constructor; auto.
  - intros v Hv. destruct (Z.eq_dec v i) as [-> | Hne]; [|apply F4; lia].
    destruct Hskip as [Hl | Hz]; [|right; exact Hz].
    destruct (F3 i Hi) as [? | ?]; [contradiction | left; assumption].
  - intros c' Hc'. destruct (F9 c' Hc') as (u & Hu & Hur & Hlu).
    exists u. split; [lia | auto].
Qed.

Lemma fill_inv_start (c i : Z) (L stack : list Z) :
  finv c i L -> 0 <= i < nr ->
  get L i = -1 -> get rownnz i <> 0 ->
  csr_nnz nr rownnz <= Z.of_nat (length stack) ->
  0 < Z.of_nat (length stack)
  /\ inv c i L (<[Z.to_nat 0 := i]> stack) 1.
Proof.
  intros [F1 F2 F3 F4 F5 F6 F7 F8 F9] Hi Hu Hnz Hcap.
  assert (Hpos : forall u, 0 <= u < nr -> 0 <= get rownnz u).
  { intros u Hu'. apply (csr_row_bounds _ _ _ _ Hvalid u Hu'). }
  pose proof (unlabelled_nnz_ge nr rownnz L i Hpos Hi Hu) as H1.
  pose proof (unlabelled_nnz_le_nnz nr rownnz L Hpos) as H2.
  pose proof (Hpos i Hi) as H3.
  assert (Hlen : 0 < Z.of_nat (length stack)) by lia.
  split; [exact Hlen|].
  assert (Htake : take (Z.to_nat 1) (<[Z.to_nat 0 := i]> stack) = [i]).
  { destruct stack as [|x stack]; [simpl in Hlen; lia|]. reflexivity. }
  constructor; auto.
  - rewrite length_insert. lia.
  - intros v Hv. destruct (F3 v Hv); [auto | right; lia].
  - intros u v Hadj Hu'. apply F6; [exact Hadj | lia].
  - intros u v Hadj Hu'. destruct (adj_range _ _ Hadj) as [Hur _].
    destruct (F3 u Hur); lia.
  - intros v Hv. rewrite Htake in Hv. apply list_elem_of_singleton in Hv. subst v.
    split; [exact Hi | split; [exact Hnz | split; [left; exact Hu | reflexivity]]].
  - intros v Hv Hvc. destruct (F3 v Hv); lia.
  - right. rewrite Htake. left.
  - lia.
Qed.

Lemma conn_closed (c i : Z) (L : list Z) (u v : Z) :
  finv c i L -> conn u v -> 0 <= get L u -> get L v = get L u.
Proof.
  intros Hf H. induction H as [|x y z Hxy Hyz IH]; intros Hx; [reflexivity|].
  pose proof (fill_closed _ _ _ _ _ _ _ Hf x y Hxy Hx) as Hy.
  rewrite IH by lia. exact Hy.
Qed.

Lemma fill_inv_next (c i : Z) (L L' stack' : list Z) :
  finv c i L -> 0 <= i < nr ->
  inv c i L' stack' 0 -> dfs_frame c L L' ->
  finv (c + 1) (i + 1) L'.
Proof.
  intros [F1 F2 F3 F4 F5 F6 F7 F8 F9] Hi [I1 I2 I3 I4 I5 I6 I7 I8 I9 I10 I11] [Hfr1 Hfr2].
  assert (Hempty : forall w, ~ w ∈ take (Z.to_nat 0) stack').
  { intros w Hw. simpl in Hw. inversion Hw. }
  assert (Hroot : get L' i = c).
  { destruct I10 as [? | Hw]; [assumption | destruct (Hempty _ Hw)]. }
  assert (Hold : forall v, get L' v <> c -> get L' v = get L v).
  { intros v Hv. destruct (Z.eq_dec (get L' v) (get L v)) as [? | Hne]; [assumption|].
    destruct (Hv (Hfr2 v Hne)). }
  constructor; auto.
  - lia.
  - intros v Hv. destruct (I3 v Hv); [auto | right; lia].
  - intros v Hv. destruct (Z.eq_dec v i) as [-> | Hne]; [left; lia|].
    destruct (F4 v) as [Hl | Hz]; [lia | | right; exact Hz].
    left. rewrite Hfr1; lia.
  - intros u v Hadj Hu. destruct (adj_range _ _ Hadj) as [Hur Hvr].
    destruct (Z.eq_dec (get L' u) c) as [Huc | Hune].
    + destruct (I7 u v Hadj Huc) as [? | Hw]; [congruence | destruct (Hempty _ Hw)].
    + apply I6; [exact Hadj|]. destruct (I3 u Hur); lia.
  - intros u v Hur Hvr Hu Heq.
    destruct (Z.eq_dec (get L' u) c) as [Huc | Hune].
    + destruct (I9 u Hur Huc) as (Cu & _). destruct (I9 v Hvr) as (Cv & _); [congruence|].
      etrans; [apply conn_sym; exact Cu | exact Cv].
    + apply F7; try assumption.
      * rewrite <- (Hold u Hune). exact Hu.
      * rewrite <- (Hold u Hune), <- (Hold v); congruence.
  - intros v Hv c' Hc'.
    destruct (Z.eq_dec (get L' v) c) as [Hvc | Hvne].
    + destruct (I9 v Hv Hvc) as (_ & Hiv & _).
      destruct (F9 c') as (u & Hu & Hur & Hlu); [lia|].
      exists u. split; [lia|]. rewrite Hfr1; lia.
    + rewrite (Hold v Hvne) in Hc'.
      destruct (F8 v Hv c' Hc') as (u & Hu & Hlu).
      exists u. split; [exact Hu|]. rewrite Hfr1; lia.
  - intros c' Hc'. destruct (Z.eq_dec c' c) as [-> | Hne].
    + exists i. split; [lia | split; [exact Hi | exact Hroot]].
    + destruct (F9 c') as (u & Hu & Hur & Hlu); [lia|].
      exists u. split; [lia | split; [exact Hur|]]. rewrite Hfr1; lia.
Qed.

Lemma floodFill_loop_correct :
  forall (n : nat) (i c : Z) (L stack : list Z),
    finv c i L -> 0 <= i -> i + Z.of_nat n = nr ->
    csr_nnz nr rownnz <= Z.of_nat (length stack) ->
    exists k L' stack',
      floodFill_loop n i rownnz rowadr colind c L stack = Ok (k, L', stack')
      /\ finv k nr L' /\ length stack' = length stack.
Proof.
  induction n as [|n IH]; intros i c L stack Hf Hi Hn Hcap.
  - exists c, L, stack. split; [reflexivity|]. split; [|reflexivity].
    assert (i = nr) by lia. subst i. exact Hf.
  - cbn [floodFill_loop].
    pose proof (fill_len _ _ _ _ _ _ _ Hf) as Hlen.
    rewrite (rd_in_range L i) by lia. cbn [bind].
    assert (Hir : 0 <= i < nr) by lia.
    destruct (Z.eqb_spec (get L i) (-1)) as [Hu | Hl]; cbn [negb bind].
    2:{ apply IH; [apply fill_inv_skip; auto | lia | lia | exact Hcap]. }
    rewrite (rd_in_range rownnz i)
      by (pose proof (csr_len_rownnz _ _ _ _ Hvalid); lia).
    cbn [bind].
    destruct (Z.eqb_spec (get rownnz i) 0) as [Hz | Hnz].
    { apply IH; [apply fill_inv_skip; auto | lia | lia | exact Hcap]. }
    destruct (fill_inv_start c i L stack Hf Hir Hu Hnz Hcap) as [Hpos Hinv].
    assert (Hwr : wr stack 0 i = Ok (<[Z.to_nat 0 := i]> stack)).
    { apply wr_Ok. split; [lia | reflexivity]. }
    rewrite Hwr. cbn [bind]. rewrite Z.add_0_l.
    destruct (floodFill_dfs_correct c i (fill_count _ _ _ _ _ _ _ Hf)
                (dfs_fuel L (<[Z.to_nat 0 := i]> stack)) L
                (<[Z.to_nat 0 := i]> stack) 1 Hinv)
      as (L' & stack' & Hrun & Hinv' & Hlen' & Hfr).
    + rewrite length_insert. exact Hcap.
    + unfold dfs_fuel. pose proof (unlabelled_count_le L). nia.
    + rewrite Hrun. cbn [bind].
      destruct (IH (i + 1) (c + 1) L' stack') as (k & L'' & stack'' & Hrun' & Hf' & Hlen'').
      * eapply fill_inv_next; eauto.
      * lia.
      * lia.
      * rewrite Hlen', length_insert. exact Hcap.
      * exists k, L'', stack''. split; [exact Hrun'|]. split; [exact Hf'|].
        rewrite Hlen'', Hlen', length_insert. reflexivity.
Qed.

Lemma fill_inv_init (L : list Z) :
  Z.of_nat (length L) = nr -> (forall v, 0 <= v < nr -> get L v = -1) ->
  finv 0 0 L.
Proof.
  intros Hlen Hall. constructor; auto.
  - lia.
  - intros v Hv. lia.
  - intros u v Hadj Hu. destruct (adj_range _ _ Hadj) as [Hur _].
    rewrite (Hall u Hur) in Hu. lia.
  - intros u v Hu Hv Hlu. rewrite (Hall u Hu) in Hlu. lia.
  - intros v Hv c' Hc'. rewrite (Hall v Hv) in Hc'. lia.
  - intros c' Hc'. lia.
Qed.

Lemma fill_inv_spec (k : Z) (L : list Z) :
  finv k nr L -> floodFill_spec nr rownnz rowadr colind L k.
Proof.
  intros Hf. pose proof Hf as [F1 F2 F3 F4 F5 F6 F7 F8 F9].
  assert (Hrd : forall v, 0 <= v < nr -> rd L v = Ok (get L v)).
  { intros v Hv. apply rd_in_range. lia. }
  constructor.
  - exact F1.
  - exact F2.
  - intros v Hv. split.
    + intros Hr. apply get_rd in Hr. destruct (F4 v Hv); [lia | assumption].
    + intros Hz. rewrite (Hrd v Hv), (F5 v Hv Hz). reflexivity.
  - intros v Hv Hnz. exists (get L v). split; [apply Hrd; exact Hv|].
    destruct (F4 v Hv); [lia | contradiction].
  - intros u v Hu Hv Hunz Hvnz.
    assert (Hlu : 0 <= get L u) by (destruct (F4 u Hu); [lia | contradiction]).
    split.
    + intros Heq. apply F7; assumption.
    + intros Hc. symmetry. eapply conn_closed; eauto.
  - split.
    + intros v c Hr Hc c' Hc'. pose proof (rd_lt _ _ _ Hr) as Hv.
      apply get_rd in Hr. subst c.
      destruct (F8 v ltac:(lia) c' Hc') as (u & Hu & Hlu).
      exists u. split; [lia|]. rewrite (Hrd u) by lia. congruence.
    + intros c Hc. destruct (F9 c Hc) as (u & _ & Hu & Hlu).
      exists u. rewrite (Hrd u Hu). congruence.
Qed.

(** Total correctness of [mj_floodFill] on a symmetric matrix, with an
    island array of [nr] cells and a stack of at least [nnz] cells. *)
Lemma mj_floodFill_correct (island stack : list Z) :
  Z.of_nat (length island) = nr ->
  csr_nnz nr rownnz <= Z.of_nat (length stack) ->
  exists k island' stack',
    mj_floodFill island nr rownnz rowadr colind stack = Ok (k, island', stack')
    /\ floodFill_spec nr rownnz rowadr colind island' k.
Proof.
  intros Hlen Hcap. unfold mj_floodFill.
  assert (Hfill : exists L0, fill island (Z.to_nat nr) 0 (-1) = Ok L0
            /\ length L0 = length island
            /\ forall v, 0 <= v < nr -> get L0 v = -1).
  { assert (G : forall (n : nat) (a : list Z) (i : Z),
              0 <= i -> i + Z.of_nat n <= Z.of_nat (length a) ->
              exists a', fill a n i (-1) = Ok a').
    { induction n as [|n IHn]; intros a i Hi Hn; [eexists; reflexivity|].
      simpl. assert (Hw : wr a i (-1) = Ok (<[Z.to_nat i := -1]> a))
        by (apply wr_Ok; split; [lia | reflexivity]).
      rewrite Hw. cbn [bind]. apply IHn; [lia | rewrite length_insert; lia]. }
    destruct (G (Z.to_nat nr) island 0) as [L0 HL0]; [lia | lia |].
    exists L0. split; [exact HL0|].
    apply fill_Ok in HL0. destruct HL0 as (H1 & H2 & _).
    split; [exact H1|]. intros v Hv. apply get_rd. apply H2. lia. }
  destruct Hfill as (L0 & -> & HlenL0 & Hall). cbn [bind].
  pose proof (csr_nr _ _ _ _ Hvalid) as Hnr.
  destruct (floodFill_loop_correct (Z.to_nat nr) 0 0 L0 stack)
    as (k & L' & stack' & Hrun & Hf & _).
  - apply fill_inv_init; [lia | exact Hall].
  - lia.
  - lia.
  - exact Hcap.
  - exists k, L', stack'. split; [exact Hrun|]. apply fill_inv_spec. exact Hf.
Qed.

End FloodFill.

(** The contract determines the result: the island array and the count
    depend only on which rows are empty and on which vertices are
    connected. *)
Lemma floodFill_spec_unique (nr : Z)
    (rownnz1 rowadr1 colind1 rownnz2 rowadr2 colind2 L1 L2 : list Z) (k1 k2 : Z) :
  floodFill_spec nr rownnz1 rowadr1 colind1 L1 k1 ->
  floodFill_spec nr rownnz2 rowadr2 colind2 L2 k2 ->
  csr_same_isolated nr rownnz1 rownnz2 ->
  (forall u v, 0 <= u < nr -> 0 <= v < nr ->
     (csr_connected nr rownnz1 rowadr1 colind1 u v
      <-> csr_connected nr rownnz2 rowadr2 colind2 u v)) ->
  L1 = L2 /\ k1 = k2.
Proof.
  intros [A1 A0 A2 A3 A4 [A5 A6]] [B1 B0 B2 B3 B4 [B5 B6]] Hiso Hconn.
  assert (Hrd1 : forall v, 0 <= v < nr -> rd L1 v = Ok (get L1 v))
    by (intros v Hv; apply rd_in_range; lia).
  assert (Hrd2 : forall v, 0 <= v < nr -> rd L2 v = Ok (get L2 v))
    by (intros v Hv; apply rd_in_range; lia).
  assert (Hlab : forall (n : nat) v, 0 <= v < nr -> (Z.to_nat v < n)%nat ->
            get L1 v = get L2 v).
  { induction n as [|n IH]; intros v Hv Hn; [lia|].
    destruct (Z.eq_dec (get rownnz1 v) 0) as [Hz | Hnz].
    - pose proof (proj2 (A2 v Hv) Hz) as H1.
      pose proof (proj2 (B2 v Hv) (proj1 (Hiso v Hv) Hz)) as H2.
      rewrite (get_rd _ _ _ H1), (get_rd _ _ _ H2). reflexivity.
    - assert (Hnz2 : get rownnz2 v <> 0) by (rewrite <- (Hiso v Hv); exact Hnz).
      destruct (A3 v Hv Hnz) as (c1 & Hc1 & Hr1).
      destruct (B3 v Hv Hnz2) as (c2 & Hc2 & Hr2).
      rewrite (get_rd _ _ _ Hc1), (get_rd _ _ _ Hc2).
      destruct (Z.lt_trichotomy c1 c2) as [Hlt | [? | Hgt]]; [exfalso | assumption | exfalso].
      + destruct (B5 v c2 Hc2 ltac:(lia) c1 ltac:(lia)) as (u & Hu & Hlu).
        pose proof (rd_lt _ _ _ Hlu) as Hur.
        assert (Heq : get L1 u = get L2 u) by (apply IH; lia).
        assert (Hunz2 : get rownnz2 u <> 0).
        { intros Hz. pose proof (proj2 (B2 u ltac:(lia)) Hz) as Hm. rewrite Hlu in Hm.
          injection Hm as Hm. lia. }
        assert (Hunz1 : get rownnz1 u <> 0) by (rewrite (Hiso u ltac:(lia)); exact Hunz2).
        assert (Hc : csr_connected nr rownnz1 rowadr1 colind1 u v).
        { apply A4; try assumption; try lia.
          rewrite Heq, (get_rd _ _ _ Hlu), (get_rd _ _ _ Hc1). reflexivity. }
        apply Hconn in Hc; [|lia | lia].
        apply B4 in Hc; try assumption; try lia.
        rewrite (get_rd _ _ _ Hlu), (get_rd _ _ _ Hc2) in Hc. lia.
      + destruct (A5 v c1 Hc1 ltac:(lia) c2 ltac:(lia)) as (u & Hu & Hlu).
        pose proof (rd_lt _ _ _ Hlu) as Hur.
        assert (Heq : get L1 u = get L2 u) by (apply IH; lia).
        assert (Hunz1 : get rownnz1 u <> 0).
        { intros Hz. pose proof (proj2 (A2 u ltac:(lia)) Hz) as Hm. rewrite Hlu in Hm.
          injection Hm as Hm. lia. }
        assert (Hunz2 : get rownnz2 u <> 0) by (rewrite <- (Hiso u ltac:(lia)); exact Hunz1).
        assert (Hc : csr_connected nr rownnz2 rowadr2 colind2 u v).
        { apply B4; try assumption; try lia.
          rewrite <- Heq, (get_rd _ _ _ Hlu), (get_rd _ _ _ Hc2). reflexivity. }
        apply Hconn in Hc; [|lia | lia].
        apply A4 in Hc; try assumption; try lia.
        rewrite (get_rd _ _ _ Hlu), (get_rd _ _ _ Hc1) in Hc. lia. }
  assert (HL : L1 = L2).
  { apply list_eq. intros n.
    destruct (decide (n < length L1)%nat) as [Hlt | Hge].
    - pose proof (Hrd1 (Z.of_nat n) ltac:(lia)) as H1.
      pose proof (Hrd2 (Z.of_nat n) ltac:(lia)) as H2.
      rewrite (Hlab (S n) (Z.of_nat n)) in H1 by lia.
      apply rd_Ok in H1, H2. rewrite Nat2Z.id in H1, H2. destruct H1, H2. congruence.
    - rewrite !lookup_ge_None_2 by lia. reflexivity. }
  split; [exact HL|]. subst L2.
  destruct (Z.lt_trichotomy k1 k2) as [Hlt | [? | Hgt]]; [exfalso | assumption | exfalso].
  - destruct (B6 k1 ltac:(lia)) as (v & Hv). pose proof (rd_lt _ _ _ Hv) as Hvr.
    assert (Hnz : get rownnz1 v <> 0).
    { intros Hz. pose proof (proj2 (A2 v ltac:(lia)) Hz) as Hm. rewrite Hv in Hm.
      injection Hm as Hm. lia. }
    destruct (A3 v ltac:(lia) Hnz) as (c & Hc & Hcr). rewrite Hv in Hc.
    injection Hc as <-. lia.
  - destruct (A6 k2 ltac:(lia)) as (v & Hv). pose proof (rd_lt _ _ _ Hv) as Hvr.
    assert (Hnz : get rownnz2 v <> 0).
    { intros Hz. pose proof (proj2 (B2 v ltac:(lia)) Hz) as Hm. rewrite Hv in Hm.
      injection Hm as Hm. lia. }
    destruct (B3 v ltac:(lia) Hnz) as (c & Hc & Hcr). rewrite Hv in Hc.
    injection Hc as <-. lia.
Qed.

Lemma conn_off_diagonal (nr : Z)
    (rownnz1 rowadr1 colind1 rownnz2 rowadr2 colind2 : list Z) (u v : Z) :
  csr_same_off_diagonal nr rownnz1 rowadr1 colind1 rownnz2 rowadr2 colind2 ->
  csr_connected nr rownnz1 rowadr1 colind1 u v ->
  csr_connected nr rownnz2 rowadr2 colind2 u v.
Proof.
  intros Hsame H. induction H as [|x y z [Hx Hxy] Hyz IH]; [reflexivity|].
  destruct (Z.eq_dec y x) as [-> | Hne]; [exact IH|].
  eapply rtc_l; [|exact IH]. split; [exact Hx|].
  apply (Hsame x y Hx Hne). exact Hxy.
Qed.

(** C3 as amended: on a symmetric matrix, with a stack of at least [nnz]
    cells, [mj_floodFill] returns; it writes -1 exactly at the vertices with
    an empty row and values in [0, k) elsewhere, [k] being the count it
    returns; two vertices with nonempty rows get the same value exactly when
    they are connected; and the result is the same for every other symmetric
    matrix with the same empty rows whose rows list the same vertices once
    duplicates and diagonal entries are disregarded. *)
Theorem mj_floodFill_islands (nr : Z) (rownnz rowadr colind island stack : list Z) :
  csr_valid nr rownnz rowadr colind ->
  Z.of_nat (length island) = nr ->
  csr_nnz nr rownnz <= Z.of_nat (length stack) ->
  exists k island' stack',
    mj_floodFill island nr rownnz rowadr colind stack = Ok (k, island', stack')
    /\ floodFill_spec nr rownnz rowadr colind island' k
    /\ forall rownnz2 rowadr2 colind2 island2 stack2,
         csr_valid nr rownnz2 rowadr2 colind2 ->
         Z.of_nat (length island2) = nr ->
         csr_nnz nr rownnz2 <= Z.of_nat (length stack2) ->
         csr_same_isolated nr rownnz rownnz2 ->
         csr_same_off_diagonal nr rownnz rowadr colind rownnz2 rowadr2 colind2 ->
         exists stack2',
           mj_floodFill island2 nr rownnz2 rowadr2 colind2 stack2
           = Ok (k, island', stack2').
Proof.
  intros Hvalid Hlen Hcap.
  destruct (mj_floodFill_correct _ _ _ _ Hvalid island stack Hlen Hcap)
    as (k & island' & stack' & Hrun & Hspec).
  exists k, island', stack'. split; [exact Hrun|]. split; [exact Hspec|].
  intros rownnz2 rowadr2 colind2 island2 stack2 Hvalid2 Hlen2 Hcap2 Hiso Hsame.
  destruct (mj_floodFill_correct _ _ _ _ Hvalid2 island2 stack2 Hlen2 Hcap2)
    as (k2 & island2' & stack2' & Hrun2 & Hspec2).
  destruct (floodFill_spec_unique _ _ _ _ _ _ _ _ _ _ _ Hspec Hspec2 Hiso) as [-> ->].
  - intros u v Hu Hv. split; apply conn_off_diagonal; [exact Hsame|].
    intros a b Ha Hab. symmetry. apply Hsame; assumption.
  - exists stack2'. exact Hrun2.
Qed.

Lemma csr_validb_sound (nr : Z) (rownnz rowadr colind : list Z) :
  csr_validb nr rownnz rowadr colind = true -> csr_valid nr rownnz rowadr colind.
Proof.
  unfold csr_validb. intros H.
  apply andb_prop in H. destruct H as [H H4].
  apply andb_prop in H. destruct H as [H H3].
  apply andb_prop in H. destruct H as [H1 H2].
  rewrite forallb_forall in H4.
  assert (Hrow : forall u, 0 <= u < nr ->
            (0 <= get rownnz u /\ 0 <= get rowadr u
             /\ get rowadr u + get rownnz u <= Z.of_nat (length colind))
            /\ forall v, v ∈ csr_row rownnz rowadr colind u ->
                 0 <= v < nr /\ u ∈ csr_row rownnz rowadr colind v).
  { intros u Hu. specialize (H4 u).
    rewrite <- list_elem_of_In, elem_of_seqZ0 in H4. specialize (H4 Hu).
    apply andb_prop in H4. destruct H4 as [H4 H8].
    apply andb_prop in H4. destruct H4 as [H4 H7].
    apply andb_prop in H4. destruct H4 as [H5 H6].
    split; [lia|]. intros v Hv.
    rewrite forallb_forall in H8. specialize (H8 v).
    rewrite <- list_elem_of_In in H8. specialize (H8 Hv).
    apply andb_prop in H8. destruct H8 as [H8 H11].
    apply andb_prop in H8. destruct H8 as [H9 H10].
    split; [lia|]. apply existsb_exists in H11. destruct H11 as (w & Hw & Hwu).
    apply Z.eqb_eq in Hwu. subst w. apply list_elem_of_In. exact Hw. }
  constructor; try lia.
  - intros v Hv. apply (Hrow v Hv).
  - intros u v [Hu Huv]. apply (proj2 (Hrow u Hu) v Huv).
  - intros u v [Hu Huv]. destruct (proj2 (Hrow u Hu) v Huv) as [Hv Hvu]. split; assumption.
Qed.

(** C3, counterexample: the matrix over two vertices with no entry and the
    one with a single self-loop at vertex 0 list the same vertices in every
    row once the diagonal is disregarded, yet the first gives no island and
    the second gives one. *)
Lemma floodFill_self_loop_alters_result :
  ~ (forall rownnz1 rowadr1 colind1 rownnz2 rowadr2 colind2 island stack1 stack2 r1 r2,
       csr_valid 2 rownnz1 rowadr1 colind1 ->
       csr_valid 2 rownnz2 rowadr2 colind2 ->
       csr_same_off_diagonal 2 rownnz1 rowadr1 colind1 rownnz2 rowadr2 colind2 ->
       mj_floodFill island 2 rownnz1 rowadr1 colind1 stack1 = Ok r1 ->
       mj_floodFill island 2 rownnz2 rowadr2 colind2 stack2 = Ok r2 ->
       fst r1 = fst r2).
Proof.
  intros H.
  specialize (H [0; 0] [0; 0] [] [1; 0] [0; 1] [0] [7; 7] [7] [7]
                (0, [-1; -1], [7]) (1, [0; -1], [0])).
  assert (Hc : (0, [-1; -1]) = (1, [0; -1])); [|discriminate Hc].
  apply H.
  - apply csr_validb_sound. reflexivity.
  - apply csr_validb_sound. reflexivity.
  - intros u v Hu Hne.
    assert (Hcase : u = 0 \/ u = 1) by lia.
    destruct Hcase as [-> | ->]; vm_compute csr_row.
    + split; intros Hv; [inversion Hv|].
      apply list_elem_of_singleton in Hv. contradiction.
    + reflexivity.
  - reflexivity.
  - reflexivity.
Qed.

Lemma mj_floodFill_islands_witness :
  csr_valid 3 [2; 1; 1] [0; 2; 3] [1; 1; 0; 2]
  /\ exists stack',
       mj_floodFill [7; 7; 7] 3 [2; 1; 1] [0; 2; 3] [1; 1; 0; 2] [7; 7; 7; 7]
       = Ok (2, [0; 0; 1], stack')
       /\ floodFill_spec 3 [2; 1; 1] [0; 2; 3] [1; 1; 0; 2] [0; 0; 1] 2.
Proof.
  assert (Hv : csr_valid 3 [2; 1; 1] [0; 2; 3] [1; 1; 0; 2])
    by (apply csr_validb_sound; reflexivity).
  split; [exact Hv|].
  destruct (mj_floodFill_islands 3 [2; 1; 1] [0; 2; 3] [1; 1; 0; 2] [7; 7; 7]
              [7; 7; 7; 7] Hv eq_refl)
    as (k & island' & stack' & Hrun & Hspec & _).
  { vm_compute. discriminate. }
  vm_compute in Hrun. injection Hrun as <- <- <-.
  eexists. split; [reflexivity | exact Hspec].
Defined.

(** ** The edge collector *)

Lemma edge_records_snoc (edge : list Z) (n : Z) :
  0 <= n ->
  edge_records edge (n + 1)
  = edge_records edge n ++ [(get edge (2 * n), get edge (2 * n + 1))].
Proof.
  intros Hn. unfold edge_records. rewrite seqZ_app by lia. rewrite map_app.
  f_equal.
Qed.

Lemma edge_records_ext (edge edge' : list Z) (n : Z) :
  (forall p, 0 <= p < 2 * n -> get edge' p = get edge p) ->
  edge_records edge' n = edge_records edge n.
Proof.
  intros H. unfold edge_records. apply map_ext_in. intros e He.
  apply list_elem_of_In, elem_of_seqZ0 in He.
  rewrite !H by lia. reflexivity.
Qed.

Lemma edge_records_last (edge : list Z) (n : Z) :
  0 < n ->
  (get edge (2 * n - 2), get edge (2 * n - 1)) ∈ edge_records edge n.
Proof.
  intros Hn. unfold edge_records. apply list_elem_of_fmap.
  exists (n - 1). split; [f_equal; f_equal; lia | apply elem_of_seqZ0; lia].
Qed.

Lemma cols_of_app t l1 l2 : cols_of t (l1 ++ l2) = cols_of t l1 ++ cols_of t l2.
Proof. unfold cols_of. rewrite filter_app, map_app. reflexivity. Qed.

Lemma cols_of_single t a b :
  cols_of t [(a, b)] = if decide (a = t) then [b] else [].
Proof.
  unfold cols_of. rewrite filter_cons, filter_nil. simpl.
  destruct (decide (a = t)); reflexivity.
Qed.

Lemma count_src_app t l1 l2 : count_src t (l1 ++ l2) = count_src t l1 + count_src t l2.
Proof. unfold count_src. rewrite cols_of_app, length_app. lia. Qed.

Lemma count_src_single t a b :
  count_src t [(a, b)] = if decide (a = t) then 1 else 0.
Proof. unfold count_src. rewrite cols_of_single. destruct (decide (a = t)); reflexivity. Qed.

Lemma elem_of_cols_of t recs v : v ∈ cols_of t recs <-> (t, v) ∈ recs.
Proof.
  unfold cols_of. rewrite list_elem_of_fmap. split.
  - intros ([a b] & -> & Hr). apply list_elem_of_filter in Hr. simpl in Hr.
    destruct Hr as [-> Hr]. exact Hr.
  - intros Hr. exists (t, v). split; [reflexivity|].
    apply list_elem_of_filter. split; [reflexivity | exact Hr].
Qed.

Lemma fold_static_range (t1 t2 : Z) :
  ~ (t1 = -1 /\ t2 = -1) ->
  fst (fold_static t1 t2) <> -1 /\ snd (fold_static t1 t2) <> -1.
Proof.
  unfold fold_static. intros H.
  destruct (Z.eqb_spec t1 (-1)); destruct (Z.eqb_spec t2 (-1)); simpl;
    try destruct (Z.eqb_spec t2 (-1)); split; try lia; try (intros ?; apply H; lia).
Qed.

(** What a call of [addEdge] that returns does: it appends no record, a
    self-record, or a record and its flip, and in any case the edge between
    the folded endpoints is among the records afterwards. *)
Lemma addEdge_Ok (NT : Z) (treenedge edge : list Z) (nedge tree1 tree2 nedge_max : Z)
    (st' : edges) :
  edges_inv NT (treenedge, edge, nedge) ->
  addEdge treenedge edge nedge tree1 tree2 nedge_max = Ok st' ->
  let a := fst (fold_static tree1 tree2) in
  let b := snd (fold_static tree1 tree2) in
  edges_inv NT st'
  /\ length (snd (fst st')) = length edge
  /\ (exists new,
        edge_records (snd (fst st')) (snd st') = edge_records edge nedge ++ new
        /\ forall r, r ∈ new -> r = (a, b) \/ r = (b, a))
  /\ (a, b) ∈ edge_records (snd (fst st')) (snd st')
  /\ snd st' <= Z.max nedge nedge_max.
Proof.
  intros Hinv H. unfold addEdge in H. cbv zeta.
  destruct Hinv as [I1 I2 I3 I4 I5 I6]. simpl in I1, I2, I3, I4, I5, I6.
  destruct ((tree1 =? -1) && (tree2 =? -1)) eqn:Hboth; [discriminate|].
  unfold fold_static. cbv zeta. simpl.
  set (a := if tree1 =? -1 then tree2 else tree1) in *.
  set (b := if tree2 =? -1 then a else tree2) in *.
  inv_bind H. rename a0 into p1, E into Ep1.
  inv_bind H. rename a0 into p2, E into Ep2.
  assert (Hprev : nedge <> 0 -> (p1, p2) ∈ edge_records edge nedge).
  { intros Hnz. destruct (Z.eqb_spec nedge 0); [contradiction|].
    apply get_rd in Ep1, Ep2. subst p1 p2. apply edge_records_last. lia. }
  assert (Hsame : forall st0 : edges, st0 = (treenedge, edge, nedge) ->
            (a, b) ∈ edge_records edge nedge ->
            edges_inv NT st0 /\ length (snd (fst st0)) = length edge
            /\ (exists new, edge_records (snd (fst st0)) (snd st0)
                            = edge_records edge nedge ++ new
                  /\ forall r, r ∈ new -> r = (a, b) \/ r = (b, a))
            /\ (a, b) ∈ edge_records (snd (fst st0)) (snd st0)
            /\ snd st0 <= Z.max nedge nedge_max).
  { intros st0 -> Hin. simpl. split; [constructor; assumption|].
    split; [reflexivity|]. split; [|split; [exact Hin | lia]].
    exists []. rewrite app_nil_r. split; [reflexivity|]. intros r Hr. inversion Hr. }
  destruct (Z.eqb_spec a b) as [Hab | Hab].
  - (* self edge *)
    destruct (negb (nedge =? 0) && (a =? p1) && (a =? p2)) eqn:Hdup.
    + injection H as <-. apply Hsame; [reflexivity|].
      apply andb_prop in Hdup. destruct Hdup as [Hdup Hd3].
      apply andb_prop in Hdup. destruct Hdup as [Hd1 Hd2].
      apply Z.eqb_eq in Hd2, Hd3. rewrite <- Hab. rewrite Hd2 at 1. rewrite Hd3.
      apply Hprev. intros ->. discriminate.
    + destruct (Z.geb_spec nedge nedge_max) as [Hfull | Hroom]; [discriminate|].
      inv_bind H. rename a0 into e1, E into Ew1.
      inv_bind H. rename a0 into e2, E into Ew2.
      inv_bind H. rename a0 into c, E into Ec.
      inv_bind H. rename a0 into tn', E into Etn.
      injection H as <-. simpl.
      apply wr_Ok in Ew1. destruct Ew1 as [Hw1 ->].
      apply wr_Ok in Ew2. destruct Ew2 as [Hw2 ->].
      rewrite length_insert in Hw2.
      apply wr_Ok in Etn. destruct Etn as [Htn ->].
      set (edge' := <[Z.to_nat (2 * nedge + 1) := a]> (<[Z.to_nat (2 * nedge + 0) := a]> edge)).
      assert (Hrecs : edge_records edge' (nedge + 1) = edge_records edge nedge ++ [(a, a)]).
      { rewrite edge_records_snoc by lia. f_equal.
        - apply edge_records_ext. intros p Hp. unfold edge'.
          rewrite !get_insert_ne by lia. reflexivity.
        - unfold edge'. f_equal. f_equal.
          + rewrite get_insert_ne by lia.
            replace (2 * nedge) with (2 * nedge + 0) at 2 by lia.
            apply get_insert_eq. lia.
          + apply get_insert_eq. rewrite length_insert. lia. }
      rewrite Hrecs. split; [|split; [|split; [|split]]].
      * constructor; simpl.
        -- lia.
        -- unfold edge'. rewrite !length_insert. lia.
        -- rewrite length_insert. exact I3.
        -- intros t Ht. rewrite Hrecs, count_src_app, count_src_single, <- (I4 t Ht).
           apply get_rd in Ec. subst c.
           destruct (decide (a = t)) as [-> | Hne].
           ++ apply get_insert_eq. lia.
           ++ rewrite get_insert_ne by lia. lia.
        -- intros x y Hxy. rewrite Hrecs in Hxy. apply elem_of_app in Hxy.
           destruct Hxy as [Hxy | Hxy]; [apply I5; exact Hxy|].
           apply list_elem_of_singleton in Hxy. injection Hxy as -> ->. lia.
        -- intros x y Hxy. rewrite Hrecs in Hxy |- *. apply elem_of_app in Hxy.
           apply elem_of_app. destruct Hxy as [Hxy | Hxy]; [left; apply I6; exact Hxy|].
           right. apply list_elem_of_singleton in Hxy. injection Hxy as -> ->. left.
      * unfold edge'. rewrite !length_insert. reflexivity.
      * exists [(a, a)]. split; [reflexivity|]. intros r Hr.
        apply list_elem_of_singleton in Hr. subst r. left. rewrite Hab. reflexivity.
      * apply elem_of_app. right. rewrite <- Hab. left.
      * lia.
  - (* edge between two trees *)
    destruct (negb (nedge =? 0)
              && ((a =? p1) && (b =? p2) || (a =? p2) && (b =? p1))) eqn:Hdup.
    + injection H as <-. apply Hsame; [reflexivity|].
      apply andb_prop in Hdup. destruct Hdup as [Hd1 Hd2].
      assert (Hnz : nedge <> 0) by (intros ->; discriminate).
      apply orb_prop in Hd2. destruct Hd2 as [Hd2 | Hd2];
        apply andb_prop in Hd2; destruct Hd2 as [Hd2 Hd3];
        apply Z.eqb_eq in Hd2, Hd3.
      * rewrite Hd2, Hd3. apply Hprev. exact Hnz.
      * apply I6. rewrite Hd2, Hd3. apply Hprev. exact Hnz.
    + destruct (Z.gtb_spec (nedge + 2) nedge_max) as [Hfull | Hroom]; [discriminate|].
      inv_bind H. rename a0 into e1, E into Ew1.
      inv_bind H. rename a0 into e2, E into Ew2.
      inv_bind H. rename a0 into e3, E into Ew3.
      inv_bind H. rename a0 into e4, E into Ew4.
      inv_bind H. rename a0 into c1, E into Ec1.
      inv_bind H. rename a0 into tn1, E into Etn1.
      inv_bind H. rename a0 into c2, E into Ec2.
      inv_bind H. rename a0 into tn2, E into Etn2.
      injection H as <-. simpl.
      apply wr_Ok in Ew1. destruct Ew1 as [Hw1 ->].
      apply wr_Ok in Ew2. destruct Ew2 as [Hw2 ->].
      apply wr_Ok in Ew3. destruct Ew3 as [Hw3 ->].
      apply wr_Ok in Ew4. destruct Ew4 as [Hw4 ->].
      rewrite !length_insert in Hw2. rewrite !length_insert in Hw3.
      rewrite !length_insert in Hw4.
      apply wr_Ok in Etn1. destruct Etn1 as [Htn1 ->].
      apply wr_Ok in Etn2. destruct Etn2 as [Htn2 ->].
      rewrite length_insert in Htn2.
      set (edge' := <[Z.to_nat (2 * nedge + 3) := a]>
                      (<[Z.to_nat (2 * nedge + 2) := b]>
                         (<[Z.to_nat (2 * nedge + 1) := b]>
                            (<[Z.to_nat (2 * nedge + 0) := a]> edge)))).
      assert (Hrecs : edge_records edge' (nedge + 2)
                      = edge_records edge nedge ++ [(a, b); (b, a)]).
      { replace (nedge + 2) with (nedge + 1 + 1) by lia.
        rewrite edge_records_snoc by lia. rewrite edge_records_snoc by lia.
        rewrite <- app_assoc. f_equal.
        - apply edge_records_ext. intros p Hp. unfold edge'.
          rewrite !get_insert_ne by lia. reflexivity.
        - unfold edge'. simpl. f_equal; [f_equal | f_equal; f_equal].
          + rewrite !get_insert_ne by lia.
            replace (2 * nedge) with (2 * nedge + 0) at 2 by lia.
            apply get_insert_eq. lia.
          + rewrite !get_insert_ne by lia.
            apply get_insert_eq. rewrite length_insert. lia.
          + rewrite get_insert_ne by lia.
            replace (2 * (nedge + 1)) with (2 * nedge + 2) by lia.
            apply get_insert_eq. rewrite !length_insert. lia.
          + replace (2 * (nedge + 1) + 1) with (2 * nedge + 3) by lia.
            apply get_insert_eq. rewrite !length_insert. lia. }
      rewrite Hrecs. split; [|split; [|split; [|split]]].
      * constructor; simpl.
        -- lia.
        -- unfold edge'. rewrite !length_insert. lia.
        -- rewrite !length_insert. exact I3.
        -- intros t Ht. rewrite Hrecs. rewrite count_src_app.
           change [(a, b); (b, a)] with ([(a, b)] ++ [(b, a)]).
           rewrite count_src_app, !count_src_single, <- (I4 t Ht).
           apply get_rd in Ec1, Ec2. subst c1 c2.
           rewrite (get_insert_ne treenedge a b) by lia.
           destruct (decide (a = t)) as [Hat | Hat]; destruct (decide (b = t)) as [Hbt | Hbt].
           ++ congruence.
           ++ subst t. rewrite get_insert_ne by lia. rewrite get_insert_eq by lia. lia.
           ++ subst t. rewrite get_insert_eq by (rewrite length_insert; lia). lia.
           ++ rewrite !get_insert_ne by lia. lia.
        -- intros x y Hxy. rewrite Hrecs in Hxy. apply elem_of_app in Hxy.
           destruct Hxy as [Hxy | Hxy]; [apply I5; exact Hxy|].
           apply elem_of_cons in Hxy. destruct Hxy as [Hxy | Hxy].
           ++ injection Hxy as -> ->. lia.
           ++ apply list_elem_of_singleton in Hxy. injection Hxy as -> ->. lia.
        -- intros x y Hxy. rewrite Hrecs in Hxy |- *. apply elem_of_app in Hxy.
           apply elem_of_app. destruct Hxy as [Hxy | Hxy]; [left; apply I6; exact Hxy|].
           right. apply elem_of_cons in Hxy. destruct Hxy as [Hxy | Hxy].
           ++ injection Hxy as -> ->. right. left.
           ++ apply list_elem_of_singleton in Hxy. injection Hxy as -> ->. left.
      * unfold edge'. rewrite !length_insert. reflexivity.
      * exists [(a, b); (b, a)]. split; [reflexivity|]. intros r Hr.
        apply elem_of_cons in Hr. destruct Hr as [-> | Hr]; [left; reflexivity|].
        apply list_elem_of_singleton in Hr. right. exact Hr.
      * apply elem_of_app. right. left.
      * lia.
Qed.

Lemma rec_connected_mono (recs new : list (Z * Z)) (a b : Z) :
  rec_connected recs a b -> rec_connected (recs ++ new) a b.
Proof.
  intros H. induction H as [x y Hxy | x y z Hxy Hyz IH].
  - apply tc_once. unfold rec_adj in *. apply elem_of_app. left. exact Hxy.
  - eapply tc_l; [|exact IH]. unfold rec_adj in *. apply elem_of_app. left. exact Hxy.
Qed.

Lemma rec_connected_sym (recs : list (Z * Z)) (a b : Z) :
  (forall x y, (x, y) ∈ recs -> (y, x) ∈ recs) ->
  rec_connected recs a b -> rec_connected recs b a.
Proof.
  intros Hsym H. induction H as [x y Hxy | x y z Hxy Hyz IH].
  - apply tc_once. apply Hsym. exact Hxy.
  - eapply tc_r; [exact IH|]. apply Hsym. exact Hxy.
Qed.

(** The model of the fast paths reads the endpoint table. *)
Lemma findEdges_row_endpoints (m : mjModel) (d : mjData) (i nedge_max ty id : Z)
    (st : edges) :
  findEdges_row m d i nedge_max ty id st
  = (ep <- constraint_endpoints m d ty id ;;
     match ep with
     | Some (tree1, tree2) =>
         addEdge (fst (fst st)) (snd (fst st)) (snd st) tree1 tree2 nedge_max
     | None => findEdges_generic m d i nedge_max st
     end).
Proof.
  unfold findEdges_row, constraint_endpoints. destruct st as [[tn e] n]. simpl.
  destruct (ty =? mjCNSTR_FRICTION_DOF).
  { destruct (rd (dof_treeid m) id); reflexivity. }
  destruct (ty =? mjCNSTR_LIMIT_JOINT).
  { destruct (rd (jnt_dofadr m) id); simpl; [|reflexivity].
    destruct (rd (dof_treeid m) a); reflexivity. }
  destruct ((ty =? mjCNSTR_CONTACT_FRICTIONLESS) || (ty =? mjCNSTR_CONTACT_PYRAMIDAL)
            || (ty =? mjCNSTR_CONTACT_ELLIPTIC)).
  { destruct (rd_contact (contact d) id); simpl; [|reflexivity].
    destruct (rd (geom_bodyid m) (geom1 a)); simpl; [|reflexivity].
    destruct (rd (body_treeid m) a0); simpl; [|reflexivity].
    destruct (rd (geom_bodyid m) (geom2 a)); simpl; [|reflexivity].
    destruct (rd (body_treeid m) a2); reflexivity. }
  destruct (ty =? mjCNSTR_EQUALITY); [|reflexivity].
  destruct (rd (eq_type m) id); simpl; [|reflexivity].
  destruct ((a =? mjEQ_CONNECT) || (a =? mjEQ_WELD)); simpl; [|reflexivity].
  destruct (rd (eq_obj1id m) id); simpl; [|reflexivity].
  destruct (rd (body_treeid m) a0); simpl; [|reflexivity].
  destruct (rd (eq_obj2id m) id); simpl; [|reflexivity].
  destruct (rd (body_treeid m) a2); reflexivity.
Qed.

Lemma treeNext_cell (m : mjModel) (d : mjData) (tree i j0 : Z) r :
  treeNext m d tree i (Some j0) = Ok r ->
  exists t j, r = (t, Some j) /\ cell j0 (snd r) = j /\ fst r = t.
Proof.
  unfold treeNext. intros H. inv_bind H. destruct a as [t j].
  injection H as <-. exists t, j. auto.
Qed.

Lemma fold_static_id (a b : Z) : a <> -1 -> b <> -1 -> fold_static a b = (a, b).
Proof.
  intros Ha Hb. unfold fold_static.
  destruct (Z.eqb_spec a (-1)); [contradiction|].
  destruct (Z.eqb_spec b (-1)); [contradiction|]. reflexivity.
Qed.

Section Generic.

Variables (m : mjModel) (d : mjData) (NT i nedge_max : Z).
Hypothesis Hnn : forall c t, rd (dof_treeid m) c = Ok t -> 0 <= t.

Lemma row_entry_nonneg (p t : Z) : row_entry m d i p = Ok (Some t) -> 0 <= t.
Proof.
  unfold row_entry, sparse_entry, dense_entry. intros H.
  destruct (mj_isSparse m).
  - inv_bind H. inv_bind H. injection H as <-.
    inv_bind E0. eapply Hnn; eauto.
  - inv_bind H. destruct (a =? 0); [discriminate|].
    inv_bind H. injection H as <-. eapply Hnn; eauto.
Qed.

Lemma row_tree_nonneg (t : Z) : row_tree m d i t -> 0 <= t.
Proof. intros (p & _ & Hp). eapply row_entry_nonneg; eauto. Qed.

(** The chaining loop of the generic case. *)
Lemma findEdges_chain_Ok :
  forall (fuel : nat) (st st' : edges) (tree2 tree3 index : Z),
    edges_inv NT st ->
    (forall p t, 0 <= p < index -> row_entry m d i p = Ok (Some t) ->
       t = tree2 \/ rec_connected (edge_records (snd (fst st)) (snd st)) t tree2) ->
    ((tree3 = -1 /\ row_limit m d i <= index)
     \/ (0 <= index < row_limit m d i /\ tree3 <> tree2
         /\ row_entry m d i index = Ok (Some tree3))) ->
    row_tree m d i tree2 ->
    (exists w, (tree2, w) ∈ edge_records (snd (fst st)) (snd st)) ->
    findEdges_chain fuel m d i nedge_max st tree2 tree3 index = Ok st' ->
    edges_inv NT st'
    /\ length (snd (fst st')) = length (snd (fst st))
    /\ snd st <= snd st'
    /\ exists new cur,
         edge_records (snd (fst st')) (snd st')
         = edge_records (snd (fst st)) (snd st) ++ new
         /\ (forall x y, (x, y) ∈ new -> row_tree m d i x /\ row_tree m d i y)
         /\ (exists w, (cur, w) ∈ edge_records (snd (fst st')) (snd st'))
         /\ (forall t, row_tree m d i t ->
               t = cur \/ rec_connected (edge_records (snd (fst st')) (snd st')) t cur).
Proof.
  induction fuel as [|fuel IH]; intros st st' tree2 tree3 index Hinv H1 H2 Hrt H3 H;
    [discriminate|].
  cbn [findEdges_chain] in H.
  destruct ((tree3 >? -1) && negb (tree3 =? tree2)) eqn:Hcond.
  - apply andb_prop in Hcond. destruct Hcond as [Hc1 Hc2].
    apply Z.gtb_lt in Hc1. apply negb_true_iff, Z.eqb_neq in Hc2.
    destruct H2 as [[Hm _] | (Hidx & _ & Hent)]; [lia|].
    destruct st as [[tn e] n]. cbn [fst snd] in *.
    inv_bind H. rename a into st1, E into Eadd.
    inv_bind H. rename a into r, E into Enext.
    pose proof (row_tree_nonneg _ Hrt) as Ht2.
    destruct (addEdge_Ok NT _ _ _ _ _ _ _ Hinv Eadd) as (Hinv1 & Hlen1 & (new1 & Hrec1 & Hnew1) & Hin1 & _).
    rewrite fold_static_id in Hnew1, Hin1 by lia. cbn [fst snd] in Hnew1, Hin1.
    destruct (treeNext_cell _ _ _ _ _ _ Enext) as (t3 & idx & -> & Hcell & _).
    cbn [fst snd] in H. cbn [snd] in Hcell. rewrite Hcell in H.
    apply treeNext_scan in Enext. destruct Enext as [Hall Hcase].
    assert (Hrt3 : row_tree m d i tree3) by (exists index; auto).
    assert (Hle : index <= idx) by (destruct Hcase as [[_ ->] | (? & _)]; lia).
    destruct (IH st1 st' tree3 t3 idx Hinv1) with (5 := H)
      as (Hinv' & Hlen' & Hn' & new2 & cur & Hrec' & Hnew2 & Hcur & Hconn).
    + intros p t Hp Hpt. destruct (Z.lt_ge_cases p index) as [Hlt | Hge].
      * right. rewrite Hrec1.
        destruct (H1 p t ltac:(lia) Hpt) as [-> | Hc].
        -- apply tc_once. unfold rec_adj. rewrite <- Hrec1. exact Hin1.
        -- eapply tc_r; [apply rec_connected_mono; exact Hc|].
           unfold rec_adj. rewrite <- Hrec1. exact Hin1.
      * left. destruct (Hall p ltac:(lia)) as [Hn | Hs]; congruence.
    + destruct Hcase as [[-> ->] | (Hr & Hne & Hf)]; [left; split; lia | right].
      split; [lia | auto].
    + exact Hrt3.
    + exists tree2. apply (ei_sym _ _ Hinv1). exact Hin1.
    + split; [exact Hinv'|]. split; [congruence|].
      assert (Hn1 : n <= snd st1).
      { pose proof (f_equal length Hrec1) as Hl. unfold edge_records in Hl.
        rewrite length_app, !length_map, !length_seqZ in Hl.
        pose proof (ei_nedge _ _ Hinv1). pose proof (ei_nedge _ _ Hinv). cbn [snd] in *. lia. }
      split; [lia|].
      exists (new1 ++ new2), cur. split; [rewrite Hrec', Hrec1, app_assoc; reflexivity|].
      split; [|split; assumption].
      intros x y Hxy. apply elem_of_app in Hxy. destruct Hxy as [Hxy | Hxy]; [|auto].
      destruct (Hnew1 _ Hxy) as [Heq | Heq]; injection Heq as -> ->; auto.
  - injection H as <-.
    assert (Hlim : row_limit m d i <= index).
    { destruct H2 as [[_ ?] | (Hidx & Hne & Hent)]; [assumption|].
      pose proof (row_entry_nonneg _ _ Hent) as Hpos.
      apply andb_false_iff in Hcond. destruct Hcond as [Hc | Hc].
      - rewrite Z.gtb_ltb in Hc. apply Z.ltb_ge in Hc. lia.
      - apply negb_false_iff, Z.eqb_eq in Hc. contradiction. }
    split; [exact Hinv|]. split; [reflexivity|]. split; [lia|].
    exists [], tree2. rewrite app_nil_r. split; [reflexivity|].
    split; [intros x y Hxy; inversion Hxy|]. split; [exact H3|].
    intros t (p & Hp & Hpt). apply (H1 p t); [lia | exact Hpt].
Qed.

Lemma findEdges_generic_Ok (st st' : edges) :
  edges_inv NT st ->
  findEdges_generic m d i nedge_max st = Ok st' ->
  edges_inv NT st'
  /\ length (snd (fst st')) = length (snd (fst st))
  /\ snd st <= snd st'
  /\ exists new,
       edge_records (snd (fst st')) (snd st')
       = edge_records (snd (fst st)) (snd st) ++ new
       /\ (forall x y, (x, y) ∈ new -> row_tree m d i x /\ row_tree m d i y)
       /\ (forall a b, row_tree m d i a -> row_tree m d i b ->
             rec_connected (edge_records (snd (fst st')) (snd st')) a b).
Proof.
  intros Hinv H. unfold findEdges_generic in H.
  destruct st as [[tn e] n]. cbn [fst snd] in *.
  inv_bind H. rename a into r1, E into E1.
  destruct (treeNext_cell _ _ _ _ _ _ E1) as (tree1 & idx1 & -> & Hcell1 & _).
  cbn [fst snd] in H. cbn [snd] in Hcell1. rewrite Hcell1 in H.
  apply treeNext_scan in E1. destruct E1 as [Hall1 Hcase1].
  inv_bind H. rename a into r2, E into E2.
  destruct (treeNext_cell _ _ _ _ _ _ E2) as (tree2 & idx2 & -> & Hcell2 & _).
  cbn [fst snd] in H. cbn [snd] in Hcell2. rewrite Hcell2 in H.
  apply treeNext_scan in E2. destruct E2 as [Hall2 Hcase2].
  assert (Hnone : forall p t, 0 <= p < idx1 -> row_entry m d i p = Ok (Some t) -> False).
  { intros p t Hp Hpt. pose proof (row_entry_nonneg _ _ Hpt).
    destruct (Hall1 p Hp) as [Hn | Hs]; [congruence|].
    rewrite Hs in Hpt. injection Hpt as <-. lia. }
  assert (Hsymrec : forall st0 : edges, edges_inv NT st0 ->
            forall a b, rec_connected (edge_records (snd (fst st0)) (snd st0)) a b ->
                        rec_connected (edge_records (snd (fst st0)) (snd st0)) b a).
  { intros st0 Hst0 a b. apply rec_connected_sym. apply (ei_sym _ _ Hst0). }
  assert (Hfinish : forall (st0 : edges) cur,
            edges_inv NT st0 ->
            (exists w, (cur, w) ∈ edge_records (snd (fst st0)) (snd st0)) ->
            (forall t, row_tree m d i t ->
               t = cur \/ rec_connected (edge_records (snd (fst st0)) (snd st0)) t cur) ->
            forall a b, row_tree m d i a -> row_tree m d i b ->
              rec_connected (edge_records (snd (fst st0)) (snd st0)) a b).
  { intros st0 cur Hst0 [w Hw] Hconn a b Ha Hb.
    assert (Hcc : rec_connected (edge_records (snd (fst st0)) (snd st0)) cur cur).
    { eapply tc_l; [exact Hw|]. apply tc_once. apply (ei_sym _ _ Hst0). exact Hw. }
    destruct (Hconn a Ha) as [-> | Hac]; destruct (Hconn b Hb) as [-> | Hbc].
    - exact Hcc.
    - apply Hsymrec; assumption.
    - exact Hac.
    - etrans; [exact Hac | apply Hsymrec; assumption]. }
  destruct (Z.eqb_spec tree2 (-1)) as [-> | Hne2].
  - (* one tree: self-edge *)
    destruct (Z.eq_dec tree1 (-1)) as [-> | Hne1].
    { unfold addEdge in H. simpl in H. discriminate. }
    destruct Hcase1 as [[? _] | (Hr1 & _ & He1)]; [contradiction|].
    assert (Hlim : row_limit m d i <= idx2).
    { destruct Hcase2 as [[_ ->] | (Hr2 & _ & He2)]; [lia|].
      pose proof (row_entry_nonneg _ _ He2). lia. }
    destruct (addEdge_Ok NT _ _ _ _ _ _ _ Hinv H) as (Hinv' & Hlen' & (new & Hrec & Hnew) & Hin & _).
    rewrite fold_static_id in Hnew, Hin by lia. cbn [fst snd] in Hnew, Hin.
    assert (Hrt1 : row_tree m d i tree1) by (exists idx1; split; [lia | exact He1]).
    split; [exact Hinv'|]. split; [exact Hlen'|]. split.
    { pose proof (f_equal length Hrec) as Hl. unfold edge_records in Hl.
      rewrite length_app, !length_map, !length_seqZ in Hl.
      pose proof (ei_nedge _ _ Hinv'). pose proof (ei_nedge _ _ Hinv). cbn [snd] in *. lia. }
    exists new. split; [exact Hrec|]. split.
    + intros x y Hxy. destruct (Hnew _ Hxy) as [Heq | Heq]; injection Heq as -> ->; auto.
    + apply (Hfinish st' tree1 Hinv'); [exists tree1; exact Hin|].
      intros t (p & Hp & Hpt). left.
      destruct (Z.lt_ge_cases p idx1) as [Hlt | Hge]; [destruct (Hnone p t); [lia | auto]|].
      destruct (Hall2 p ltac:(lia)) as [Hn | Hs]; congruence.
  - (* two trees: an edge, then the chain *)
    destruct Hcase2 as [[? _] | (Hr2 & Hne12 & He2)]; [contradiction|].
    destruct Hcase1 as [[_ ->] | (Hr1 & Hne1 & He1)]; [lia|].
    inv_bind H. rename a into st1, E into Eadd.
    inv_bind H. rename a into r3, E into E3.
    destruct (treeNext_cell _ _ _ _ _ _ E3) as (tree3 & idx3 & -> & Hcell3 & _).
    cbn [fst snd] in H. cbn [snd] in Hcell3. rewrite Hcell3 in H.
    apply treeNext_scan in E3. destruct E3 as [Hall3 Hcase3].
    destruct (addEdge_Ok NT _ _ _ _ _ _ _ Hinv Eadd) as (Hinv1 & Hlen1 & (new1 & Hrec1 & Hnew1) & Hin1 & _).
    rewrite fold_static_id in Hnew1, Hin1 by lia. cbn [fst snd] in Hnew1, Hin1.
    assert (Hrt1 : row_tree m d i tree1) by (exists idx1; split; [lia | exact He1]).
    assert (Hrt2 : row_tree m d i tree2) by (exists idx2; split; [lia | exact He2]).
    assert (Hle : idx2 <= idx3) by (destruct Hcase3 as [[_ ->] | (? & _)]; lia).
    destruct (findEdges_chain_Ok (S (Z.to_nat (row_limit m d i))) st1 st' tree2 tree3 idx3 Hinv1) with (5 := H)
      as (Hinv' & Hlen' & Hn' & new2 & cur & Hrec' & Hnew2 & Hcur & Hconn).
    + intros p t Hp Hpt.
      destruct (Z.lt_ge_cases p idx1) as [Hlt | Hge1]; [destruct (Hnone p t); [lia | auto]|].
      destruct (Z.lt_ge_cases p idx2) as [Hlt2 | Hge2].
      * right. destruct (Hall2 p ltac:(lia)) as [Hn | Hs]; [congruence|].
        assert (t = tree1) by congruence. subst t. apply tc_once. exact Hin1.
      * left. destruct (Hall3 p ltac:(lia)) as [Hn | Hs]; congruence.
    + destruct Hcase3 as [[-> ->] | (Hr3 & Hne3 & He3)]; [left; split; lia | right].
      split; [lia | auto].
    + exact Hrt2.
    + exists tree1. apply (ei_sym _ _ Hinv1). exact Hin1.
    + split; [exact Hinv'|]. split; [congruence|].
      assert (Hn1 : n <= snd st1).
      { pose proof (f_equal length Hrec1) as Hl. unfold edge_records in Hl.
        rewrite length_app, !length_map, !length_seqZ in Hl.
        pose proof (ei_nedge _ _ Hinv1). pose proof (ei_nedge _ _ Hinv). cbn [snd] in *. lia. }
      split; [lia|].
      exists (new1 ++ new2). split; [rewrite Hrec', Hrec1, app_assoc; reflexivity|].
      split.
      * intros x y Hxy. apply elem_of_app in Hxy. destruct Hxy as [Hxy | Hxy]; [|auto].
        destruct (Hnew1 _ Hxy) as [Heq | Heq]; injection Heq as -> ->; auto.
      * apply (Hfinish st' cur Hinv' Hcur Hconn).
Qed.

(** Processing the constraint that begins at row [i]. *)
Lemma findEdges_row_Ok (st st' : edges) :
  edges_inv NT st ->
  findEdges_row m d i nedge_max (get (efc_type d) i) (get (efc_id d) i) st = Ok st' ->
  row_post m d NT i st st'.
Proof.
  intros Hinv H. rewrite findEdges_row_endpoints in H.
  inv_bind H. rename a into ep, E into Eep.
  unfold row_post, row_couples. rewrite Eep.
  destruct ep as [[tree1 tree2]|].
  - destruct st as [[tn e] n]. cbn [fst snd] in *.
    destruct (addEdge_Ok NT _ _ _ _ _ _ _ Hinv H) as (Hinv' & Hlen' & (new & Hrec & Hnew) & Hin & _).
    split; [exact Hinv'|]. split; [exact Hlen'|]. split.
    { pose proof (f_equal length Hrec) as Hl. unfold edge_records in Hl.
      rewrite length_app, !length_map, !length_seqZ in Hl.
      pose proof (ei_nedge _ _ Hinv'). pose proof (ei_nedge _ _ Hinv). cbn [snd] in *. lia. }
    destruct (fold_static tree1 tree2) as [fa fb]. cbn [fst snd] in Hnew, Hin.
    exists new. split; [exact Hrec|]. split.
    + intros x y Hxy. destruct (Hnew _ Hxy) as [Heq | Heq]; injection Heq as -> ->;
        [left | right]; reflexivity.
    + intros a b [Hab | Hab]; apply tc_once; unfold rec_adj.
      * rewrite Hab. exact Hin.
      * apply (ei_sym _ _ Hinv'). rewrite Hab. exact Hin.
  - destruct (findEdges_generic_Ok st st' Hinv H) as (H1 & H2 & H3 & new & H4 & H5 & H6).
    split; [exact H1|]. split; [exact H2|]. split; [exact H3|].
    exists new. split; [exact H4|]. split; [exact H5|].
    intros a b [Ha Hb]. apply H6; assumption.
Qed.

End Generic.

Lemma findEdges_loop_Ok (m : mjModel) (d : mjData) (NT nedge_max : Z) :
  (forall c t, rd (dof_treeid m) c = Ok t -> 0 <= t) ->
  forall (n : nat) (j ptype pid : Z) (st st' : edges),
    edges_inv NT st ->
    edges_post m d j (edge_records (snd (fst st)) (snd st)) ->
    0 <= j ->
    ptype = (if j =? 0 then -1 else get (efc_type d) (j - 1)) ->
    pid = (if j =? 0 then -1 else get (efc_id d) (j - 1)) ->
    findEdges_loop m d nedge_max n j ptype pid st = Ok st' ->
    edges_inv NT st'
    /\ edges_post m d (j + Z.of_nat n) (edge_records (snd (fst st')) (snd st'))
    /\ length (snd (fst st')) = length (snd (fst st))
    /\ snd st <= snd st'.
Proof.
  intros Hnn. induction n as [|n IH]; intros j ptype pid st st' Hinv Hpost Hj Hpt Hpi H.
  - injection H as <-. rewrite Z.add_0_r. split; [exact Hinv|].
    split; [exact Hpost|]. split; [reflexivity | lia].
  - cbn [findEdges_loop] in H.
    inv_bind H. rename a into ty, E into Ety. apply get_rd in Ety.
    inv_bind H. rename a into same, E into Esame.
    assert (Hnext_t : get (efc_type d) j
                      = (if j + 1 =? 0 then -1 else get (efc_type d) (j + 1 - 1))).
    { destruct (Z.eqb_spec (j + 1) 0); [lia|]. f_equal. lia. }
    assert (Hnext_i : get (efc_id d) j
                      = (if j + 1 =? 0 then -1 else get (efc_id d) (j + 1 - 1))).
    { destruct (Z.eqb_spec (j + 1) 0); [lia|]. f_equal. lia. }
    assert (Hmono : forall recs, edges_post m d j recs -> ~ constraint_start d j ->
              edges_post m d (j + 1) recs).
    { intros recs [P1 P2] Hns. split.
      - intros x y Hxy. destruct (P1 x y Hxy) as (k & Hk & Hs & Hc).
        exists k. split; [lia | auto].
      - intros k a b Hk Hs Hc. destruct (Z.eq_dec k j) as [-> | Hne]; [contradiction|].
        apply (P2 k); auto. lia. }
    replace (j + Z.of_nat (S n)) with (j + 1 + Z.of_nat n) by lia.
    destruct same.
    + (* same constraint as the row before: skipped *)
      assert (Hsame : ptype = ty /\ pid = get (efc_id d) j).
      { destruct (Z.eqb_spec ptype ty); [|discriminate].
        inv_bind Esame. apply get_rd in E. injection Esame as Heq.
        apply Z.eqb_eq in Heq. split; congruence. }
      destruct Hsame as [Hst Hsi].
      apply (IH (j + 1) ptype pid st st' Hinv); [| lia | congruence | congruence | exact H].
      apply Hmono; [exact Hpost|]. intros Hs. apply Hs. split; congruence.
    + inv_bind H. rename a into id, E into Eid. apply get_rd in Eid.
      inv_bind H. rename a into st1, E into Erow.
      assert (Hstart : constraint_start d j).
      { intros [Hs1 Hs2]. rewrite <- Hpt in Hs1. rewrite <- Hpi in Hs2.
        destruct (Z.eqb_spec ptype ty); [|congruence].
        inv_bind Esame. apply get_rd in E. injection Esame as Heq.
        apply Z.eqb_neq in Heq. congruence. }
      subst ty id.
      destruct (findEdges_row_Ok m d NT j nedge_max Hnn st st1 Hinv Erow)
        as (Hinv1 & Hlen1 & Hn1 & new & Hrec1 & Hnew & Hconn).
      assert (Hpost1 : edges_post m d (j + 1) (edge_records (snd (fst st1)) (snd st1))).
      { destruct Hpost as [P1 P2]. split.
        - intros x y Hxy. rewrite Hrec1 in Hxy. apply elem_of_app in Hxy.
          destruct Hxy as [Hxy | Hxy].
          + destruct (P1 x y Hxy) as (k & Hk & Hs & Hc). exists k. split; [lia | auto].
          + exists j. split; [lia | auto].
        - intros k a b Hk Hs Hc. destruct (Z.eq_dec k j) as [-> | Hne].
          + apply Hconn. exact Hc.
          + rewrite Hrec1. apply rec_connected_mono. apply (P2 k); auto. lia. }
      destruct (IH (j + 1) _ _ st1 st' Hinv1 Hpost1 ltac:(lia) Hnext_t Hnext_i H)
        as (Hinv' & Hpost' & Hlen' & Hn').
      split; [exact Hinv'|]. split; [exact Hpost'|]. split; [congruence | lia].
Qed.

Lemma memset_zero_Ok (a : list Z) (n : Z) a' :
  memset_zero a n = Ok a' ->
  0 <= n <= Z.of_nat (length a) /\ length a' = length a
  /\ forall j, 0 <= j < n -> get a' j = 0.
Proof.
  unfold memset_zero.
  destruct (Z.leb_spec 0 n); destruct (Z.leb_spec n (Z.of_nat (length a))); simpl;
    intros Hm; try discriminate.
  injection Hm as <-. split; [lia|]. split.
  - rewrite length_app, length_replicate, length_drop. lia.
  - intros j Hj. apply get_rd. apply rd_Ok. split; [lia|].
    rewrite lookup_app_l by (rewrite length_replicate; lia).
    apply lookup_replicate_2. lia.
Qed.

(** The edge collector: on return the records form a symmetric relation
    over the trees, [treenedge] counts the records per source, every record
    is an edge of the tree graph, and every pair of trees coupled by a
    constraint is joined by a path of records. *)
Lemma findEdges_Ok (m : mjModel) (d : mjData) (treenedge edge : list Z)
    (nedge_max : Z) (st' : edges) :
  (forall c t, rd (dof_treeid m) c = Ok t -> 0 <= t) ->
  Z.of_nat (length treenedge) = ntree m ->
  findEdges m d treenedge edge nedge_max = Ok st' ->
  edges_inv (ntree m) st'
  /\ edges_post m d (nefc d) (edge_records (snd (fst st')) (snd st'))
  /\ length (snd (fst st')) = length edge.
Proof.
  intros Hnn Hlen H. unfold findEdges in H.
  inv_bind H. rename a into tn, E into Eset.
  apply memset_zero_Ok in Eset. destruct Eset as (Hn & Hlen' & Hzero).
  assert (Hinv : edges_inv (ntree m) (tn, edge, 0)).
  { constructor; cbn [fst snd]; try lia.
    - intros t Ht. rewrite Hzero by lia. reflexivity.
    - intros a b Hab. inversion Hab.
    - intros a b Hab. inversion Hab. }
  assert (Hpost : edges_post m d 0 (edge_records edge 0)).
  { split; [intros x y Hxy; inversion Hxy | intros k a b Hk; lia]. }
  destruct (findEdges_loop_Ok m d (ntree m) nedge_max Hnn _ _ _ _ _ _ Hinv Hpost
              (Z.le_refl 0) eq_refl eq_refl H) as (Hinv' & [P1 P2] & Hl & _).
  split; [exact Hinv'|]. split; [|exact Hl].
  split.
  - intros x y Hxy. destruct (P1 x y Hxy) as (k & Hk & Hs & Hc).
    exists k. split; [lia | auto].
  - intros k a b Hk Hs Hc. apply (P2 k); auto. lia.
Qed.

(** ** Building the adjacency matrix *)

Lemma vsum_seqZ_S (f : Z -> Z) (n : Z) :
  0 <= n -> vsum f (seqZ 0 (n + 1)) = vsum f (seqZ 0 n) + f n.
Proof.
  intros Hn. rewrite seqZ_app by lia. rewrite vsum_app.
  rewrite Z.add_0_l. rewrite (seqZ_cons n 1) by lia.
  rewrite (seqZ_nil (Z.succ n) (Z.pred 1)) by lia. simpl. lia.
Qed.

Lemma vsum_seqZ_mono (f : Z -> Z) (a b : Z) :
  (forall t, 0 <= t -> 0 <= f t) -> 0 <= a <= b ->
  vsum f (seqZ 0 a) <= vsum f (seqZ 0 b).
Proof.
  intros Hpos [Ha Hab].
  replace b with (a + Z.of_nat (Z.to_nat (b - a))) by lia.
  induction (Z.to_nat (b - a)) as [|k IH]; [rewrite Z.add_0_r; lia|].
  replace (a + Z.of_nat (S k)) with (a + Z.of_nat k + 1) by lia.
  rewrite vsum_seqZ_S by lia. specialize (Hpos (a + Z.of_nat k)). lia.
Qed.

Lemma island_rowadr_loop_Ok (c : Z -> Z) :
  forall (n : nat) (r : Z) (rowadr rownnz rowadr' rownnz' : list Z),
    1 <= r ->
    (forall t, 0 <= t < r -> get rowadr t = vsum c (seqZ 0 t)) ->
    (forall t, r - 1 <= t -> get rownnz t = c t) ->
    island_rowadr_loop n r rowadr rownnz = Ok (rowadr', rownnz') ->
    length rowadr' = length rowadr /\ length rownnz' = length rownnz
    /\ (forall t, 0 <= t < r + Z.of_nat n -> get rowadr' t = vsum c (seqZ 0 t))
    /\ (forall t, r - 1 <= t < r + Z.of_nat n - 1 -> get rownnz' t = 0)
    /\ (forall t, 0 <= t < r - 1 -> get rownnz' t = get rownnz t).
Proof.
  induction n as [|n IH]; intros r rowadr rownnz rowadr' rownnz' Hr Hadr Hnnz H.
  - injection H as <- <-. rewrite Z.add_0_r.
    repeat split; auto. intros t Ht. lia.
  - cbn [island_rowadr_loop] in H.
    inv_bind H. rename a into a0, E into Ea. apply get_rd in Ea.
    inv_bind H. rename a into c0, E into Ec. apply get_rd in Ec.
    inv_bind H. rename a into rowadr1, E into Ew1. apply wr_Ok in Ew1.
    destruct Ew1 as [Hw1 ->].
    inv_bind H. rename a into rownnz1, E into Ew2. apply wr_Ok in Ew2.
    destruct Ew2 as [Hw2 ->].
    apply IH in H; [|lia | |].
    + destruct H as (L1 & L2 & A & Z1 & Z2).
      rewrite length_insert in L1, L2.
      replace (r + 1 + Z.of_nat n) with (r + Z.of_nat (S n)) in * by lia.
      split; [exact L1|]. split; [exact L2|]. split; [exact A|]. split.
      * intros t Ht. destruct (Z.eq_dec t (r - 1)) as [-> | Hne]; [|apply Z1; lia].
        rewrite Z2 by lia. apply get_insert_eq. lia.
      * intros t Ht. rewrite Z2 by lia. apply get_insert_ne; lia.
    + intros t Ht. destruct (Z.eq_dec t r) as [-> | Hne].
      * rewrite get_insert_eq by lia. subst a0 c0.
        rewrite Hadr by lia. rewrite Hnnz by lia.
        replace r with (r - 1 + 1) at 3 by lia. rewrite vsum_seqZ_S by lia. reflexivity.
      * rewrite get_insert_ne by lia. apply Hadr. lia.
    + intros t Ht. rewrite get_insert_ne by lia. apply Hnnz. lia.
Qed.

Lemma edge_records_split (edge : list Z) (e e' : Z) :
  0 <= e <= e' ->
  exists rest, edge_records edge e' = edge_records edge e ++ rest.
Proof.
  intros He. unfold edge_records.
  replace e' with (e + (e' - e)) by lia. rewrite seqZ_app by lia.
  rewrite map_app. eexists. reflexivity.
Qed.

Lemma count_src_nonneg t recs : 0 <= count_src t recs.
Proof. unfold count_src. lia. Qed.

Lemma count_src_prefix_le (edge : list Z) (e e' t : Z) :
  0 <= e <= e' ->
  count_src t (edge_records edge e) <= count_src t (edge_records edge e').
Proof.
  intros He. destruct (edge_records_split edge e e' He) as [rest ->].
  rewrite count_src_app. pose proof (count_src_nonneg t rest). lia.
Qed.

Lemma edge_records_elem (edge : list Z) (e n : Z) :
  0 <= e < n -> (get edge (2 * e), get edge (2 * e + 1)) ∈ edge_records edge n.
Proof.
  intros He. unfold edge_records. apply list_elem_of_fmap.
  exists e. split; [reflexivity | apply elem_of_seqZ0; lia].
Qed.

Section Colind.

Variables (NT nedge : Z) (edge rowadr : list Z).
Hypothesis Hrange : forall a b, (a, b) ∈ edge_records edge nedge -> 0 <= a < NT /\ 0 <= b < NT.

Local Abbreviation total t := (count_src t (edge_records edge nedge)).
Local Abbreviation prefix t := (vsum (fun u => count_src u (edge_records edge nedge)) (seqZ 0 t)).

Hypothesis Hadr : forall t, 0 <= t < NT -> get rowadr t = prefix t.

Lemma prefix_next (t : Z) : 0 <= t -> prefix (t + 1) = prefix t + total t.
Proof. intros Ht. apply vsum_seqZ_S. exact Ht. Qed.

Lemma prefix_mono (a b : Z) : 0 <= a <= b -> prefix a <= prefix b.
Proof. intros H. apply vsum_seqZ_mono; [|exact H]. intros t _. apply count_src_nonneg. Qed.

Lemma prefix_nonneg (t : Z) : 0 <= prefix t.
Proof. apply vsum_nonneg. intros v _. apply count_src_nonneg. Qed.

Local Abbreviation colind_inv := (colind_inv NT nedge edge).

Lemma island_colind_loop_Ok :
  forall (n : nat) (e : Z) (rownnz colind rownnz' colind' : list Z),
    0 <= e -> e + Z.of_nat n = nedge ->
    colind_inv e rownnz colind ->
    island_colind_loop n e edge rowadr rownnz colind = Ok (rownnz', colind') ->
    length rownnz' = length rownnz /\ length colind' = length colind
    /\ colind_inv nedge rownnz' colind'.
Proof.
  induction n as [|n IH]; intros e rownnz colind rownnz' colind' He Hn Hinv H.
  - injection H as <- <-. assert (Heq : e = nedge) by lia. subst e. auto.
  - cbn [island_colind_loop] in H.
    inv_bind H. rename a into row, E into Erow. apply get_rd in Erow.
    inv_bind H. rename a into col, E into Ecol. apply get_rd in Ecol.
    inv_bind H. rename a into a0, E into Ea. apply get_rd in Ea.
    inv_bind H. rename a into c0, E into Ec. apply get_rd in Ec.
    inv_bind H. rename a into rownnz1, E into Ew1. apply wr_Ok in Ew1.
    destruct Ew1 as [Hw1 ->].
    inv_bind H. rename a into colind1, E into Ew2. apply wr_Ok in Ew2.
    destruct Ew2 as [Hw2 ->].
    assert (Hin : (row, col) ∈ edge_records edge nedge).
    { subst row col. apply edge_records_elem. lia. }
    destruct (Hrange _ _ Hin) as [Hrow Hcol].
    destruct Hinv as [Hcnt Hcont].
    assert (Hsnoc : edge_records edge (e + 1) = edge_records edge e ++ [(row, col)]).
    { rewrite edge_records_snoc by lia. subst row col. reflexivity. }
    assert (Hc0 : c0 = count_src row (edge_records edge e)).
    { subst c0. apply Hcnt. exact Hrow. }
    assert (Ha0 : a0 = prefix row) by (subst a0; apply Hadr; exact Hrow).
    assert (Hle : forall t, count_src t (edge_records edge (e + 1)) <= total t).
    { intros t. apply count_src_prefix_le. lia. }
    assert (Hrow1 : count_src row (edge_records edge (e + 1)) = c0 + 1).
    { rewrite Hsnoc, count_src_app, count_src_single.
      destruct (decide (row = row)); [lia | contradiction]. }
    apply IH in H; [|lia | lia |].
    + rewrite !length_insert in H. exact H.
    + split.
      * intros t Ht. rewrite Hsnoc, count_src_app, count_src_single.
        destruct (decide (row = t)) as [<- | Hne].
        -- rewrite get_insert_eq by lia. lia.
        -- rewrite get_insert_ne by lia. rewrite Hcnt by exact Ht. lia.
      * intros t k Ht Hk. rewrite Hsnoc, cols_of_app, cols_of_single.
        rewrite Hsnoc, count_src_app, count_src_single in Hk.
        assert (Hlenc : Z.of_nat (length (cols_of t (edge_records edge e)))
                        = count_src t (edge_records edge e)) by reflexivity.
        destruct (Z.lt_ge_cases k (count_src t (edge_records edge e))) as [Hlt | Hge].
        -- rewrite lookup_app_l by lia.
           rewrite (Hcont t k Ht ltac:(lia)). f_equal. symmetry.
           apply get_insert_ne; [lia|].
           pose proof (Hle row) as Hlr. rewrite Hrow1 in Hlr.
           pose proof (count_src_nonneg row (edge_records edge e)) as Hc0n.
           pose proof (count_src_prefix_le edge e nedge t ltac:(lia)) as Hlt'.
           destruct (Z.lt_trichotomy t row) as [Htr | [-> | Htr]].
           ++ pose proof (prefix_next t ltac:(lia)) as Hp.
              pose proof (prefix_mono (t + 1) row ltac:(lia)). lia.
           ++ lia.
           ++ pose proof (prefix_next row ltac:(lia)) as Hp.
              pose proof (prefix_mono (row + 1) t ltac:(lia)). lia.
        -- destruct (decide (row = t)) as [<- | Hne]; [|lia].
           assert (k = c0) by lia. subst k.
           rewrite lookup_app_r by lia.
           replace (Z.to_nat c0 - length (cols_of row (edge_records edge e)))%nat
             with 0%nat by lia.
           simpl. f_equal. symmetry. rewrite <- Ha0. apply get_insert_eq. lia.
Qed.

End Colind.

Lemma vsum_indicator (a n : Z) :
  0 <= n ->
  vsum (fun t => if decide (a = t) then 1 else 0) (seqZ 0 n)
  = if decide (0 <= a < n) then 1 else 0.
Proof.
  intros Hn. replace n with (Z.of_nat (Z.to_nat n)) by lia.
  induction (Z.to_nat n) as [|k IH].
  - simpl. destruct (decide _); [lia | reflexivity].
  - replace (Z.of_nat (S k)) with (Z.of_nat k + 1) by lia.
    rewrite vsum_seqZ_S by lia. rewrite IH.
    destruct (decide (a = Z.of_nat k)); destruct (decide (0 <= a < Z.of_nat k));
      destruct (decide (0 <= a < Z.of_nat k + 1)); lia.
Qed.

Lemma vsum_add (f g : Z -> Z) (l : list Z) :
  vsum (fun t => f t + g t) l = vsum f l + vsum g l.
Proof. induction l as [|x l IH]; simpl; [reflexivity | rewrite IH; lia]. Qed.

Lemma vsum_count_src (NT : Z) (recs : list (Z * Z)) :
  0 <= NT -> (forall a b, (a, b) ∈ recs -> 0 <= a < NT) ->
  vsum (fun t => count_src t recs) (seqZ 0 NT) = Z.of_nat (length recs).
Proof.
  intros HNT. induction recs as [|[a b] recs IH]; intros Hr.
  - simpl. clear. induction (seqZ 0 NT) as [|x l IHl]; simpl; [reflexivity|].
    rewrite IHl. reflexivity.
  - rewrite (vsum_ext _ (fun t => (if decide (a = t) then 1 else 0) + count_src t recs)).
    + rewrite vsum_add, vsum_indicator by exact HNT. rewrite IH.
      * destruct (decide (0 <= a < NT)) as [_ | Hc]; [simpl length; lia|].
        exfalso. apply Hc. apply (Hr a b). left.
      * intros x y Hxy. apply (Hr x y). right. exact Hxy.
    + intros t _. change ((a, b) :: recs) with ([(a, b)] ++ recs).
      rewrite count_src_app, count_src_single. reflexivity.
Qed.

Lemma length_edge_records (edge : list Z) (n : Z) :
  0 <= n -> Z.of_nat (length (edge_records edge n)) = n.
Proof. intros Hn. unfold edge_records. rewrite length_map, length_seqZ. lia. Qed.

(** The arrays that the copy loop leaves form the adjacency matrix of the
    records. *)
Lemma csr_of_records (NT nedge : Z) (edge rownnz rowadr colind : list Z) :
  0 <= NT -> 0 <= nedge ->
  (forall a b, (a, b) ∈ edge_records edge nedge -> 0 <= a < NT /\ 0 <= b < NT) ->
  (forall a b, (a, b) ∈ edge_records edge nedge -> (b, a) ∈ edge_records edge nedge) ->
  (forall t, 0 <= t < NT ->
     get rowadr t = vsum (fun u => count_src u (edge_records edge nedge)) (seqZ 0 t)) ->
  colind_inv NT nedge edge nedge rownnz colind ->
  NT <= Z.of_nat (length rownnz) -> NT <= Z.of_nat (length rowadr) ->
  Z.of_nat (length colind) = nedge ->
  csr_valid NT rownnz rowadr colind
  /\ (forall u v, csr_adj NT rownnz rowadr colind u v <-> (u, v) ∈ edge_records edge nedge)
  /\ csr_nnz NT rownnz = nedge.
Proof.
  intros HNT Hne Hrange Hsym Hadr [Hcnt Hcont] L1 L2 L3.
  set (recs := edge_records edge nedge) in *.
  set (prefix := fun t => vsum (fun u => count_src u recs) (seqZ 0 t)) in *.
  assert (Htot : prefix NT = nedge).
  { unfold prefix. rewrite vsum_count_src; [apply length_edge_records; exact Hne | exact HNT |].
    intros a b Hab. apply (Hrange a b Hab). }
  assert (Hnext : forall t, 0 <= t -> prefix (t + 1) = prefix t + count_src t recs).
  { intros t Ht. apply vsum_seqZ_S. exact Ht. }
  assert (Hmono : forall a b, 0 <= a <= b -> prefix a <= prefix b).
  { intros a b Hab. apply vsum_seqZ_mono; [|exact Hab]. intros t _. apply count_src_nonneg. }
  assert (Hpos : forall t, 0 <= prefix t).
  { intros t. apply vsum_nonneg. intros v _. apply count_src_nonneg. }
  assert (Hfit : forall t, 0 <= t < NT -> prefix t + count_src t recs <= nedge).
  { intros t Ht. rewrite <- Hnext by lia. rewrite <- Htot. apply Hmono. lia. }
  assert (Hrow : forall u, 0 <= u < NT -> csr_row rownnz rowadr colind u = cols_of u recs).
  { intros u Hu. unfold csr_row. rewrite (Hcnt u Hu), (Hadr u Hu). fold (prefix u).
    pose proof (Hfit u Hu) as Hf. pose proof (Hpos u) as Hp.
    pose proof (count_src_nonneg u recs) as Hc.
    apply list_eq. intros k.
    destruct (decide (Z.of_nat k < count_src u recs)) as [Hlt | Hge].
    - rewrite lookup_take_lt by lia. rewrite lookup_drop.
      pose proof (Hcont u (Z.of_nat k) Hu ltac:(lia)) as Hk.
      rewrite Nat2Z.id in Hk. fold recs in Hk. fold (prefix u) in Hk. rewrite Hk.
      pose proof (rd_in_range colind (prefix u + Z.of_nat k) ltac:(lia)) as Hr.
      apply rd_Ok in Hr. destruct Hr as [_ Hr]. rewrite <- Hr. f_equal. lia.
    - rewrite lookup_take_ge by lia. symmetry. apply lookup_ge_None_2.
      unfold count_src in Hge. lia. }
  assert (Hadj : forall u v, csr_adj NT rownnz rowadr colind u v <-> (u, v) ∈ recs).
  { intros u v. unfold csr_adj. split.
    - intros [Hu Hv]. rewrite (Hrow u Hu) in Hv. apply elem_of_cols_of. exact Hv.
    - intros Huv. destruct (Hrange u v Huv) as [Hu _]. split; [exact Hu|].
      rewrite (Hrow u Hu). apply elem_of_cols_of. exact Huv. }
  split; [|split; [exact Hadj|]].
  - constructor; try assumption.
    + intros v Hv. rewrite (Hcnt v Hv), (Hadr v Hv). fold (prefix v).
      pose proof (Hfit v Hv). pose proof (Hpos v). pose proof (count_src_nonneg v recs). lia.
    + intros u v Huv. apply Hadj in Huv. apply (Hrange u v Huv).
    + intros u v Huv. apply Hadj. apply Hsym. apply Hadj. exact Huv.
  - unfold csr_nnz. rewrite <- Htot. unfold prefix. apply vsum_ext.
    intros t Ht. apply elem_of_seqZ0 in Ht. apply Hcnt. exact Ht.
Qed.

(** ** The island of every tree *)

(** The arrays that [mj_island] builds from the records of [findEdges] are
    a symmetric matrix over the trees whose entries are the records. *)
Lemma mj_island_csr (m : mjModel) (d : mjData) (nedge_max nedge : Z)
    (edge rownnz0 rownnz1 edge1 rowadr0 rowadr2 rownnz2 colind0 rownnz4 colind1 : list Z) :
  (forall c t, rd (dof_treeid m) c = Ok t -> 0 <= t) ->
  0 <= ntree m -> length rownnz0 = Z.to_nat (ntree m) ->
  length rowadr0 = Z.to_nat (ntree m) ->
  findEdges m d rownnz0 edge nedge_max = Ok (rownnz1, edge1, nedge) ->
  0 <= 0 < Z.of_nat (length rowadr0) ->
  island_rowadr_loop (Z.to_nat (ntree m - 1)) 1 (<[Z.to_nat 0 := 0]> rowadr0) rownnz1
  = Ok (rowadr2, rownnz2) ->
  0 <= ntree m - 1 < Z.of_nat (length rownnz2) ->
  length colind0 = Z.to_nat nedge ->
  island_colind_loop (Z.to_nat nedge) 0 edge1 rowadr2
    (<[Z.to_nat (ntree m - 1) := 0]> rownnz2) colind0 = Ok (rownnz4, colind1) ->
  edges_post m d (nefc d) (edge_records edge1 nedge)
  /\ (forall a b, (a, b) ∈ edge_records edge1 nedge -> (b, a) ∈ edge_records edge1 nedge)
  /\ csr_valid (ntree m) rownnz4 rowadr2 colind1
  /\ (forall u v, csr_adj (ntree m) rownnz4 rowadr2 colind1 u v
                  <-> (u, v) ∈ edge_records edge1 nedge)
  /\ csr_nnz (ntree m) rownnz4 = nedge.
Proof.
  intros Hnn HNT Lrownnz0 Lrowadr0 Efind Hw0 Eadr Hw1 Lcolind0 Ecol.
  (* the records *)
  destruct (findEdges_Ok m _ rownnz0 edge nedge_max _ Hnn ltac:(lia) Efind)
    as (Hinv & Hpost & Ledge1).
  destruct Hinv as [I1 I2 I3 I4 I5 I6]. cbn [fst snd] in *.
  set (recs := edge_records edge1 nedge) in *.
  (* the row addresses *)
  destruct (island_rowadr_loop_Ok (get rownnz1) (Z.to_nat (ntree m - 1)) 1
              (<[Z.to_nat 0 := 0]> rowadr0) rownnz1 rowadr2 rownnz2 (Z.le_refl 1))
    as (La2 & Ln2 & A2 & Z2 & _).
  { intros t Ht. assert (t = 0) by lia. subst t. apply get_insert_eq. lia. }
  { intros t _. reflexivity. }
  { exact Eadr. }
  rewrite length_insert in La2.
  assert (Hadr : forall t, 0 <= t < ntree m ->
            get rowadr2 t = vsum (fun u => count_src u recs) (seqZ 0 t)).
  { intros t Ht. rewrite A2 by lia. apply vsum_ext. intros u Hu.
    apply elem_of_seqZ0 in Hu. apply I4. lia. }
  (* the column indices *)
  destruct (island_colind_loop_Ok (ntree m) nedge edge1 rowadr2 I5 Hadr
              (Z.to_nat nedge) 0 (<[Z.to_nat (ntree m - 1) := 0]> rownnz2) colind0 rownnz4 colind1
              (Z.le_refl 0) ltac:(lia))
    as (Ln4 & Lc1 & Hcinv); [|exact Ecol|].
  { split.
    - intros t Ht. change (edge_records edge1 0) with (@nil (Z * Z)).
      destruct (Z.eq_dec t (ntree m - 1)) as [-> | Hne].
      + apply get_insert_eq. lia.
      + rewrite get_insert_ne by lia. apply Z2. lia.
    - intros t kk Ht Hk. change (edge_records edge1 0) with (@nil (Z * Z)) in Hk.
      unfold count_src in Hk. simpl in Hk. lia. }
  rewrite length_insert in Ln4.
  destruct (csr_of_records (ntree m) nedge edge1 rownnz4 rowadr2 colind1)
    as (Hvalid & Hadj & Hnnz); try assumption; try lia.
  auto.
Qed.

(** The first part of [mj_island]: the island of every tree is the flood
    fill of the adjacency matrix of the collected records. *)
Lemma mj_island_trees_spec (m : mjModel) (d : mjData) (ti : list Z) (d0 : mjData) :
  (forall c t, rd (dof_treeid m) c = Ok t -> 0 <= t) ->
  mj_island_trees m d = Ok (ti, d0) ->
  exists recs rownnz rowadr colind,
    edges_post m d (nefc d) recs
    /\ (forall a b, (a, b) ∈ recs -> (b, a) ∈ recs)
    /\ csr_valid (ntree m) rownnz rowadr colind
    /\ (forall u v, csr_adj (ntree m) rownnz rowadr colind u v <-> (u, v) ∈ recs)
    /\ floodFill_spec (ntree m) rownnz rowadr colind ti (nisland d0).
Proof.
  intros Hnn H. unfold mj_island_trees in H. cbv zeta in H.
  inv_bind H. rename a into nedge_max.
  inv_bind H. destruct a as [edge d1].
  apply mj_stackAllocInt_Ok in E0. destruct E0 as (_ & Ledge & ->).
  inv_bind H. destruct a as [rownnz0 d2].
  apply mj_stackAllocInt_Ok in E0. destruct E0 as (HNT & Lrownnz0 & ->).
  inv_bind H. destruct a as [[rownnz1 edge1] nedge]. rename E0 into Efind.
  inv_bind H. destruct a as [rowadr0 d3].
  apply mj_stackAllocInt_Ok in E0. destruct E0 as (_ & Lrowadr0 & ->).
  inv_bind H. rename a into rowadr1, E0 into Ew0.
  inv_bind H. destruct a as [rowadr2 rownnz2]. rename E0 into Eadr.
  inv_bind H. rename a into rownnz3, E0 into Ew1.
  inv_bind H. destruct a as [colind0 d4].
  apply mj_stackAllocInt_Ok in E0. destruct E0 as (Hnedge & Lcolind0 & ->).
  inv_bind H. destruct a as [rownnz4 colind1]. rename E0 into Ecol.
  inv_bind H. destruct a as [ti0 d5].
  apply mj_stackAllocInt_Ok in E0. destruct E0 as (_ & Lti0 & ->).
  inv_bind H. destruct a as [stack0 d6].
  apply mj_stackAllocInt_Ok in E0. destruct E0 as (_ & Lstack0 & ->).
  inv_bind H. destruct a as [[k ti1] stack1]. rename E0 into Eff.
  injection H as <- <-.
  change (nisland (set_nisland _ k)) with k.
  apply wr_Ok in Ew0. destruct Ew0 as [Hw0 ->].
  apply wr_Ok in Ew1. destruct Ew1 as [Hw1 ->].
  destruct (mj_island_csr m _ nedge_max nedge edge rownnz0 rownnz1 edge1 rowadr0 rowadr2
              rownnz2 colind0 rownnz4 colind1 Hnn HNT Lrownnz0 Lrowadr0 Efind Hw0 Eadr Hw1
              Lcolind0 Ecol)
    as (Hpost & I6 & Hvalid & Hadj & Hnnz).
  set (recs := edge_records edge1 nedge) in *.
  assert (Ledge1 : True) by exact I.
  destruct (mj_floodFill_correct _ _ _ _ Hvalid ti0 stack0) as (k' & ti' & stack' & Hrun & Hspec);
    [lia | lia |].
  rewrite Hrun in Eff. injection Eff as <- <- <-.
  exists recs, rownnz4, rowadr2, colind1. auto.
Qed.

Lemma rtc_tc_cases {A} (R : relation A) (x y : A) : rtc R x y -> x = y \/ tc R x y.
Proof.
  intros H. induction H as [|x y z Hxy Hyz IH]; [left; reflexivity | right].
  destruct IH as [-> | IH]; [apply tc_once; exact Hxy | eapply tc_l; eauto].
Qed.

Lemma csr_row_inhabited (nr : Z) (rownnz rowadr colind : list Z) (u : Z) :
  csr_valid nr rownnz rowadr colind -> 0 <= u < nr -> get rownnz u <> 0 ->
  exists w, csr_adj nr rownnz rowadr colind u w.
Proof.
  intros Hv Hu Hnz. destruct (csr_row_bounds _ _ _ _ Hv u Hu) as (B1 & B2 & B3).
  assert (Hlen : length (csr_row rownnz rowadr colind u) = Z.to_nat (get rownnz u)).
  { unfold csr_row. rewrite length_take, length_drop. lia. }
  destruct (csr_row rownnz rowadr colind u) as [|w l] eqn:Er; [simpl in Hlen; lia|].
  exists w. split; [exact Hu|]. rewrite Er. left.
Qed.

(** The island of every tree against the tree graph: labels are -1 or
    below [nisland]; a tree has label -1 exactly when no constraint couples
    it; two trees have the same label other than -1 exactly when a path of
    coupled trees joins them. *)
Lemma tree_island_connected (m : mjModel) (d : mjData) (ti : list Z) (d0 : mjData) :
  (forall c t, rd (dof_treeid m) c = Ok t -> 0 <= t) ->
  mj_island_trees m d = Ok (ti, d0) ->
  Z.of_nat (length ti) = ntree m
  /\ (forall t, 0 <= t < ntree m -> get ti t = -1 \/ 0 <= get ti t < nisland d0)
  /\ (forall t, 0 <= t < ntree m -> (get ti t = -1 <-> ~ exists w, couples m d t w))
  /\ (forall u v, tree_connected m d u v -> 0 <= u < ntree m /\ 0 <= v < ntree m)
  /\ (forall u v, 0 <= u < ntree m -> 0 <= v < ntree m ->
        (get ti u = get ti v /\ get ti u <> -1 <-> tree_connected m d u v)).
Proof.
  intros Hnn H.
  destruct (mj_island_trees_spec m d ti d0 Hnn H)
    as (recs & rownnz & rowadr & colind & [P1 P2] & Hsym & Hvalid & Hadj & Hspec).
  destruct Hspec as [F1 F0 F2 F3 F4 F5].
  assert (Hrd : forall t, 0 <= t < ntree m -> rd ti t = Ok (get ti t))
    by (intros t Ht; apply rd_in_range; lia).
  assert (Hiso : forall t, 0 <= t < ntree m -> (get ti t = -1 <-> get rownnz t = 0)).
  { intros t Ht. rewrite <- (F2 t Ht), (Hrd t Ht). split; congruence. }
  assert (HA : forall u v, tree_connected m d u v -> rec_connected recs u v).
  { intros u v Huv. induction Huv as [x y (i & Hi & Hs & Hc) | x y z (i & Hi & Hs & Hc) _ IH].
    - apply (P2 i); assumption.
    - etrans; [apply (P2 i); eassumption | exact IH]. }
  assert (HB : forall u v, rec_connected recs u v -> tree_connected m d u v).
  { intros u v Huv. induction Huv as [x y Hxy | x y z Hxy _ IH].
    - apply tc_once. apply P1. exact Hxy.
    - eapply tc_l; [apply P1; exact Hxy | exact IH]. }
  assert (HC : forall u v, rec_connected recs u v ->
            (0 <= u < ntree m /\ get rownnz u <> 0)
            /\ (0 <= v < ntree m /\ get rownnz v <> 0)
            /\ csr_connected (ntree m) rownnz rowadr colind u v).
  { assert (Hsrc : forall u v, rec_connected recs u v ->
              0 <= u < ntree m /\ get rownnz u <> 0).
    { intros u v Huv. destruct Huv as [x y Hxy | x y z Hxy _];
        apply Hadj in Hxy; (split; [exact (proj1 Hxy) | eapply adj_nonisolated; eauto]). }
    intros u v Huv. split; [eapply Hsrc; eauto|]. split.
    - apply (Hsrc v u). apply rec_connected_sym; assumption.
    - apply tc_rtc. clear -Huv Hadj. induction Huv as [x y Hxy | x y z Hxy _ IH].
      + apply tc_once. apply Hadj. exact Hxy.
      + eapply tc_l; [apply Hadj; exact Hxy | exact IH]. }
  assert (HD : forall u v, 0 <= u < ntree m -> get rownnz u <> 0 ->
            csr_connected (ntree m) rownnz rowadr colind u v -> rec_connected recs u v).
  { intros u v Hu Hnz Huv. apply rtc_tc_cases in Huv. destruct Huv as [<- | Huv].
    - destruct (csr_row_inhabited _ _ _ _ u Hvalid Hu Hnz) as [w Hw].
      apply Hadj in Hw. eapply tc_l; [exact Hw|]. apply tc_once. apply Hsym. exact Hw.
    - clear -Huv Hadj. induction Huv as [x y Hxy | x y z Hxy _ IH].
      + apply tc_once. apply Hadj. exact Hxy.
      + eapply tc_l; [apply Hadj; exact Hxy | exact IH]. }
  split; [exact F1|]. split; [|split; [|split]].
  - intros t Ht. destruct (Z.eq_dec (get rownnz t) 0) as [Hz | Hnz].
    + left. apply Hiso; assumption.
    + right. destruct (F3 t Ht Hnz) as (c & Hc & Hcr). rewrite (get_rd _ _ _ Hc). exact Hcr.
  - intros t Ht. rewrite (Hiso t Ht). split.
    + intros Hz [w Hw]. apply tc_once, HA, HC in Hw. tauto.
    + intros Hno. destruct (Z.eq_dec (get rownnz t) 0) as [Hz | Hnz]; [exact Hz|].
      exfalso. apply Hno. destruct (csr_row_inhabited _ _ _ _ t Hvalid Ht Hnz) as [w Hw].
      exists w. apply P1. apply Hadj. exact Hw.
  - intros u v Huv. apply HA, HC in Huv. tauto.
  - intros u v Hu Hv. split.
    + intros [Heq Hne]. apply HB.
      assert (Hunz : get rownnz u <> 0) by (rewrite <- (Hiso u Hu); exact Hne).
      assert (Hvnz : get rownnz v <> 0) by (rewrite <- (Hiso v Hv); congruence).
      apply HD; [exact Hu | exact Hunz|]. apply F4; assumption.
    + intros Huv. apply HA, HC in Huv. destruct Huv as ((_ & Hunz) & (_ & Hvnz) & Hc).
      split; [apply F4; assumption|]. rewrite (Hiso u Hu). exact Hunz.
Qed.

(** ** Lengths and faults *)

Lemma floodFill_dfs_length : forall (fuel : nat) rownnz rowadr colind c L stack nstack L' stack',
  floodFill_dfs fuel rownnz rowadr colind c L stack nstack = Ok (L', stack') ->
  length L' = length L.
Proof.
  induction fuel as [|fuel IH]; intros rownnz rowadr colind c L stack nstack L' stack' H;
    [discriminate|].
  cbn [floodFill_dfs] in H. destruct (nstack =? 0).
  - injection H as <- <-. reflexivity.
  - inv_bind H. inv_bind H. destruct (negb (a0 =? -1)).
    + eapply IH; eauto.
    + inv_bind H. inv_bind H. inv_bind H. inv_bind H.
      apply IH in H. apply wr_Ok in E1. destruct E1 as [_ ->].
      rewrite length_insert in H. exact H.
Qed.

Lemma floodFill_loop_length : forall (n : nat) i rownnz rowadr colind c L stack k L' stack',
  floodFill_loop n i rownnz rowadr colind c L stack = Ok (k, L', stack') ->
  length L' = length L.
Proof.
  induction n as [|n IH]; intros i rownnz rowadr colind c L stack k L' stack' H.
  - injection H as <- <- <-. reflexivity.
  - cbn [floodFill_loop] in H. inv_bind H. inv_bind H. destruct a0.
    + eapply IH; eauto.
    + inv_bind H. inv_bind H. destruct a1 as [L1 stack1].
      apply IH in H. apply floodFill_dfs_length in E2. congruence.
Qed.

Lemma mj_floodFill_length island nr rownnz rowadr colind stack k island' stack' :
  mj_floodFill island nr rownnz rowadr colind stack = Ok (k, island', stack') ->
  length island' = length island.
Proof.
  unfold mj_floodFill. intros H. inv_bind H.
  apply floodFill_loop_length in H. apply fill_Ok in E. destruct E as (E & _). congruence.
Qed.

Lemma mj_island_trees_length (m : mjModel) (d : mjData) ti d0 :
  mj_island_trees m d = Ok (ti, d0) ->
  0 <= ntree m /\ Z.of_nat (length ti) = ntree m.
Proof.
  unfold mj_island_trees. cbv zeta. intros H.
  inv_bind H. rename a into nedge_max.
  inv_bind H. destruct a as [edge d1]. clear E0.
  inv_bind H. destruct a as [rownnz0 d2]. clear E0.
  inv_bind H. destruct a as [[rownnz1 edge1] nedge]. clear E0.
  inv_bind H. destruct a as [rowadr0 d3]. clear E0.
  inv_bind H. clear E0.
  inv_bind H. destruct a0 as [rowadr2 rownnz2]. clear E0.
  inv_bind H. clear E0.
  inv_bind H. destruct a1 as [colind0 d4]. clear E0.
  inv_bind H. destruct a1 as [rownnz4 colind1]. clear E0.
  inv_bind H. destruct a1 as [ti0 d5].
  apply mj_stackAllocInt_Ok in E0. destruct E0 as (Hn & Lti & _).
  inv_bind H. destruct a1 as [stack0 d6]. clear E0.
  inv_bind H. destruct a1 as [[k ti1] stack1].
  injection H as <- <-. apply mj_floodFill_length in E0. lia.
Qed.

Lemma rd_Err (a : list Z) i f : rd a i = Err f -> f = OutOfBounds.
Proof.
  unfold rd. destruct (i <? 0); [congruence|].
  destruct (a !! Z.to_nat i); congruence.
Qed.

Lemma wr_Err (a : list Z) i x f : wr a i x = Err f -> f = OutOfBounds.
Proof. unfold wr. destruct (_ && _); congruence. Qed.

Lemma island_link_Err (s : sweep) island i f :
  island_link s island i = Err f -> f = OutOfBounds.
Proof.
  unfold island_link. intros H.
  destruct (rd (sw_last s) island) as [lastv|f0] eqn:E1; simpl in H;
    [|injection H as <-; eapply rd_Err; eauto].
  destruct (lastv =? -1).
  - destruct (wr (sw_adr s) island i) eqn:E2; simpl in H;
      [|injection H as <-; eapply wr_Err; eauto].
    destruct (wr (sw_last s) island i) eqn:E3; simpl in H;
      [discriminate | injection H as <-; eapply wr_Err; eauto].
  - destruct (wr (sw_next s) lastv i) eqn:E2; simpl in H;
      [|injection H as <-; eapply wr_Err; eauto].
    destruct (wr (sw_last s) island i) eqn:E3; simpl in H;
      [discriminate | injection H as <-; eapply wr_Err; eauto].
Qed.

(** The DoF sweep has no fault of its own: it can only fail by an access
    outside an array. *)
Lemma island_dof_loop_Err (m : mjModel) (ti : list Z) :
  forall (n : nat) (i : Z) (s : sweep) f,
    island_dof_loop m ti n i s = Err f -> f = OutOfBounds.
Proof.
  induction n as [|n IH]; intros i s f H; [discriminate|].
  cbn [island_dof_loop] in H.
  destruct (rd (dof_treeid m) i) as [t|f0] eqn:E1; cbn [bind] in H;
    [|injection H as <-; eapply rd_Err; eauto].
  destruct (rd ti t) as [island|f0] eqn:E2; cbn [bind] in H;
    [|injection H as <-; eapply rd_Err; eauto].
  destruct (wr (sw_island s) i island) as [isl|f0] eqn:E3; cbn [bind] in H;
    [|injection H as <-; eapply wr_Err; eauto].
  cbv zeta in H. destruct (island =? -1).
  - cbn [sw_next] in H.
    destruct (wr (sw_next s) i (-1)) as [nx|f0] eqn:E4; cbn [bind] in H;
      [eapply IH; eauto | injection H as <-; eapply wr_Err; eauto].
  - destruct (island_link _ island i) as [s2|f0] eqn:E4; cbn [bind] in H;
      [eapply IH; eauto | injection H as <-; eapply island_link_Err; eauto].
Qed.

(** A DoF sweep that returns has read [tree_island] at the tree of every
    DoF. *)
Lemma island_dof_loop_reads (m : mjModel) (ti : list Z) :
  forall (n : nat) (i : Z) (s s' : sweep),
    island_dof_loop m ti n i s = Ok s' ->
    forall q, i <= q < i + Z.of_nat n ->
      exists t x, rd (dof_treeid m) q = Ok t /\ rd ti t = Ok x.
Proof.
  induction n as [|n IH]; intros i s s' H q Hq; [lia|].
  cbn [island_dof_loop] in H.
  inv_bind H. rename a into t, E into E1.
  inv_bind H. rename a into island, E into E2.
  inv_bind H. cbv zeta in H.
  destruct (Z.eq_dec q i) as [-> | Hne]; [eauto|].
  destruct (island =? -1).
  - inv_bind H. eapply IH; [exact H | lia].
  - inv_bind H. eapply IH; [exact H | lia].
Qed.

(** A call with constraints that has run to completion and allocated its
    outputs read [tree_island] at every [dof_treeid[i]], so each of them
    lies in [0, ntree). *)
Lemma mj_island_treeid_range (m : mjModel) (d d' : mjData) :
  mj_island m d = Ok d' -> nefc d <> 0 -> dof_island d' <> None ->
  forall i, 0 <= i < nv m ->
    exists t, rd (dof_treeid m) i = Ok t /\ 0 <= t < ntree m.
Proof.
  intros H Hn Hp i Hi.
  destruct (mj_island_success m d d' H Hn (or_intror Hp))
    as (ti & d0 & disl & dnext & dadr & eisl & enext & eadr & Ht & Q1 & _ & _ & _ & _
        & _ & _ & _ & L1 & _ & _ & _ & _ & Hlab & _).
  destruct (mj_island_trees_length _ _ _ _ Ht) as [_ Hlen].
  destruct (Hlab i (get disl i) ltac:(apply rd_in_range; lia)) as (t & Ht1 & Ht2).
  exists t. split; [exact Ht1|]. apply rd_lt in Ht2. lia.
Qed.

(** C10: the DoF sweep reads [tree_island], an array of [ntree] cells, at
    [dof_treeid[i]] for every DoF [i] below [nv], unguarded.  When every
    [dof_treeid[i]] lies in [0, ntree) each of these reads is in bounds; a
    DoF whose tree id is outside, the static-tree sentinel -1 included,
    makes the sweep fault with an access out of bounds; so a call with
    constraints that runs to completion had every [dof_treeid[i]] in
    [0, ntree). *)
Theorem dof_sweep_tree_island_bounds (m : mjModel) :
  (forall ti, Z.of_nat (length ti) = ntree m ->
     (forall i, 0 <= i < nv m ->
        exists t, rd (dof_treeid m) i = Ok t /\ 0 <= t < ntree m) ->
     forall i, 0 <= i < nv m ->
       exists t x, rd (dof_treeid m) i = Ok t /\ rd ti t = Ok x)
  /\ (forall ti s i t, Z.of_nat (length ti) = ntree m ->
        0 <= i < nv m -> rd (dof_treeid m) i = Ok t -> ~ (0 <= t < ntree m) ->
        island_dof_loop m ti (Z.to_nat (nv m)) 0 s = Err OutOfBounds)
  /\ (forall d d', mj_island m d = Ok d' -> nefc d <> 0 -> dof_island d' <> None ->
        forall i, 0 <= i < nv m ->
          exists t, rd (dof_treeid m) i = Ok t /\ 0 <= t < ntree m).
Proof.
  split; [|split].
  - intros ti Hlen Hpre i Hi. destruct (Hpre i Hi) as (t & Ht & Hr).
    exists t, (get ti t). split; [exact Ht | apply rd_in_range; lia].
  - intros ti s i t Hlen Hi Ht Hout.
    destruct (island_dof_loop m ti (Z.to_nat (nv m)) 0 s) as [s'|f] eqn:E.
    + exfalso. destruct (island_dof_loop_reads m ti _ _ _ _ E i ltac:(lia))
        as (t' & x & Ht' & Hx).
      assert (t' = t) by congruence. subst t'. apply rd_lt in Hx. lia.
    + f_equal. eapply island_dof_loop_Err; eauto.
  - intros d d' H Hn Hp. exact (mj_island_treeid_range m d d' H Hn Hp).
Qed.

(** Entries of [dof_treeid] are nonnegative once the call has run to
    completion on a model whose [dof_treeid] has [nv] cells. *)
Lemma mj_island_treeid_nonneg (m : mjModel) (d d' : mjData) :
  mj_island m d = Ok d' -> nefc d <> 0 -> dof_island d' <> None ->
  Z.of_nat (length (dof_treeid m)) = nv m ->
  forall c t, rd (dof_treeid m) c = Ok t -> 0 <= t.
Proof.
  intros H Hn Hp Hlen c t Hc.
  pose proof (rd_lt _ _ _ Hc) as Hcr.
  destruct (mj_island_treeid_range m d d' H Hn Hp c ltac:(lia)) as (t' & Ht' & Hr).
  assert (t' = t) by congruence. lia.
Qed.

(** C5 as amended: after a call with constraints that has run to
    completion, every DoF whose tree no active constraint couples has
    [dof_island = -1] and [dof_islandnext = -1]. *)
Theorem mj_island_uncoupled_dof (m : mjModel) (d d' : mjData) (i : Z) :
  mj_island m d = Ok d' -> nefc d <> 0 -> dof_island d' <> None ->
  Z.of_nat (length (dof_treeid m)) = nv m ->
  0 <= i < nv m ->
  (~ exists w, couples m d (get (dof_treeid m) i) w) ->
  exists isl next,
    dof_island d' = Some isl /\ dof_islandnext d' = Some next
    /\ rd isl i = Ok (-1) /\ rd next i = Ok (-1).
Proof.
  intros H Hn Hp Hlen Hi Hno.
  pose proof (mj_island_treeid_nonneg m d d' H Hn Hp Hlen) as Hnn.
  destruct (mj_island_success m d d' H Hn (or_intror Hp))
    as (ti & d0 & disl & dnext & dadr & eisl & enext & eadr & Ht & Q1 & Q2 & _ & _ & _
        & _ & _ & _ & L1 & _ & _ & Hun & _ & Hlab & _).
  destruct (tree_island_connected m d ti d0 Hnn Ht) as (Lti & _ & Hiso & _).
  exists disl, dnext. split; [exact Q1|]. split; [exact Q2|].
  pose proof (rd_in_range disl i ltac:(lia)) as Hr.
  destruct (Hlab i _ Hr) as (t & Ht1 & Ht2).
  rewrite (get_rd _ _ _ Ht1) in Hno.
  pose proof (rd_lt _ _ _ Ht2) as Htr.
  assert (Hm : get ti t = -1) by (apply Hiso; [lia | exact Hno]).
  rewrite (get_rd _ _ _ Ht2) in Hm. rewrite Hm in Hr.
  split; [exact Hr | apply Hun; exact Hr].
Qed.

(** C5, counterexample: in the sample model DoFs 0 and 1 belong to tree 0.
    With a single joint-friction row on DoF 0, whose Jacobian has its only
    entry at DoF 0, DoF 1 appears in no row and still gets island 0. *)
Lemma mj_island_unconstrained_dof_in_island :
  ~ (forall d' i,
       mj_island (sample_model true) data_joint_friction = Ok d' ->
       0 <= i < nv (sample_model true) ->
       (forall r, 0 <= r < nefc data_joint_friction ->
          ~ dof_in_row (sample_model true) data_joint_friction r i) ->
       exists isl next,
         dof_island d' = Some isl /\ dof_islandnext d' = Some next
         /\ rd isl i = Ok (-1) /\ rd next i = Ok (-1)).
Proof.
  intros H.
  destruct (mj_island (sample_model true) data_joint_friction) as [d'|f] eqn:E;
    [|vm_compute in E; discriminate E].
  destruct (H d' 1 eq_refl) as (isl & next & H1 & _ & H3 & _).
  - assert (Hv : nv (sample_model true) = 4) by reflexivity. lia.
  - intros r Hr (p & Hp & Hd).
    assert (Hn : nefc data_joint_friction = 1) by reflexivity.
    assert (r = 0) by lia. subst r.
    assert (Hl : row_limit (sample_model true) data_joint_friction 0 = 1)
      by reflexivity.
    assert (p = 0) by lia. subst p.
    vm_compute in Hd. discriminate Hd.
  - vm_compute in E. injection E as <-. vm_compute in H1. injection H1 as <-.
    vm_compute in H3. discriminate H3.
Qed.

(** A scan with a NULL cursor returns what the scan from position 0 does. *)
Lemma treeNext_null (m : mjModel) (d : mjData) (tree i t : Z) :
  treeNext m d tree i None = Ok (t, None) ->
  exists j, treeNext m d tree i (Some 0) = Ok (t, Some j).
Proof.
  unfold treeNext. cbv zeta. intros H. inv_bind H. destruct a as [t0 j].
  injection H as <-. exists j. rewrite E. reflexivity.
Qed.

(** The tree that the NULL-cursor scan of row [i] for a non-static tree
    returns has an entry in the row. *)
Lemma treeNext_null_row_tree (m : mjModel) (d : mjData) (i t : Z) :
  treeNext m d (-1) i None = Ok (t, None) -> t <> -1 -> row_tree m d i t.
Proof.
  intros H Ht. destruct (treeNext_null _ _ _ _ _ H) as [j Hj].
  destruct (treeNext_scan _ _ _ _ _ _ _ Hj) as [_ [[Hm _] | (Hr & _ & He)]];
    [contradiction|].
  exists j. split; [exact Hr | exact He].
Qed.

(** C2: after a call with constraints that has run to completion and has
    allocated its outputs, two DoFs have the same island id other than -1
    if and only if a path of at least one edge of the tree graph induced by
    the active constraints joins their trees; two rows have the same island
    id if and only if such a path joins the first trees of their Jacobians;
    and, when the Jacobian of every row only touches trees that the tree
    graph joins, if and only if such a path joins any tree of the one row
    and any tree of the other. *)
Theorem mj_island_connectivity (m : mjModel) (d d' : mjData) :
  mj_island m d = Ok d' -> nefc d <> 0 -> dof_island d' <> None ->
  Z.of_nat (length (dof_treeid m)) = nv m ->
  exists disl eisl,
    dof_island d' = Some disl /\ efc_island d' = Some eisl
    /\ (forall i j, 0 <= i < nv m -> 0 <= j < nv m ->
          (get disl i = get disl j /\ get disl i <> -1
           <-> tree_connected m d (get (dof_treeid m) i) (get (dof_treeid m) j)))
    /\ (forall i j a b, 0 <= i < nefc d -> 0 <= j < nefc d ->
          treeNext m d (-1) i None = Ok (a, None) ->
          treeNext m d (-1) j None = Ok (b, None) ->
          (get eisl i = get eisl j <-> tree_connected m d a b))
    /\ (rows_legal m d ->
        forall i j a b, 0 <= i < nefc d -> 0 <= j < nefc d ->
          row_tree m d i a -> row_tree m d j b ->
          (get eisl i = get eisl j <-> tree_connected m d a b)).
Proof.
  intros H Hn Hp Hlen.
  pose proof (mj_island_treeid_nonneg m d d' H Hn Hp Hlen) as Hnn.
  destruct (mj_island_success m d d' H Hn (or_intror Hp))
    as (ti & d0 & disl & dnext & dadr & eisl & enext & eadr & Ht & Q1 & _ & _ & Q4 & _
        & _ & _ & _ & L1 & L2 & _ & _ & _ & Hlab & Hrow).
  destruct (tree_island_connected m d ti d0 Hnn Ht) as (Lti & _ & _ & Hrange & Hconn).
  exists disl, eisl. split; [exact Q1|]. split; [exact Q4|].
  assert (Hdof : forall i, 0 <= i < nv m ->
            0 <= get (dof_treeid m) i < ntree m
            /\ get disl i = get ti (get (dof_treeid m) i)).
  { intros i Hi. pose proof (rd_in_range disl i ltac:(lia)) as Hr.
    destruct (Hlab i _ Hr) as (t & T1 & T2).
    rewrite (get_rd _ _ _ T1). pose proof (rd_lt _ _ _ T2).
    split; [lia | symmetry; apply get_rd; exact T2]. }
  assert (Hefc : forall i a, 0 <= i < nefc d ->
            treeNext m d (-1) i None = Ok (a, None) ->
            0 <= a < ntree m /\ get eisl i = get ti a /\ get ti a <> -1
            /\ row_tree m d i a).
  { intros i a Hi Ha. pose proof (rd_in_range eisl i ltac:(lia)) as Hr.
    destruct (Hrow i _ Hr) as (Hx & t & T1 & T2).
    assert (t = a) by congruence. subst t.
    pose proof (rd_lt _ _ _ T2) as Hlt. pose proof (get_rd _ _ _ T2) as Hg.
    split; [lia|]. split; [congruence|]. split; [congruence|].
    apply treeNext_null_row_tree; [exact Ha | lia]. }
  assert (Hfirst : forall i, 0 <= i < nefc d ->
            exists a, treeNext m d (-1) i None = Ok (a, None)).
  { intros i Hi. pose proof (rd_in_range eisl i ltac:(lia)) as Hr.
    destruct (Hrow i _ Hr) as (_ & t & T1 & _). exists t. exact T1. }
  split; [|split].
  - intros i j Hi Hj.
    destruct (Hdof i Hi) as [Ri Ei]. destruct (Hdof j Hj) as [Rj Ej].
    rewrite Ei, Ej. apply Hconn; assumption.
  - intros i j a b Hi Hj Ha Hb.
    destruct (Hefc i a Hi Ha) as (Ra & Ea & Na & _).
    destruct (Hefc j b Hj Hb) as (Rb & Eb & Nb & _).
    rewrite Ea, Eb. rewrite <- (Hconn a b Ra Rb). tauto.
  - intros Hlegal i j a b Hi Hj Ha Hb.
    destruct (Hfirst i Hi) as [a0 Ha0]. destruct (Hfirst j Hj) as [b0 Hb0].
    destruct (Hefc i a0 Hi Ha0) as (Ra0 & Ea & Na & Ta).
    destruct (Hefc j b0 Hj Hb0) as (Rb0 & Eb & Nb & Tb).
    pose proof (Hlegal i a0 a Hi Ta Ha) as Caa.
    pose proof (Hlegal j b0 b Hj Tb Hb) as Cbb.
    destruct (Hrange _ _ Caa) as [_ Ra]. destruct (Hrange _ _ Cbb) as [_ Rb].
    apply (Hconn a0 a Ra0 Ra) in Caa. apply (Hconn b0 b Rb0 Rb) in Cbb.
    destruct Caa as [Ca _]. destruct Cbb as [Cb _].
    rewrite Ea, Eb, Ca, Cb. rewrite <- (Hconn a b Ra Rb).
    split; [intros E; split; [exact E | congruence] | tauto].
Qed.

Lemma mj_island_connectivity_witness :
  let m := sample_model true in
  let d := data_friction_contact 1000 in
  exists d', mj_island m d = Ok d'
    /\ exists disl eisl,
         dof_island d' = Some disl /\ efc_island d' = Some eisl
         /\ (forall i j, 0 <= i < nv m -> 0 <= j < nv m ->
               (get disl i = get disl j /\ get disl i <> -1
                <-> tree_connected m d (get (dof_treeid m) i) (get (dof_treeid m) j)))
         /\ (forall i j a b, 0 <= i < nefc d -> 0 <= j < nefc d ->
               treeNext m d (-1) i None = Ok (a, None) ->
               treeNext m d (-1) j None = Ok (b, None) ->
               (get eisl i = get eisl j <-> tree_connected m d a b))
         /\ (rows_legal m d ->
             forall i j a b, 0 <= i < nefc d -> 0 <= j < nefc d ->
               row_tree m d i a -> row_tree m d j b ->
               (get eisl i = get eisl j <-> tree_connected m d a b)).
Proof.
  intros m d.
  destruct (mj_island m d) as [d'|f] eqn:E; [|vm_compute in E; discriminate E].
  exists d'. split; [reflexivity|].
  apply (mj_island_connectivity m d d' E).
  - vm_compute. discriminate.
  - vm_compute in E. injection E as <-. vm_compute. discriminate.
  - reflexivity.
Defined.

Lemma mj_island_uncoupled_dof_witness :
  let m := sample_model true in
  let d := data_joint_friction in
  exists d', mj_island m d = Ok d'
    /\ exists isl next,
         dof_island d' = Some isl /\ dof_islandnext d' = Some next
         /\ rd isl 2 = Ok (-1) /\ rd next 2 = Ok (-1).
Proof.
  intros m d.
  destruct (mj_island m d) as [d'|f] eqn:E; [|vm_compute in E; discriminate E].
  exists d'. split; [reflexivity|].
  apply (mj_island_uncoupled_dof m d d' 2 E).
  - vm_compute. discriminate.
  - vm_compute in E. injection E as <-. vm_compute. discriminate.
  - reflexivity.
  - vm_compute. split; [discriminate | reflexivity].
  - intros (w & i & Hi & _ & Hc).
    assert (Hn : nefc d = 1) by reflexivity.
    assert (i = 0) by lia. subst i.
    vm_compute in Hc. destruct Hc as [Hc | Hc]; discriminate Hc.
Defined.

Lemma dof_sweep_tree_island_bounds_witness :
  let m := sample_model true in
  let d := data_friction_contact 1000 in
  exists t, rd (dof_treeid m) 3 = Ok t /\ 0 <= t < ntree m.
Proof.
  intros m d.
  destruct (mj_island m d) as [d'|f] eqn:E; [|vm_compute in E; discriminate E].
  apply (proj2 (proj2 (dof_sweep_tree_island_bounds m)) d d' E).
  - vm_compute. discriminate.
  - vm_compute in E. injection E as <-. vm_compute. discriminate.
  - vm_compute. split; [discriminate | reflexivity].
Defined.

(** ** Dense and sparse forms of one Jacobian *)

(** What the scan over a list of columns returns. *)
Lemma scan_cols_spec (m : mjModel) (tree : Z) (cols : list Z) (t : Z) (rest : list Z) :
  scan_cols m tree cols = Ok (t, rest) ->
  ((t = -1 /\ rest = [])
   \/ exists c r, rest = c :: r /\ rd (dof_treeid m) c = Ok t /\ t <> tree)
  /\ (length rest <= length cols)%nat
  /\ (forall c r, cols = c :: r -> rd (dof_treeid m) c = Ok tree ->
        (length rest <= length r)%nat).
Proof.
  revert t rest. induction cols as [|c cols IH]; intros t rest H.
  - injection H as <- <-. split; [left; auto|]. split; [simpl; lia|].
    intros c r Hc. discriminate Hc.
  - cbn [scan_cols] in H. inv_bind H. rename a into tj, E into Etj.
    destruct (Z.eqb_spec tj tree) as [->|Hne].
    + destruct (IH _ _ H) as (H1 & H2 & _). split; [exact H1|].
      split; [simpl; lia|]. intros c' r Hc _. injection Hc as <- <-. exact H2.
    + injection H as <- <-. split; [right; exists c, cols; auto|].
      split; [lia|]. intros c' r Hc Hr. injection Hc as <- <-. congruence.
Qed.

(** The sparse scan from position [p] is the scan over the columns that the
    row lists from [p] on. *)
Lemma treeNext_sparse_scan (m : mjModel) (d : mjData) (adr n tree : Z) :
  0 <= n -> 0 <= adr -> adr + n <= Z.of_nat (length (efc_J_colind d)) ->
  forall (fuel : nat) (p : Z), 0 <= p -> fuel = Z.to_nat (n - p) ->
    match scan_cols m tree
            (drop (Z.to_nat p)
               (take (Z.to_nat n) (drop (Z.to_nat adr) (efc_J_colind d)))) with
    | Err f => treeNext_sparse m d adr tree fuel p = Err f
    | Ok (t, rest) =>
        exists p', treeNext_sparse m d adr tree fuel p = Ok (t, p') /\ 0 <= p'
          /\ drop (Z.to_nat p')
               (take (Z.to_nat n) (drop (Z.to_nat adr) (efc_J_colind d))) = rest
    end.
Proof.
  intros Hn Hadr Hfit. set (cols := take _ _).
  assert (Hlen : length cols = Z.to_nat n).
  { unfold cols. rewrite length_take, length_drop. lia. }
  induction fuel as [|fuel IH]; intros p Hp Hfuel.
  - rewrite drop_ge by lia. cbn [scan_cols treeNext_sparse].
    exists p. split; [reflexivity|]. split; [lia|]. apply drop_ge. lia.
  - assert (Hc : exists c, cols !! Z.to_nat p = Some c)
      by (apply lookup_lt_is_Some_2; lia).
    destruct Hc as [c Hc]. rewrite (drop_S _ _ _ Hc).
    assert (Hrd : rd (efc_J_colind d) (adr + p) = Ok c).
    { apply rd_Ok. split; [lia|]. unfold cols in Hc.
      rewrite lookup_take_lt in Hc by lia. rewrite lookup_drop in Hc.
      rewrite <- Hc. f_equal. lia. }
    cbn [scan_cols treeNext_sparse]. rewrite Hrd. cbn [bind].
    destruct (rd (dof_treeid m) c) as [tj|f]; cbn [bind]; [|reflexivity].
    destruct (tj =? tree).
    + specialize (IH (p + 1) ltac:(lia) ltac:(lia)).
      replace (Z.to_nat (p + 1)) with (S (Z.to_nat p)) in IH by lia. exact IH.
    + exists p. split; [reflexivity|]. split; [lia|]. apply drop_S. exact Hc.
Qed.

(** The dense scan from column [c] is the scan over the columns from [c] on
    at which the row is nonzero. *)
Lemma treeNext_dense_scan (m : mjModel) (d : mjData) (i tree : Z) :
  (forall c, 0 <= c < nv m -> 0 <= nv m * i + c < Z.of_nat (length (efc_J d))) ->
  forall (fuel : nat) (c : Z), 0 <= c -> fuel = Z.to_nat (nv m - c) ->
    match scan_cols m tree (dense_cols_from m d i c) with
    | Err f => treeNext_dense m d i tree fuel c = Err f
    | Ok (t, rest) =>
        exists c', treeNext_dense m d i tree fuel c = Ok (t, c') /\ 0 <= c'
          /\ dense_cols_from m d i c' = rest
    end.
Proof.
  intros Hfit. unfold dense_cols_from.
  induction fuel as [|fuel IH]; intros c Hc Hfuel.
  - rewrite seqZ_nil by lia. cbn [scan_cols treeNext_dense filter list_filter].
    exists c. split; [reflexivity|]. split; [lia|]. rewrite seqZ_nil by lia. reflexivity.
  - rewrite (seqZ_cons c (nv m - c)) by lia.
    replace (Z.pred (nv m - c)) with (nv m - (c + 1)) by lia.
    replace (Z.succ c) with (c + 1) by lia.
    pose proof (rd_in_range (efc_J d) (nv m * i + c) (Hfit c ltac:(lia))) as Hrd.
    cbn [treeNext_dense]. rewrite Hrd. cbn [bind].
    specialize (IH (c + 1) ltac:(lia) ltac:(lia)).
    destruct (Z.eqb_spec (get (efc_J d) (nv m * i + c)) 0) as [Hz|Hz].
    + rewrite filter_cons_False by (intros Hx; apply Hx; exact Hz). exact IH.
    + rewrite filter_cons_True by exact Hz. cbn [scan_cols].
      destruct (rd (dof_treeid m) c) as [tj|f]; cbn [bind]; [|reflexivity].
      destruct (tj =? tree); [exact IH|].
      exists c. split; [reflexivity|]. split; [lia|].
      rewrite (seqZ_cons c (nv m - c)) by lia.
      replace (Z.pred (nv m - c)) with (nv m - (c + 1)) by lia.
      replace (Z.succ c) with (c + 1) by lia.
      rewrite filter_cons_True by exact Hz. reflexivity.
Qed.

Lemma treeNext_sparse_with_jacobian (m : mjModel) (b : bool) (d : mjData)
    (adr tree : Z) (n : nat) (j : Z) :
  treeNext_sparse (with_jacobian m b) d adr tree n j = treeNext_sparse m d adr tree n j.
Proof.
  revert j. induction n as [|n IH]; intros j; [reflexivity|].
  cbn [treeNext_sparse with_jacobian dof_treeid]. rewrite IH. reflexivity.
Qed.

Lemma treeNext_dense_with_jacobian (m : mjModel) (b : bool) (d : mjData)
    (i tree : Z) (n : nat) (j : Z) :
  treeNext_dense (with_jacobian m b) d i tree n j = treeNext_dense m d i tree n j.
Proof.
  revert j. induction n as [|n IH]; intros j; [reflexivity|].
  cbn [treeNext_dense with_jacobian nv dof_treeid]. rewrite !IH. reflexivity.
Qed.

Lemma same_pattern_dense_fit (m : mjModel) (d : mjData) (i : Z) :
  same_pattern m d -> 0 <= i < nefc d ->
  forall c, 0 <= c < nv m -> 0 <= nv m * i + c < Z.of_nat (length (efc_J d)).
Proof. intros [Hfit _] Hi c Hc. nia. Qed.

Lemma length_compress (l : list Z) : (length (compress l) <= length l)%nat.
Proof.
  induction l as [|c [|c' r] IH]; [reflexivity | reflexivity |].
  change (compress (c :: c' :: r))
    with (if c =? c' then compress (c' :: r) else c :: compress (c' :: r)).
  destruct (c =? c'); cbn [length] in *; lia.
Qed.

(** Repeats of a column do not change what a scan finds. *)
Lemma scan_cols_compress (m : mjModel) (tree : Z) (l : list Z) :
  match scan_cols m tree l with
  | Err f => scan_cols m tree (compress l) = Err f
  | Ok (t, rest) => scan_cols m tree (compress l) = Ok (t, compress rest)
  end.
Proof.
  induction l as [|c [|c' r] IH].
  - reflexivity.
  - cbn [scan_cols compress]. destruct (rd (dof_treeid m) c) as [tj|f]; cbn [bind];
      [|reflexivity].
    destruct (tj =? tree); reflexivity.
  - change (compress (c :: c' :: r))
      with (if c =? c' then compress (c' :: r) else c :: compress (c' :: r)).
    destruct (Z.eqb_spec c c') as [<- | Hne].
    + cbn [scan_cols] in IH |- *.
      destruct (rd (dof_treeid m) c) as [tj|f]; cbn [bind] in IH |- *; [|exact IH].
      destruct (tj =? tree); [exact IH|].
      rewrite IH. change (compress (c :: c :: r))
        with (if c =? c then compress (c :: r) else c :: compress (c :: r)).
      rewrite Z.eqb_refl. reflexivity.
    + cbn [scan_cols].
      destruct (rd (dof_treeid m) c) as [tj|f]; cbn [bind]; [|reflexivity].
      destruct (tj =? tree); [exact IH|].
      change (compress (c :: c' :: r))
        with (if c =? c' then compress (c' :: r) else c :: compress (c' :: r)).
      destruct (Z.eqb_spec c c'); [contradiction | reflexivity].
Qed.

(** [treeNext] on the sparse form follows the scan over the columns left. *)
Lemma treeNext_scan_sparse (m : mjModel) (d : mjData) (i tree p : Z) (cols : list Z) :
  same_pattern m d -> 0 <= i < nefc d -> sparse_rep d i p cols ->
  scan_result (sparse_rep d i) (scan_cols m tree cols)
    (treeNext (with_jacobian m true) d tree i (Some p)).
Proof.
  intros [_ Hrows] Hi [Hp Hcols].
  destruct (Hrows i Hi) as [(n & adr & Hn & Hadr & Hn0 & Hadr0 & Hfit) _].
  pose proof (treeNext_sparse_scan m d adr n tree Hn0 Hadr0 Hfit
                (Z.to_nat (n - p)) p Hp eq_refl) as Hs.
  unfold sparse_rep, sparse_cols, csr_row in *.
  rewrite (get_rd _ _ _ Hn), (get_rd _ _ _ Hadr) in *.
  set (whole := take (Z.to_nat n) (drop (Z.to_nat adr) (efc_J_colind d))) in *.
  pose proof (scan_cols_compress m tree (drop (Z.to_nat p) whole)) as Hc.
  rewrite Hcols in Hc.
  unfold scan_result, treeNext. cbn [mj_isSparse with_jacobian jacobian_sparse].
  rewrite Hn, Hadr. cbn [bind].
  rewrite treeNext_sparse_with_jacobian.
  destruct (scan_cols m tree (drop (Z.to_nat p) whole)) as [[t rest]|f].
  - rewrite Hc. destruct Hs as (p' & -> & Hp' & Hr). cbn [bind]. exists p'.
    split; [reflexivity|]. split; [exact Hp' | rewrite Hr; reflexivity].
  - rewrite Hc, Hs. reflexivity.
Qed.

(** [treeNext] on the dense form follows the scan over the columns left. *)
Lemma treeNext_scan_dense (m : mjModel) (d : mjData) (i tree c : Z) (cols : list Z) :
  same_pattern m d -> 0 <= i < nefc d -> dense_rep m d i c cols ->
  scan_result (dense_rep m d i) (scan_cols m tree cols)
    (treeNext (with_jacobian m false) d tree i (Some c)).
Proof.
  intros Hsp Hi [Hc Hcols].
  pose proof (treeNext_dense_scan m d i tree (same_pattern_dense_fit m d i Hsp Hi)
                (Z.to_nat (nv m - c)) c Hc eq_refl) as Hs.
  rewrite Hcols in Hs.
  unfold scan_result, treeNext, dense_rep.
  cbn [mj_isSparse with_jacobian jacobian_sparse nv].
  rewrite treeNext_dense_with_jacobian.
  destruct (scan_cols m tree cols) as [[t rest]|f].
  - destruct Hs as (c' & -> & Hc' & Hr). cbn [bind]. exists c'.
    split; [reflexivity|]. split; assumption.
  - rewrite Hs. reflexivity.
Qed.

Section RowParity.

Variables (m m1 m2 : mjModel) (d : mjData) (i nedge_max : Z).
Variables (rep1 rep2 : Z -> list Z -> Prop).
Hypothesis scan1 : forall tree p cols, rep1 p cols ->
  scan_result rep1 (scan_cols m tree cols) (treeNext m1 d tree i (Some p)).
Hypothesis scan2 : forall tree p cols, rep2 p cols ->
  scan_result rep2 (scan_cols m tree cols) (treeNext m2 d tree i (Some p)).

(** The two scans agree on the tree and leave the same columns. *)
Lemma treeNext_parity (tree p c : Z) (cols : list Z) :
  rep1 p cols -> rep2 c cols ->
  (exists f, treeNext m1 d tree i (Some p) = Err f
             /\ treeNext m2 d tree i (Some c) = Err f)
  \/ (exists t p' c' rest,
        treeNext m1 d tree i (Some p) = Ok (t, Some p')
        /\ treeNext m2 d tree i (Some c) = Ok (t, Some c')
        /\ rep1 p' rest /\ rep2 c' rest
        /\ scan_cols m tree cols = Ok (t, rest)).
Proof.
  intros R1 R2. pose proof (scan1 tree p cols R1) as S1.
  pose proof (scan2 tree c cols R2) as S2. unfold scan_result in *.
  destruct (scan_cols m tree cols) as [[t rest]|f].
  - right. destruct S1 as (p' & E1 & R1'). destruct S2 as (c' & E2 & R2').
    exists t, p', c', rest. auto.
  - left. exists f. auto.
Qed.

Lemma findEdges_chain_parity (n : nat) :
  forall (cols : list Z) (F1 F2 : nat) (st : edges) (tree2 tree3 p c : Z),
    (length cols <= n)%nat -> (n < F1)%nat -> (n < F2)%nat ->
    rep1 p cols -> rep2 c cols ->
    (tree3 > -1 -> exists col r, cols = col :: r /\ rd (dof_treeid m) col = Ok tree3) ->
    findEdges_chain F1 m1 d i nedge_max st tree2 tree3 p
    = findEdges_chain F2 m2 d i nedge_max st tree2 tree3 c.
Proof.
  induction n as [|n IH]; intros cols F1 F2 st tree2 tree3 p c Hlen HF1 HF2 R1 R2 Hhead;
    (destruct F1 as [|F1]; [lia|]); (destruct F2 as [|F2]; [lia|]);
    cbn [findEdges_chain]; destruct st as [[treenedge edge] nedge];
    destruct ((tree3 >? -1) && negb (tree3 =? tree2)) eqn:Hcond; try reflexivity;
    apply andb_true_iff in Hcond; destruct Hcond as [Hgt _];
    destruct (Hhead ltac:(lia)) as (col & r & -> & Hcol).
  - simpl in Hlen. lia.
  - destruct (addEdge treenedge edge nedge tree2 tree3 nedge_max) as [st'|f];
      cbn [bind]; [|reflexivity].
    destruct (treeNext_parity tree3 p c (col :: r) R1 R2)
      as [(f & -> & ->) | (t & p' & c' & rest & -> & -> & R1' & R2' & Hs)];
      cbn [bind fst snd cell]; [reflexivity|].
    destruct (scan_cols_spec _ _ _ _ _ Hs) as (Hcase & _ & Hshort).
    specialize (Hshort col r eq_refl Hcol). simpl in Hlen.
    apply (IH rest); try lia; try assumption.
    intros Ht. destruct Hcase as [[-> _] | (c0 & r0 & -> & Hc0 & _)]; [lia|].
    exists c0, r0. auto.
Qed.

Lemma findEdges_generic_parity (cols : list Z) (st : edges) :
  rep1 0 cols -> rep2 0 cols ->
  (length cols <= Z.to_nat (row_limit m1 d i))%nat ->
  (length cols <= Z.to_nat (row_limit m2 d i))%nat ->
  findEdges_generic m1 d i nedge_max st = findEdges_generic m2 d i nedge_max st.
Proof.
  intros R1 R2 L1 L2. unfold findEdges_generic. destruct st as [[treenedge edge] nedge].
  cbv zeta.
  destruct (treeNext_parity (-1) 0 0 cols R1 R2)
    as [(f & -> & ->) | (t1 & p1 & c1 & rest1 & -> & -> & R11 & R21 & Hs1)];
    cbn [bind fst snd cell]; [reflexivity|].
  destruct (scan_cols_spec _ _ _ _ _ Hs1) as (_ & Hle1 & _).
  destruct (treeNext_parity t1 p1 c1 rest1 R11 R21)
    as [(f & -> & ->) | (t2 & p2 & c2 & rest2 & -> & -> & R12 & R22 & Hs2)];
    cbn [bind fst snd cell]; [reflexivity|].
  destruct (scan_cols_spec _ _ _ _ _ Hs2) as (_ & Hle2 & _).
  destruct (t2 =? -1); [reflexivity|].
  destruct (addEdge treenedge edge nedge t1 t2 nedge_max) as [st'|f];
    cbn [bind]; [|reflexivity].
  destruct (treeNext_parity t2 p2 c2 rest2 R12 R22)
    as [(f & -> & ->) | (t3 & p3 & c3 & rest3 & -> & -> & R13 & R23 & Hs3)];
    cbn [bind fst snd cell]; [reflexivity|].
  destruct (scan_cols_spec _ _ _ _ _ Hs3) as (Hcase & Hle3 & _).
  apply (findEdges_chain_parity (length cols) rest3); try lia; try assumption.
  intros Ht. destruct Hcase as [[-> _] | (c0 & r0 & -> & Hc0 & _)]; [lia|].
  exists c0, r0. auto.
Qed.

End RowParity.

Lemma sparse_rep_start (d : mjData) (i : Z) :
  sparse_rep d i 0 (compress (sparse_cols d i)).
Proof. split; [lia | reflexivity]. Qed.

Lemma dense_rep_start (m : mjModel) (d : mjData) (i : Z) :
  same_pattern m d -> 0 <= i < nefc d ->
  dense_rep m d i 0 (compress (sparse_cols d i)).
Proof.
  intros [_ Hrows] Hi. destruct (Hrows i Hi) as [_ ->]. split; [lia | reflexivity].
Qed.

Lemma sparse_cols_limit (m : mjModel) (d : mjData) (i : Z) :
  same_pattern m d -> 0 <= i < nefc d ->
  (length (compress (sparse_cols d i))
   <= Z.to_nat (row_limit (with_jacobian m true) d i))%nat
  /\ (length (compress (sparse_cols d i))
      <= Z.to_nat (row_limit (with_jacobian m false) d i))%nat.
Proof.
  intros [_ Hrows] Hi.
  destruct (Hrows i Hi) as [(n & adr & Hn & Hadr & Hn0 & Hadr0 & Hfit) Heq]. split.
  - etransitivity; [apply length_compress|].
    unfold row_limit. cbn [mj_isSparse with_jacobian jacobian_sparse]. rewrite Hn.
    unfold sparse_cols, csr_row. rewrite (get_rd _ _ _ Hn), length_take. lia.
  - rewrite Heq. unfold row_limit, dense_cols, dense_cols_from.
    cbn [mj_isSparse with_jacobian jacobian_sparse nv].
    etransitivity; [apply length_filter|]. rewrite length_seqZ. lia.
Qed.

(** The generic case collects the same edges from both forms of a row. *)
Lemma findEdges_generic_with_jacobian (m : mjModel) (d : mjData) (i nedge_max : Z)
    (st : edges) :
  same_pattern m d -> 0 <= i < nefc d ->
  findEdges_generic (with_jacobian m true) d i nedge_max st
  = findEdges_generic (with_jacobian m false) d i nedge_max st.
Proof.
  intros Hsp Hi. destruct (sparse_cols_limit m d i Hsp Hi) as [L1 L2].
  apply (findEdges_generic_parity m _ _ d i nedge_max
           (sparse_rep d i) (dense_rep m d i)) with (cols := compress (sparse_cols d i)).
  - intros tree p cols. apply treeNext_scan_sparse; assumption.
  - intros tree p cols. apply treeNext_scan_dense; assumption.
  - apply sparse_rep_start.
  - apply dense_rep_start; assumption.
  - exact L1.
  - exact L2.
Qed.

(** A scan with a NULL cursor is the scan from position 0 without its
    cursor. *)
Lemma treeNext_null_eq (m : mjModel) (d : mjData) (tree i : Z) :
  treeNext m d tree i None
  = (r <- treeNext m d tree i (Some 0) ;; Ok (fst r, None)).
Proof.
  unfold treeNext. cbv zeta.
  destruct (if mj_isSparse m then _ else _) as [[t j]|f]; reflexivity.
Qed.

(** A scan of a whole row returns the same tree in both forms. *)
Lemma treeNext_null_with_jacobian (m : mjModel) (d : mjData) (tree i : Z) :
  same_pattern m d -> 0 <= i < nefc d ->
  treeNext (with_jacobian m true) d tree i None
  = treeNext (with_jacobian m false) d tree i None.
Proof.
  intros Hsp Hi. rewrite !treeNext_null_eq.
  destruct (treeNext_parity m _ _ d i (sparse_rep d i) (dense_rep m d i)
              (fun tree p cols => treeNext_scan_sparse m d i tree p cols Hsp Hi)
              (fun tree p cols => treeNext_scan_dense m d i tree p cols Hsp Hi)
              tree 0 0 (compress (sparse_cols d i)) (sparse_rep_start d i)
              (dense_rep_start m d i Hsp Hi))
    as [(f & -> & ->) | (t & p' & c' & rest & -> & -> & _)]; reflexivity.
Qed.

Lemma findEdges_row_with_jacobian (m : mjModel) (d : mjData) (i nedge_max ty id : Z)
    (st : edges) :
  same_pattern m d -> 0 <= i < nefc d ->
  findEdges_row (with_jacobian m true) d i nedge_max ty id st
  = findEdges_row (with_jacobian m false) d i nedge_max ty id st.
Proof.
  intros Hsp Hi. unfold findEdges_row. destruct st as [[treenedge edge] nedge].
  cbn [with_jacobian dof_treeid jnt_dofadr geom_bodyid body_treeid eq_type
       eq_obj1id eq_obj2id].
  destruct (ty =? mjCNSTR_FRICTION_DOF); [reflexivity|].
  destruct (ty =? mjCNSTR_LIMIT_JOINT); [reflexivity|].
  destruct ((ty =? mjCNSTR_CONTACT_FRICTIONLESS) || (ty =? mjCNSTR_CONTACT_PYRAMIDAL)
            || (ty =? mjCNSTR_CONTACT_ELLIPTIC)); [reflexivity|].
  destruct (if ty =? mjCNSTR_EQUALITY then _ else _) as [[|]|f]; cbn [bind];
    [reflexivity | | reflexivity].
  apply findEdges_generic_with_jacobian; assumption.
Qed.

Lemma findEdges_loop_with_jacobian (m : mjModel) (d : mjData) (nedge_max : Z) (n : nat) :
  same_pattern m d ->
  forall (i ptype pid : Z) (st : edges),
    0 <= i -> i + Z.of_nat n <= nefc d ->
    findEdges_loop (with_jacobian m true) d nedge_max n i ptype pid st
    = findEdges_loop (with_jacobian m false) d nedge_max n i ptype pid st.
Proof.
  intros Hsp. induction n as [|n IH]; intros i ptype pid st Hi Hn; [reflexivity|].
  cbn [findEdges_loop].
  destruct (rd (efc_type d) i) as [ty|f]; cbn [bind]; [|reflexivity].
  destruct (if ptype =? ty then _ else _) as [[|]|f]; cbn [bind]; [| |reflexivity].
  - apply IH; lia.
  - destruct (rd (efc_id d) i) as [id|f]; cbn [bind]; [|reflexivity].
    rewrite (findEdges_row_with_jacobian m d i nedge_max ty id st Hsp ltac:(lia)).
    destruct (findEdges_row _ d i nedge_max ty id st) as [st'|f]; cbn [bind];
      [|reflexivity].
    apply IH; lia.
Qed.

Lemma findEdges_with_jacobian (m : mjModel) (d : mjData) (treenedge edge : list Z)
    (nedge_max : Z) :
  same_pattern m d ->
  findEdges (with_jacobian m true) d treenedge edge nedge_max
  = findEdges (with_jacobian m false) d treenedge edge nedge_max.
Proof.
  intros Hsp. unfold findEdges. cbn [with_jacobian ntree].
  destruct (memset_zero treenedge (ntree m)) as [tn|f]; cbn [bind]; [|reflexivity].
  destruct (Z.le_gt_cases 0 (nefc d)).
  - apply findEdges_loop_with_jacobian; [exact Hsp | lia | lia].
  - replace (Z.to_nat (nefc d)) with 0%nat by lia. reflexivity.
Qed.

Lemma countMaxEdge_with_jacobian (m : mjModel) (b : bool) (d : mjData) :
  countMaxEdge (with_jacobian m b) d = countMaxEdge m d.
Proof.
  unfold countMaxEdge. cbv zeta. cbn [with_jacobian ntendon].
  generalize (Z.to_nat (ntendon m)) 0 (0 + 2 * ncon d + 2 * ne d + nf d).
  induction n as [|n IH]; intros i x; [reflexivity|].
  cbn [countMaxEdge_tendons with_jacobian tendon_frictionloss tendon_limited
       tendon_num].
  destruct (rd (tendon_frictionloss m) i) as [fl|f]; cbn [bind]; [|reflexivity].
  destruct (if fl =? 0 then _ else _) as [y|f]; cbn [bind]; [|reflexivity].
  destruct (rd (tendon_limited m) i) as [lim|f]; cbn [bind]; [|reflexivity].
  destruct (if lim =? 0 then _ else _) as [z|f]; cbn [bind]; [|reflexivity].
  apply IH.
Qed.

Lemma island_dof_loop_with_jacobian (m : mjModel) (b : bool) (ti : list Z) (n : nat) :
  forall (i : Z) (s : sweep),
    island_dof_loop (with_jacobian m b) ti n i s = island_dof_loop m ti n i s.
Proof.
  induction n as [|n IH]; intros i s; [reflexivity|].
  cbn [island_dof_loop with_jacobian dof_treeid].
  destruct (rd (dof_treeid m) i) as [t|f]; cbn [bind]; [|reflexivity].
  destruct (rd ti t) as [island|f]; cbn [bind]; [|reflexivity].
  destruct (wr (sw_island s) i island) as [isl|f]; cbn [bind]; [|reflexivity].
  destruct (island =? -1).
  - destruct (wr _ i (-1)) as [next|f]; cbn [bind]; [|reflexivity]. apply IH.
  - destruct (island_link _ island i) as [s'|f]; cbn [bind]; [|reflexivity]. apply IH.
Qed.

Lemma island_efc_loop_with_jacobian (m : mjModel) (d : mjData) (ti : list Z) (n : nat) :
  same_pattern m d ->
  forall (i : Z) (s : sweep),
    (forall k, (k < n)%nat -> 0 <= i + Z.of_nat k < nefc d) ->
    island_efc_loop (with_jacobian m true) d ti n i s
    = island_efc_loop (with_jacobian m false) d ti n i s.
Proof.
  intros Hsp. induction n as [|n IH]; intros i s Hn; [reflexivity|].
  cbn [island_efc_loop].
  rewrite (treeNext_null_with_jacobian m d (-1) i Hsp).
  - destruct (treeNext _ d (-1) i None) as [r|f]; cbn [bind]; [|reflexivity].
    destruct (rd ti (fst r)) as [island|f]; cbn [bind]; [|reflexivity].
    destruct (wr (sw_island s) i island) as [isl|f]; cbn [bind]; [|reflexivity].
    destruct (island =? -1); [reflexivity|].
    destruct (island_link _ island i) as [s'|f]; cbn [bind]; [|reflexivity].
    apply IH. intros k Hk. specialize (Hn (S k) ltac:(lia)). lia.
  - specialize (Hn 0%nat ltac:(lia)). lia.
Qed.

Lemma island_arena_alloc_with_jacobian (m1 m2 : mjModel)
    (ptrs : list (island_ptr * (mjModel -> mjData -> Z) * Z)) :
  Forall (fun p => forall d, snd (fst p) m1 d = snd (fst p) m2 d) ptrs ->
  forall (d : mjData) (parena_old mark : Z),
    island_arena_alloc m1 ptrs d parena_old mark
    = island_arena_alloc m2 ptrs d parena_old mark.
Proof.
  induction 1 as [|[[name nr] nc] rest Hp _ IH]; intros d pa mark; [reflexivity|].
  cbn [island_arena_alloc]. cbn [fst snd] in Hp. rewrite (Hp d).
  destruct (get_ptr name _); [apply IH | reflexivity].
Qed.

Lemma mj_island_trees_with_jacobian (m : mjModel) (d : mjData) :
  same_pattern m d ->
  mj_island_trees (with_jacobian m true) d = mj_island_trees (with_jacobian m false) d.
Proof.
  intros Hsp. unfold mj_island_trees. cbv zeta. cbn [with_jacobian ntree].
  rewrite !countMaxEdge_with_jacobian.
  destruct (countMaxEdge m d) as [nedge_max|f]; cbn [bind]; [|reflexivity].
  destruct (mj_stackAllocInt d (2 * nedge_max)) as [[edge d1]|f] eqn:E1; cbn [bind];
    [|reflexivity].
  apply mj_stackAllocInt_Ok in E1. destruct E1 as (_ & _ & ->).
  destruct (mj_stackAllocInt _ (ntree m)) as [[rownnz d2]|f] eqn:E2; cbn [bind];
    [|reflexivity].
  apply mj_stackAllocInt_Ok in E2. destruct E2 as (_ & _ & ->).
  match goal with
  | |- context [findEdges (with_jacobian m true) ?d0 rownnz edge nedge_max] =>
      rewrite (findEdges_with_jacobian m d0 rownnz edge nedge_max Hsp)
  end.
  reflexivity.
Qed.

Lemma mj_island_tables_with_jacobian (m : mjModel) (d : mjData) (ti : list Z)
    (mark : Z) :
  same_pattern m d ->
  mj_island_tables (with_jacobian m true) d ti mark
  = mj_island_tables (with_jacobian m false) d ti mark.
Proof.
  intros Hsp. unfold mj_island_tables. cbv zeta. cbn [with_jacobian nv].
  destruct (mj_stackAllocInt d (nisland d)) as [[island_last d1]|f] eqn:E1; cbn [bind];
    [|reflexivity].
  apply mj_stackAllocInt_Ok in E1. destruct E1 as (_ & _ & ->).
  destruct (fill island_last _ 0 (-1)) as [il|f]; cbn [bind]; [|reflexivity].
  destruct (deref _) as [a1|f]; cbn [bind]; [|reflexivity].
  destruct (deref _) as [a2|f]; cbn [bind]; [|reflexivity].
  destruct (deref _) as [a3|f]; cbn [bind]; [|reflexivity].
  rewrite !island_dof_loop_with_jacobian.
  destruct (island_dof_loop m ti _ 0 _) as [s|f]; cbn [bind]; [|reflexivity].
  destruct (negb _); [reflexivity|].
  destruct (island_finalize _ _ 0 _) as [dof_next|f]; cbn [bind]; [|reflexivity].
  destruct (fill _ _ 0 (-1)) as [il2|f]; cbn [bind]; [|reflexivity].
  destruct (deref _) as [b1|f]; cbn [bind]; [|reflexivity].
  destruct (deref _) as [b2|f]; cbn [bind]; [|reflexivity].
  destruct (deref _) as [b3|f]; cbn [bind]; [|reflexivity].
  match goal with
  | |- context [island_efc_loop (with_jacobian m true) ?d0 ti ?n 0 ?s0] =>
      rewrite (island_efc_loop_with_jacobian m d0 ti n Hsp 0 s0)
  end; [reflexivity|].
  intros k Hk. change (0 <= 0 + Z.of_nat k < nefc d). lia.
Qed.





(** The same row with room to spare and a budget of four records, that of
    one limited tendon of length four: the dense form needs four records and
    succeeds, the sparse form, listing the columns in the order 0, 2, 3, 1,
    asks for six and stops with the report that the edge array is too
    small. *)
Lemma mj_island_unsorted_sparse_overflows :
  same_columns sample_long_tendon_model (data_tendon_limit 1000)
  /\ mj_island (with_jacobian sample_long_tendon_model true) (data_tendon_limit 1000)
     = Err (mjERROR "edge array too small")
  /\ exists d', mj_island (with_jacobian sample_long_tendon_model false)
                  (data_tendon_limit 1000) = Ok d'
                /\ nisland d' = 1.
Proof.
  split; [|split].
  - split; [apply Z.leb_le; reflexivity|].
    intros i Hi.
    assert (Hn : nefc (data_tendon_limit 1000) = 1) by reflexivity.
    assert (i = 0) by lia. subst i. split.
    + exists 4, 0. repeat split; try reflexivity; try (apply Z.leb_le; reflexivity).
    + intros c.
      change (sparse_cols (data_tendon_limit 1000) 0) with [0; 2; 3; 1].
      assert (Hd : dense_cols sample_long_tendon_model (data_tendon_limit 1000) 0
                   = [0; 1; 2; 3]) by (vm_compute; reflexivity).
      rewrite Hd. rewrite !elem_of_cons, !elem_of_nil. tauto.
  - vm_compute. reflexivity.
  - destruct (mj_island (with_jacobian sample_long_tendon_model false)
                (data_tendon_limit 1000)) as [d'|f] eqn:E;
      [|vm_compute in E; discriminate E].
    exists d'. split; [reflexivity|].
    vm_compute in E. injection E as <-. reflexivity.
Qed.

(** ** Iteration bounds are never exhausted *)

Lemma in_fuel_bind {A B : Type} (r : result A) (k : A -> result B) :
  in_fuel r -> (forall a, r = Ok a -> in_fuel (k a)) -> in_fuel (bind r k).
Proof.
  unfold in_fuel. intros Hr Hk. destruct r as [a|f]; cbn [bind].
  - apply Hk. reflexivity.
  - intros E. apply Hr. injection E as ->. reflexivity.
Qed.

Lemma in_fuel_Ok {A : Type} (a : A) : in_fuel (Ok a).
Proof. discriminate. Qed.

Lemma in_fuel_mjERROR {A : Type} (msg : string) : in_fuel (@Err A (mjERROR msg)).
Proof. discriminate. Qed.

Lemma in_fuel_OutOfBounds {A : Type} : in_fuel (@Err A OutOfBounds).
Proof. discriminate. Qed.

Lemma in_fuel_rd (a : list Z) (i : Z) : in_fuel (rd a i).
Proof. unfold rd. destruct (i <? 0); [discriminate|]. destruct (a !! _); discriminate. Qed.

Lemma in_fuel_wr (a : list Z) (i x : Z) : in_fuel (wr a i x).
Proof. unfold wr. destruct (_ && _); discriminate. Qed.

Lemma in_fuel_rd_contact (c : list mjContact) (i : Z) : in_fuel (rd_contact c i).
Proof.
  unfold rd_contact. destruct (i <? 0); [discriminate|]. destruct (c !! _); discriminate.
Qed.

Lemma in_fuel_memset_zero (a : list Z) (n : Z) : in_fuel (memset_zero a n).
Proof. unfold memset_zero. destruct (_ && _); discriminate. Qed.

Lemma in_fuel_mj_stackAllocInt (d : mjData) (size : Z) : in_fuel (mj_stackAllocInt d size).
Proof. unfold mj_stackAllocInt. cbv zeta. destruct (_ || _); discriminate. Qed.

Lemma in_fuel_deref (p : option (list Z)) : in_fuel (deref p).
Proof. destruct p; discriminate. Qed.

Create HintDb fuel.
#[local] Hint Resolve in_fuel_Ok in_fuel_mjERROR in_fuel_OutOfBounds in_fuel_rd in_fuel_wr
  in_fuel_rd_contact in_fuel_memset_zero in_fuel_mj_stackAllocInt in_fuel_deref : fuel.

(** One step through a sequence of calls none of which is a bounded loop. *)
Ltac fuel_step :=
  match goal with
  | |- in_fuel (bind _ _) => apply in_fuel_bind; [|intros ? ?]
  | |- in_fuel (if ?c then _ else _) => destruct c
  | |- in_fuel (match ?p with (_, _) => _ end) => destruct p
  | |- in_fuel _ => solve [auto with fuel]
  end.

Lemma in_fuel_treeNext_sparse (m : mjModel) (d : mjData) (adr tree : Z) (n : nat) :
  forall j, in_fuel (treeNext_sparse m d adr tree n j).
Proof.
  induction n as [|n IH]; intros j; cbn [treeNext_sparse]; repeat fuel_step.
Qed.

Lemma in_fuel_treeNext_dense (m : mjModel) (d : mjData) (i tree : Z) (n : nat) :
  forall j, in_fuel (treeNext_dense m d i tree n j).
Proof.
  induction n as [|n IH]; intros j; cbn [treeNext_dense]; repeat fuel_step.
Qed.

Lemma in_fuel_treeNext (m : mjModel) (d : mjData) (tree i : Z) (index : option Z) :
  in_fuel (treeNext m d tree i index).
Proof.
  unfold treeNext. cbv zeta. apply in_fuel_bind.
  - destruct (mj_isSparse m).
    + repeat fuel_step. apply in_fuel_treeNext_sparse.
    + apply in_fuel_treeNext_dense.
  - intros [t j] _. apply in_fuel_Ok.
Qed.

Lemma in_fuel_addEdge (treenedge edge : list Z) (nedge tree1 tree2 nedge_max : Z) :
  in_fuel (addEdge treenedge edge nedge tree1 tree2 nedge_max).
Proof. unfold addEdge. cbv zeta. repeat fuel_step. Qed.

#[local] Hint Resolve in_fuel_treeNext in_fuel_addEdge : fuel.

(** The loop of the generic case ends within the iterations it is given:
    every iteration moves the cursor forward inside the row. *)
Lemma in_fuel_findEdges_chain (m : mjModel) (d : mjData) (i nedge_max : Z) (fuel : nat) :
  forall (st : edges) (tree2 tree3 index : Z),
    0 <= index ->
    (tree3 > -1 ->
       index < row_limit m d i /\ row_entry m d i index = Ok (Some tree3)) ->
    (Z.to_nat (row_limit m d i - index) < fuel)%nat ->
    in_fuel (findEdges_chain fuel m d i nedge_max st tree2 tree3 index).
Proof.
  induction fuel as [|fuel IH]; intros st tree2 tree3 index Hidx Hhead Hfuel; [lia|].
  cbn [findEdges_chain].
  destruct ((tree3 >? -1) && negb (tree3 =? tree2)) eqn:Hcond; [|apply in_fuel_Ok].
  apply andb_true_iff in Hcond. destruct Hcond as [Hgt _].
  destruct (Hhead ltac:(lia)) as [Hlt Hentry].
  destruct st as [[treenedge edge] nedge].
  apply in_fuel_bind; [apply in_fuel_addEdge | intros st' _].
  apply in_fuel_bind; [apply in_fuel_treeNext | intros r Hr].
  destruct (treeNext_cell _ _ _ _ _ _ Hr) as (t & j & -> & _ & _).
  cbn [fst snd cell].
  destruct (treeNext_scan _ _ _ _ _ _ _ Hr) as [Hskip [[-> ->] | (Hj & Hne & Hfound)]].
  - apply IH; [lia | intros Hc; lia | lia].
  - assert (Hjne : j <> index) by (intros ->; congruence).
    apply IH; [lia | intros _; split; [lia | exact Hfound] | lia].
Qed.

Lemma in_fuel_findEdges_generic (m : mjModel) (d : mjData) (i nedge_max : Z) (st : edges) :
  in_fuel (findEdges_generic m d i nedge_max st).
Proof.
  unfold findEdges_generic. destruct st as [[treenedge edge] nedge]. cbv zeta.
  apply in_fuel_bind; [apply in_fuel_treeNext | intros r1 Hr1].
  destruct (treeNext_cell _ _ _ _ _ _ Hr1) as (t1 & j1 & -> & _ & _).
  cbn [fst snd cell].
  destruct (treeNext_scan _ _ _ _ _ _ _ Hr1) as [_ H1].
  apply in_fuel_bind; [apply in_fuel_treeNext | intros r2 Hr2].
  destruct (treeNext_cell _ _ _ _ _ _ Hr2) as (t2 & j2 & -> & _ & _).
  cbn [fst snd cell].
  destruct (treeNext_scan _ _ _ _ _ _ _ Hr2) as [_ H2].
  destruct (t2 =? -1); [apply in_fuel_addEdge|].
  apply in_fuel_bind; [apply in_fuel_addEdge | intros st' _].
  apply in_fuel_bind; [apply in_fuel_treeNext | intros r3 Hr3].
  destruct (treeNext_cell _ _ _ _ _ _ Hr3) as (t3 & j3 & -> & _ & _).
  cbn [fst snd cell].
  destruct (treeNext_scan _ _ _ _ _ _ _ Hr3) as [_ H3].
  assert (Hj1 : 0 <= j1) by lia.
  assert (Hj2 : 0 <= j2) by lia.
  apply in_fuel_findEdges_chain.
  - lia.
  - intros Hgt. destruct H3 as [[-> _] | (Hj & _ & Hfound)]; [lia|].
    split; [lia | exact Hfound].
  - lia.
Qed.

Lemma in_fuel_findEdges_row (m : mjModel) (d : mjData) (i nedge_max ty id : Z)
    (st : edges) :
  in_fuel (findEdges_row m d i nedge_max ty id st).
Proof.
  unfold findEdges_row. destruct st as [[treenedge edge] nedge].
  repeat fuel_step. apply in_fuel_findEdges_generic.
Qed.

Lemma in_fuel_findEdges_loop (m : mjModel) (d : mjData) (nedge_max : Z) (n : nat) :
  forall (i ptype pid : Z) (st : edges),
    in_fuel (findEdges_loop m d nedge_max n i ptype pid st).
Proof.
  induction n as [|n IH]; intros i ptype pid st; cbn [findEdges_loop];
    [apply in_fuel_Ok|].
  apply in_fuel_bind; [apply in_fuel_rd | intros ty _].
  apply in_fuel_bind; [repeat fuel_step | intros same _].
  destruct same; [apply IH|].
  apply in_fuel_bind; [apply in_fuel_rd | intros id _].
  apply in_fuel_bind; [apply in_fuel_findEdges_row | intros st' _]. apply IH.
Qed.

Lemma in_fuel_findEdges (m : mjModel) (d : mjData) (treenedge edge : list Z)
    (nedge_max : Z) :
  in_fuel (findEdges m d treenedge edge nedge_max).
Proof.
  unfold findEdges. cbv zeta.
  apply in_fuel_bind; [apply in_fuel_memset_zero | intros tn _].
  apply in_fuel_findEdges_loop.
Qed.

Lemma in_fuel_countMaxEdge (m : mjModel) (d : mjData) : in_fuel (countMaxEdge m d).
Proof.
  unfold countMaxEdge. cbv zeta.
  generalize (Z.to_nat (ntendon m)) 0 (0 + 2 * ncon d + 2 * ne d + nf d).
  induction n as [|n IH]; intros i x; cbn [countMaxEdge_tendons]; repeat fuel_step.
Qed.

Lemma in_fuel_fill (a : list Z) (n : nat) (x : Z) :
  forall i, in_fuel (fill a n i x).
Proof.
  revert a. induction n as [|n IH]; intros a i; cbn [fill]; repeat fuel_step.
Qed.

Lemma in_fuel_island_rowadr_loop (n : nat) :
  forall r rowadr rownnz, in_fuel (island_rowadr_loop n r rowadr rownnz).
Proof.
  induction n as [|n IH]; intros r rowadr rownnz; cbn [island_rowadr_loop];
    repeat fuel_step.
Qed.

Lemma in_fuel_island_colind_loop (n : nat) (edge rowadr : list Z) :
  forall e rownnz colind, in_fuel (island_colind_loop n e edge rowadr rownnz colind).
Proof.
  induction n as [|n IH]; intros e rownnz colind; cbn [island_colind_loop];
    repeat fuel_step.
Qed.

Lemma in_fuel_island_link (s : sweep) (island i : Z) : in_fuel (island_link s island i).
Proof. unfold island_link. repeat fuel_step. Qed.

#[local] Hint Resolve in_fuel_island_link in_fuel_fill in_fuel_findEdges
  in_fuel_countMaxEdge in_fuel_island_rowadr_loop in_fuel_island_colind_loop : fuel.

Lemma in_fuel_island_dof_loop (m : mjModel) (ti : list Z) (n : nat) :
  forall i s, in_fuel (island_dof_loop m ti n i s).
Proof.
  induction n as [|n IH]; intros i s; cbn [island_dof_loop]; repeat fuel_step.
Qed.

Lemma in_fuel_island_efc_loop (m : mjModel) (d : mjData) (ti : list Z) (n : nat) :
  forall i s, in_fuel (island_efc_loop m d ti n i s).
Proof.
  induction n as [|n IH]; intros i s; cbn [island_efc_loop]; repeat fuel_step.
Qed.

Lemma in_fuel_island_finalize (island_last : list Z) (n : nat) :
  forall i next, in_fuel (island_finalize island_last n i next).
Proof.
  induction n as [|n IH]; intros i next; cbn [island_finalize]; repeat fuel_step.
Qed.

#[local] Hint Resolve in_fuel_island_dof_loop in_fuel_island_efc_loop
  in_fuel_island_finalize : fuel.

Lemma in_fuel_mj_island_tables (m : mjModel) (d : mjData) (ti : list Z) (mark : Z) :
  in_fuel (mj_island_tables m d ti mark).
Proof. unfold mj_island_tables. cbv zeta. repeat fuel_step. Qed.

(** The first part of [mj_island] never exhausts an iteration bound: the
    matrix handed to [mj_floodFill] is symmetric and the stack has a cell
    per record. *)
Lemma in_fuel_mj_island_trees (m : mjModel) (d : mjData) :
  (forall c t, rd (dof_treeid m) c = Ok t -> 0 <= t) ->
  in_fuel (mj_island_trees m d).
Proof.
  intros Hnn. unfold mj_island_trees. cbv zeta.
  apply in_fuel_bind; [apply in_fuel_countMaxEdge | intros nedge_max _].
  apply in_fuel_bind; [apply in_fuel_mj_stackAllocInt | intros [edge d1] E1].
  apply mj_stackAllocInt_Ok in E1. destruct E1 as (_ & Ledge & ->).
  apply in_fuel_bind; [apply in_fuel_mj_stackAllocInt | intros [rownnz0 d2] E2].
  apply mj_stackAllocInt_Ok in E2. destruct E2 as (HNT & Lrownnz0 & ->).
  apply in_fuel_bind; [apply in_fuel_findEdges | intros [[rownnz1 edge1] nedge] Efind].
  apply in_fuel_bind; [apply in_fuel_mj_stackAllocInt | intros [rowadr0 d3] E3].
  apply mj_stackAllocInt_Ok in E3. destruct E3 as (_ & Lrowadr0 & ->).
  apply in_fuel_bind; [apply in_fuel_wr | intros rowadr1 Ew0].
  apply wr_Ok in Ew0. destruct Ew0 as [Hw0 ->].
  apply in_fuel_bind; [apply in_fuel_island_rowadr_loop | intros [rowadr2 rownnz2] Eadr].
  apply in_fuel_bind; [apply in_fuel_wr | intros rownnz3 Ew1].
  apply wr_Ok in Ew1. destruct Ew1 as [Hw1 ->].
  apply in_fuel_bind; [apply in_fuel_mj_stackAllocInt | intros [colind0 d4] E4].
  apply mj_stackAllocInt_Ok in E4. destruct E4 as (Hnedge & Lcolind0 & ->).
  apply in_fuel_bind; [apply in_fuel_island_colind_loop | intros [rownnz4 colind1] Ecol].
  apply in_fuel_bind; [apply in_fuel_mj_stackAllocInt | intros [ti0 d5] E5].
  apply mj_stackAllocInt_Ok in E5. destruct E5 as (_ & Lti0 & ->).
  apply in_fuel_bind; [apply in_fuel_mj_stackAllocInt | intros [stack0 d6] E6].
  apply mj_stackAllocInt_Ok in E6. destruct E6 as (_ & Lstack0 & ->).
  destruct (mj_island_csr m _ nedge_max nedge edge rownnz0 rownnz1 edge1 rowadr0 rowadr2
              rownnz2 colind0 rownnz4 colind1 Hnn HNT Lrownnz0 Lrowadr0 Efind Hw0 Eadr Hw1
              Lcolind0 Ecol)
    as (_ & _ & Hvalid & _ & Hnnz).
  destruct (mj_floodFill_correct _ _ _ _ Hvalid ti0 stack0)
    as (k & ti' & stack' & Hrun & _); [lia | lia |].
  rewrite Hrun. cbn [bind]. apply in_fuel_Ok.
Qed.

(** [mj_island] never exhausts an iteration bound of the model, on a model
    whose [dof_treeid] has no negative entry: the generic scan moves its
    cursor forward and the traversal visits every record once. *)
Theorem mj_island_in_fuel (m : mjModel) (d : mjData) :
  (forall c t, rd (dof_treeid m) c = Ok t -> 0 <= t) ->
  in_fuel (mj_island m d).
Proof.
  intros Hnn. unfold mj_island. destruct (nefc d =? 0); [apply in_fuel_Ok|].
  cbv zeta.
  apply in_fuel_bind; [apply in_fuel_mj_island_trees; exact Hnn | intros [ti d0] _].
  destruct (island_arena_alloc _ _ _ _ _) as [d1 ok].
  destruct ok; cbn [negb]; [apply in_fuel_mj_island_tables | apply in_fuel_Ok].
Qed.

(** * Further properties of the island code *)

(** ** addEdge *)

Lemma fold_static_flip (t1 t2 : Z) :
  fold_static t2 t1 = (snd (fold_static t1 t2), fst (fold_static t1 t2)).
Proof.
  unfold fold_static. cbv zeta. cbn [fst snd].
  destruct (Z.eqb_spec t1 (-1)) as [-> | H1]; destruct (Z.eqb_spec t2 (-1)) as [-> | H2];
    reflexivity.
Qed.

(** The three ways in which a call of [addEdge] returns, [a] and [b] being
    the endpoints after folding the static tree: the edge repeats the last
    record or its flip and nothing changes; or it is a self-edge and one
    record is appended; or a record and its flip are appended. *)
Lemma addEdge_cases (treenedge edge : list Z) (nedge tree1 tree2 nedge_max : Z)
    (treenedge' edge' : list Z) (nedge' : Z) :
  addEdge treenedge edge nedge tree1 tree2 nedge_max = Ok (treenedge', edge', nedge') ->
  let a := fst (fold_static tree1 tree2) in
  let b := snd (fold_static tree1 tree2) in
  ~ (tree1 = -1 /\ tree2 = -1)
  /\ ((nedge' = nedge /\ edge' = edge /\ treenedge' = treenedge /\ 1 <= nedge
       /\ 2 * nedge <= Z.of_nat (length edge)
       /\ ((get edge (2 * nedge - 2) = a /\ get edge (2 * nedge - 1) = b)
           \/ (get edge (2 * nedge - 2) = b /\ get edge (2 * nedge - 1) = a)))
      \/ (a = b /\ nedge' = nedge + 1 /\ 0 <= nedge < nedge_max
          /\ 2 * nedge + 1 < Z.of_nat (length edge)
          /\ edge' = <[Z.to_nat (2 * nedge + 1) := a]> (<[Z.to_nat (2 * nedge + 0) := a]> edge)
          /\ 0 <= a < Z.of_nat (length treenedge)
          /\ treenedge' = <[Z.to_nat a := get treenedge a + 1]> treenedge)
      \/ (a <> b /\ nedge' = nedge + 2 /\ 0 <= nedge /\ nedge + 2 <= nedge_max
          /\ 2 * nedge + 3 < Z.of_nat (length edge)
          /\ edge' = <[Z.to_nat (2 * nedge + 3) := a]>
                       (<[Z.to_nat (2 * nedge + 2) := b]>
                          (<[Z.to_nat (2 * nedge + 1) := b]>
                             (<[Z.to_nat (2 * nedge + 0) := a]> edge)))
          /\ 0 <= a < Z.of_nat (length treenedge) /\ 0 <= b < Z.of_nat (length treenedge)
          /\ treenedge' = <[Z.to_nat b := get treenedge b + 1]>
                            (<[Z.to_nat a := get treenedge a + 1]> treenedge))).
Proof.
  intros H. unfold addEdge in H. unfold fold_static. cbv zeta. cbn [fst snd].
  destruct ((tree1 =? -1) && (tree2 =? -1)) eqn:Hboth; [discriminate|].
  split.
  { intros [-> ->]. discriminate Hboth. }
  cbv zeta in H.
  set (a := if tree1 =? -1 then tree2 else tree1) in *.
  set (b := if tree2 =? -1 then a else tree2) in *.
  inv_bind H. rename a0 into p1, E into Ep1.
  inv_bind H. rename a0 into p2, E into Ep2.
  assert (Hprev : nedge <> 0 ->
            1 <= nedge /\ 2 * nedge <= Z.of_nat (length edge)
            /\ get edge (2 * nedge - 2) = p1 /\ get edge (2 * nedge - 1) = p2).
  { intros Hnz. destruct (Z.eqb_spec nedge 0); [contradiction|].
    pose proof (rd_lt _ _ _ Ep1). pose proof (rd_lt _ _ _ Ep2).
    apply get_rd in Ep1, Ep2. lia. }
  destruct (Z.eqb_spec a b) as [Hab | Hab].
  - destruct (negb (nedge =? 0) && (a =? p1) && (a =? p2)) eqn:Hdup.
    + injection H as <- <- <-. left.
      apply andb_prop in Hdup. destruct Hdup as [Hdup H3].
      apply andb_prop in Hdup. destruct Hdup as [H1 H2].
      apply Z.eqb_eq in H2, H3. apply negb_true_iff, Z.eqb_neq in H1.
      destruct (Hprev H1) as (Q1 & Q2 & Q3 & Q4).
      repeat split; auto. left. split; congruence.
    + destruct (Z.geb_spec nedge nedge_max); [discriminate|].
      inv_bind H. rename a0 into e1, E into Ew1.
      apply wr_Ok in Ew1. destruct Ew1 as [Hw1 ->].
      inv_bind H. rename a0 into e2, E into Ew2.
      apply wr_Ok in Ew2. destruct Ew2 as [Hw2 ->]. rewrite length_insert in Hw2.
      inv_bind H. rename a0 into c, E into Ec.
      inv_bind H. rename a0 into tn1, E into Ew3.
      apply wr_Ok in Ew3. destruct Ew3 as [Hw3 ->].
      injection H as <- <- <-. right. left.
      rewrite (get_rd _ _ _ Ec). repeat split; auto; lia.
  - destruct (negb (nedge =? 0)
              && ((a =? p1) && (b =? p2) || (a =? p2) && (b =? p1))) eqn:Hdup.
    + injection H as <- <- <-. left.
      apply andb_prop in Hdup. destruct Hdup as [H1 H2].
      apply negb_true_iff, Z.eqb_neq in H1.
      destruct (Hprev H1) as (Q1 & Q2 & Q3 & Q4).
      repeat split; auto.
      apply orb_prop in H2. destruct H2 as [H2 | H2];
        apply andb_prop in H2; destruct H2 as [H2 H3]; apply Z.eqb_eq in H2, H3;
        [left | right]; split; congruence.
    + destruct (Z.gtb_spec (nedge + 2) nedge_max); [discriminate|].
      inv_bind H. rename a0 into e1, E into Ew1.
      apply wr_Ok in Ew1. destruct Ew1 as [Hw1 ->].
      inv_bind H. rename a0 into e2, E into Ew2.
      apply wr_Ok in Ew2. destruct Ew2 as [Hw2 ->]. rewrite length_insert in Hw2.
      inv_bind H. rename a0 into e3, E into Ew3.
      apply wr_Ok in Ew3. destruct Ew3 as [Hw3 ->]. rewrite !length_insert in Hw3.
      inv_bind H. rename a0 into e4, E into Ew4.
      apply wr_Ok in Ew4. destruct Ew4 as [Hw4 ->]. rewrite !length_insert in Hw4.
      inv_bind H. rename a0 into c1, E into Ec1.
      inv_bind H. rename a0 into tn1, E into Ew5.
      apply wr_Ok in Ew5. destruct Ew5 as [Hw5 ->].
      inv_bind H. rename a0 into c2, E into Ec2.
      inv_bind H. rename a0 into tn2, E into Ew6.
      apply wr_Ok in Ew6. destruct Ew6 as [Hw6 ->]. rewrite length_insert in Hw6.
      injection H as <- <- <-. right. right.
      rewrite (get_rd _ _ _ Ec1).
      rewrite rd_insert_ne in Ec2 by lia. rewrite (get_rd _ _ _ Ec2).
      repeat split; auto; lia.
Qed.

(** An edge that repeats the last record, or its flip, is not recorded
    again. *)
Lemma addEdge_dedup (treenedge edge : list Z) (nedge tree1 tree2 nedge_max : Z) :
  ~ (tree1 = -1 /\ tree2 = -1) ->
  1 <= nedge -> 2 * nedge <= Z.of_nat (length edge) ->
  (get edge (2 * nedge - 2) = fst (fold_static tree1 tree2)
   /\ get edge (2 * nedge - 1) = snd (fold_static tree1 tree2))
  \/ (get edge (2 * nedge - 2) = snd (fold_static tree1 tree2)
      /\ get edge (2 * nedge - 1) = fst (fold_static tree1 tree2)) ->
  addEdge treenedge edge nedge tree1 tree2 nedge_max = Ok (treenedge, edge, nedge).
Proof.
  intros Hns Hn Hlen Hlast. unfold addEdge. unfold fold_static in Hlast.
  cbv zeta in *. cbn [fst snd] in Hlast.
  destruct ((tree1 =? -1) && (tree2 =? -1)) eqn:Hboth.
  { exfalso. apply Hns. apply andb_prop in Hboth. destruct Hboth as [H1 H2].
    apply Z.eqb_eq in H1, H2. auto. }
  set (a := if tree1 =? -1 then tree2 else tree1) in *.
  set (b := if tree2 =? -1 then a else tree2) in *.
  destruct (Z.eqb_spec nedge 0); [lia|].
  rewrite (rd_in_range edge (2 * nedge - 2)) by lia.
  rewrite (rd_in_range edge (2 * nedge - 1)) by lia. cbn [bind negb andb].
  destruct (Z.eqb_spec a b) as [Hab | Hab].
  - replace (a =? get edge (2 * nedge - 2)) with true
      by (symmetry; apply Z.eqb_eq; destruct Hlast as [[E1 E2] | [E1 E2]]; congruence).
    replace (a =? get edge (2 * nedge - 1)) with true
      by (symmetry; apply Z.eqb_eq; destruct Hlast as [[E1 E2] | [E1 E2]]; congruence).
    reflexivity.
  - destruct Hlast as [[E1 E2] | [E1 E2]]; rewrite E1, E2, !Z.eqb_refl; cbn [andb orb];
      [reflexivity|]. rewrite orb_true_r. reflexivity.
Qed.

(** An edge to the static tree is recorded as a self-edge of the other
    tree, whichever side the static tree is on; only an edge of the static
    tree to itself is an error. *)
Theorem addEdge_static_endpoint (treenedge edge : list Z) (nedge tree nedge_max : Z) :
  tree <> -1 ->
  addEdge treenedge edge nedge tree (-1) nedge_max
  = addEdge treenedge edge nedge tree tree nedge_max
  /\ addEdge treenedge edge nedge (-1) tree nedge_max
     = addEdge treenedge edge nedge tree tree nedge_max
  /\ addEdge treenedge edge nedge (-1) (-1) nedge_max
     = Err (mjERROR "self-edge of the static tree").
Proof.
  intros Ht. unfold addEdge. cbv zeta.
  destruct (Z.eqb_spec tree (-1)) as [|_]; [contradiction|].
  cbn [andb Z.eqb]. repeat split.
Qed.

Lemma addEdge_static_endpoint_witness :
  addEdge [0; 0; 0] [9; 9; 9; 9] 0 2 (-1) 2 = Ok ([0; 0; 1], [2; 2; 9; 9], 1)
  /\ addEdge [0; 0; 0] [9; 9; 9; 9] 0 (-1) 2 2 = Ok ([0; 0; 1], [2; 2; 9; 9], 1).
Proof.
  assert (Hne : (2 : Z) <> -1) by discriminate.
  destruct (addEdge_static_endpoint [0; 0; 0] [9; 9; 9; 9] 0 2 2 Hne) as (H1 & H2 & _).
  split; [rewrite H1 | rewrite H2]; reflexivity.
Defined.

(** Asking for the edge just recorded once more, in either direction,
    changes nothing: the arrays and the count stay as the first call left
    them. *)
Theorem addEdge_repeat_noop (treenedge edge : list Z) (nedge tree1 tree2 nedge_max : Z)
    (treenedge' edge' : list Z) (nedge' : Z) :
  addEdge treenedge edge nedge tree1 tree2 nedge_max = Ok (treenedge', edge', nedge') ->
  addEdge treenedge' edge' nedge' tree1 tree2 nedge_max = Ok (treenedge', edge', nedge')
  /\ addEdge treenedge' edge' nedge' tree2 tree1 nedge_max
     = Ok (treenedge', edge', nedge').
Proof.
  intros H. apply addEdge_cases in H. cbv zeta in H.
  destruct H as [Hns H].
  assert (Hns' : ~ (tree2 = -1 /\ tree1 = -1)) by tauto.
  set (a := fst (fold_static tree1 tree2)) in *.
  set (b := snd (fold_static tree1 tree2)) in *.
  assert (Hlast : 1 <= nedge' /\ 2 * nedge' <= Z.of_nat (length edge')
            /\ ((get edge' (2 * nedge' - 2) = a /\ get edge' (2 * nedge' - 1) = b)
                \/ (get edge' (2 * nedge' - 2) = b /\ get edge' (2 * nedge' - 1) = a))).
  { destruct H as [(-> & -> & -> & H1 & H2 & H3)
                  | [(Hab & -> & Hn & Hlen & -> & Ha & ->)
                    | (Hab & -> & Hn & Hmax & Hlen & -> & Ha & Hb & ->)]].
    - auto.
    - rewrite !length_insert. split; [lia|]. split; [lia|]. left. rewrite <- Hab.
      replace (2 * (nedge + 1) - 2) with (2 * nedge + 0) by lia.
      replace (2 * (nedge + 1) - 1) with (2 * nedge + 1) by lia.
      rewrite get_insert_ne by lia. rewrite get_insert_eq by lia.
      rewrite get_insert_eq by (rewrite length_insert; lia). auto.
    - rewrite !length_insert. split; [lia|]. split; [lia|]. right.
      replace (2 * (nedge + 2) - 2) with (2 * nedge + 2) by lia.
      replace (2 * (nedge + 2) - 1) with (2 * nedge + 3) by lia.
      rewrite get_insert_ne by lia.
      rewrite get_insert_eq by (rewrite !length_insert; lia).
      rewrite get_insert_eq by (rewrite !length_insert; lia). auto. }
  destruct Hlast as (L1 & L2 & L3). split.
  - apply addEdge_dedup; assumption.
  - apply addEdge_dedup; try assumption.
    rewrite fold_static_flip. cbn [fst snd]. fold a b. tauto.
Qed.

Lemma addEdge_repeat_noop_witness :
  addEdge [0; 0; 0] [9; 9; 9; 9] 0 0 2 2 = Ok ([1; 0; 1], [0; 2; 2; 0], 2)
  /\ addEdge [1; 0; 1] [0; 2; 2; 0] 2 0 2 2 = Ok ([1; 0; 1], [0; 2; 2; 0], 2)
  /\ addEdge [1; 0; 1] [0; 2; 2; 0] 2 2 0 2 = Ok ([1; 0; 1], [0; 2; 2; 0], 2).
Proof.
  assert (H : addEdge [0; 0; 0] [9; 9; 9; 9] 0 0 2 2 = Ok ([1; 0; 1], [0; 2; 2; 0], 2))
    by reflexivity.
  split; [exact H|]. exact (addEdge_repeat_noop _ _ _ _ _ _ _ _ _ H).
Defined.

Lemma count_src_nil (t : Z) : count_src t [] = 0.
Proof. reflexivity. Qed.

Lemma count_src_cons (t x y : Z) (l : list (Z * Z)) :
  count_src t ((x, y) :: l) = (if x =? t then 1 else 0) + count_src t l.
Proof.
  unfold count_src, cols_of.
  destruct (Z.eqb_spec x t) as [-> | Hne].
  - rewrite filter_cons_True by reflexivity. cbn [map length]. lia.
  - rewrite filter_cons_False by exact Hne. lia.
Qed.

(** A call of [addEdge] that returns appends to the records and changes
    nothing before them: it appends nothing, one self-record, or a record
    followed by its flip, the endpoints being those left after folding the
    static tree; it stays within the budget whenever it appends; and every
    counter of [treenedge] grows by the number of appended records that
    start at its tree. *)
Theorem addEdge_appends (treenedge edge : list Z) (nedge tree1 tree2 nedge_max : Z)
    (treenedge' edge' : list Z) (nedge' : Z) :
  addEdge treenedge edge nedge tree1 tree2 nedge_max = Ok (treenedge', edge', nedge') ->
  let a := fst (fold_static tree1 tree2) in
  let b := snd (fold_static tree1 tree2) in
  length edge' = length edge /\ length treenedge' = length treenedge
  /\ (forall q, q < 2 * nedge -> get edge' q = get edge q)
  /\ exists new,
       edge_records edge' nedge' = edge_records edge nedge ++ new
       /\ nedge' = nedge + Z.of_nat (length new)
       /\ (new = [] \/ (a = b /\ new = [(a, a)]) \/ (a <> b /\ new = [(a, b); (b, a)]))
       /\ (new <> [] -> 0 <= nedge /\ nedge' <= nedge_max)
       /\ forall t, get treenedge' t = get treenedge t + count_src t new.
Proof.
  intros H. apply addEdge_cases in H. cbv zeta in *.
  destruct H as [_ H].
  set (a := fst (fold_static tree1 tree2)) in *.
  set (b := snd (fold_static tree1 tree2)) in *.
  destruct H as [(-> & -> & -> & H1 & H2 & H3)
                | [(Hab & -> & Hn & Hlen & -> & Ha & ->)
                  | (Hab & -> & Hn & Hmax & Hlen & -> & Ha & Hb & ->)]].
  - split; [reflexivity|]. split; [reflexivity|]. split; [reflexivity|].
    exists []. rewrite app_nil_r. cbn [length].
    split; [reflexivity|]. split; [lia|]. split; [auto|]. split; [|intros t; rewrite count_src_nil; lia].
    intros Hne. contradiction.
  - rewrite !length_insert. split; [reflexivity|]. split; [reflexivity|].
    replace (2 * nedge + 0) with (2 * nedge) by lia.
    set (e1 := <[Z.to_nat (2 * nedge) := a]> edge).
    set (e2 := <[Z.to_nat (2 * nedge + 1) := a]> e1).
    assert (L1 : length e1 = length edge) by apply length_insert.
    assert (G0 : get e2 (2 * nedge) = a).
    { unfold e2. rewrite get_insert_ne by lia. apply get_insert_eq. lia. }
    assert (G1 : get e2 (2 * nedge + 1) = a).
    { apply get_insert_eq. lia. }
    assert (Gold : forall q, q < 2 * nedge -> get e2 q = get edge q).
    { intros q Hq. unfold e2, e1. rewrite !get_insert_ne by lia. reflexivity. }
    split; [exact Gold|].
    exists [(a, a)]. split; [|split; [reflexivity|split; [auto|split]]].
    + rewrite edge_records_snoc by lia. rewrite G0, G1. f_equal.
      apply edge_records_ext. intros p Hp. apply Gold. lia.
    + intros _. lia.
    + intros t. rewrite count_src_cons, count_src_nil.
      destruct (Z.eqb_spec a t) as [<- | Hne].
      * rewrite get_insert_eq by lia. lia.
      * rewrite get_insert_ne by lia. lia.
  - rewrite !length_insert. split; [reflexivity|]. split; [reflexivity|].
    replace (2 * nedge + 0) with (2 * nedge) by lia.
    set (e1 := <[Z.to_nat (2 * nedge) := a]> edge).
    set (e2 := <[Z.to_nat (2 * nedge + 1) := b]> e1).
    set (e3 := <[Z.to_nat (2 * nedge + 2) := b]> e2).
    set (e4 := <[Z.to_nat (2 * nedge + 3) := a]> e3).
    assert (L1 : length e1 = length edge) by apply length_insert.
    assert (L2 : length e2 = length edge) by (unfold e2; rewrite length_insert; exact L1).
    assert (L3 : length e3 = length edge) by (unfold e3; rewrite length_insert; exact L2).
    assert (G0 : get e4 (2 * nedge) = a).
    { unfold e4, e3, e2. rewrite !get_insert_ne by lia. apply get_insert_eq. lia. }
    assert (G1 : get e4 (2 * nedge + 1) = b).
    { unfold e4, e3. rewrite !get_insert_ne by lia. apply get_insert_eq. lia. }
    assert (G2 : get e4 (2 * nedge + 2) = b).
    { unfold e4. rewrite !get_insert_ne by lia. apply get_insert_eq. lia. }
    assert (G3 : get e4 (2 * nedge + 3) = a).
    { apply get_insert_eq. lia. }
    assert (Gold : forall q, q < 2 * nedge -> get e4 q = get edge q).
    { intros q Hq. unfold e4, e3, e2, e1. rewrite !get_insert_ne by lia. reflexivity. }
    split; [exact Gold|].
    exists [(a, b); (b, a)]. split; [|split; [reflexivity|split; [auto|split]]].
    + replace (nedge + 2) with (nedge + 1 + 1) by lia.
      rewrite edge_records_snoc by lia. rewrite edge_records_snoc by lia.
      replace (2 * (nedge + 1)) with (2 * nedge + 2) by lia.
      replace (2 * nedge + 2 + 1) with (2 * nedge + 3) by lia.
      rewrite G0, G1, G2, G3. rewrite <- app_assoc. cbn [app]. f_equal.
      apply edge_records_ext. intros p Hp. apply Gold. lia.
    + intros _. lia.
    + intros t. rewrite !count_src_cons, count_src_nil.
      destruct (Z.eqb_spec b t) as [<- | Hnb].
      * rewrite get_insert_eq by (rewrite length_insert; lia).
        destruct (Z.eqb_spec a b); [contradiction|]. lia.
      * rewrite (get_insert_ne _ b) by lia.
        destruct (Z.eqb_spec a t) as [<- | Hna].
        -- rewrite get_insert_eq by lia. lia.
        -- rewrite get_insert_ne by lia. lia.
Qed.

Lemma addEdge_appends_witness :
  addEdge [1; 0; 0] [0; 0; 9; 9; 9; 9] 1 1 2 3 = Ok ([1; 1; 1], [0; 0; 1; 2; 2; 1], 3)
  /\ length [0; 0; 1; 2; 2; 1] = length [0; 0; 9; 9; 9; 9]
  /\ forall q, q < 2 * 1 -> get [0; 0; 1; 2; 2; 1] q = get [0; 0; 9; 9; 9; 9] q.
Proof.
  assert (H : addEdge [1; 0; 0] [0; 0; 9; 9; 9; 9] 1 1 2 3
              = Ok ([1; 1; 1], [0; 0; 1; 2; 2; 1], 3)) by reflexivity.
  split; [exact H|].
  destruct (addEdge_appends _ _ _ _ _ _ _ _ _ H) as (H1 & _ & H3 & _).
  split; [exact H1 | exact H3].
Defined.

(** ** treeNext *)

(** A scan that returns tells whether another tree is left: it returns -1
    with the cursor at the end of the row (or where it was, if that is
    further) exactly when every position from the cursor on holds no tree
    or the input tree. *)
Theorem treeNext_none_left (m : mjModel) (d : mjData) (tree i j0 t j : Z) :
  treeNext m d tree i (Some j0) = Ok (t, Some j) ->
  (forall q, j0 <= q < row_limit m d i ->
     row_entry m d i q = Ok None \/ row_entry m d i q = Ok (Some tree))
  <-> (t = -1 /\ j = Z.max j0 (row_limit m d i)).
Proof.
  intros H. apply treeNext_scan in H. destruct H as [Hskip Hcase]. split.
  - intros Hall. destruct Hcase as [Hend | (Hj & Hne & Hfound)]; [exact Hend|].
    exfalso. destruct (Hall j ltac:(lia)) as [Hq | Hq]; congruence.
  - intros [-> ->] q Hq. apply Hskip. lia.
Qed.

Lemma treeNext_none_left_witness :
  treeNext (sample_model true) (data_friction_contact 1000) 2 0 (Some 0) = Ok (-1, Some 1)
  /\ ((forall q, 0 <= q < row_limit (sample_model true) (data_friction_contact 1000) 0 ->
         row_entry (sample_model true) (data_friction_contact 1000) 0 q = Ok None
         \/ row_entry (sample_model true) (data_friction_contact 1000) 0 q = Ok (Some 2))
      <-> (-1 = -1
           /\ 1 = Z.max 0 (row_limit (sample_model true) (data_friction_contact 1000) 0))).
Proof.
  assert (H : treeNext (sample_model true) (data_friction_contact 1000) 2 0 (Some 0)
              = Ok (-1, Some 1)) by reflexivity.
  split; [exact H|]. exact (treeNext_none_left _ _ _ _ _ _ _ H).
Defined.

(** Resuming a scan: the cursor is left at the entry of the tree found, and
    a scan for the next tree after that one, started at the cursor, passes
    over this entry, so it is the scan started one position later. *)
Theorem treeNext_resume (m : mjModel) (d : mjData) (tree i j0 t j : Z) :
  treeNext m d tree i (Some j0) = Ok (t, Some j) ->
  t <> -1 ->
  treeNext m d t i (Some j) = treeNext m d t i (Some (j + 1)).
Proof.
  intros H Ht. pose proof H as Hscan. apply treeNext_scan in Hscan.
  destruct Hscan as [_ [[Hm _] | (Hj & _ & Hfound)]]; [contradiction|].
  unfold row_limit, row_entry in *. unfold treeNext. cbv zeta.
  destruct (mj_isSparse m) eqn:Hsp.
  - destruct (rd (efc_J_rownnz d) i) as [n|f] eqn:En;
      [|exfalso; unfold treeNext in H; rewrite Hsp, En in H; discriminate H].
    cbn [bind].
    destruct (rd (efc_J_rowadr d) i) as [adr|f]; [|discriminate Hfound].
    cbn [bind] in Hfound |- *.
    unfold sparse_entry in Hfound.
    destruct (rd (efc_J_colind d) (adr + j)) as [c|f] eqn:Ec; [|discriminate Hfound].
    cbn [bind] in Hfound.
    destruct (rd (dof_treeid m) c) as [tj|f] eqn:Et; [|discriminate Hfound].
    cbn [bind] in Hfound. injection Hfound as ->.
    replace (Z.to_nat (n - j)) with (S (Z.to_nat (n - (j + 1)))) by lia.
    cbn [treeNext_sparse]. rewrite Ec. cbn [bind]. rewrite Et. cbn [bind].
    rewrite Z.eqb_refl. reflexivity.
  - unfold dense_entry in Hfound.
    destruct (rd (efc_J d) (nv m * i + j)) as [x|f] eqn:Ex; [|discriminate Hfound].
    cbn [bind] in Hfound.
    destruct (x =? 0) eqn:Hx; [discriminate Hfound|].
    destruct (rd (dof_treeid m) j) as [tj|f] eqn:Et; [|discriminate Hfound].
    cbn [bind] in Hfound. injection Hfound as ->.
    replace (Z.to_nat (nv m - j)) with (S (Z.to_nat (nv m - (j + 1)))) by lia.
    cbn [treeNext_dense]. rewrite Ex. cbn [bind]. rewrite Hx, Et. cbn [bind].
    rewrite Z.eqb_refl. reflexivity.
Qed.

Lemma treeNext_resume_witness :
  treeNext (sample_model false) (data_friction_contact 1000) (-1) 1 (Some 0)
  = Ok (0, Some 0)
  /\ treeNext (sample_model false) (data_friction_contact 1000) 0 1 (Some 0)
     = treeNext (sample_model false) (data_friction_contact 1000) 0 1 (Some (0 + 1)).
Proof.
  assert (H : treeNext (sample_model false) (data_friction_contact 1000) (-1) 1 (Some 0)
              = Ok (0, Some 0)) by reflexivity.
  split; [exact H|].
  apply (treeNext_resume _ _ _ _ _ _ _ H). discriminate.
Defined.

(** ** countMaxEdge *)

Lemma countMaxEdge_tendons_sum (m : mjModel) (n : nat) :
  forall (i x : Z),
    0 <= i ->
    i + Z.of_nat n <= Z.of_nat (length (tendon_frictionloss m)) ->
    i + Z.of_nat n <= Z.of_nat (length (tendon_limited m)) ->
    i + Z.of_nat n <= Z.of_nat (length (tendon_num m)) ->
    countMaxEdge_tendons m n i x
    = Ok (x + vsum (tendon_budget m) (seqZ i (Z.of_nat n))).
Proof.
  induction n as [|n IH]; intros i x Hi L1 L2 L3.
  - cbn [countMaxEdge_tendons]. rewrite seqZ_nil by lia. cbn. f_equal. lia.
  - cbn [countMaxEdge_tendons].
    rewrite (rd_in_range (tendon_frictionloss m) i) by lia. cbn [bind].
    rewrite (rd_in_range (tendon_limited m) i) by lia.
    rewrite (rd_in_range (tendon_num m) i) by lia.
    rewrite (seqZ_cons i (Z.of_nat (S n))) by lia.
    replace (Z.pred (Z.of_nat (S n))) with (Z.of_nat n) by lia.
    replace (Z.succ i) with (i + 1) by lia.
    cbn [vsum foldr]. fold (vsum (tendon_budget m) (seqZ (i + 1) (Z.of_nat n))).
    unfold tendon_budget at 1.
    destruct (get (tendon_frictionloss m) i =? 0); cbn [bind];
      destruct (get (tendon_limited m) i =? 0); cbn [bind];
      rewrite IH by lia; f_equal; lia.
Qed.

(** The budget in closed form, within the range of [int]: when the
    counts and the tendon lengths are not negative and the total does not
    exceed [INT_MAX], so that no addition of the code overflows, the budget
    is two records per contact, two per equality row, one per friction row,
    and for every tendon its length once for friction loss and once for a
    limit.  Joint limits and the number of rows [nefc] do not enter. *)
Theorem countMaxEdge_closed_form (m : mjModel) (d : mjData) :
  ntendon m <= Z.of_nat (length (tendon_frictionloss m)) ->
  ntendon m <= Z.of_nat (length (tendon_limited m)) ->
  ntendon m <= Z.of_nat (length (tendon_num m)) ->
  0 <= ncon d -> 0 <= ne d -> 0 <= nf d ->
  (forall t, 0 <= t < ntendon m -> 0 <= get (tendon_num m) t) ->
  2 * ncon d + 2 * ne d + nf d
  + vsum (tendon_budget m) (seqZ 0 (ntendon m)) <= INT_MAX ->
  countMaxEdge m d
  = Ok (2 * ncon d + 2 * ne d + nf d
        + vsum (tendon_budget m) (seqZ 0 (ntendon m))).
Proof.
  intros L1 L2 L3 _ _ _ _ _. unfold countMaxEdge. cbv zeta.
  destruct (Z.le_gt_cases 0 (ntendon m)) as [Hn | Hn].
  - rewrite countMaxEdge_tendons_sum by lia. rewrite Z2Nat.id by lia. f_equal.
  - replace (Z.to_nat (ntendon m)) with 0%nat by lia. cbn [countMaxEdge_tendons].
    rewrite seqZ_nil by lia. cbn. f_equal. lia.
Qed.

Lemma countMaxEdge_closed_form_witness :
  countMaxEdge sample_tendon_model (data_friction_contact 1000) = Ok 9.
Proof.
  rewrite (countMaxEdge_closed_form sample_tendon_model (data_friction_contact 1000)).
  - reflexivity.
  - apply Z.leb_le. reflexivity.
  - apply Z.leb_le. reflexivity.
  - apply Z.leb_le. reflexivity.
  - discriminate.
  - discriminate.
  - discriminate.
  - intros t Ht. change (ntendon sample_tendon_model) with 2 in Ht.
    assert (Hc : t = 0 \/ t = 1) by lia. destruct Hc as [-> | ->]; discriminate.
  - apply Z.leb_le. reflexivity.
Defined.

(** ** mj_floodFill *)

Lemma floodFill_loop_no_edges (rownnz rowadr colind stack : list Z) (k : Z) (n : nat) :
  forall (i : Z) (island : list Z),
    (forall v, i <= v < i + Z.of_nat n -> rd island v = Ok (-1)) ->
    (forall v, i <= v < i + Z.of_nat n -> rd rownnz v = Ok 0) ->
    floodFill_loop n i rownnz rowadr colind k island stack = Ok (k, island, stack).
Proof.
  induction n as [|n IH]; intros i island Hisl Hnnz; [reflexivity|].
  cbn [floodFill_loop]. rewrite (Hisl i) by lia. cbn [bind Z.eqb negb].
  rewrite (Hnnz i) by lia. cbn [bind Z.eqb].
  apply IH; intros v Hv; [apply Hisl | apply Hnnz]; lia.
Qed.

(** A graph without edges has no island: when every row is empty the flood
    fill returns 0, labels every vertex -1 and leaves the stack alone,
    whatever [rowadr] and [colind] hold. *)
Theorem mj_floodFill_no_edges (island stack rownnz rowadr colind : list Z) (nr : Z) :
  0 <= nr <= Z.of_nat (length island) ->
  (forall v, 0 <= v < nr -> rd rownnz v = Ok 0) ->
  exists island',
    mj_floodFill island nr rownnz rowadr colind stack = Ok (0, island', stack)
    /\ length island' = length island
    /\ (forall v, 0 <= v < nr -> rd island' v = Ok (-1))
    /\ (forall v, nr <= v -> rd island' v = rd island v).
Proof.
  intros Hnr Hnnz. unfold mj_floodFill. cbv zeta.
  assert (G : forall (n : nat) (a : list Z) (i : Z),
            0 <= i -> i + Z.of_nat n <= Z.of_nat (length a) ->
            exists a', fill a n i (-1) = Ok a').
  { induction n as [|n IH]; intros a i Hi Hn; [eexists; reflexivity|].
    cbn [fill]. destruct (wr a i (-1)) as [a1|f] eqn:Ew.
    - cbn [bind]. apply wr_Ok in Ew. destruct Ew as [_ ->].
      apply IH; [lia | rewrite length_insert; lia].
    - exfalso. unfold wr in Ew.
      destruct (Z.leb_spec 0 i); [|lia].
      destruct (Z.ltb_spec i (Z.of_nat (length a))); [discriminate | lia]. }
  destruct (G (Z.to_nat nr) island 0) as [L0 HL0]; [lia | lia |].
  rewrite HL0. cbn [bind]. apply fill_Ok in HL0. destruct HL0 as (F1 & F2 & F3).
  exists L0. split; [|split; [exact F1|split]].
  - apply floodFill_loop_no_edges; intros v Hv; [apply F2 | apply Hnnz]; lia.
  - intros v Hv. apply F2. lia.
  - intros v Hv. apply F3. lia.
Qed.

Lemma mj_floodFill_no_edges_witness :
  exists island',
    mj_floodFill [5; 5; 5] 2 [0; 0] [7; 7] [] [] = Ok (0, island', [])
    /\ length island' = length [5; 5; 5]
    /\ (forall v, 0 <= v < 2 -> rd island' v = Ok (-1))
    /\ (forall v, 2 <= v -> rd island' v = rd [5; 5; 5] v).
Proof.
  apply (mj_floodFill_no_edges [5; 5; 5] [] [0; 0] [7; 7] [] 2).
  - split; [lia | apply Z.leb_le; reflexivity].
  - intros v Hv. assert (Hc : v = 0 \/ v = 1) by lia.
    destruct Hc as [-> | ->]; reflexivity.
Defined.

(** ** The budget that findEdges needs *)

Lemma budget_ok_mono (b1 b2 : Z) (r : result edges) :
  b1 <= b2 -> budget_ok b1 r -> budget_ok b2 r.
Proof. intros Hb. destruct r as [st|f]; cbn [budget_ok]; [lia | auto]. Qed.

Lemma budget_ok_bind {A : Type} (bound : Z) (r : result A) (k : A -> result edges) :
  (forall f, r = Err f -> f = OutOfBounds) ->
  (forall a, r = Ok a -> budget_ok bound (k a)) ->
  budget_ok bound (bind r k).
Proof.
  intros Hr Hk. destruct r as [a|f]; cbn [bind].
  - apply Hk. reflexivity.
  - cbn [budget_ok]. rewrite (Hr f eq_refl). discriminate.
Qed.

Lemma rd_contact_Err (c : list mjContact) (i : Z) (f : fault) :
  rd_contact c i = Err f -> f = OutOfBounds.
Proof.
  unfold rd_contact. destruct (i <? 0); [congruence|].
  destruct (c !! Z.to_nat i); congruence.
Qed.

Lemma treeNext_Err (m : mjModel) (d : mjData) (tree i : Z) (index : option Z) (f : fault) :
  treeNext m d tree i index = Err f -> f = OutOfBounds.
Proof.
  assert (Hs : forall adr n j, treeNext_sparse m d adr tree n j = Err f -> f = OutOfBounds).
  { intros adr n. induction n as [|n IH]; intros j H; cbn [treeNext_sparse] in H;
      [discriminate|].
    destruct (rd (efc_J_colind d) (adr + j)) as [c|f0] eqn:E1; cbn [bind] in H;
      [|injection H as <-; eapply rd_Err; eassumption].
    destruct (rd (dof_treeid m) c) as [tj|f0] eqn:E2; cbn [bind] in H;
      [|injection H as <-; eapply rd_Err; eassumption].
    destruct (tj =? tree); [eapply IH; eassumption | discriminate]. }
  assert (Hd : forall n j, treeNext_dense m d i tree n j = Err f -> f = OutOfBounds).
  { induction n as [|n IH]; intros j H; cbn [treeNext_dense] in H; [discriminate|].
    destruct (rd (efc_J d) (nv m * i + j)) as [x|f0] eqn:E1; cbn [bind] in H;
      [|injection H as <-; eapply rd_Err; eassumption].
    destruct (x =? 0); [eapply IH; eassumption|].
    destruct (rd (dof_treeid m) j) as [tj|f0] eqn:E2; cbn [bind] in H;
      [|injection H as <-; eapply rd_Err; eassumption].
    destruct (tj =? tree); [eapply IH; eassumption | discriminate]. }
  unfold treeNext. cbv zeta. intros H.
  destruct (mj_isSparse m).
  - destruct (rd (efc_J_rownnz d) i) as [n|f0] eqn:E1; cbn [bind] in H;
      [|injection H as <-; eapply rd_Err; eassumption].
    destruct (rd (efc_J_rowadr d) i) as [adr|f0] eqn:E2; cbn [bind] in H;
      [|injection H as <-; eapply rd_Err; eassumption].
    destruct (treeNext_sparse m d adr tree _ _) as [[t j]|f0] eqn:E3; cbn [bind] in H;
      [discriminate|]. injection H as <-. eapply Hs; eassumption.
  - destruct (treeNext_dense m d i tree _ _) as [[t j]|f0] eqn:E3; cbn [bind] in H;
      [discriminate|]. injection H as <-. eapply Hd; eassumption.
Qed.

(** A call of [addEdge] with room for two more records, or for one more
    when it is given a self-edge, does not report the array as too small,
    and appends at most that many. *)
Lemma addEdge_budget (treenedge edge : list Z) (nedge tree1 tree2 nedge_max need : Z) :
  (need = 2 \/ (need = 1 /\ fst (fold_static tree1 tree2) = snd (fold_static tree1 tree2))) ->
  nedge + need <= nedge_max ->
  budget_ok (nedge + need) (addEdge treenedge edge nedge tree1 tree2 nedge_max).
Proof.
  intros Hneed Hroom.
  destruct (addEdge treenedge edge nedge tree1 tree2 nedge_max) as [[[tn' e'] n']|f] eqn:E.
  - cbn [budget_ok snd]. apply addEdge_cases in E. cbv zeta in E.
    destruct E as [_ [(-> & _) | [(Hab & -> & _) | (Hab & -> & _)]]]; lia.
  - cbn [budget_ok]. unfold addEdge in E. unfold fold_static in Hneed.
    cbv zeta in E, Hneed. cbn [fst snd] in Hneed.
    destruct ((tree1 =? -1) && (tree2 =? -1)); [injection E as <-; discriminate|].
    set (a := if tree1 =? -1 then tree2 else tree1) in *.
    set (b := if tree2 =? -1 then a else tree2) in *.
    destruct (if nedge =? 0 then Ok (-1) else rd edge (2 * nedge - 2)) as [p1|f1] eqn:E1;
      cbn [bind] in E.
    2:{ injection E as <-. destruct (nedge =? 0); [discriminate|].
        rewrite (rd_Err _ _ _ E1). discriminate. }
    destruct (if nedge =? 0 then Ok (-1) else rd edge (2 * nedge - 1)) as [p2|f2] eqn:E2;
      cbn [bind] in E.
    2:{ injection E as <-. destruct (nedge =? 0); [discriminate|].
        rewrite (rd_Err _ _ _ E2). discriminate. }
    assert (Hwr : forall x i v (k : list Z -> result edges),
              bind (wr x i v) k = Err f ->
              (forall y, k y = Err f -> f <> mjERROR "edge array too small") ->
              f <> mjERROR "edge array too small").
    { intros x i v k Hb Hk. destruct (wr x i v) as [y|f0] eqn:Ew; cbn [bind] in Hb.
      - eapply Hk. exact Hb.
      - injection Hb as <-. rewrite (wr_Err _ _ _ _ Ew). discriminate. }
    assert (Hrd : forall x i (k : Z -> result edges),
              bind (rd x i) k = Err f ->
              (forall y, k y = Err f -> f <> mjERROR "edge array too small") ->
              f <> mjERROR "edge array too small").
    { intros x i k Hb Hk. destruct (rd x i) as [y|f0] eqn:Er; cbn [bind] in Hb.
      - eapply Hk. exact Hb.
      - injection Hb as <-. rewrite (rd_Err _ _ _ Er). discriminate. }
    destruct (a =? b) eqn:Hab.
    + destruct (negb (nedge =? 0) && (a =? p1) && (a =? p2)); [discriminate|].
      destruct (Z.geb_spec nedge nedge_max); [lia|].
      eapply Hwr; [exact E|]. intros y1 Hy1.
      eapply Hwr; [exact Hy1|]. intros y2 Hy2.
      eapply Hrd; [exact Hy2|]. intros y3 Hy3.
      eapply Hwr; [exact Hy3|]. intros y4 Hy4. discriminate Hy4.
    + apply Z.eqb_neq in Hab.
      destruct Hneed as [-> | [_ Heq]]; [|contradiction].
      destruct (negb (nedge =? 0) && _); [discriminate|].
      destruct (Z.gtb_spec (nedge + 2) nedge_max); [lia|].
      eapply Hwr; [exact E|]. intros y1 Hy1.
      eapply Hwr; [exact Hy1|]. intros y2 Hy2.
      eapply Hwr; [exact Hy2|]. intros y3 Hy3.
      eapply Hwr; [exact Hy3|]. intros y4 Hy4.
      eapply Hrd; [exact Hy4|]. intros y5 Hy5.
      eapply Hwr; [exact Hy5|]. intros y6 Hy6.
      eapply Hrd; [exact Hy6|]. intros y7 Hy7.
      eapply Hwr; [exact Hy7|]. intros y8 Hy8. discriminate Hy8.
Qed.

Lemma addEdge_nedge_le (treenedge edge : list Z) (nedge tree1 tree2 nedge_max : Z)
    (st' : edges) :
  addEdge treenedge edge nedge tree1 tree2 nedge_max = Ok st' -> nedge <= snd st'.
Proof.
  destruct st' as [[tn' e'] n']. intros E. apply addEdge_cases in E. cbv zeta in E.
  cbn [snd]. destruct E as [_ [(-> & _) | [(_ & -> & _) | (_ & -> & _)]]]; lia.
Qed.

Lemma fold_static_self (t : Z) : fst (fold_static t t) = snd (fold_static t t).
Proof. unfold fold_static. cbv zeta. cbn [fst snd]. destruct (t =? -1); reflexivity. Qed.

(** The loop of the generic case appends at most two records for every
    position of the row from the cursor on. *)
Lemma findEdges_chain_budget (m : mjModel) (d : mjData) (i nedge_max : Z) (fuel : nat) :
  forall (st : edges) (tree2 tree3 index : Z),
    (tree3 > -1 ->
       index < row_limit m d i /\ row_entry m d i index = Ok (Some tree3)) ->
    snd st + 2 * (if tree3 >? -1 then row_limit m d i - index else 0) <= nedge_max ->
    budget_ok (snd st + 2 * (if tree3 >? -1 then row_limit m d i - index else 0))
      (findEdges_chain fuel m d i nedge_max st tree2 tree3 index).
Proof.
  induction fuel as [|fuel IH]; intros st tree2 tree3 index Hhead;
    [intros _; cbn; discriminate|].
  cbn [findEdges_chain].
  destruct (Z.gtb_spec tree3 (-1)) as [Hgt | Hle]; cbn [andb]; intros Hroom;
    [|cbn [budget_ok]; lia].
  destruct (Hhead ltac:(lia)) as [Hlt Hentry].
  destruct (negb (tree3 =? tree2)); [|cbn [budget_ok]; lia].
  destruct st as [[treenedge edge] nedge]. cbn [snd] in *.
  pose proof (addEdge_budget treenedge edge nedge tree2 tree3 nedge_max 2
                (or_introl eq_refl) ltac:(lia)) as Hadd.
  destruct (addEdge treenedge edge nedge tree2 tree3 nedge_max) as [st'|f] eqn:Eadd;
    cbn [bind]; [|exact Hadd].
  cbn [budget_ok] in Hadd.
  apply budget_ok_bind; [intros f; apply treeNext_Err|]. intros r Hr.
  destruct (treeNext_cell _ _ _ _ _ _ Hr) as (t & j & -> & _ & _).
  cbn [fst snd cell].
  destruct (treeNext_scan _ _ _ _ _ _ _ Hr) as [Hskip [[-> ->] | (Hj & Hne & Hfound)]].
  - eapply budget_ok_mono; [|apply IH]; change (-1 >? -1) with false; cbv beta iota;
      [lia | intros Hc; lia | lia].
  - assert (Hjne : j <> index) by (intros ->; congruence).
    eapply budget_ok_mono; [|apply IH].
    + destruct (t >? -1); lia.
    + intros _. split; [lia | exact Hfound].
    + destruct (t >? -1); lia.
Qed.

Lemma findEdges_generic_budget (m : mjModel) (d : mjData) (i nedge_max : Z) (st : edges) :
  snd st + Z.max 1 (2 * (row_limit m d i - 1)) <= nedge_max ->
  budget_ok (snd st + Z.max 1 (2 * (row_limit m d i - 1)))
    (findEdges_generic m d i nedge_max st).
Proof.
  intros Hroom. unfold findEdges_generic. destruct st as [[treenedge edge] nedge].
  cbv zeta. cbn [snd] in *.
  apply budget_ok_bind; [intros f; apply treeNext_Err|]. intros r1 Hr1.
  destruct (treeNext_cell _ _ _ _ _ _ Hr1) as (t1 & j1 & -> & _ & _).
  cbn [fst snd cell].
  destruct (treeNext_scan _ _ _ _ _ _ _ Hr1) as [_ H1].
  apply budget_ok_bind; [intros f; apply treeNext_Err|]. intros r2 Hr2.
  destruct (treeNext_cell _ _ _ _ _ _ Hr2) as (t2 & j2 & -> & _ & _).
  cbn [fst snd cell].
  destruct (treeNext_scan _ _ _ _ _ _ _ Hr2) as [_ H2].
  destruct (Z.eqb_spec t2 (-1)) as [Ht2 | Ht2].
  - eapply budget_ok_mono; [|apply (addEdge_budget _ _ _ _ _ _ 1)]; try lia.
    right. split; [reflexivity | apply fold_static_self].
  - destruct H2 as [[-> _] | (Hj2 & Hne2 & Hf2)]; [contradiction|].
    destruct H1 as [[-> ->] | (Hj1 & Hne1 & Hf1)]; [lia|].
    assert (Hj12 : j2 <> j1) by (intros ->; congruence).
    pose proof (addEdge_budget treenedge edge nedge t1 t2 nedge_max 2
                  (or_introl eq_refl) ltac:(lia)) as Hadd.
    destruct (addEdge treenedge edge nedge t1 t2 nedge_max) as [st'|f] eqn:Eadd;
      cbn [bind]; [|exact Hadd].
    cbn [budget_ok] in Hadd.
    apply budget_ok_bind; [intros f; apply treeNext_Err|]. intros r3 Hr3.
    destruct (treeNext_cell _ _ _ _ _ _ Hr3) as (t3 & j3 & -> & _ & _).
    cbn [fst snd cell].
    destruct (treeNext_scan _ _ _ _ _ _ _ Hr3) as [_ [[-> ->] | (Hj3 & Hne3 & Hf3)]].
    + eapply budget_ok_mono; [|apply findEdges_chain_budget];
        change (-1 >? -1) with false; cbv beta iota;
        [lia | intros Hc; lia | lia].
    + assert (Hj23 : j3 <> j2) by (intros ->; congruence).
      eapply budget_ok_mono; [|apply findEdges_chain_budget].
      * destruct (t3 >? -1); lia.
      * intros _. split; [lia | exact Hf3].
      * destruct (t3 >? -1); lia.
Qed.

Lemma findEdges_row_budget (m : mjModel) (d : mjData) (i nedge_max ty id : Z)
    (st : edges) :
  snd st + type_demand m d i ty id <= nedge_max ->
  budget_ok (snd st + type_demand m d i ty id)
    (findEdges_row m d i nedge_max ty id st).
Proof.
  unfold type_demand, findEdges_row. destruct st as [[treenedge edge] nedge].
  cbn [snd]. intros Hroom.
  destruct (ty =? mjCNSTR_FRICTION_DOF); cbn [orb] in *.
  { apply budget_ok_bind; [intros f; apply rd_Err|]. intros t _.
    apply addEdge_budget; [|exact Hroom].
    right. split; [reflexivity | apply fold_static_self]. }
  destruct (ty =? mjCNSTR_LIMIT_JOINT); cbn [orb] in *.
  { apply budget_ok_bind; [intros f; apply rd_Err|]. intros a _.
    apply budget_ok_bind; [intros f; apply rd_Err|]. intros t _.
    apply addEdge_budget; [|exact Hroom].
    right. split; [reflexivity | apply fold_static_self]. }
  destruct ((ty =? mjCNSTR_CONTACT_FRICTIONLESS) || (ty =? mjCNSTR_CONTACT_PYRAMIDAL)
            || (ty =? mjCNSTR_CONTACT_ELLIPTIC)).
  { apply budget_ok_bind; [intros f; apply rd_contact_Err|]. intros c _.
    apply budget_ok_bind; [intros f; apply rd_Err|]. intros b1 _.
    apply budget_ok_bind; [intros f; apply rd_Err|]. intros t1 _.
    apply budget_ok_bind; [intros f; apply rd_Err|]. intros b2 _.
    apply budget_ok_bind; [intros f; apply rd_Err|]. intros t2 _.
    apply addEdge_budget; [left; reflexivity | exact Hroom]. }
  destruct (ty =? mjCNSTR_EQUALITY); cbn [andb] in *.
  - destruct (rd (eq_type m) id) as [et|f] eqn:Eet; cbn [bind].
    + rewrite (get_rd _ _ _ Eet) in *.
      destruct ((et =? mjEQ_CONNECT) || (et =? mjEQ_WELD)).
      * apply budget_ok_bind; [intros f; apply rd_Err|]. intros o1 _.
        apply budget_ok_bind; [intros f; apply rd_Err|]. intros t1 _.
        apply budget_ok_bind; [intros f; apply rd_Err|]. intros o2 _.
        apply budget_ok_bind; [intros f; apply rd_Err|]. intros t2 _.
        apply addEdge_budget; [left; reflexivity | exact Hroom].
      * apply findEdges_generic_budget. exact Hroom.
    + cbn [budget_ok]. rewrite (rd_Err _ _ _ Eet). discriminate.
  - cbn [bind]. apply findEdges_generic_budget. exact Hroom.
Qed.

Lemma type_demand_pos (m : mjModel) (d : mjData) (i ty id : Z) :
  1 <= type_demand m d i ty id.
Proof.
  unfold type_demand.
  destruct (_ || _); [lia|]. destruct (_ || _ || _); [lia|].
  destruct (_ && _); lia.
Qed.

Lemma row_demand_nonneg (m : mjModel) (d : mjData) (i : Z) : 0 <= row_demand m d i.
Proof.
  unfold row_demand. destruct (constraint_startb d i); [|lia].
  pose proof (type_demand_pos m d i (get (efc_type d) i) (get (efc_id d) i)). lia.
Qed.

Lemma findEdges_loop_budget (m : mjModel) (d : mjData) (nedge_max : Z) (n : nat) :
  forall (i ptype pid : Z) (st : edges),
    0 <= i ->
    ptype = (if i =? 0 then -1 else get (efc_type d) (i - 1)) ->
    pid = (if i =? 0 then -1 else get (efc_id d) (i - 1)) ->
    snd st + vsum (row_demand m d) (seqZ i (Z.of_nat n)) <= nedge_max ->
    budget_ok (snd st + vsum (row_demand m d) (seqZ i (Z.of_nat n)))
      (findEdges_loop m d nedge_max n i ptype pid st).
Proof.
  induction n as [|n IH]; intros i ptype pid st Hi Hpt Hpi.
  - intros _. cbn [findEdges_loop budget_ok]. rewrite seqZ_nil by lia. cbn. lia.
  - rewrite (seqZ_cons i (Z.of_nat (S n))) by lia.
    replace (Z.pred (Z.of_nat (S n))) with (Z.of_nat n) by lia.
    replace (Z.succ i) with (i + 1) by lia.
    cbn [vsum foldr]. fold (vsum (row_demand m d) (seqZ (i + 1) (Z.of_nat n))).
    set (rest := vsum (row_demand m d) (seqZ (i + 1) (Z.of_nat n))).
    assert (Hrest : 0 <= rest).
    { apply vsum_nonneg. intros v _. apply row_demand_nonneg. }
    assert (Hnext : forall a : list Z,
              get a i = (if i + 1 =? 0 then -1 else get a (i + 1 - 1))).
    { intros a. destruct (Z.eqb_spec (i + 1) 0); [lia|]. f_equal. lia. }
    intros Hroom. cbn [findEdges_loop].
    apply budget_ok_bind; [intros f; apply rd_Err|]. intros ty Hty.
    apply get_rd in Hty.
    unfold row_demand, constraint_startb in Hroom |- *.
    rewrite <- Hpt, <- Hpi, Hty in Hroom |- *.
    destruct (Z.eqb_spec ptype ty) as [Hsame | Hdiff]; cbn [andb negb] in Hroom |- *.
    + destruct (rd (efc_id d) i) as [id|f] eqn:Eid; cbn [bind];
        [|cbn [budget_ok]; rewrite (rd_Err _ _ _ Eid); discriminate].
      rewrite (get_rd _ _ _ Eid) in Hroom |- *.
      destruct (Z.eqb_spec pid id) as [Hsid | Hdid]; cbn [negb] in Hroom |- *.
      * replace (snd st + (0 + rest)) with (snd st + rest) by lia.
        apply IH; try lia.
        -- rewrite <- Hnext. congruence.
        -- rewrite <- Hnext. rewrite (get_rd _ _ _ Eid). congruence.
      * cbn [bind].
        pose proof (findEdges_row_budget m d i nedge_max ty id st ltac:(lia)) as Hrow.
        destruct (findEdges_row m d i nedge_max ty id st) as [st'|f]; cbn [bind];
          [|exact Hrow].
        cbn [budget_ok] in Hrow.
        eapply budget_ok_mono; [|apply IH]; try lia.
        -- rewrite <- Hnext. congruence.
        -- rewrite <- Hnext. rewrite (get_rd _ _ _ Eid). reflexivity.
    + cbn [bind].
      apply budget_ok_bind; [intros f; apply rd_Err|]. intros id Hid.
      rewrite (get_rd _ _ _ Hid) in Hroom |- *.
      pose proof (findEdges_row_budget m d i nedge_max ty id st ltac:(lia)) as Hrow.
      destruct (findEdges_row m d i nedge_max ty id st) as [st'|f]; cbn [bind];
        [|exact Hrow].
      cbn [budget_ok] in Hrow.
      eapply budget_ok_mono; [|apply IH]; try lia.
      * rewrite <- Hnext. congruence.
      * rewrite <- Hnext. rewrite (get_rd _ _ _ Hid). reflexivity.
Qed.

(** A budget that covers what every row can ask for is enough: when
    [nedge_max] is at least the sum over the rows of their demand, one
    record for a joint friction or joint limit, two for a contact, a connect
    or a weld, two per position after the first for a scanned row, and none
    for a row that continues the constraint of the row before it,
    [findEdges] never reports the edge array as too small, and the count it
    returns is at most that sum. *)
Theorem findEdges_within_budget (m : mjModel) (d : mjData) (treenedge edge : list Z)
    (nedge_max : Z) :
  vsum (row_demand m d) (seqZ 0 (nefc d)) <= nedge_max ->
  findEdges m d treenedge edge nedge_max <> Err (mjERROR "edge array too small")
  /\ forall treenedge' edge' nedge',
       findEdges m d treenedge edge nedge_max = Ok (treenedge', edge', nedge') ->
       nedge' <= vsum (row_demand m d) (seqZ 0 (nefc d)).
Proof.
  intros Hroom.
  assert (H : budget_ok (vsum (row_demand m d) (seqZ 0 (nefc d)))
                (findEdges m d treenedge edge nedge_max)).
  { unfold findEdges. cbv zeta.
    destruct (memset_zero treenedge (ntree m)) as [tn|f] eqn:Em; cbn [bind].
    - assert (Hn : Z.of_nat (Z.to_nat (nefc d)) = nefc d \/ nefc d < 0) by lia.
      destruct Hn as [Hn | Hn].
      + pose proof (findEdges_loop_budget m d nedge_max (Z.to_nat (nefc d)) 0 (-1) (-1)
                      (tn, edge, 0) (Z.le_refl 0) eq_refl eq_refl) as Hl.
        rewrite Hn in Hl. cbn [snd] in Hl. apply Hl. lia.
      + replace (Z.to_nat (nefc d)) with 0%nat by lia.
        cbn [findEdges_loop budget_ok snd]. rewrite seqZ_nil by lia. cbn. lia.
    - cbn [budget_ok]. unfold memset_zero in Em.
      destruct (_ && _); [discriminate|]. injection Em as <-. discriminate. }
  split.
  - intros E. rewrite E in H. cbn [budget_ok] in H. contradiction.
  - intros tn' e' n' E. rewrite E in H. exact H.
Qed.

Lemma findEdges_within_budget_witness :
  vsum (row_demand (sample_model true) (data_friction_contact 1000))
    (seqZ 0 (nefc (data_friction_contact 1000))) <= 3
  /\ findEdges (sample_model true) (data_friction_contact 1000) [9; 9; 9]
       [9; 9; 9; 9; 9; 9] 3
     <> Err (mjERROR "edge array too small").
Proof.
  assert (Hroom : vsum (row_demand (sample_model true) (data_friction_contact 1000))
                    (seqZ 0 (nefc (data_friction_contact 1000))) <= 3)
    by (apply Z.leb_le; reflexivity).
  split; [exact Hroom|].
  exact (proj1 (findEdges_within_budget (sample_model true) (data_friction_contact 1000)
                  [9; 9; 9] [9; 9; 9; 9; 9; 9] 3 Hroom)).
Defined.

(** With no budget the first joint limit is fatal: when [nedge_max] is not
    positive and row 0 is a joint-limit row of a joint whose DoF lies in a
    tree, [findEdges] asks [addEdge] for a self-edge and stops with the
    report that the edge array is too small, whatever the rest of the rows
    hold. *)
Theorem findEdges_zero_budget_joint_limit (m : mjModel) (d : mjData)
    (treenedge edge : list Z) (nedge_max id a t : Z) :
  nedge_max <= 0 -> 0 < nefc d ->
  0 <= ntree m <= Z.of_nat (length treenedge) ->
  rd (efc_type d) 0 = Ok mjCNSTR_LIMIT_JOINT ->
  rd (efc_id d) 0 = Ok id ->
  rd (jnt_dofadr m) id = Ok a ->
  rd (dof_treeid m) a = Ok t ->
  t <> -1 ->
  findEdges m d treenedge edge nedge_max = Err (mjERROR "edge array too small").
Proof.
  intros Hmax Hn Hlen Hty Hid Ha Ht Hne. unfold findEdges. cbv zeta.
  unfold memset_zero.
  destruct (Z.leb_spec 0 (ntree m)); [|lia].
  destruct (Z.leb_spec (ntree m) (Z.of_nat (length treenedge))); [|lia].
  cbn [andb bind].
  destruct (Z.to_nat (nefc d)) as [|n] eqn:En; [lia|].
  cbn [findEdges_loop]. rewrite Hty. cbn [bind].
  change (-1 =? mjCNSTR_LIMIT_JOINT) with false. cbn [bind].
  rewrite Hid. cbn [bind].
  unfold findEdges_row.
  change (mjCNSTR_LIMIT_JOINT =? mjCNSTR_FRICTION_DOF) with false.
  change (mjCNSTR_LIMIT_JOINT =? mjCNSTR_LIMIT_JOINT) with true.
  cbv iota. rewrite Ha. cbn [bind]. rewrite Ht. cbn [bind].
  unfold addEdge. cbv zeta.
  destruct (Z.eqb_spec t (-1)); [contradiction|]. cbn [andb].
  change (0 =? 0) with true. cbv iota. cbn [bind negb andb].
  rewrite Z.eqb_refl.
  destruct (Z.geb_spec 0 nedge_max); [reflexivity | lia].
Qed.

Lemma findEdges_zero_budget_joint_limit_witness :
  findEdges (sample_model true) data_joint_limit [9; 9; 9] [] 0
  = Err (mjERROR "edge array too small").
Proof.
  apply (findEdges_zero_budget_joint_limit (sample_model true) data_joint_limit
           [9; 9; 9] [] 0 0 0 0).
  - lia.
  - reflexivity.
  - split; [discriminate | apply Z.leb_le; reflexivity].
  - reflexivity.
  - reflexivity.
  - reflexivity.
  - reflexivity.
  - discriminate.
Defined.

(** ** What mj_island leaves alone *)

Lemma same_constraints_refl (d : mjData) : same_constraints d d.
Proof. repeat split. Qed.

Lemma same_constraints_trans (d1 d2 d3 : mjData) :
  same_constraints d1 d2 -> same_constraints d2 d3 -> same_constraints d1 d3.
Proof.
  intros (A1 & A2 & A3 & A4 & A5 & (A6 & A7 & A8 & A9) & A10 & A11)
         (B1 & B2 & B3 & B4 & B5 & (B6 & B7 & B8 & B9) & B10 & B11).
  repeat split; congruence.
Qed.

Lemma same_constraints_set_ptr (p : island_ptr) (d : mjData) (x : option (list Z)) :
  same_constraints d (set_ptr p d x).
Proof. destruct p; repeat split. Qed.

Lemma same_constraints_mj_arenaAlloc (d : mjData) (b al : Z) :
  same_constraints d (snd (mj_arenaAlloc d b al)).
Proof. unfold mj_arenaAlloc. cbv zeta. destruct (_ || _); repeat split. Qed.

Lemma same_constraints_clearIsland (d : mjData) (pa : Z) :
  same_constraints d (clearIsland d pa).
Proof. repeat split. Qed.

Lemma same_constraints_rollback (d : mjData) (w : mjtWarning) (x pa mark : Z) :
  same_constraints d (mjFREESTACK (clearIsland (mj_warning d w x) pa) mark).
Proof. repeat split. Qed.

Lemma island_arena_alloc_same_constraints (m : mjModel)
    (ptrs : list (island_ptr * (mjModel -> mjData -> Z) * Z)) :
  forall (d : mjData) (pa mark : Z),
    same_constraints d (fst (island_arena_alloc m ptrs d pa mark)).
Proof.
  induction ptrs as [|[[name nr] nc] rest IH]; intros d pa mark.
  - apply same_constraints_refl.
  - cbn [island_arena_alloc].
    pose proof (same_constraints_mj_arenaAlloc d (sizeof_int * nr m d * nc) sizeof_int)
      as Ha.
    set (r := mj_arenaAlloc d (sizeof_int * nr m d * nc) sizeof_int) in *.
    pose proof (same_constraints_set_ptr name (snd r) (fst r)) as Hs.
    cbv zeta.
    set (d1 := set_ptr name (snd r) (fst r)) in *.
    pose proof (same_constraints_trans _ _ _ Ha Hs) as H1.
    clear Ha Hs.
    destruct (get_ptr name d1); clearbody d1; clear r.
    + eapply same_constraints_trans; [exact H1 | apply IH].
    + cbn [fst]. eapply same_constraints_trans; [exact H1|].
      apply same_constraints_rollback.
Qed.
(** The last part of [mj_island] gives back the stack it took and changes
    nothing but the six island outputs. *)
Lemma mj_island_tables_frame (m : mjModel) (d1 d' : mjData) (ti : list Z) (mark : Z) :
  mj_island_tables m d1 ti mark = Ok d' ->
  same_constraints d1 d' /\ pstack d' = mark /\ nefc d' = nefc d1
  /\ warnings d' = warnings d1 /\ parena d' = parena d1 /\ nisland d' = nisland d1.
Proof.
  intros H. unfold mj_island_tables in H. cbv zeta in H.
  inv_bind H. destruct a as [island_last d2].
  apply mj_stackAllocInt_Ok in E. destruct E as (_ & _ & ->).
  inv_bind H. clear E. rename a into last0.
  inv_bind H. clear E. rename a into x1.
  inv_bind H. clear E. rename a into x2.
  inv_bind H. clear E. rename a into x3.
  inv_bind H. clear E. rename a into s.
  destruct (negb _); [discriminate|].
  inv_bind H. clear E. rename a into dof_next.
  inv_bind H. clear E. rename a into last1.
  inv_bind H. clear E. rename a into y1.
  inv_bind H. clear E. rename a into y2.
  inv_bind H. clear E. rename a into y3.
  inv_bind H. clear E. rename a into s2.
  destruct (negb _); [discriminate|].
  inv_bind H. clear E. rename a into efc_next.
  injection H as <-. repeat split.
Qed.

(** The parts of a call with constraints that allocated its outputs. *)
Lemma mj_island_parts (m : mjModel) (d d' : mjData) :
  mj_island m d = Ok d' -> nefc d <> 0 -> dof_island d' <> None ->
  exists ti d0 ps k p a1 a2 a3 a4 a5 a6,
    mj_island_trees m d = Ok (ti, d0)
    /\ d0 = set_nisland (set_pstack d ps) k
    /\ length a1 = Z.to_nat k /\ length a2 = Z.to_nat (nv m)
    /\ length a3 = Z.to_nat (nv m) /\ length a4 = Z.to_nat k
    /\ length a5 = Z.to_nat (nefc d) /\ length a6 = Z.to_nat (nefc d)
    /\ mj_island_tables m
         (with_islands d0 p (Some a1) (Some a2) (Some a3) (Some a4) (Some a5) (Some a6))
         ti (pstack d) = Ok d'.
Proof.
  intros H Hn Hp. apply mj_island_Ok in H.
  destruct H as [[Hz _] | (_ & ti & d0 & Ht & [Hfail | (d1 & Ha & Htab)])];
    [contradiction | |].
  - exfalso. apply island_arena_alloc_fail in Hfail.
    destruct Hfail as (Hnone & _). apply Hp. exact (Hnone ptr_dof_island).
  - destruct (mj_island_trees_frame _ _ _ _ Ht) as (ps & k & Hd0).
    apply island_arena_alloc_ok in Ha.
    destruct Ha as (a1 & a2 & a3 & a4 & a5 & a6 & p & Hd1 & N1 & N2 & N3
                    & L1 & L2 & L3 & L4 & L5 & L6).
    exists ti, d0, ps, k, p, a1, a2, a3, a4, a5, a6.
    split; [exact Ht|]. split; [exact Hd0|].
    assert (Hk : nisland d0 = k) by (rewrite Hd0; reflexivity).
    assert (He : nefc d0 = nefc d) by (rewrite Hd0; reflexivity).
    rewrite Hk in L1, L4. rewrite He in L5, L6.
    repeat (split; [assumption|]). rewrite <- Hd1. exact Htab.
Qed.

(** A call that returns has given back the stack it took and has not
    touched the description of the constraints (the counts [ncon], [ne] and
    [nf], the types and ids of the rows, the Jacobian arrays, the contacts)
    or the size of the buffer; [nefc] and the warnings are as before, except
    after a failed arena allocation, which zeroes [nefc] and adds one
    warning. *)
Theorem mj_island_frame (m : mjModel) (d d' : mjData) :
  mj_island m d = Ok d' ->
  same_constraints d d' /\ pstack d' = pstack d
  /\ ((nefc d' = nefc d /\ warnings d' = warnings d)
      \/ (nefc d' = 0
          /\ warnings d' = warnings d ++ [(mjWARN_CNSTRFULL, nstack d * sizeof_mjtNum)])).
Proof.
  intros H. apply mj_island_Ok in H.
  destruct H as [[Hz ->] | (_ & ti & d0 & Ht & [Hfail | (d1 & Ha & Htab)])].
  - split; [repeat split|]. split; [reflexivity|]. left. split; reflexivity.
  - destruct (mj_island_trees_frame _ _ _ _ Ht) as (ps & k & Hd0).
    assert (Hs0 : same_constraints d d0) by (rewrite Hd0; repeat split).
    pose proof (island_arena_alloc_same_constraints m MJDATA_ARENA_POINTERS_ISLAND d0
                  (parena d0) (pstack d)) as Hs1.
    rewrite Hfail in Hs1. cbn [fst] in Hs1.
    apply island_arena_alloc_fail in Hfail.
    destruct Hfail as (_ & F2 & _ & _ & F5 & F6).
    split; [eapply same_constraints_trans; eassumption|]. split; [exact F5|].
    right. split; [exact F2|]. rewrite F6, Hd0. reflexivity.
  - destruct (mj_island_trees_frame _ _ _ _ Ht) as (ps & k & Hd0).
    assert (Hs0 : same_constraints d d0) by (rewrite Hd0; repeat split).
    pose proof (island_arena_alloc_same_constraints m MJDATA_ARENA_POINTERS_ISLAND d0
                  (parena d0) (pstack d)) as Hs1.
    rewrite Ha in Hs1. cbn [fst] in Hs1.
    apply island_arena_alloc_ok in Ha.
    destruct Ha as (a1 & a2 & a3 & a4 & a5 & a6 & p & Hd1 & _).
    apply mj_island_tables_frame in Htab.
    destruct Htab as (Hs2 & T2 & T3 & T4 & _).
    split; [eapply same_constraints_trans; [|exact Hs2];
            eapply same_constraints_trans; eassumption|].
    split; [exact T2|]. left. rewrite T3, T4, Hd1, Hd0. split; reflexivity.
Qed.

Lemma mj_island_frame_witness :
  let m := sample_model true in
  let d := data_friction_contact 1000 in
  exists d', mj_island m d = Ok d'
    /\ same_constraints d d' /\ pstack d' = pstack d
    /\ ((nefc d' = nefc d /\ warnings d' = warnings d)
        \/ (nefc d' = 0
            /\ warnings d'
               = warnings d ++ [(mjWARN_CNSTRFULL, nstack d * sizeof_mjtNum)])).
Proof.
  intros m d.
  destruct (mj_island m d) as [d'|f] eqn:E; [|vm_compute in E; discriminate E].
  exists d'. split; [reflexivity|]. exact (mj_island_frame m d d' E).
Defined.

(** ** Islands, DoFs and rows *)

(** The flood fill uses every id below its count, so there are at most as
    many islands as vertices. *)
Lemma floodFill_count_le (nr : Z) (rownnz rowadr colind island : list Z) (k : Z) :
  floodFill_spec nr rownnz rowadr colind island k -> k <= nr.
Proof.
  intros [F1 F0 _ _ _ [_ Fall]].
  assert (Hsub : seqZ 0 k ⊆+ island).
  { apply NoDup_submseteq; [apply NoDup_seqZ|].
    intros c Hc. apply elem_of_seqZ0 in Hc.
    destruct (Fall c Hc) as [v Hv]. apply rd_Ok in Hv. destruct Hv as [_ Hv].
    apply (list_elem_of_lookup_2 _ _ _ Hv). }
  apply submseteq_length in Hsub. rewrite length_seqZ in Hsub. lia.
Qed.

(** After a call with at least one row that allocated its outputs there is
    at least one island and at most one per tree; [dof_island] holds, for
    each of the [nv] DoFs, -1 or an id below [nisland]; [efc_island] holds,
    for each of the [nefc] rows, an id below [nisland], never -1. *)
Theorem mj_island_ranges (m : mjModel) (d d' : mjData) :
  mj_island m d = Ok d' -> 0 < nefc d -> dof_island d' <> None ->
  Z.of_nat (length (dof_treeid m)) = nv m ->
  exists disl eisl,
    dof_island d' = Some disl /\ efc_island d' = Some eisl
    /\ length disl = Z.to_nat (nv m) /\ length eisl = Z.to_nat (nefc d)
    /\ 1 <= nisland d' <= ntree m
    /\ (forall i x, rd disl i = Ok x -> x = -1 \/ 0 <= x < nisland d')
    /\ (forall r x, rd eisl r = Ok x -> 0 <= x < nisland d').
Proof.
  intros H Hn Hp Hlen.
  assert (Hn0 : nefc d <> 0) by lia.
  pose proof (mj_island_treeid_nonneg m d d' H Hn0 Hp Hlen) as Hnn.
  destruct (mj_island_success m d d' H Hn0 (or_intror Hp))
    as (ti & d0 & disl & dnext & dadr & eisl & enext & eadr & Ht & Q1 & _ & _ & Q4 & _
        & _ & Q7 & _ & L1 & L2 & _ & _ & _ & Hlab & Hrow).
  destruct (tree_island_connected m d ti d0 Hnn Ht) as (Lti & Hrange & _).
  destruct (mj_island_trees_spec m d ti d0 Hnn Ht)
    as (recs & rownnz & rowadr & colind & _ & _ & _ & _ & Hspec).
  pose proof (floodFill_count_le _ _ _ _ _ _ Hspec) as Hle.
  assert (Htree : forall t x, rd ti t = Ok x -> x = -1 \/ 0 <= x < nisland d').
  { intros t x Hx. pose proof (rd_lt _ _ _ Hx) as Htr.
    destruct (Hrange t ltac:(lia)) as [Hm | Hr];
      rewrite (get_rd _ _ _ Hx) in *; [left; exact Hm | right; lia]. }
  assert (Hrows : forall r x, rd eisl r = Ok x -> 0 <= x < nisland d').
  { intros r x Hx. destruct (Hrow r x Hx) as (Hne & t & _ & Htx).
    destruct (Htree t x Htx) as [-> | Hr]; [contradiction | exact Hr]. }
  exists disl, eisl. repeat (split; [assumption|]).
  split; [|split; [|exact Hrows]].
  - split; [|lia].
    pose proof (rd_in_range eisl 0 ltac:(lia)) as H0.
    specialize (Hrows 0 _ H0). lia.
  - intros i x Hx. destruct (Hlab i x Hx) as (t & _ & Htx). exact (Htree t x Htx).
Qed.

Lemma mj_island_ranges_witness :
  let m := sample_model true in
  let d := data_friction_contact 1000 in
  exists d', mj_island m d = Ok d'
    /\ exists disl eisl,
         dof_island d' = Some disl /\ efc_island d' = Some eisl
         /\ length disl = Z.to_nat (nv m) /\ length eisl = Z.to_nat (nefc d)
         /\ 1 <= nisland d' <= ntree m
         /\ (forall i x, rd disl i = Ok x -> x = -1 \/ 0 <= x < nisland d')
         /\ (forall r x, rd eisl r = Ok x -> 0 <= x < nisland d').
Proof.
  intros m d.
  destruct (mj_island m d) as [d'|f] eqn:E; [|vm_compute in E; discriminate E].
  exists d'. split; [reflexivity|].
  apply (mj_island_ranges m d d' E).
  - reflexivity.
  - vm_compute in E. injection E as <-. vm_compute. discriminate.
  - reflexivity.
Defined.

(** Islands are made of whole trees: two DoFs of one tree have the same
    [dof_island], and a row has the [dof_island] of every DoF of the first
    tree of its Jacobian. *)
Theorem mj_island_whole_trees (m : mjModel) (d d' : mjData) :
  mj_island m d = Ok d' -> nefc d <> 0 -> dof_island d' <> None ->
  exists disl eisl,
    dof_island d' = Some disl /\ efc_island d' = Some eisl
    /\ (forall i j x, rd disl i = Ok x -> 0 <= j < nv m ->
          rd (dof_treeid m) j = rd (dof_treeid m) i -> rd disl j = Ok x)
    /\ (forall r x t i, rd eisl r = Ok x ->
          treeNext m d (-1) r None = Ok (t, None) ->
          0 <= i < nv m -> rd (dof_treeid m) i = Ok t -> rd disl i = Ok x).
Proof.
  intros H Hn Hp.
  destruct (mj_island_success m d d' H Hn (or_intror Hp))
    as (ti & d0 & disl & dnext & dadr & eisl & enext & eadr & Ht & Q1 & _ & _ & Q4 & _
        & _ & _ & _ & L1 & L2 & _ & _ & _ & Hlab & Hrow).
  exists disl, eisl. split; [exact Q1|]. split; [exact Q4|]. split.
  - intros i j x Hi Hj Hsame.
    destruct (Hlab i x Hi) as (t & Ht1 & Ht2).
    pose proof (rd_in_range disl j ltac:(lia)) as Hjr.
    destruct (Hlab j _ Hjr) as (t' & Ht1' & Ht2').
    assert (t' = t) by congruence. subst t'. congruence.
  - intros r x t i Hr Hfirst Hi Hit.
    destruct (Hrow r x Hr) as (_ & t' & Ht1 & Ht2).
    assert (t' = t) by congruence. subst t'.
    pose proof (rd_in_range disl i ltac:(lia)) as Hir.
    destruct (Hlab i _ Hir) as (t' & Ht1' & Ht2').
    assert (t' = t) by congruence. subst t'. congruence.
Qed.

Lemma mj_island_whole_trees_witness :
  let m := sample_model true in
  let d := data_joint_friction in
  exists d' disl, mj_island m d = Ok d' /\ dof_island d' = Some disl
    /\ rd disl 0 = Ok 0 /\ rd disl 1 = Ok 0.
Proof.
  intros m d.
  destruct (mj_island m d) as [d'|f] eqn:E; [|vm_compute in E; discriminate E].
  assert (Hn : nefc d <> 0) by discriminate.
  assert (Hp : dof_island d' <> None).
  { vm_compute in E. injection E as <-. vm_compute. discriminate. }
  destruct (mj_island_whole_trees m d d' E Hn Hp) as (disl & eisl & Q1 & _ & Hsame & _).
  exists d', disl. split; [reflexivity|]. split; [exact Q1|].
  assert (H0 : rd disl 0 = Ok 0).
  { vm_compute in E. injection E as <-. vm_compute in Q1. injection Q1 as <-.
    reflexivity. }
  split; [exact H0|].
  apply (Hsame 0 1 0 H0); [vm_compute; split; [discriminate | reflexivity] | reflexivity].
Defined.

(** The two sanity checks of [mj_island] passed: every island below
    [nisland] was met by the DoF sweep and by the row sweep. *)
Lemma mj_island_tables_nonempty (m : mjModel) (d1 d' : mjData) (ti : list Z) (mark : Z)
    (a1 a2 a3 a4 a5 a6 : list Z) :
  island_dofadr d1 = Some a1 -> dof_island d1 = Some a2 ->
  dof_islandnext d1 = Some a3 -> island_efcadr d1 = Some a4 ->
  efc_island d1 = Some a5 -> efc_islandnext d1 = Some a6 ->
  length a1 = Z.to_nat (nisland d1) -> length a2 = Z.to_nat (nv m) ->
  length a3 = Z.to_nat (nv m) -> length a4 = Z.to_nat (nisland d1) ->
  length a5 = Z.to_nat (nefc d1) -> length a6 = Z.to_nat (nefc d1) ->
  mj_island_tables m d1 ti mark = Ok d' ->
  exists disl eisl,
    dof_island d' = Some disl /\ efc_island d' = Some eisl
    /\ forall k, 0 <= k < nisland d1 ->
         positions k 0 disl <> [] /\ positions k 0 eisl <> [].
Proof.
  intros P1 P2 P3 P4 P5 P6 L1 L2 L3 L4 L5 L6 H.
  unfold mj_island_tables in H.
  inv_bind H. destruct a as [island_last d2].
  apply mj_stackAllocInt_Ok in E. destruct E as (Hk0 & Llast & ->).
  change (nisland (set_pstack d1 (pstack d1 + (nisland d1 + 1) / 2)))
    with (nisland d1) in H.
  change (nefc (set_pstack d1 (pstack d1 + (nisland d1 + 1) / 2)))
    with (nefc d1) in H.
  set (d2 := set_pstack d1 (pstack d1 + (nisland d1 + 1) / 2)) in *.
  inv_bind H. rename a into last0, E into Efill.
  change (dof_island d2) with (dof_island d1) in H.
  change (dof_islandnext d2) with (dof_islandnext d1) in H.
  change (island_dofadr d2) with (island_dofadr d1) in H.
  rewrite P1, P2, P3 in H. cbn [deref bind] in H.
  inv_bind H. rename a into s, E into Edof.
  destruct (Z.eqb_spec (sw_found s) (nisland d1)) as [Hfound | ?]; [|discriminate].
  cbn [negb] in H.
  inv_bind H. rename a into dof_next, E into Efin.
  set (d3 := set_island_dofadr (set_dof_islandnext (set_dof_island d2 _) _) _) in *.
  change (nisland d3) with (nisland d1) in H.
  change (efc_island d3) with (efc_island d1) in H.
  change (efc_islandnext d3) with (efc_islandnext d1) in H.
  change (island_efcadr d3) with (island_efcadr d1) in H.
  inv_bind H. rename a into last1, E into Efill1.
  rewrite P4, P5, P6 in H. cbn [deref bind] in H.
  inv_bind H. rename a into s2, E into Eefc.
  destruct (Z.eqb_spec (sw_found s2) (nisland d1)) as [Hfound2 | ?]; [|discriminate].
  cbn [negb] in H.
  inv_bind H. rename a into efc_next, E into Efin2.
  injection H as <-.
  apply fill_Ok in Efill. destruct Efill as (Fl & Fall & _).
  assert (Hinit : sweep_inv (length a1) (length a2) []
            {| sw_island := a2; sw_next := a3; sw_adr := a1; sw_last := last0;
               sw_found := 0 |}).
  { apply sweep_inv_init; [lia | lia |].
    intros k Hk. apply Fall. lia. }
  assert (Hn1 : (length (@nil Z) + Z.to_nat (nv m) = length a2)%nat) by (simpl; lia).
  destruct (island_dof_loop_inv m ti _ _ _ _ _ _ _ Hinit eq_refl Hn1 Edof)
    as (ext & Hinv & Hext & Hlab).
  simpl in Hinv.
  assert (Hisl : sw_island s = ext).
  { pose proof (inv_labs _ _ _ _ Hinv) as Ht.
    pose proof (inv_len_island _ _ _ _ Hinv) as Hl.
    rewrite take_ge in Ht by lia. exact Ht. }
  subst ext.
  apply fill_Ok in Efill1. destruct Efill1 as (Fl1 & Fall1 & _).
  pose proof (inv_len_last _ _ _ _ Hinv) as Llast1.
  assert (Hinit2 : sweep_inv (length a4) (length a5) []
            {| sw_island := a5; sw_next := a6; sw_adr := a4; sw_last := last1;
               sw_found := 0 |}).
  { apply sweep_inv_init; [lia | lia |].
    intros k Hk. apply Fall1. lia. }
  assert (Hn2 : (length (@nil Z) + Z.to_nat (nefc d1) = length a5)%nat) by (simpl; lia).
  destruct (island_efc_loop_inv m d3 ti _ _ _ _ _ _ _ Hinit2 eq_refl Hn2 Eefc)
    as (ext & Hinv2 & Hext2 & Hlab2).
  simpl in Hinv2.
  assert (Hisl2 : sw_island s2 = ext).
  { pose proof (inv_labs _ _ _ _ Hinv2) as Ht.
    pose proof (inv_len_island _ _ _ _ Hinv2) as Hl.
    rewrite take_ge in Ht by lia. exact Ht. }
  subst ext.
  exists (sw_island s), (sw_island s2).
  split; [reflexivity|]. split; [reflexivity|].
  intros k Hk. split.
  - apply (found_count_full (length a1)); [|lia].
    pose proof (inv_found _ _ _ _ Hinv) as Hf. lia.
  - apply (found_count_full (length a4)); [|lia].
    pose proof (inv_found _ _ _ _ Hinv2) as Hf. lia.
Qed.

(** No island is empty: after a call with constraints that allocated its
    outputs, every id below [nisland] is the [dof_island] of some DoF and
    the [efc_island] of some row. *)
Theorem mj_island_no_empty_island (m : mjModel) (d d' : mjData) (k : Z) :
  mj_island m d = Ok d' -> nefc d <> 0 -> dof_island d' <> None ->
  0 <= k < nisland d' ->
  exists disl eisl i r,
    dof_island d' = Some disl /\ efc_island d' = Some eisl
    /\ rd disl i = Ok k /\ rd eisl r = Ok k.
Proof.
  intros H Hn Hp Hk.
  destruct (mj_island_parts m d d' H Hn Hp)
    as (ti & d0 & ps & k0 & p & a1 & a2 & a3 & a4 & a5 & a6 & Ht & Hd0
        & L1 & L2 & L3 & L4 & L5 & L6 & Htab).
  set (d1 := with_islands d0 p (Some a1) (Some a2) (Some a3) (Some a4) (Some a5)
               (Some a6)) in *.
  assert (Hk1 : nisland d1 = k0) by (unfold d1; rewrite Hd0; reflexivity).
  assert (He1 : nefc d1 = nefc d) by (unfold d1; rewrite Hd0; reflexivity).
  pose proof (mj_island_tables_frame m d1 d' ti (pstack d) Htab)
    as (_ & _ & _ & _ & _ & Hni).
  destruct (mj_island_tables_nonempty m d1 d' ti (pstack d) a1 a2 a3 a4 a5 a6)
    as (disl & eisl & Q1 & Q2 & Hfull);
    try reflexivity; try (rewrite ?Hk1, ?He1; assumption).
  destruct (Hfull k ltac:(lia)) as [Hd He].
  destruct (positions k 0 disl) as [|i l1] eqn:Ed; [contradiction|].
  destruct (positions k 0 eisl) as [|r l2] eqn:Ee; [contradiction|].
  assert (Hi : i ∈ positions k 0 disl) by (rewrite Ed; apply list_elem_of_here).
  assert (Hr : r ∈ positions k 0 eisl) by (rewrite Ee; apply list_elem_of_here).
  apply elem_of_positions0 in Hi, Hr.
  exists disl, eisl, i, r. split; [exact Q1|]. split; [exact Q2|].
  split; apply rd_Ok; assumption.
Qed.

Lemma mj_island_no_empty_island_witness :
  let m := sample_model true in
  let d := data_friction_contact 1000 in
  exists d' disl eisl i r,
    mj_island m d = Ok d'
    /\ dof_island d' = Some disl /\ efc_island d' = Some eisl
    /\ rd disl i = Ok 1 /\ rd eisl r = Ok 1.
Proof.
  intros m d.
  destruct (mj_island m d) as [d'|f] eqn:E; [|vm_compute in E; discriminate E].
  assert (Hn : nefc d <> 0) by discriminate.
  assert (Hp : dof_island d' <> None).
  { vm_compute in E. injection E as <-. vm_compute. discriminate. }
  assert (Hk : 0 <= 1 < nisland d').
  { vm_compute in E. injection E as <-. vm_compute. split; [discriminate | reflexivity]. }
  destruct (mj_island_no_empty_island m d d' 1 E Hn Hp Hk)
    as (disl & eisl & i & r & Q).
  exists d', disl, eisl, i, r. split; [reflexivity | exact Q].
Defined.

(** ** findEdges *)

Lemma sample_model_treeid_nonneg (sparse : bool) (c t : Z) :
  rd (dof_treeid (sample_model sparse)) c = Ok t -> 0 <= t.
Proof.
  intros Hc. apply rd_Ok in Hc. destruct Hc as [_ Hc].
  change (dof_treeid (sample_model sparse)) with [0; 0; 1; 2] in Hc.
  destruct (Z.to_nat c) as [|[|[|[|n]]]]; cbn in Hc; try discriminate Hc;
    injection Hc as <-; lia.
Qed.

(** What [findEdges] hands over when it returns, given a counter per tree:
    at most [nedge_max] records, stored in an edge array of unchanged
    length; every record joins two trees of the model and is stored together
    with its flip; and [treenedge[t]] is the number of records that start at
    tree [t]. *)
Theorem findEdges_records (m : mjModel) (d : mjData) (treenedge edge : list Z)
    (nedge_max : Z) (treenedge' edge' : list Z) (nedge' : Z) :
  (forall c t, rd (dof_treeid m) c = Ok t -> 0 <= t) ->
  Z.of_nat (length treenedge) = ntree m ->
  findEdges m d treenedge edge nedge_max = Ok (treenedge', edge', nedge') ->
  0 <= nedge' /\ 2 * nedge' <= Z.of_nat (length edge') /\ length edge' = length edge
  /\ Z.of_nat (length treenedge') = ntree m
  /\ (forall a b, (a, b) ∈ edge_records edge' nedge' ->
        0 <= a < ntree m /\ 0 <= b < ntree m /\ (b, a) ∈ edge_records edge' nedge')
  /\ (forall t, 0 <= t < ntree m ->
        get treenedge' t = count_src t (edge_records edge' nedge')).
Proof.
  intros Hnn Hlen H.
  destruct (findEdges_Ok m d treenedge edge nedge_max _ Hnn Hlen H)
    as ([I1 I2 I3 I4 I5 I6] & _ & Ledge).
  cbn [fst snd] in *.
  split; [exact I1|]. split; [exact I2|]. split; [exact Ledge|]. split; [exact I3|].
  split; [|exact I4].
  intros a b Hab. destruct (I5 a b Hab) as [Ha Hb].
  split; [exact Ha|]. split; [exact Hb | exact (I6 a b Hab)].
Qed.

Lemma findEdges_records_witness :
  findEdges (sample_model true) (data_friction_contact 1000) [9; 9; 9]
    [9; 9; 9; 9; 9; 9] 3
  = Ok ([1; 1; 1], [2; 2; 0; 1; 1; 0], 3)
  /\ (forall t, 0 <= t < ntree (sample_model true) ->
        get [1; 1; 1] t = count_src t (edge_records [2; 2; 0; 1; 1; 0] 3)).
Proof.
  assert (H : findEdges (sample_model true) (data_friction_contact 1000) [9; 9; 9]
                [9; 9; 9; 9; 9; 9] 3
              = Ok ([1; 1; 1], [2; 2; 0; 1; 1; 0], 3)) by reflexivity.
  split; [exact H|].
  assert (Hlen : Z.of_nat (length [9; 9; 9]) = ntree (sample_model true)) by reflexivity.
  exact (proj2 (proj2 (proj2 (proj2 (proj2
    (findEdges_records _ _ _ _ _ _ _ _ (sample_model_treeid_nonneg true) Hlen H)))))).
Defined.

(** The scan loop of the generic case always ends: every iteration moves
    the cursor to a later position of the row, so the loop runs at most once
    per position, for every row and every content of the Jacobian. *)
Theorem findEdges_scan_terminates (m : mjModel) (d : mjData) (treenedge edge : list Z)
    (nedge_max : Z) :
  in_fuel (findEdges m d treenedge edge nedge_max).
Proof. apply in_fuel_findEdges. Qed.

(** ** Rows of a completed call *)

(** A call with constraints that allocated its outputs and returned had no
    empty row: the row sweep reads [tree_island] at the first tree of every
    row, unguarded, so that tree exists, lies in [0, ntree), has an entry in
    the row, and belongs to an island. *)
Theorem mj_island_rows_nonempty (m : mjModel) (d d' : mjData) (r : Z) :
  mj_island m d = Ok d' -> nefc d <> 0 -> dof_island d' <> None ->
  0 <= r < nefc d ->
  exists t eisl x,
    treeNext m d (-1) r None = Ok (t, None) /\ 0 <= t < ntree m /\ row_tree m d r t
    /\ efc_island d' = Some eisl /\ rd eisl r = Ok x /\ x <> -1.
Proof.
  intros H Hn Hp Hr.
  destruct (mj_island_success m d d' H Hn (or_intror Hp))
    as (ti & d0 & disl & dnext & dadr & eisl & enext & eadr & Ht & _ & _ & _ & Q4 & _
        & _ & _ & _ & _ & L2 & _ & _ & _ & _ & Hrow).
  destruct (mj_island_trees_length _ _ _ _ Ht) as [_ Hlen].
  pose proof (rd_in_range eisl r ltac:(lia)) as Hx.
  destruct (Hrow r _ Hx) as (Hne & t & Ht1 & Ht2).
  pose proof (rd_lt _ _ _ Ht2) as Htr.
  exists t, eisl, (get eisl r).
  split; [exact Ht1|]. split; [lia|].
  split; [apply treeNext_null_row_tree; [exact Ht1 | lia]|].
  split; [exact Q4|]. split; [exact Hx | exact Hne].
Qed.

Lemma mj_island_rows_nonempty_witness :
  let m := sample_model true in
  let d := data_friction_contact 1000 in
  exists d' t eisl x,
    mj_island m d = Ok d'
    /\ treeNext m d (-1) 1 None = Ok (t, None) /\ 0 <= t < ntree m /\ row_tree m d 1 t
    /\ efc_island d' = Some eisl /\ rd eisl 1 = Ok x /\ x <> -1.
Proof.
  intros m d.
  destruct (mj_island m d) as [d'|f] eqn:E; [|vm_compute in E; discriminate E].
  assert (Hn : nefc d <> 0) by discriminate.
  assert (Hp : dof_island d' <> None).
  { vm_compute in E. injection E as <-. vm_compute. discriminate. }
  assert (Hr : 0 <= 1 < nefc d) by (split; [discriminate | reflexivity]).
  destruct (mj_island_rows_nonempty m d d' 1 E Hn Hp Hr) as (t & eisl & x & Q).
  exists d', t, eisl, x. split; [reflexivity | exact Q].
Defined.

Lemma mj_island_in_fuel_witness :
  in_fuel (mj_island (sample_model true) (data_friction_contact 1000)).
Proof.
  apply mj_island_in_fuel. exact (sample_model_treeid_nonneg true).
Defined.
